(* ===== verification/_CoqProject ===== *)
-Q . S2P
Prelude.v
Heap.v
Bst.v
ServiceEntry.v
ServiceTable.v
Checksum.v
TimerQueue.v
TimerList.v
HashTable.v
SalHeader.v
DelayQueue.v
TcpCong.v
