(* ===== verification/Prelude.v ===== *)
(** * A verification of the Serval network stack

    Serval is an end-host stack that adds a service access layer (SAL) between
    the network and the transport layer: applications name services, and the
    stack resolves a service identifier to targets.  The sources are C, built
    as a kernel module or as a user-level process; the models follow the
    user-level build.

    ** The program and its parts

    - The service table ([src/stack/service.c]) maps prefixes of service
      identifiers to entries, each a list of target sets with priorities and
      weights.  It stores the entries in a bitstring trie
      ([src/stack/bst.c]) and looks them up by longest prefix.
    - The SAL ([src/stack/serval_sal.c]) resolves packets with the table.
      Packets that meet a DELAY rule wait in the delay queue
      ([src/stack/delay_queue.c]) for the verdict of a service router.
    - TCP ([src/stack/serval_tcp*.c]) runs above the SAL, with its own
      congestion control ([src/stack/serval_tcp_cong.c]).
    - The user-level stack emulates kernel services: checksums
      ([src/stack/userlevel/checksum.c]) and kernel timers
      ([src/stack/userlevel/timer.c]).
    - The daemons and libraries share the code of [src/common]: a heap, a
      timer queue with signals between threads, and a hash table.

    ** The files

    - [Prelude] (this file): machine integers with their wrap-around, the
      result type [res] and the state monad [M] of all models, arrays indexed
      by C integers, lemmas on lists.
    - [Heap]: [src/common/heap.c].  State [hstate]: the array of item pointers
      and the items.  Shows that insertion and removal keep the shape of the
      heap and move exactly the right items, and which item comes to the front;
      and that every removal from a slot without children, other than the last
      one, leaves a stale index behind.
    - [Bst]: [src/stack/bst.c].  State [bst]: nodes in a store with explicit
      allocation and release; the callbacks may fail or fault.  Shows that a
      lookup computes the longest match, that insertion and removal change the
      abstract map in one place and keep the trie well-formed, exactly when an
      insertion returns [NULL] (in use, no memory, or a callback that refuses,
      after which the object stays attached), that a release frees the nodes
      above the node that are of no use and no others; and that releasing a
      childless root reads freed memory.
    - [ServiceEntry]: the entries of [src/stack/service.c] — target sets,
      reference counts of sockets and devices, statistics, iterators.  Shows
      what adding, modifying and removing a target, and removing the targets of
      a device, do to the sets, their totals and the references; that weighted
      sampling always selects a target within the weights; and that an iterator
      visits the targets of the first set in order.
    - [ServiceTable]: the table of [src/stack/service.c] over [Bst] and
      [ServiceEntry].  Refines lookups and additions to the abstract map of the
      trie; a lookup for local sockets needs the sockets of the entries to be
      live, which additions preserve.
    - [Checksum]: [src/stack/userlevel/checksum.c] and
      [include/serval/checksum.h].  Relates the word-wise routines to the one's
      complement sum of the bytes modulo 65535.
    - [TimerQueue]: [src/common/timer.c] over [Heap], [src/common/signal.c] and
      the [timespec] macros, for a [long] of 32 or of 64 bits.  Shows where the
      arithmetic on times is exact, what adding a timer does, and that a signal
      is not lost.
    - [TimerList]: [src/stack/userlevel/timer.c]: the sorted list of timers, its
      lock and its pipe.
    - [HashTable]: [src/common/hashtable.c]: slots with locks and reference
      counted elements, for any type of keys.
    - [SalHeader]: the header of the SAL ([include/netinet/serval.h], the parser,
      the builder and the entry checks of [src/stack/serval_sal.c]).  Shows that
      an accepted header is well-formed, how far the parser reads, and that
      what a sender builds a receiver accepts.
    - [DelayQueue]: [src/stack/delay_queue.c]: the queue with the life of
      buffers and the reference counts of sockets.  The two functions of the SAL
      that get a released packet are parameters of which nothing is assumed.
    - [TcpCong]: [src/stack/serval_tcp_cong.c]: Reno with byte counting.

    Each file defines the state as a record, one definition per C function
    under the function's name (a leading [__] is dropped or replaced), then the
    invariant, the lemmas on single steps, the properties, and concrete states
    on which the properties are applied.

    ** How C is modelled

    A C integer is a [Z]; where the source assigns to a variable of fewer bits,
    the wrap-around is written ([u8], [u16], [u32], [u64], [s32], [s64]).
    Pointers are natural numbers into a store of the component; [NULL] is
    [None].  An access to memory that is not allocated, a second release of the
    same memory, a failed [BUG_ON] and a second acquisition of a held lock
    yield [Fault].  Signed arithmetic wraps around like unsigned arithmetic.
    Outcomes of the environment (allocation, clocks, system calls, identity of
    the thread) are arguments.  Calls through function
    pointers of the user are functions in the state or are recorded in a log.

    Loops that are not structural take fuel, computed from the state: a heap
    has at most [size] levels to walk, a trie lookup at most one step per bit, a
    purge one step per entry, a slow-start round fewer turns than its counter.
    Every theorem about such a loop states that it ends in [Done], so that the
    fuel is enough, or names the state in which it does not.

    ** What is not modelled

    The state machine of the SAL and its resolution of packets, the TCP
    machinery other than congestion control, sockets, packet buffers, the
    handlers of control messages and the control library are not modelled yet;
    of the SAL only the header is.  Planned, in this order: the state machine
    of the SAL, packet buffers, the round-trip estimator and window handling of
    TCP, the socket tables, the control handlers; and, for the service table, the accounting of
    references across the table and its iterators.  Input and output, threads
    other than through locks and signals, the kernel build, and the bindings,
    tools and tests are left out. *)
From Stdlib Require Export ZArith Lia.
From stdpp Require Export base numbers tactics fin_maps gmap list.

Create HintDb serval.
Create Rewrite HintDb wrap.

(** ** Machine integers

    A C integer is a [Z]; every assignment that the source makes to a
    [w]-bit variable is written with its wrap-around.  *)

Declare Scope cint_scope.
Delimit Scope cint_scope with cint.

Definition wrap (w z : Z) : Z := z mod 2 ^ w.
Definition swrap (w z : Z) : Z := (z + 2 ^ (w - 1)) mod 2 ^ w - 2 ^ (w - 1).

Abbreviation u8 := (wrap 8).
Abbreviation u16 := (wrap 16).
Abbreviation u32 := (wrap 32).
Abbreviation u64 := (wrap 64).
Abbreviation s32 := (swrap 32).
Abbreviation s64 := (swrap 64).

Notation "x +32 y" := (u32 (x + y)) (at level 50, left associativity) : cint_scope.
Notation "x -32 y" := (u32 (x - y)) (at level 50, left associativity) : cint_scope.
Notation "x *32 y" := (u32 (x * y)) (at level 40, left associativity) : cint_scope.

Lemma wrap_range w z : (0 <= w)%Z → (0 <= wrap w z < 2 ^ w)%Z.
Proof. intros Hw. apply Z.mod_pos_bound. lia. Qed.

Lemma wrap_le w z : (0 <= w)%Z → (0 <= z)%Z → (wrap w z <= z)%Z.
Proof. intros Hw Hz. apply Z.mod_le; lia. Qed.

Lemma wrap_small w z : (0 <= z < 2 ^ w)%Z → wrap w z = z.
Proof. apply Z.mod_small. Qed.

Lemma wrap_idemp w z : wrap w (wrap w z) = wrap w z.
Proof. apply Zmod_mod. Qed.

Lemma wrap_add_l w x y : wrap w (wrap w x + y) = wrap w (x + y).
Proof. apply Zplus_mod_idemp_l. Qed.

Lemma wrap_add_r w x y : wrap w (x + wrap w y) = wrap w (x + y).
Proof. apply Zplus_mod_idemp_r. Qed.

Lemma wrap_sub_l w x y : wrap w (wrap w x - y) = wrap w (x - y).
Proof. apply Zminus_mod_idemp_l. Qed.

Lemma swrap_small w z : (0 < w)%Z → (- 2 ^ (w - 1) <= z < 2 ^ (w - 1))%Z → swrap w z = z.
Proof.
  intros Hw Hz. unfold swrap. assert (2 ^ w = 2 * 2 ^ (w - 1))%Z.
  { rewrite <-Z.pow_succ_r by lia. f_equal. lia. }
  rewrite Z.mod_small by lia. lia.
Qed.

Lemma swrap_add_l w x y : swrap w (swrap w x + y) = swrap w (x + y).
Proof.
  unfold swrap. replace ((x + 2 ^ (w - 1)) mod 2 ^ w - 2 ^ (w - 1) + y + 2 ^ (w - 1))%Z
    with ((x + 2 ^ (w - 1)) mod 2 ^ w + y)%Z by lia.
  rewrite Zplus_mod_idemp_l. do 2 f_equal. lia.
Qed.

#[export] Hint Rewrite wrap_idemp wrap_add_l wrap_add_r wrap_sub_l swrap_add_l : wrap.

(** [u32_lia] closes linear goals after the wrap-arounds whose argument is
    in range have been removed. *)
Ltac wrap_simpl :=
  repeat match goal with
  | |- context [wrap ?w ?z] => rewrite (wrap_small w z) by lia
  | H : context [wrap ?w ?z] |- _ => rewrite (wrap_small w z) in H by lia
  end.
Ltac u32_lia := wrap_simpl; lia.

(** ** Computations

    [Done] is a normal result, [Fault] an access to memory that is not
    allocated (or not initialised), and [OutOfFuel] a loop cut off by its
    fuel, which every theorem about a loop excludes. *)

Inductive res (A : Type) : Type :=
| Done (a : A)
| Fault
| OutOfFuel.
Arguments Done {A} a.
Arguments Fault {A}.
Arguments OutOfFuel {A}.

(** State-passing computations of a component with state [S]. *)
Definition M (S A : Type) : Type := S → res (A * S).

#[export] Instance M_ret S : MRet (M S) := λ A a s, Done (a, s).
#[export] Instance M_bind S : MBind (M S) := λ A B f m s,
  match m s with
  | Done (a, s') => f a s'
  | Fault => Fault
  | OutOfFuel => OutOfFuel
  end.

Definition gets {S A} (f : S → A) : M S A := λ s, Done (f s, s).
Definition modify {S} (f : S → S) : M S unit := λ s, Done (tt, f s).
Definition fault {S A} : M S A := λ _, Fault.
Definition out_of_fuel {S A} : M S A := λ _, OutOfFuel.

(** [deref o] dereferences a pointer-like value: [None] faults. *)
Definition deref {S A} (o : option A) : M S A :=
  match o with Some a => mret a | None => fault end.

Lemma bind_done {S A B} (m : M S A) (f : A → M S B) s a s' :
  m s = Done (a, s') → (m ≫= f) s = f a s'.
Proof. intros H. unfold mbind, M_bind. by rewrite H. Qed.

Lemma deref_some {S A} (a : A) (s : S) : deref (Some a) s = Done (a, s).
Proof. done. Qed.

(** [mrun H] runs the first step of the monadic goal with the equation [H]. *)
Ltac mrun H := erewrite bind_done by (exact H || (apply H; eauto)).
Ltac munfold := unfold mbind, M_bind, mret, M_ret, gets, modify, fault, deref.

(** ** Arrays indexed by C integers *)

Definition zget {A} (l : list A) (i : Z) : option A :=
  if (0 <=? i)%Z then l !! Z.to_nat i else None.
Definition zset {A} (l : list A) (i : Z) (x : A) : list A :=
  <[Z.to_nat i := x]> l.

Lemma zget_zset_eq {A} (l : list A) i x :
  (0 <= i < Z.of_nat (length l))%Z → zget (zset l i x) i = Some x.
Proof.
  intros Hi. unfold zget, zset. destruct (Z.leb_spec 0 i); [|lia].
  apply list_lookup_insert_eq. lia.
Qed.

Lemma zget_zset_ne {A} (l : list A) i j x :
  (0 <= i)%Z → i ≠ j → zget (zset l i x) j = zget l j.
Proof.
  intros Hi Hne. unfold zget, zset. destruct (Z.leb_spec 0 j); [|done].
  apply list_lookup_insert_ne. lia.
Qed.

Lemma zset_length {A} (l : list A) i x : length (zset l i x) = length l.
Proof. apply length_insert. Qed.

Lemma zget_Some_range {A} (l : list A) i x :
  zget l i = Some x → (0 <= i < Z.of_nat (length l))%Z.
Proof.
  unfold zget. destruct (Z.leb_spec 0 i); [|done].
  intros ?%lookup_lt_Some. lia.
Qed.

(** ** Lists *)

(** Moving the element of position [j] to position [i] and then dropping
    position [j] keeps the elements other than the one at [i]. *)
Lemma delete_insert_Permutation {A} (l : list A) i j x :
  i ≠ j → i < length l → l !! j = Some x →
  delete j (<[i := x]> l) ≡ₚ delete i l.
Proof.
  intros Hne Hi Hj.
  assert (x :: delete j (<[i := x]> l) ≡ₚ x :: delete i l) as H;
    [|by apply Permutation_cons_inv in H].
  rewrite <-(delete_Permutation (<[i := x]> l) j x).
  - symmetry. rewrite insert_take_drop by done.
    rewrite delete_take_drop. apply Permutation_middle.
  - by rewrite list_lookup_insert_ne.
Qed.

Lemma insert_delete_Permutation {A} (l : list A) i x :
  i < length l → <[i := x]> l ≡ₚ x :: delete i l.
Proof.
  intros Hi. rewrite insert_take_drop by done. rewrite delete_take_drop.
  symmetry. apply Permutation_middle.
Qed.

Lemma swap_Permutation {A} (l : list A) i j x y :
  l !! i = Some x → l !! j = Some y → <[i := y]> (<[j := x]> l) ≡ₚ l.
Proof.
  intros Hi Hj. pose proof (lookup_lt_Some _ _ _ Hi). pose proof (lookup_lt_Some _ _ _ Hj).
  destruct (decide (i = j)) as [->|Hne].
  - simplify_eq. rewrite list_insert_insert_eq. by rewrite list_insert_id.
  - rewrite insert_delete_Permutation by (rewrite length_insert; lia).
    rewrite delete_insert_Permutation by done.
    symmetry. by apply delete_Permutation.
Qed.

Lemma alter_middle {A} (f : A → A) (l1 l2 : list A) x :
  alter f (length l1) (l1 ++ x :: l2) = l1 ++ f x :: l2.
Proof. by rewrite alter_app_r_alt, Nat.sub_diag. Qed.

Lemma suffix_tail {A} (l : list A) : suffix (tail l) l.
Proof. destruct l as [|x l]; [done|]. by exists [x]. Qed.
