(* ===== verification/Heap.v ===== *)
(** * The binary heap of [src/common/heap.c]

    A heap is an array of pointers to items; every item carries its own
    position ([index]) and an [active] mark.  Items are embedded in larger
    structures ([container_of]): an element here is the [heapitem] header
    together with the payload of type [T] that contains it, and the
    comparison function of the heap reads the payloads. *)
From S2P Require Import Prelude.

Local Open Scope Z_scope.
Local Open Scope cint_scope.

Definition HEAP_DEFAULT_SIZE : Z := 200.
Definition HEAP_DEFAULT_INCREASE_SIZE : Z := 100.

(** [struct heapitem]; [loc] is the address of an item. *)
Abbreviation loc := nat.

Record heapitem := Heapitem { index : Z; active : Z }.
Record elem (T : Type) := Elem { hi : heapitem; entry : T }.
Arguments Elem {T} hi entry.
Arguments hi {T} e.
Arguments entry {T} e.

(** [struct heap]: [map] has [max_size] slots; [None] is a slot that was
    never written. *)
Record heap (T : Type) := Heap {
  max_size : Z;
  size : Z;
  cmp : T → T → bool;
  map : list (option loc)
}.
Arguments Heap {T} max_size size cmp map.
Arguments max_size {T} h.
Arguments size {T} h.
Arguments cmp {T} h.
Arguments map {T} h.

(** The memory a heap operation works on: the heap and the items. *)
Record hstate (T : Type) := HState { hp : heap T; items : gmap loc (elem T) }.
Arguments HState {T} hp items.
Arguments hp {T} _.
Arguments items {T} _.

Section Heap.
Context {T : Type}.
Implicit Types (s : hstate T) (h : heap T).

Definition set_map (m : list (option loc)) s : hstate T :=
  HState (Heap (max_size (hp s)) (size (hp s)) (cmp (hp s)) m) (items s).
Definition set_size (n : Z) s : hstate T :=
  HState (Heap (max_size (hp s)) n (cmp (hp s)) (map (hp s))) (items s).

(** ** Memory accesses *)

(** [h->map[i]] *)
Definition map_get (i : Z) : M (hstate T) loc :=
  λ s, match zget (map (hp s)) i with
       | Some (Some p) => Done (p, s)
       | _ => Fault
       end.

(** [h->map[i] = p]; out of the array is a fault. *)
Definition map_set (i : Z) (p : loc) : M (hstate T) unit :=
  λ s, match zget (map (hp s)) i with
       | Some _ => Done (tt, set_map (zset (map (hp s)) i (Some p)) s)
       | None => Fault
       end.

Definition set_item (f : heapitem → heapitem) (p : loc) : M (hstate T) unit :=
  λ s, match items s !! p with
       | Some e => Done (tt, HState (hp s) (<[p := Elem (f (hi e)) (entry e)]> (items s)))
       | None => Fault
       end.

(** [p->index = i] and [p->active = a] *)
Definition set_index (p : loc) (i : Z) : M (hstate T) unit :=
  set_item (λ it, Heapitem i (active it)) p.
Definition set_active (p : loc) (a : Z) : M (hstate T) unit :=
  set_item (λ it, Heapitem (index it) a) p.

(** [h->cmp(p, q)] *)
Definition cmp_items (p q : loc) : M (hstate T) bool :=
  λ s, match items s !! p, items s !! q with
       | Some a, Some b => Done (cmp (hp s) (entry a) (entry b), s)
       | _, _ => Fault
       end.

(** ** Operations *)

(** [heap_init]: [ok] is the outcome of [malloc]. *)
Definition heap_init (ok : bool) (max : Z) (c : T → T → bool) (its : gmap loc (elem T))
  : Z * hstate T :=
  let max := if max =? 0 then HEAP_DEFAULT_SIZE else max in
  if ok then (0, HState (Heap max 0 c (replicate (Z.to_nat max) None)) its)
  else (-1, HState (Heap max 0 c []) its).

(** [heap_fini]: the map is freed and must not be read any more. *)
Definition heap_fini s : hstate T := set_map [] s.

Definition heap_empty h : bool := size h =? 0.
Definition heap_full h : bool := max_size h <=? size h.
Definition heap_size h : Z := size h.

(** [heap_front] reads slot 0 whatever the size is. *)
Definition heap_front : M (hstate T) loc := map_get 0.

(** The exchange of [heap_heapify]. *)
Definition heap_swap (i smallest : Z) : M (hstate T) unit :=
  tmp ← map_get smallest;
  p ← map_get i;
  _ ← map_set smallest p;
  _ ← set_index p smallest;
  _ ← map_set i tmp;
  set_index tmp i.

(** [cmp] is only called when the child is inside the heap ([&&]). *)
Definition heap_child_less (c i : Z) : M (hstate T) bool :=
  n ← gets (λ s, size (hp s));
  if c <? n then
    p ← map_get c; q ← map_get i; cmp_items p q
  else mret false.

Fixpoint heap_heapify (fuel : nat) (i : Z) : M (hstate T) unit :=
  match fuel with
  | O => out_of_fuel
  | S fuel =>
      let l := (2 *32 i) +32 1 in
      let r := l +32 1 in
      lt ← heap_child_less l i;
      let smallest := if (lt : bool) then l else i in
      lt' ← heap_child_less r smallest;
      let smallest := if (lt' : bool) then r else smallest in
      if smallest =? i then mret tt
      else _ ← heap_swap i smallest; heap_heapify fuel smallest
  end.

(** [heap_increase_size]: [malloc] of a larger map and [memcpy] of the first
    [size] slots.  The product is computed in [size_t]; the sum of the two
    sizes is an [unsigned int]. *)
Definition heap_increase_size (ok : bool) (increase : Z) : M (hstate T) Z :=
  λ s, let h := hp s in
       if ok then
         let max := max_size h +32 increase in
         let m := take (Z.to_nat (size h)) (map h) in
         if Z.of_nat (length m) <=? max then
           Done (0, HState (Heap max (size h) (cmp h)
                   (m ++ replicate (Z.to_nat max - length m) None)) (items s))
         else Fault
       else Done (-1, s).

(** The search for the place of the new item. *)
Fixpoint heap_insert_loop (fuel : nat) (item : loc) (i parent : Z) : M (hstate T) Z :=
  match fuel with
  | O => out_of_fuel
  | S fuel =>
      up ← (if 0 <? i then p ← map_get parent; cmp_items p item else mret false);
      if (up : bool) then
        p ← map_get parent;
        _ ← map_set i p;
        _ ← set_index p i;
        heap_insert_loop fuel item parent ((parent -32 1) / 2)
      else mret i
  end.

Definition heap_place (item : loc) : M (hstate T) Z :=
  i ← gets (λ s, size (hp s));
  i ← heap_insert_loop (S (Z.to_nat i)) item i ((i -32 1) / 2);
  _ ← map_set i item;
  _ ← set_index item i;
  _ ← modify (λ s, set_size (size (hp s) +32 1) s);
  _ ← set_active item 1;
  mret 0.

Definition heap_insert (ok : bool) (item : loc) : M (hstate T) Z :=
  full ← gets (λ s, heap_full (hp s));
  if (full : bool) then
    e ← heap_increase_size ok HEAP_DEFAULT_INCREASE_SIZE;
    if e =? 0 then heap_place item else mret (-1)
  else heap_place item.

Definition heap_remove (idx : Z) : M (hstate T) (option loc) :=
  n ← gets (λ s, size (hp s));
  if n <=? idx then mret None
  else
    item ← map_get idx;
    _ ← modify (λ s, set_size (size (hp s) -32 1) s);
    n ← gets (λ s, size (hp s));
    p ← map_get n;
    _ ← map_set idx p;
    _ ← heap_heapify (S (Z.to_nat n)) idx;
    _ ← set_index item 0;
    _ ← set_active item 0;
    mret (Some item).

Definition heap_remove_first : M (hstate T) (option loc) := heap_remove 0.

End Heap.

(** ** Invariant *)

Section Facts.
Context {T : Type}.
Implicit Types (s : hstate T) (i j k n : Z) (p q item : loc).

(** Slot [i] points to item [p], whose memory is [e]. *)
Definition slot s i p (e : elem T) : Prop :=
  zget (map (hp s)) i = Some (Some p) ∧ items s !! p = Some e.

(** Slot [i] holds an active item that knows its own position. *)
Definition settled s i : Prop :=
  ∃ p e, slot s i p e ∧ index (hi e) = i ∧ active (hi e) = 1.

Record heap_shape s : Prop := {
  shape_size : 0 <= size (hp s) <= max_size (hp s);
  shape_max : max_size (hp s) < 2 ^ 31;
  shape_len : Z.of_nat (length (map (hp s))) = max_size (hp s)
}.

Definition heap_wf s : Prop :=
  heap_shape s ∧ ∀ i, 0 <= i < size (hp s) → settled s i.

(** The payload that [h->cmp] sees at position [i]. *)
Definition payload s i : option T :=
  match zget (map (hp s)) i with
  | Some (Some p) => entry <$> items s !! p
  | _ => None
  end.

(** The items stored in the heap, by position. *)
Definition contents s : list (option loc) :=
  take (Z.to_nat (size (hp s))) (map (hp s)).

(** The order [heap_insert] establishes: no parent is [cmp]-below a child. *)
Definition insert_ordered s : Prop :=
  ∀ i a b, 0 < i < size (hp s) →
    payload s ((i - 1) / 2) = Some a → payload s i = Some b →
    cmp (hp s) a b = false.

Lemma slot_payload s i p e : slot s i p e → payload s i = Some (entry e).
Proof. intros [H1 H2]. unfold payload. by rewrite H1, H2. Qed.

Lemma slot_inj s i p e p' e' : slot s i p e → slot s i p' e' → p = p' ∧ e = e'.
Proof. intros [H1 H2] [H3 H4]. simplify_eq. by split. Qed.

(** ** One array write together with its index update *)

Definition put i p s : hstate T :=
  HState (Heap (max_size (hp s)) (size (hp s)) (cmp (hp s)) (zset (map (hp s)) i (Some p)))
         (alter (λ e, Elem (Heapitem i (active (hi e))) (entry e)) p (items s)).

Lemma put_exec i p s e :
  0 <= i < Z.of_nat (length (map (hp s))) → items s !! p = Some e →
  (_ ← map_set i p; set_index p i) s = Done (tt, put i p s).
Proof.
  intros Hi Hp. unfold map_set, set_index, set_item, mbind, M_bind.
  destruct (zget (map (hp s)) i) as [o|] eqn:Hz.
  - simpl. rewrite Hp. unfold put, set_map. simpl.
    do 3 f_equal. symmetry. rewrite <-(insert_id _ _ _ Hp) at 1.
    by rewrite alter_insert_eq.
  - unfold zget in Hz. destruct (Z.leb_spec 0 i); [|lia].
    apply lookup_ge_None in Hz. lia.
Qed.

Lemma put_run {B} i p s e (k : unit → M (hstate T) B) :
  0 <= i < Z.of_nat (length (map (hp s))) → items s !! p = Some e →
  (_ ← map_set i p; _ ← set_index p i; k tt) s = k tt (put i p s).
Proof.
  intros Hi Hp. pose proof (put_exec i p s e Hi Hp) as Hr.
  unfold mbind, M_bind in *. destruct (map_set i p s) as [[[] s1]| |]; [|done..].
  by rewrite Hr.
Qed.

Lemma put_slot_eq s i p e :
  0 <= i < Z.of_nat (length (map (hp s))) → items s !! p = Some e →
  slot (put i p s) i p (Elem (Heapitem i (active (hi e))) (entry e)).
Proof.
  intros Hi Hp. split; simpl; [by apply zget_zset_eq|].
  rewrite lookup_alter_eq, Hp. done.
Qed.

Lemma put_slot_ne s i p j q e :
  0 <= i → i ≠ j → p ≠ q → slot s j q e → slot (put i p s) j q e.
Proof.
  intros Hi Hij Hpq [H1 H2]. split; simpl.
  - by rewrite zget_zset_ne.
  - by rewrite lookup_alter_ne.
Qed.

Lemma put_settled_ne s i p j :
  0 <= i → i ≠ j → zget (map (hp s)) j ≠ Some (Some p) →
  settled s j → settled (put i p s) j.
Proof.
  intros Hi Hij Hp (q & e & Hs & Hx). exists q, e. split; [|done].
  apply put_slot_ne; auto. intros ->. by destruct Hs.
Qed.

(** A settled slot is the only one pointing to its item. *)
Lemma settled_unique s i j p :
  settled s i → settled s j → i ≠ j →
  zget (map (hp s)) i = Some (Some p) → zget (map (hp s)) j ≠ Some (Some p).
Proof.
  intros (pi & ei & [Hi1 Hi2] & Hi3 & _) (pj & ej & [Hj1 Hj2] & Hj3 & _) Hne H1 H2.
  by simplify_eq.
Qed.

Lemma put_payload s i p j :
  0 <= i < Z.of_nat (length (map (hp s))) →
  payload (put i p s) j =
    if decide (i = j) then entry <$> items s !! p else payload s j.
Proof.
  intros Hi. unfold payload, put; simpl.
  assert (Hent : ∀ q, entry <$> alter (λ e, Elem (Heapitem i (active (hi e))) (entry e)) p (items s) !! q
                = entry <$> items s !! q).
  { intros q. rewrite lookup_alter. case_decide; subst; [|done].
    by destruct (items s !! q). }
  case_decide as Hd; subst.
  - rewrite zget_zset_eq by done. apply Hent.
  - rewrite zget_zset_ne by lia.
    destruct (zget _ j) as [[q|]|]; [apply Hent|done|done].
Qed.

Lemma put_shape s i p : heap_shape s → heap_shape (put i p s).
Proof. intros [H1 H2 H3]. split; simpl; auto. by rewrite zset_length. Qed.

End Facts.

#[export] Hint Resolve put_shape slot_payload : serval.

(** A comparison function that orders the payloads the way [timespec_lt]
    does: a strict weak order. *)
Class StrictWeak {T} (lt : T → T → bool) : Prop := {
  sw_asym a b : lt a b = true → lt b a = false;
  sw_trans a b c : lt a b = true → lt b c = true → lt a c = true;
  sw_negtrans a b c : lt a b = false → lt b c = false → lt a c = false
}.

(** ** [heap_insert] *)

Section Insert.
Context {T : Type}.
Implicit Types (s : hstate T) (i j k n : Z) (p q item : loc).

(** The heap while [heap_insert] looks for a place: slot [i] is free. *)
Record hole s item i : Prop := {
  hole_shape : heap_shape s;
  hole_room : size (hp s) < max_size (hp s);
  hole_pos : 0 <= i <= size (hp s);
  hole_settled j : 0 <= j <= size (hp s) → j ≠ i →
    settled s j ∧ zget (map (hp s)) j ≠ Some (Some item)
}.

(** Writing [x] at the hole keeps every other pair ordered. *)
Record hole_ordered s (x : T) i : Prop := {
  ho_others j a b : 0 < j <= size (hp s) → j ≠ i → (j - 1) / 2 ≠ i →
    payload s ((j - 1) / 2) = Some a → payload s j = Some b → cmp (hp s) a b = false;
  ho_children j b : 0 < j <= size (hp s) → (j - 1) / 2 = i → payload s j = Some b →
    cmp (hp s) x b = false ∧
    (∀ c, 0 < i → payload s ((i - 1) / 2) = Some c → cmp (hp s) c b = false)
}.

Definition hole_done s (x : T) i : Prop :=
  ∀ c, 0 < i → payload s ((i - 1) / 2) = Some c → cmp (hp s) c x = false.

(** The items other than the one about to be written at [i]. *)
Definition hole_rest s i : list (option loc) :=
  delete (Z.to_nat i) (take (S (Z.to_nat (size (hp s)))) (map (hp s))).

Lemma hole_step s item i p ep :
  hole s item i → 0 < i → slot s ((i - 1) / 2) p ep →
  hole (put i p s) item ((i - 1) / 2) ∧
  hole_rest (put i p s) ((i - 1) / 2) ≡ₚ hole_rest s i.
Proof.
  intros [Hsh Hroom Hpos Hset] Hi Hp. destruct Hsh as [Hsz Hmax Hlen] eqn:E. clear E.
  assert (Hpar : 0 <= (i - 1) / 2 < i) by (Z.div_mod_to_equations; lia).
  split.
  - split; simpl; auto with serval; [lia|]. intros j Hj Hne.
    destruct (decide (j = i)) as [->|Hji].
    + split.
      * destruct (Hset ((i - 1) / 2)) as [(q & e & Hq & Hx & Ha) _]; [lia..|].
        destruct (slot_inj _ _ _ _ _ _ Hq Hp) as [-> ->].
        eexists p, _. split; [apply put_slot_eq; [lia|apply Hp]|done].
      * rewrite zget_zset_eq by lia. destruct (Hset ((i - 1) / 2)) as [_ Hn]; [lia..|].
        destruct Hp as [Hp _]. congruence.
    + destruct (Hset j) as [Hj1 Hj2]; [lia..|]. split.
      * apply put_settled_ne; auto; [lia|].
        eapply (settled_unique s ((i - 1) / 2)); try apply Hp; auto.
        apply Hset; lia.
      * by rewrite zget_zset_ne by lia.
  - unfold hole_rest; simpl. unfold zset. destruct Hp as [Hp _].
    rewrite take_insert_lt by lia.
    apply delete_insert_Permutation; [lia|rewrite length_take; lia|].
    unfold zget in Hp. rewrite lookup_take.
    rewrite decide_True by lia. by destruct (Z.leb_spec 0 ((i - 1) / 2)); [|lia].
Qed.

Lemma hole_ordered_step s item i p ep (x : T) `{!StrictWeak (cmp (hp s))} :
  hole s item i → hole_ordered s x i → 0 < i → slot s ((i - 1) / 2) p ep →
  cmp (hp s) (entry ep) x = true →
  hole_ordered (put i p s) x ((i - 1) / 2).
Proof.
  intros Hh [Hoth Hch] Hi Hp Hc. destruct (hole_shape _ _ _ Hh) as [Hsz Hmax Hlen].
  pose proof (hole_room _ _ _ Hh). pose proof (hole_pos _ _ _ Hh) as Hpos.
  pose proof (slot_payload _ _ _ _ Hp) as Hpp. destruct Hp as [_ Hp].
  assert (Hpar : 0 <= (i - 1) / 2 < i) by (Z.div_mod_to_equations; lia).
  set (par := (i - 1) / 2) in *.
  assert (Hgp : 0 < par → (par - 1) / 2 < par) by (intros; Z.div_mod_to_equations; lia).
  split; intros j; rewrite ?put_payload by lia.
  - intros a b Hj Hji Hjp. simpl in Hj.
    destruct (decide (i = j)) as [<-|Hne]; [done|].
    destruct (decide (i = (j - 1) / 2)) as [Heq|Hne2]; [|intros Ha Hb; apply (Hoth j a b); auto; simpl in *; lia].
    rewrite Hp; simpl. intros [= <-] Hb.
    destruct (Hch j b) as [_ H2]; [lia..|done|]. by apply H2.
  - intros b Hj Hjp. simpl in Hj. destruct (decide (i = j)) as [<-|Hne].
    + rewrite Hp; simpl. intros [= <-]. split; [by apply sw_asym|].
      intros c Hpos'. rewrite decide_False by lia.
      intros Hcc. apply (Hoth par c); auto; lia.
    + intros Hb. assert (Hcb : cmp (hp s) (entry ep) b = false).
      { apply (Hoth j); auto; [lia..|]. by rewrite Hjp. }
      split.
      * destruct (cmp (hp s) x b) eqn:Hxb; [|done]. change (cmp (hp s) x b = false).
        rewrite (sw_trans (entry ep) x b) in Hcb; congruence.
      * intros c Hpos'. rewrite decide_False by lia.
        intros Hcc. change (cmp (hp s) c b = false).
        apply (sw_negtrans c (entry ep) b); [|done].
        apply (Hoth par c); auto; lia.
Qed.

Lemma par32 i : 0 < i < 2 ^ 32 → (i -32 1) / 2 = (i - 1) / 2.
Proof. intros. by rewrite wrap_small by lia. Qed.

(** What the search leaves unchanged. *)
Definition same_heap s s' : Prop :=
  size (hp s') = size (hp s) ∧ max_size (hp s') = max_size (hp s) ∧
  cmp (hp s') = cmp (hp s) ∧
  ∀ q, entry <$> items s' !! q = entry <$> items s !! q.

Lemma put_same s i p : same_heap s (put i p s).
Proof.
  repeat split. intros q. simpl. rewrite lookup_alter. case_decide; subst; [|done].
  by destruct (items s !! q).
Qed.

Lemma same_trans s1 s2 s3 : same_heap s1 s2 → same_heap s2 s3 → same_heap s1 s3.
Proof.
  intros (A1 & A2 & A3 & A4) (B1 & B2 & B3 & B4). repeat split; try congruence.
Qed.

Lemma same_entry s s' item e : same_heap s s' → items s !! item = Some e →
  ∃ e', items s' !! item = Some e' ∧ entry e' = entry e.
Proof.
  intros (_ & _ & _ & H) Hi. specialize (H item). rewrite Hi in H.
  destruct (items s' !! item) as [e'|]; [|done]. exists e'. split; [done|].
  simpl in H. congruence.
Qed.

(** The search terminates within [size + 1] rounds, at a position where the
    new item can be written. *)
Lemma heap_insert_loop_spec fuel s item e i :
  hole s item i → items s !! item = Some e → i < Z.of_nat fuel →
  ∃ i' s', heap_insert_loop fuel item i ((i -32 1) / 2) s = Done (i', s') ∧
    hole s' item i' ∧ same_heap s s' ∧ hole_rest s' i' ≡ₚ hole_rest s i ∧
    (StrictWeak (cmp (hp s)) → hole_ordered s (entry e) i →
     hole_ordered s' (entry e) i' ∧ hole_done s' (entry e) i').
Proof.
  revert s e i. induction fuel as [|fuel IH]; intros s e i Hh He Hf.
  { destruct (hole_pos _ _ _ Hh). lia. }
  pose proof (hole_pos _ _ _ Hh) as Hpos. destruct (hole_shape _ _ _ Hh) as [Hsz Hmax Hlen].
  pose proof (hole_room _ _ _ Hh) as Hroom. simpl.
  destruct (Z.ltb_spec 0 i) as [Hi|Hi]; last first.
  { exists i, s. split; [done|]. split; [done|]. split; [by repeat split|]. split; [done|].
    intros _ Ho. split; [done|]. intros c Hc. lia. }
  rewrite par32 by lia.
  assert (Hpar : 0 <= (i - 1) / 2 < i) by (Z.div_mod_to_equations; lia).
  destruct (hole_settled _ _ _ Hh ((i - 1) / 2)) as [(p & ep & Hp & _) _]; [lia..|].
  assert (Hget : map_get ((i - 1) / 2) s = Done (p, s)).
  { unfold map_get. by rewrite (proj1 Hp). }
  assert (Hcmp : cmp_items p item s = Done (cmp (hp s) (entry ep) (entry e), s)).
  { unfold cmp_items. by rewrite (proj2 Hp), He. }
  assert (Hcond : (p0 ← map_get ((i - 1) / 2); cmp_items p0 item) s =
            Done (cmp (hp s) (entry ep) (entry e), s)).
  { by rewrite (bind_done _ _ _ _ _ Hget). }
  rewrite (bind_done _ _ _ _ _ Hcond).
  destruct (cmp (hp s) (entry ep) (entry e)) eqn:Hc; last first.
  { exists i, s. split; [done|]. split; [done|]. split; [by repeat split|]. split; [done|].
    intros _ Ho. split; [done|]. intros c _. rewrite (slot_payload _ _ _ _ Hp). congruence. }
  rewrite (bind_done _ _ _ _ _ Hget).
  rewrite (put_run i p s ep (λ _, heap_insert_loop fuel item ((i - 1) / 2) _)) by (try lia; apply Hp).
  destruct (hole_step s item i p ep) as [Hh' Hrest]; auto.
  destruct (same_entry _ _ _ _ (put_same s i p) He) as (e' & He' & Hent).
  destruct (IH (put i p s) e' ((i - 1) / 2)) as (i' & s' & Hrun & Hh'' & Hsame & Hrest' & Hord); auto; [lia|].
  exists i', s'. split; [done|]. split; [done|].
  split; [eapply same_trans; [apply put_same|done]|].
  split; [by rewrite Hrest'|]. rewrite Hent in Hord. intros Hsw Ho. apply Hord; [done|].
  by eapply hole_ordered_step.
Qed.

(** [item] is in none of the slots of the heap. *)
Definition not_in_heap s item : Prop :=
  ∀ j, 0 <= j < size (hp s) → zget (map (hp s)) j ≠ Some (Some item).

Lemma wf_hole s item :
  heap_wf s → size (hp s) < max_size (hp s) → not_in_heap s item →
  hole s item (size (hp s)).
Proof.
  intros [Hsh Hset] Hroom Hni. split; auto.
  - destruct Hsh; lia.
  - intros j Hj Hne. split; [apply Hset|apply Hni]; lia.
Qed.

Lemma wf_hole_ordered s (x : T) : heap_wf s → insert_ordered s → hole_ordered s x (size (hp s)).
Proof.
  intros [[Hsz _ _] _] Ho. split.
  - intros j a b Hj Hne Hpar. apply Ho. lia.
  - intros j b Hj Hpar. Z.div_mod_to_equations; lia.
Qed.

Lemma hole_rest_size s :
  heap_shape s → size (hp s) < max_size (hp s) → hole_rest s (size (hp s)) = contents s.
Proof.
  intros [Hsz Hmax Hlen] Hroom. unfold hole_rest, contents.
  rewrite delete_take_drop, take_take, drop_ge, app_nil_r by (rewrite length_take; lia).
  f_equal. lia.
Qed.

(** The heap once the item has been written into the hole. *)
Definition placed s item i : hstate T :=
  let s1 := put i item s in
  HState (Heap (max_size (hp s1)) (size (hp s1) + 1) (cmp (hp s1)) (map (hp s1)))
         (alter (λ e, Elem (Heapitem (index (hi e)) 1) (entry e)) item (items s1)).

Lemma placed_payload s item i j e :
  heap_shape s → 0 <= i < max_size (hp s) → items s !! item = Some e →
  payload (placed s item i) j = if decide (i = j) then Some (entry e) else payload s j.
Proof.
  intros [_ _ Hlen] Hi He. pose proof (put_payload s i item j) as Hp.
  rewrite He in Hp. simpl in Hp. rewrite <-Hp by lia.
  unfold payload, placed; simpl. destruct (zget _ j) as [[q|]|]; [|done..].
  rewrite !lookup_alter. repeat case_decide; subst; try done; by destruct (items s !! _).
Qed.

Lemma placed_entries s item i q :
  entry <$> items (placed s item i) !! q = entry <$> items s !! q.
Proof.
  simpl. rewrite !lookup_alter. repeat case_decide; subst; try done; by destruct (items s !! _).
Qed.

Lemma placed_wf s item i e :
  hole s item i → items s !! item = Some e → heap_wf (placed s item i).
Proof.
  intros [[Hsz Hmax Hlen] Hroom Hpos Hset] He. split.
  - split; simpl; [lia..|]. by rewrite zset_length.
  - intros j Hj. simpl in Hj. destruct (decide (i = j)) as [<-|Hne].
    + exists item, (Elem (Heapitem i 1) (entry e)). repeat split; simpl.
      * rewrite zget_zset_eq by lia. done.
      * by rewrite lookup_alter_eq, lookup_alter_eq, He.
    + destruct (Hset j) as [(q & eq & [Hq1 Hq2] & Hx & Ha) Hni]; [lia..|].
      exists q, eq. repeat split; simpl; auto.
      * by rewrite zget_zset_ne by lia.
      * rewrite !lookup_alter_ne; [done|congruence..].
Qed.

Lemma placed_contents s item i :
  hole s item i → contents (placed s item i) ≡ₚ Some item :: hole_rest s i.
Proof.
  intros [[Hsz Hmax Hlen] Hroom Hpos _]. unfold contents, placed, hole_rest; simpl.
  replace (Z.to_nat (size (hp s) + 1)) with (S (Z.to_nat (size (hp s)))) by lia.
  unfold zset. rewrite take_insert_lt by lia.
  apply insert_delete_Permutation. rewrite length_take. lia.
Qed.

Lemma placed_ordered s item i e :
  hole s item i → items s !! item = Some e →
  hole_ordered s (entry e) i → hole_done s (entry e) i →
  insert_ordered (placed s item i).
Proof.
  intros Hh He [Ho Hc] Hd j a b Hj. simpl in Hj.
  pose proof (hole_room _ _ _ Hh). pose proof (hole_pos _ _ _ Hh).
  assert ((j - 1) / 2 < j) by (Z.div_mod_to_equations; lia).
  rewrite !(placed_payload s item i _ e) by (solve [eauto using hole_shape] || lia).
  change (cmp (hp (placed s item i))) with (cmp (hp s)).
  destruct (decide (i = j)) as [<-|Hne].
  - rewrite decide_False by lia. intros Ha [= <-]. apply Hd; [lia|done].
  - destruct (decide (i = (j - 1) / 2)) as [Heq|Hne2].
    + intros [= <-] Hb. destruct (Hc j b) as [? _]; auto; lia.
    + intros Ha Hb. apply (Ho j); auto; lia.
Qed.

Lemma placed_run s item i e :
  hole s item i → items s !! item = Some e →
  (_ ← map_set i item; _ ← set_index item i;
   _ ← modify (λ s, set_size (size (hp s) +32 1) s); _ ← set_active item 1; mret 0) s
  = Done (0, placed s item i).
Proof.
  intros [[Hsz Hmax Hlen] Hroom Hpos _] He.
  rewrite (put_run i item s e (λ _, _ ← modify _; _ ← set_active item 1; mret 0)) by (auto; lia).
  unfold set_active, set_item, modify, mbind, M_bind, set_size; simpl.
  rewrite lookup_alter_eq, He; simpl. rewrite wrap_small by lia.
  unfold mret, M_ret, placed; simpl. do 3 f_equal.
  apply map_eq. intros q. rewrite lookup_insert, !lookup_alter.
  repeat case_decide; subst; try done; by rewrite He.
Qed.

Lemma heap_place_spec s item e :
  heap_wf s → size (hp s) < max_size (hp s) → items s !! item = Some e → not_in_heap s item →
  ∃ s', heap_place item s = Done (0, s') ∧ heap_wf s' ∧
    size (hp s') = size (hp s) + 1 ∧ cmp (hp s') = cmp (hp s) ∧
    contents s' ≡ₚ Some item :: contents s ∧
    max_size (hp s') = max_size (hp s) ∧
    (∀ q, entry <$> items s' !! q = entry <$> items s !! q) ∧
    (StrictWeak (cmp (hp s)) → insert_ordered s → insert_ordered s').
Proof.
  intros Hwf Hroom He Hni. pose proof (wf_hole _ _ Hwf Hroom Hni) as Hh.
  destruct (heap_insert_loop_spec (S (Z.to_nat (size (hp s)))) s item e (size (hp s)))
    as (i & s1 & Hrun & Hh1 & Hsame & Hrest & Hord); auto.
  { destruct Hwf as [[? _ _] _]. lia. }
  destruct (same_entry _ _ _ _ Hsame He) as (e1 & He1 & Hent).
  exists (placed s1 item i). split_and!.
  - unfold heap_place. rewrite (bind_done _ _ _ _ _ (eq_refl : gets _ s = Done (_, s))).
    rewrite (bind_done _ _ _ _ _ Hrun). by apply (placed_run s1 item i e1).
  - by eapply placed_wf.
  - simpl. by rewrite (proj1 Hsame).
  - simpl. by destruct Hsame as (_ & _ & ? & _).
  - rewrite placed_contents, Hrest, hole_rest_size by (done || apply Hwf). done.
  - simpl. by destruct Hsame as (_ & ? & _).
  - intros q. rewrite placed_entries. apply Hsame.
  - intros Hsw Ho. destruct (Hord Hsw) as [Ho1 Hd1]; [by apply wf_hole_ordered|].
    eapply placed_ordered; rewrite ?Hent; eauto.
Qed.

(** A larger map with the same first [size] slots. *)
Definition grown s inc : hstate T :=
  HState (Heap (max_size (hp s) + inc) (size (hp s)) (cmp (hp s))
            (contents s ++ replicate (Z.to_nat (max_size (hp s) + inc) - length (contents s)) None))
         (items s).

Lemma contents_length s : heap_shape s → length (contents s) = Z.to_nat (size (hp s)).
Proof. intros [? ? ?]. unfold contents. rewrite length_take. lia. Qed.

Lemma grown_get s inc j :
  heap_shape s → 0 <= j < size (hp s) → zget (map (hp (grown s inc))) j = zget (map (hp s)) j.
Proof.
  intros Hsh Hj. pose proof (contents_length _ Hsh). unfold zget, grown; simpl.
  destruct (Z.leb_spec 0 j); [|done]. rewrite lookup_app_l by lia.
  unfold contents. rewrite lookup_take, decide_True by lia. done.
Qed.

Lemma heap_increase_size_spec s inc :
  heap_wf s → 0 < inc → max_size (hp s) + inc < 2 ^ 31 →
  heap_increase_size true inc s = Done (0, grown s inc) ∧
  heap_wf (grown s inc) ∧ contents (grown s inc) = contents s ∧
  (insert_ordered s → insert_ordered (grown s inc)).
Proof.
  intros [Hsh Hset] Hinc Hmax. pose proof (contents_length _ Hsh) as Hlen.
  pose proof (grown_get s inc) as Hget. destruct Hsh as [Hsz Hm Hl] eqn:E; clear E. split_and!.
  - unfold heap_increase_size. simpl. fold (contents s). rewrite wrap_small by lia.
    rewrite (proj2 (Z.leb_le _ _)) by lia. done.
  - split.
    + split; simpl; [lia..|]. rewrite length_app, length_replicate. lia.
    + intros j Hj. simpl in Hj. destruct (Hset j Hj) as (p & e & [H1 H2] & H3).
      exists p, e. split; [|done]. split; [|done]. by rewrite Hget.
  - unfold contents at 1; simpl. rewrite <-Hlen, take_app_length. done.
  - intros Ho j a b Hj. simpl in Hj.
    assert (0 <= (j - 1) / 2 < j) by (Z.div_mod_to_equations; lia).
    unfold payload. rewrite !Hget by (done || lia). apply Ho; lia.
Qed.

Lemma grown_not_in s inc item : heap_shape s → not_in_heap s item → not_in_heap (grown s inc) item.
Proof. intros Hsh Hni j Hj. rewrite grown_get by done. by apply Hni. Qed.

Lemma heap_insert_spec ok s item e :
  heap_wf s → max_size (hp s) + HEAP_DEFAULT_INCREASE_SIZE < 2 ^ 31 →
  items s !! item = Some e → not_in_heap s item →
  if heap_full (hp s) && negb ok then heap_insert ok item s = Done (-1, s)
  else ∃ s', heap_insert ok item s = Done (0, s') ∧ heap_wf s' ∧
    size (hp s') = size (hp s) + 1 ∧ cmp (hp s') = cmp (hp s) ∧
    contents s' ≡ₚ Some item :: contents s ∧
    max_size (hp s') <= max_size (hp s) + HEAP_DEFAULT_INCREASE_SIZE ∧
    (∀ q, entry <$> items s' !! q = entry <$> items s !! q) ∧
    (StrictWeak (cmp (hp s)) → insert_ordered s → insert_ordered s').
Proof.
  intros Hwf Hmax He Hni. unfold heap_insert.
  rewrite (bind_done _ _ _ _ _ (eq_refl : gets _ s = Done (_, s))).
  destruct (heap_full (hp s)) eqn:Hfull; simpl.
  - destruct ok; simpl; [|done].
    destruct (heap_increase_size_spec s HEAP_DEFAULT_INCREASE_SIZE)
      as (Hrun & Hwf' & Hc & Ho); [done|done|done|].
    rewrite (bind_done _ _ _ _ _ Hrun). simpl.
    destruct (heap_place_spec (grown s HEAP_DEFAULT_INCREASE_SIZE) item e)
      as (s' & Hr & ? & ? & ? & Hc' & Hm & Hent & Ho'); auto.
    { simpl. destruct Hwf as [[? ? ?] _]. unfold HEAP_DEFAULT_INCREASE_SIZE. lia. }
    { apply grown_not_in; [apply Hwf|done]. }
    exists s'. rewrite Hc in Hc'. split_and!; auto. rewrite Hm. simpl. lia.
  - destruct (heap_place_spec s item e) as (s' & Hr & ? & ? & ? & Hc' & Hm & Hent & Ho'); auto.
    { unfold heap_full in Hfull. lia. }
    exists s'. split_and!; auto. unfold HEAP_DEFAULT_INCREASE_SIZE. lia.
Qed.

(** With the order [heap_insert] maintains, no item of the heap is
    [cmp]-above the one at the front. *)
Lemma insert_ordered_front s a : StrictWeak (cmp (hp s)) →
  heap_wf s → insert_ordered s → payload s 0 = Some a →
  ∀ i b, 0 <= i < size (hp s) → payload s i = Some b → cmp (hp s) a b = false.
Proof.
  intros Hsw [_ Hset] Ho Ha i b Hi. revert b.
  induction (Z.lt_wf 0 i) as [i _ IH]. intros b Hb. destruct (decide (i = 0)) as [->|Hne].
  - assert (a = b) as -> by congruence. destruct (cmp (hp s) b b) eqn:E; [|done].
    pose proof (sw_asym _ _ E). congruence.
  - assert (0 <= (i - 1) / 2 < i) by (Z.div_mod_to_equations; lia).
    destruct (Hset ((i - 1) / 2)) as (p & e & Hp & _); [lia|].
    apply slot_payload in Hp. apply (sw_negtrans a (entry e) b).
    + apply (IH ((i - 1) / 2)); auto; lia.
    + apply (Ho i); auto; lia.
Qed.
(** C22: [heap_insert] puts a new item into a well-formed heap.  It fails only
    when the map is full and cannot be enlarged, and then changes nothing;
    otherwise the heap stays well-formed (every slot below [size] holds an
    active item whose [index] is its own position), its items are the old
    ones and the new one, and the order [heap_insert] works with is kept. *)
Theorem heap_insert_correct ok s item e :
  heap_wf s → max_size (hp s) + HEAP_DEFAULT_INCREASE_SIZE < 2 ^ 31 →
  items s !! item = Some e → not_in_heap s item →
  if heap_full (hp s) && negb ok then heap_insert ok item s = Done (-1, s)
  else ∃ s', heap_insert ok item s = Done (0, s') ∧ heap_wf s' ∧
    size (hp s') = size (hp s) + 1 ∧ cmp (hp s') = cmp (hp s) ∧
    contents s' ≡ₚ Some item :: contents s ∧
    max_size (hp s') <= max_size (hp s) + HEAP_DEFAULT_INCREASE_SIZE ∧
    (∀ q, entry <$> items s' !! q = entry <$> items s !! q) ∧
    (StrictWeak (cmp (hp s)) → insert_ordered s → insert_ordered s').
Proof. by apply heap_insert_spec. Qed.
End Insert.

(** ** [heap_heapify] and [heap_remove] *)

Section Remove.
Context {T : Type}.
Implicit Types (s : hstate T) (i j k n : Z) (p q item : loc).

(** Every slot but [i] is settled; the item [p] at [i] may not know its
    position. *)
Definition settled_but s i p : Prop :=
  ∀ j, 0 <= j < size (hp s) → j ≠ i →
    settled s j ∧ zget (map (hp s)) j ≠ Some (Some p).

Definition swapped s i sm p q : hstate T := put i q (put sm p s).

Lemma map_get_run s i p e : slot s i p e → map_get i s = Done (p, s).
Proof. intros [H _]. unfold map_get. by rewrite H. Qed.

Lemma heap_swap_run s i sm p q ep eq :
  heap_shape s → slot s i p ep → slot s sm q eq →
  heap_swap i sm s = Done (tt, swapped s i sm p q).
Proof.
  intros Hsh Hp Hq. unfold heap_swap.
  rewrite (bind_done _ _ _ _ _ (map_get_run _ _ _ _ Hq)).
  rewrite (bind_done _ _ _ _ _ (map_get_run _ _ _ _ Hp)).
  rewrite (put_run sm p s ep (λ _, _ ← map_set i q; set_index q i));
    [|by eapply zget_Some_range, Hq|apply Hp].
  destruct (same_entry _ _ q eq (put_same s sm p)) as (e' & He' & _); [apply Hq|].
  apply (put_exec i q (put sm p s) e'); [|done].
  simpl. rewrite zset_length. by eapply zget_Some_range, Hp.
Qed.

Lemma swapped_settled s i sm p q ep :
  heap_shape s → 0 <= i < size (hp s) → 0 <= sm < size (hp s) → i ≠ sm →
  slot s i p ep → active (hi ep) = 1 → settled_but s i p →
  zget (map (hp s)) sm = Some (Some q) →
  ∀ j, 0 <= j < size (hp s) → settled (swapped s i sm p q) j.
Proof.
  intros [Hsz Hmax Hlen] Hi Hsm Hne Hp Hact Hset Hq j Hj. unfold swapped.
  destruct (Hset sm) as [(q' & eq & Hq' & Hxq & Haq) Hqp]; [lia..|].
  assert (q' = q) as -> by (destruct Hq'; congruence).
  assert (p ≠ q) by congruence.
  destruct (decide (j = i)) as [->|Hji].
  - eexists q, _. split; [apply put_slot_eq with (e := eq)|done].
    + simpl. rewrite zset_length. lia.
    + simpl. rewrite lookup_alter_ne by done. apply Hq'.
  - apply put_settled_ne; [lia|done|..].
    + simpl. destruct (decide (j = sm)) as [->|Hjs].
      * rewrite zget_zset_eq by lia. congruence.
      * rewrite zget_zset_ne by lia. eapply (settled_unique s sm); eauto.
        -- apply Hset; lia.
        -- apply Hset; lia.
    + destruct (decide (j = sm)) as [->|Hjs].
      * eexists p, _. split; [apply put_slot_eq with (e := ep); [lia|apply Hp]|done].
      * destruct (Hset j) as [Hsj Hnj]; [lia..|]. apply put_settled_ne; auto. lia.
Qed.

Lemma swapped_contents s i sm p q :
  heap_shape s → 0 <= i < size (hp s) → 0 <= sm < size (hp s) →
  zget (map (hp s)) i = Some (Some p) → zget (map (hp s)) sm = Some (Some q) →
  contents (swapped s i sm p q) ≡ₚ contents s.
Proof.
  intros [Hsz Hmax Hlen] Hi Hsm Hp Hq. unfold contents, swapped; simpl. unfold zset.
  rewrite !take_insert_lt by lia.
  unfold zget in Hp, Hq. destruct (Z.leb_spec 0 i); [|lia]. destruct (Z.leb_spec 0 sm); [|lia].
  apply swap_Permutation; rewrite lookup_take, decide_True by lia; done.
Qed.

Lemma heap_child_less_run s c i p ep :
  slot s i p ep → (c < size (hp s) → settled s c) →
  ∃ b, heap_child_less c i s = Done (b, s) ∧ (b = true → c < size (hp s)).
Proof.
  intros Hp Hc. unfold heap_child_less.
  rewrite (bind_done _ _ _ _ _ (eq_refl : gets _ s = Done (_, s))).
  destruct (Z.ltb_spec c (size (hp s))) as [Hlt|Hge]; [|by exists false].
  destruct (Hc Hlt) as (q & eq & Hq & _).
  exists (cmp (hp s) (entry eq) (entry ep)). split; [|done].
  rewrite (bind_done _ _ _ _ _ (map_get_run _ _ _ _ Hq)).
  rewrite (bind_done _ _ _ _ _ (map_get_run _ _ _ _ Hp)).
  unfold cmp_items. by rewrite (proj2 Hq), (proj2 Hp).
Qed.

(** The choice of the child to exchange with never leaves the heap. *)
Lemma heap_smallest_run {B} s i p ep (k : Z → M (hstate T) B) :
  heap_shape s → 0 <= i < size (hp s) → slot s i p ep → settled_but s i p →
  ∃ sm, (lt ← heap_child_less (2 *32 i +32 1) i;
         lt' ← heap_child_less (2 *32 i +32 1 +32 1) (if (lt : bool) then 2 *32 i +32 1 else i);
         k (if (lt' : bool) then 2 *32 i +32 1 +32 1 else if (lt : bool) then 2 *32 i +32 1 else i)) s
        = k sm s ∧ i <= sm < size (hp s).
Proof.
  intros [Hsz Hmax Hlen] Hi Hp Hset.
  replace (2 *32 i +32 1) with (2 * i + 1) by u32_lia.
  replace (2 * i + 1 +32 1) with (2 * i + 2) by u32_lia.
  assert (Hs : ∀ c, i < c < size (hp s) → settled s c) by (intros c Hc; apply Hset; lia).
  destruct (heap_child_less_run s (2 * i + 1) i p ep) as (b & Hb & Hb'); [done|auto with lia|].
  rewrite (bind_done _ _ _ _ _ Hb).
  set (m := if b then 2 * i + 1 else i).
  assert (i <= m < size (hp s)) as Hm by (subst m; destruct b; auto with lia).
  assert (∃ q eq, slot s m q eq) as (q & eq & Hq).
  { subst m. destruct b; [|eauto]. destruct (Hs (2 * i + 1)) as (? & ? & ? & _); [auto with lia|eauto]. }
  destruct (heap_child_less_run s (2 * i + 2) m q eq) as (b2 & Hb2 & Hb2'); [done|auto with lia|].
  rewrite (bind_done _ _ _ _ _ Hb2). eexists; split; [done|]. destruct b2; auto with lia.
Qed.

(** [heap_heapify] terminates within [size - i] rounds, only permutes the
    items, and either leaves the heap untouched or settles every slot. *)
Lemma heap_heapify_spec fuel s i p ep :
  heap_shape s → 0 <= i < size (hp s) → slot s i p ep → active (hi ep) = 1 →
  settled_but s i p → size (hp s) - i <= Z.of_nat fuel →
  ∃ s', heap_heapify fuel i s = Done (tt, s') ∧ heap_shape s' ∧ same_heap s s' ∧
    contents s' ≡ₚ contents s ∧
    (s' = s ∨ ∀ j, 0 <= j < size (hp s) → settled s' j).
Proof.
  revert s i p ep. induction fuel as [|fuel IH]; intros s i p ep Hsh Hi Hp Hact Hset Hf; [lia|].
  simpl.
  destruct (heap_smallest_run s i p ep
    (λ sm, if sm =? i then mret tt else _ ← heap_swap i sm; heap_heapify fuel sm))
    as (sm & Hrun & Hsm); auto.
  rewrite Hrun. clear Hrun. destruct (Z.eqb_spec sm i) as [Heq|Hne].
  { exists s. split_and!; auto. by repeat split. }
  destruct (Hset sm) as [(q & eq & Hq & _) _]; [lia..|].
  rewrite (bind_done _ _ _ _ _ (heap_swap_run _ _ _ _ _ _ _ Hsh Hp Hq)).
  assert (Hall := swapped_settled s i sm p q ep Hsh Hi ltac:(lia) ltac:(lia) Hp Hact Hset (proj1 Hq)).
  assert (Hsame : same_heap s (swapped s i sm p q)) by (eapply same_trans; apply put_same).
  destruct (Hall sm) as (p' & e' & Hp' & Hx' & Ha'); [lia|].
  destruct (IH (swapped s i sm p q) sm p' e') as (s' & Hr & Hsh' & Hsame' & Hc' & Hd'); auto.
  { by do 2 apply put_shape. }
  { simpl. lia. }
  { intros j Hj Hji. simpl in Hj. split; [by apply Hall|].
    eapply (settled_unique _ sm); eauto; [apply Hall; lia|apply Hp']. }
  { simpl. lia. }
  exists s'. split_and!; auto.
  - by eapply same_trans.
  - rewrite Hc'. apply swapped_contents; auto; [lia|apply Hp|apply Hq].
  - right. destruct Hd' as [->|Hd']; [done|]. apply Hd'.
Qed.

(** The heap after the last item has been moved to [idx], before
    [heap_heapify] runs. *)
Definition filled s idx p : hstate T :=
  HState (Heap (max_size (hp s)) (size (hp s) - 1) (cmp (hp s)) (zset (map (hp s)) idx (Some p)))
         (items s).

Lemma filled_slot s idx p j :
  heap_shape s → 0 <= idx < size (hp s) →
  zget (map (hp (filled s idx p))) j =
    if decide (idx = j) then Some (Some p) else zget (map (hp s)) j.
Proof.
  intros [? ? ?] Hi. simpl. case_decide; subst.
  - by rewrite zget_zset_eq by lia.
  - by rewrite zget_zset_ne by lia.
Qed.

Lemma filled_contents s idx p item :
  heap_shape s → 0 <= idx < size (hp s) →
  zget (map (hp s)) (size (hp s) - 1) = Some (Some p) →
  zget (map (hp s)) idx = Some (Some item) →
  contents s ≡ₚ Some item :: contents (filled s idx p).
Proof.
  intros [Hsz Hmax Hlen] Hi Hp Hitem. unfold contents; simpl. unfold zset.
  unfold zget in Hp, Hitem.
  destruct (Z.leb_spec 0 (size (hp s) - 1)); [|lia]. destruct (Z.leb_spec 0 idx); [|lia].
  set (n := Z.to_nat (size (hp s) - 1)) in *.
  replace (Z.to_nat (size (hp s))) with (S n) by lia. rewrite (take_S_r _ _ _ Hp).
  destruct (decide (Z.to_nat idx = n)) as [Heq|Hne].
  - rewrite take_insert_ge by lia. rewrite Heq in Hitem. simplify_eq.
    by rewrite Permutation_app_comm.
  - rewrite take_insert_lt by lia. rewrite insert_delete_Permutation by (rewrite length_take; lia).
    rewrite Permutation_app_comm. simpl. rewrite Permutation_swap. f_equiv.
    apply delete_Permutation. by rewrite lookup_take, decide_True by lia.
Qed.

(** The item leaves the heap: [item->index = 0; item->active = 0]. *)
Definition released s item : hstate T :=
  HState (hp s) (alter (λ e, Elem (Heapitem 0 0) (entry e)) item (items s)).

Lemma released_run s item e :
  items s !! item = Some e →
  (_ ← set_index item 0; _ ← set_active item 0; mret (Some item)) s
  = Done (Some item, released s item).
Proof.
  intros He. unfold set_index, set_active, set_item, mbind, M_bind. rewrite He; simpl.
  rewrite lookup_insert_eq. unfold mret, M_ret, released; simpl. do 3 f_equal.
  rewrite insert_insert_eq. apply map_eq. intros q.
  rewrite lookup_insert, lookup_alter. repeat case_decide; subst; try done. by rewrite He.
Qed.

Lemma released_settled s item j :
  zget (map (hp s)) j ≠ Some (Some item) → settled s j → settled (released s item) j.
Proof.
  intros Hn (p & e & [H1 H2] & H3). exists p, e. split; [|done]. split; [done|].
  simpl. rewrite lookup_alter_ne; [done|congruence].
Qed.

Lemma wf_last s : heap_wf s → 0 < size (hp s) → settled s (size (hp s) - 1).
Proof. intros [_ H] Hn. apply H. lia. Qed.

(** The slot of the moved item after [heap_remove]: either every slot knows
    its position again, or the item moved to [idx] still carries the
    position [last] it had before. *)
Definition stale s idx last : Prop :=
  ∃ p e, slot s idx p e ∧ index (hi e) = last ∧ active (hi e) = 1.

Lemma heap_remove_heapify s idx p :
  heap_wf s → 0 <= idx < size (hp s) → zget (map (hp s)) (size (hp s) - 1) = Some (Some p) →
  ∃ s', heap_heapify (S (Z.to_nat (size (hp s) - 1))) idx (filled s idx p) = Done (tt, s') ∧
    heap_shape s' ∧ same_heap (filled s idx p) s' ∧
    contents s' ≡ₚ contents (filled s idx p) ∧
    (∀ j, 0 <= j < size (hp s) - 1 → j ≠ idx → settled s' j) ∧
    (idx < size (hp s) - 1 → settled s' idx ∨ stale s' idx (size (hp s) - 1)).
Proof.
  intros Hwf Hi Hp. destruct (wf_last s Hwf) as (p' & e & He & Hx & Ha); [lia|].
  assert (p' = p) as -> by (destruct He; congruence).
  destruct Hwf as [Hsh Hset]. pose proof (filled_slot s idx p) as Hfs.
  assert (Hsh' : heap_shape (filled s idx p)).
  { destruct Hsh as [? ? ?]. split; simpl; [lia..|]. by rewrite zset_length. }
  assert (Hoth : ∀ j, 0 <= j < size (hp s) - 1 → j ≠ idx →
            settled (filled s idx p) j ∧ zget (map (hp (filled s idx p))) j ≠ Some (Some p)).
  { intros j Hj Hne. rewrite Hfs, decide_False by done. split.
    - destruct (Hset j) as (q & eq & [Hq1 Hq2] & Hq3); [lia|]. exists q, eq.
      split; [|done]. split; [|done]. by rewrite Hfs, decide_False by done.
    - eapply (settled_unique s (size (hp s) - 1)); [..|done]; [apply Hset; lia..|lia]. }
  destruct (decide (idx = size (hp s) - 1)) as [->|Hne].
  - exists (filled s (size (hp s) - 1) p). split_and!; auto; try lia.
    + simpl. destruct Hsh as [? ? ?]. unfold heap_child_less, mbind, M_bind, gets; simpl.
      wrap_simpl. rewrite !(proj2 (Z.ltb_ge _ _)) by lia. unfold mret, M_ret; simpl.
      rewrite (proj2 (Z.ltb_ge _ _)) by lia. by rewrite Z.eqb_refl.
    + by repeat split.
    + intros j Hj Hji. by apply Hoth.
  - assert (Hslot : slot (filled s idx p) idx p e).
    { split; [|apply He]. by rewrite Hfs, decide_True. }
    destruct (heap_heapify_spec (S (Z.to_nat (size (hp s) - 1))) (filled s idx p) idx p e)
      as (s' & Hr & Hsh2 & Hsame & Hc & Hd); auto; [simpl; lia|..].
    { simpl. lia. }
    exists s'. split_and!; auto.
    + intros j Hj Hji. destruct Hd as [->|Hd]; [by apply Hoth|]. by apply Hd.
    + intros _. destruct Hd as [->|Hd]; [|left; apply Hd; simpl; lia].
      right. exists p, e. by split_and!.
Qed.

Lemma heap_remove_spec s idx :
  heap_wf s → 0 <= idx →
  if size (hp s) <=? idx then heap_remove idx s = Done (None, s)
  else ∃ item s', heap_remove idx s = Done (Some item, s') ∧
    zget (map (hp s)) idx = Some (Some item) ∧
    heap_shape s' ∧ size (hp s') = size (hp s) - 1 ∧ cmp (hp s') = cmp (hp s) ∧
    contents s ≡ₚ Some item :: contents s' ∧
    (hi <$> items s' !! item) = Some (Heapitem 0 0) ∧
    (∀ j, 0 <= j < size (hp s') → j ≠ idx → settled s' j) ∧
    (idx < size (hp s') → settled s' idx ∨ stale s' idx (size (hp s'))).
Proof.
  intros Hwf Hi. unfold heap_remove.
  rewrite (bind_done _ _ _ _ _ (eq_refl : gets _ s = Done (_, s))).
  destruct (Z.leb_spec (size (hp s)) idx) as [Hge|Hlt]; [done|].
  destruct (proj2 Hwf idx) as (item & ei & Hitem & Hxi & Hai); [lia|].
  destruct (wf_last s Hwf) as (p & ep & Hp & Hxp & Hap); [lia|].
  destruct (heap_remove_heapify s idx p Hwf) as (s1 & Hrun & Hsh1 & Hsame & Hc & Hset & Hst); [lia|apply Hp|].
  pose proof Hwf as [[Hsz Hmax Hlen] _].
  pose proof (filled_contents s idx p item (proj1 Hwf) ltac:(lia) (proj1 Hp) (proj1 Hitem)) as Hperm.
  destruct (same_entry _ _ item ei Hsame (proj2 Hitem)) as (e1 & He1 & _).
  assert (Hni : ∀ j, 0 <= j < size (hp s) - 1 → zget (map (hp s1)) j ≠ Some (Some item)).
  { intros j Hj Hz.
    assert (Some item ∈ contents (filled s idx p)) as Hin.
    { rewrite <-Hc. apply list_elem_of_lookup. exists (Z.to_nat j). unfold contents, zget in *.
      rewrite (proj1 Hsame), lookup_take, decide_True by (simpl; lia).
      by destruct (Z.leb_spec 0 j); [|lia]. }
    apply list_elem_of_lookup in Hin as [k Hk]. unfold contents in Hk; simpl in Hk.
    pose proof (lookup_lt_Some _ _ _ Hk) as Hkl. rewrite length_take, zset_length in Hkl.
    assert (Hk' : zget (map (hp (filled s idx p))) (Z.of_nat k) = Some (Some item)).
    { unfold zget. rewrite (proj2 (Z.leb_le _ _)), Nat2Z.id by lia.
      rewrite lookup_take, decide_True in Hk by lia. done. }
    rewrite filled_slot in Hk' by (done || lia || apply Hwf). case_decide as Hd.
    - simplify_eq. destruct Hp, Hitem. simplify_eq. lia.
    - eapply (settled_unique s idx (Z.of_nat k)); [..|done|apply Hitem|done]; apply Hwf; lia. }
  exists item, (released s1 item).
  assert (Hsz1 : size (hp s1) = size (hp s) - 1) by (by rewrite (proj1 Hsame)).
  split_and!; try apply Hitem; simpl; rewrite ?Hsz1; auto.
  - rewrite (bind_done _ _ _ _ _ (map_get_run _ _ _ _ Hitem)).
    rewrite (bind_done _ _ _ _ _ (eq_refl : modify _ s = Done (_, _))).
    rewrite (bind_done _ _ _ _ _ (eq_refl : gets _ _ = Done (_, _))).
    cbn [hp size set_size]. rewrite (wrap_small 32 (size (hp s) - 1)) by lia.
    rewrite (bind_done _ _ _ p (set_size (size (hp s) - 1) s)) by (unfold map_get; simpl; by rewrite (proj1 Hp)).
    rewrite (bind_done _ _ _ tt (filled s idx p)).
    2:{ unfold map_set; simpl. by rewrite (proj1 Hitem). }
    rewrite (bind_done _ _ _ _ _ Hrun). by apply (released_run s1 item e1).
  - by destruct Hsh1; split.
  - by destruct Hsame as (_ & _ & -> & _).
  - rewrite Hperm. unfold contents at 2; simpl. by rewrite <-Hc.
  - by rewrite lookup_alter_eq, He1.
  - intros j Hj Hne. apply released_settled; auto.
  - intros Hj. destruct (Hst Hj) as [Hs|(q & e & [Hq1 Hq2] & Hq)].
    + left. apply released_settled; auto.
    + right. exists q, e. split; [|done]. split; [done|]. simpl.
      rewrite lookup_alter_ne; [done|]. intros ->. apply (Hni idx); [lia|done].
Qed.
(** C23: [heap_remove] takes exactly the item of slot [idx] out of a
    well-formed heap (and returns [NULL] without any change when there is no
    such slot): the others all stay, every slot other than [idx] still
    knows its position, and the removed item is inactive.  The item moved
    into slot [idx] may keep the [index] of the last slot. *)
Theorem heap_remove_correct s idx :
  heap_wf s → 0 <= idx →
  if size (hp s) <=? idx then heap_remove idx s = Done (None, s)
  else ∃ item s', heap_remove idx s = Done (Some item, s') ∧
    zget (map (hp s)) idx = Some (Some item) ∧
    heap_shape s' ∧ size (hp s') = size (hp s) - 1 ∧ cmp (hp s') = cmp (hp s) ∧
    contents s ≡ₚ Some item :: contents s' ∧
    (hi <$> items s' !! item) = Some (Heapitem 0 0) ∧
    (∀ j, 0 <= j < size (hp s') → j ≠ idx → settled s' j) ∧
    (idx < size (hp s') → settled s' idx ∨ stale s' idx (size (hp s'))).
Proof. by apply heap_remove_spec. Qed.

(** C36: [heap_remove] does not update the [index] of the item it moves into
    the freed slot.  Whenever it removes an item other than the last one whose
    slot has no children, the last item of the heap comes into that slot with
    its old index, which is the new size: it is still active, but removing it
    by its own index, the way [_timer_del] removes a timer, does nothing and
    returns [NULL]. *)
Theorem heap_remove_by_stale_index s idx :
  heap_wf s → 0 <= idx < size (hp s) - 1 → size (hp s) - 1 <= 2 * idx + 1 →
  ∃ item s' p e, heap_remove idx s = Done (Some item, s') ∧
    slot s (size (hp s) - 1) p e ∧ slot s' idx p e ∧ active (hi e) = 1 ∧
    index (hi e) = size (hp s') ∧ heap_remove (index (hi e)) s' = Done (None, s').
Proof.
  intros Hwf Hi Hleaf. destruct (proj2 Hwf idx) as (item & ei & Hitem & Hxi & Hai); [lia|].
  destruct (wf_last s Hwf) as (p & ep & Hp & Hxp & Hap); [lia|]. pose proof Hwf as [[Hsz Hmax Hlen] _].
  assert (Hne : item ≠ p). { intros ->. destruct Hitem, Hp. simplify_eq. lia. }
  assert (Hfy : heap_heapify (S (Z.to_nat (size (hp s) - 1))) idx (filled s idx p) = Done (tt, filled s idx p)).
  { simpl. unfold heap_child_less, mbind, M_bind, gets; simpl.
    wrap_simpl. rewrite !(proj2 (Z.ltb_ge _ _)) by lia. unfold mret, M_ret; simpl.
    rewrite (proj2 (Z.ltb_ge _ _)) by lia. by rewrite Z.eqb_refl. }
  exists item, (released (filled s idx p) item), p, ep. split_and!; auto.
  - unfold heap_remove. rewrite (bind_done _ _ _ _ _ (eq_refl : gets _ s = Done (_, s))).
    rewrite (proj2 (Z.leb_gt _ _)) by lia. rewrite (bind_done _ _ _ _ _ (map_get_run _ _ _ _ Hitem)).
    rewrite (bind_done _ _ _ _ _ (eq_refl : modify _ s = Done (_, _))).
    rewrite (bind_done _ _ _ _ _ (eq_refl : gets _ _ = Done (_, _))).
    cbn [hp size set_size]. rewrite (wrap_small 32 (size (hp s) - 1)) by lia.
    rewrite (bind_done _ _ _ p (set_size (size (hp s) - 1) s)) by (unfold map_get; simpl; by rewrite (proj1 Hp)).
    rewrite (bind_done _ _ _ tt (filled s idx p)) by (unfold map_set; simpl; by rewrite (proj1 Hitem)).
    rewrite (bind_done _ _ _ _ _ Hfy). eapply released_run. apply Hitem.
  - split; simpl; [apply zget_zset_eq; lia|]. rewrite lookup_alter_ne by done. apply Hp.
  - unfold heap_remove. rewrite (bind_done _ _ _ _ _ (eq_refl : gets _ _ = Done (_, _))). simpl.
    by rewrite (proj2 (Z.leb_le _ _)) by lia.
Qed.
End Remove.

(** ** Filling a heap *)

Section Fill.
Context {T : Type}.
Implicit Types (s : hstate T) (p q item : loc).

(** A sequence of insertions into the heap. *)
Fixpoint heap_insert_all (l : list loc) : M (hstate T) unit :=
  match l with
  | [] => mret tt
  | item :: l => _ ← heap_insert true item; heap_insert_all l
  end.

Lemma contents_not_in s item : heap_shape s → Some item ∉ contents s → not_in_heap s item.
Proof.
  intros [? ? ?] Hni j Hj Hz. apply Hni. apply list_elem_of_lookup. exists (Z.to_nat j).
  unfold contents. rewrite lookup_take, decide_True by lia. unfold zget in Hz.
  by destruct (Z.leb_spec 0 j); [|lia].
Qed.

Lemma heap_insert_all_spec l s : StrictWeak (cmp (hp s)) →
  heap_wf s → insert_ordered s → NoDup l →
  (∀ p, p ∈ l → is_Some (items s !! p) ∧ Some p ∉ contents s) →
  max_size (hp s) + HEAP_DEFAULT_INCREASE_SIZE * Z.of_nat (length l) < 2 ^ 31 →
  ∃ s', heap_insert_all l s = Done (tt, s') ∧ heap_wf s' ∧ insert_ordered s' ∧
    cmp (hp s') = cmp (hp s) ∧ contents s' ≡ₚ (Some <$> l) ++ contents s ∧
    size (hp s') = size (hp s) + Z.of_nat (length l) ∧
    ∀ q, entry <$> items s' !! q = entry <$> items s !! q.
Proof.
  revert s. induction l as [|item l IH]; intros s Hsw Hwf Ho Hnd Hl Hmax; simpl.
  { exists s. split_and!; auto. lia. }
  apply NoDup_cons in Hnd as [Hnin Hnd]. destruct (Hl item) as [[e He] Hni]; [set_solver|].
  pose proof (heap_insert_spec true s item e Hwf) as Hins.
  rewrite andb_false_r in Hins. unfold HEAP_DEFAULT_INCREASE_SIZE in *. simpl length in Hmax.
  destruct Hins as (s1 & Hr & Hwf1 & Hsz & Hcmp & Hc & Hm & Hent & Ho1); auto; [lia| |].
  { apply contents_not_in; [apply Hwf|done]. }
  rewrite (bind_done _ _ _ _ _ Hr).
  destruct (IH s1) as (s' & Hr' & Hwf' & Ho' & Hcmp' & Hc' & Hsz' & Hent'); auto.
  - by rewrite Hcmp.
  - intros q Hq. split.
    + specialize (Hent q). destruct (Hl q) as [[eq Heq] _]; [set_solver|].
      rewrite Heq in Hent. destruct (items s1 !! q); [done|discriminate].
    + rewrite Hc. intros [Heq|Hin]%elem_of_cons.
      * simplify_eq. done.
      * destruct (Hl q) as [_ Hn]; [set_solver|done].
  - lia.
  - exists s'. split_and!; auto.
    + congruence.
    + rewrite Hc', Hc. simpl. symmetry. apply Permutation_middle.
    + lia.
    + intros q. by rewrite Hent', Hent.
Qed.

Lemma heap_init_wf max c (its : gmap loc (elem T)) :
  0 <= max < 2 ^ 31 - 1 →
  heap_wf (heap_init true max c its).2 ∧ insert_ordered (heap_init true max c its).2.
Proof.
  intros Hm. unfold heap_init, HEAP_DEFAULT_SIZE. split.
  - split; simpl; [|lia]. destruct (Z.eqb_spec max 0); split; simpl; rewrite ?length_replicate; lia.
  - intros i a b. simpl. lia.
Qed.

(** C24: a heap filled by insertions only has at its front an item that no
    item of the heap is [cmp]-above of: [heap_front] is the greatest item
    for [cmp], not the least one. *)
Theorem heap_front_greatest l max c (its : gmap loc (elem T)) : StrictWeak c →
  0 <= max → NoDup l → l ≠ [] → (∀ p, p ∈ l → is_Some (its !! p)) →
  max + HEAP_DEFAULT_SIZE + HEAP_DEFAULT_INCREASE_SIZE * Z.of_nat (length l) < 2 ^ 31 - 1 →
  ∃ s front x, heap_insert_all l (heap_init true max c its).2 = Done (tt, s) ∧
    heap_front s = Done (front, s) ∧ front ∈ l ∧ entry <$> its !! front = Some x ∧
    ∀ q y, q ∈ l → entry <$> its !! q = Some y → c x y = false.
Proof.
  intros Hsw Hmax Hnd Hne Hl Hb. unfold HEAP_DEFAULT_SIZE, HEAP_DEFAULT_INCREASE_SIZE in Hb.
  destruct (heap_init_wf max c its) as [Hwf Ho]; [lia|].
  destruct (heap_insert_all_spec l (heap_init true max c its).2)
    as (s & Hr & Hwf' & Ho' & Hcmp & Hc & Hsz & Hent); auto.
  { intros p Hp. split; [by apply Hl|]. unfold contents. simpl. set_solver. }
  { simpl. unfold HEAP_DEFAULT_SIZE, HEAP_DEFAULT_INCREASE_SIZE. destruct (max =? 0); lia. }
  simpl in *. unfold contents in Hc at 2. simpl in Hc. rewrite app_nil_r in Hc.
  assert (Hin : ∀ q, q ∈ l ↔ Some q ∈ contents s).
  { intros q. rewrite Hc. rewrite list_elem_of_fmap. set_solver. }
  destruct (proj2 Hwf' 0) as (front & e & Hf & _). { destruct l; simpl in *; [done|lia]. }
  exists s, front, (entry e). split; [done|]. split; [by eapply map_get_run|].
  assert (Hpos : ∀ j, 0 <= j < size (hp s) → contents s !! Z.to_nat j = zget (map (hp s)) j).
  { intros j Hj. unfold contents, zget. rewrite lookup_take, decide_True by lia.
    by destruct (Z.leb_spec 0 j); [|lia]. }
  split_and!.
  - apply Hin, list_elem_of_lookup. exists (Z.to_nat 0). rewrite (Hpos 0) by (destruct l; simpl in *; [done|lia]).
    apply Hf.
  - rewrite <-Hent. by rewrite (proj2 Hf).
  - intros q y [k Hk]%Hin%list_elem_of_lookup Hy. pose proof (lookup_lt_Some _ _ _ Hk) as Hkl.
    rewrite contents_length in Hkl by apply Hwf'.
    rewrite <-(Nat2Z.id k), Hpos in Hk by lia.
    rewrite <-Hcmp. apply (insert_ordered_front s (entry e)) with (i := Z.of_nat k); auto.
    + by rewrite Hcmp.
    + by eapply slot_payload.
    + lia.
    + unfold payload. rewrite Hk, <-Hent in *. done.
Qed.
End Fill.

(** ** A concrete heap *)

#[export] Instance Zltb_strict_weak : StrictWeak Z.ltb.
Proof. split; intros; lia. Qed.

(** Three items with payloads 5, 3 and 4. *)
Definition demo_items : gmap loc (elem Z) :=
  {[ 1%nat := Elem (Heapitem 0 0) 5; 2%nat := Elem (Heapitem 0 0) 3; 3%nat := Elem (Heapitem 0 0) 4 ]}.
Definition demo_empty : hstate Z := (heap_init true 4 Z.ltb demo_items).2.
Definition demo_heap : hstate Z :=
  match heap_insert_all [1%nat; 2%nat; 3%nat] demo_empty with Done (_, s) => s | _ => demo_empty end.

Lemma demo_empty_wf : heap_wf demo_empty.
Proof. apply heap_init_wf. lia. Qed.

Lemma demo_heap_wf : heap_wf demo_heap.
Proof.
  split; [split; vm_compute; split; congruence || done|].
  intros i Hi. change (size (hp demo_heap)) with 3 in Hi.
  assert (i = 0 ∨ i = 1 ∨ i = 2) as [->|[->| ->]] by lia;
    [exists 1%nat|exists 2%nat|exists 3%nat]; eexists; split_and!; vm_compute; done.
Qed.

Lemma heap_insert_correct_witness :
  ∃ s', heap_insert true 1%nat demo_empty = Done (0, s') ∧ heap_wf s'.
Proof.
  destruct (heap_insert_correct true demo_empty 1%nat (Elem (Heapitem 0 0) 5))
    as (s' & H1 & H2 & _).
  - apply demo_empty_wf.
  - vm_compute. done.
  - reflexivity.
  - intros j Hj. change (size (hp demo_empty)) with 0 in Hj. lia.
  - by exists s'.
Defined.

Lemma heap_remove_correct_witness :
  ∃ item s', heap_remove 0 demo_heap = Done (Some item, s') ∧ size (hp s') = 2.
Proof.
  destruct (heap_remove_correct demo_heap 0) as (item & s' & H1 & _ & _ & H2 & _).
  - apply demo_heap_wf.
  - lia.
  - exists item, s'. by rewrite H2.
Defined.

Lemma heap_front_greatest_witness :
  ∃ s front x, heap_insert_all [1%nat; 2%nat; 3%nat] demo_empty = Done (tt, s) ∧
    heap_front s = Done (front, s) ∧ entry <$> demo_items !! front = Some x ∧ (x <? 4) = false.
Proof.
  destruct (heap_front_greatest [1%nat; 2%nat; 3%nat] 4 Z.ltb demo_items _)
    as (s & front & x & H1 & H2 & _ & H3 & H4).
  - lia.
  - repeat constructor; set_solver.
  - done.
  - intros p Hp. assert (p = 1 ∨ p = 2 ∨ p = 3)%nat as [->|[->| ->]] by set_solver; by eexists.
  - vm_compute. done.
  - exists s, front, x. split_and!; auto. apply (H4 3%nat); [set_solver|reflexivity].
Defined.

Lemma heap_remove_by_stale_index_witness :
  ∃ item s' p e, heap_remove 1 demo_heap = Done (Some item, s') ∧ slot s' 1 p e ∧
    heap_remove (index (hi e)) s' = Done (None, s').
Proof.
  destruct (heap_remove_by_stale_index demo_heap 1) as (item & s' & p & e & H1 & _ & H2 & _ & _ & H3).
  - apply demo_heap_wf.
  - change (size (hp demo_heap)) with 3. lia.
  - change (size (hp demo_heap)) with 3. lia.
  - exists item, s', p, e. by split_and!.
Defined.
