(* ===== verification/Bst.v ===== *)
(** * The bitwise trie of [src/stack/bst.c]

    Nodes live at addresses in a store; a node points to its parent and to
    its two children, a root points to itself.  The trie is parametrised by
    the type [P] of the objects attached to nodes ([private]) and by the
    state [W] of its client, which the callbacks of [struct bst_node_ops]
    work on.

    Every access to a node goes through the store, so a use of freed memory
    is a [Fault]; allocations fail when the [oom] oracle says so. *)
From S2P Require Import Prelude.

Local Open Scope nat_scope.

Abbreviation loc := nat.

(** ** Bit strings *)

Definition PREFIX_BYTE (bits : nat) : nat := bits / 8.
Definition PREFIX_SIZE (bits : nat) : nat :=
  PREFIX_BYTE bits + (if decide (bits mod 8 = 0) then 0 else 1).

(** [CHECK_BIT]; [None] is a read past the end of the buffer. *)
Definition CHECK_BIT (prefix : list Z) (bitoffset : nat) : option bool :=
  byte ← prefix !! PREFIX_BYTE bitoffset;
  Some (negb (Z.land byte (Z.shiftl 1 (7 - Z.of_nat (bitoffset mod 8))) =? 0)%Z).

(** The loop that computes the mask of the last, partly used byte. *)
Definition endmask (bits : nat) : Z :=
  foldl (λ m i, Z.lor m (Z.shiftl 1 (7 - Z.of_nat i))) 0%Z (seq 0 (bits mod 8)).

Definition mask_last (bits : nat) (bytes : list Z) : list Z :=
  if decide (bits mod 8 = 0) then bytes
  else alter (λ b, Z.land b (endmask bits)) (length bytes - 1) bytes.

Section Bst.
Context {P W : Type}.

(** [struct bst_node_ops]: the callbacks see the node through its
    [private] field. *)
Record bst_node_ops := BstNodeOps {
  ops_init : option (option P → W → Z * W);
  ops_destroy : option (option P → W → W)
}.

(** [struct bst_node]; [tree] is left out, all nodes belong to the one tree
    of the state. *)
Record bst_node := BstNode {
  parent : loc;
  left : option loc;
  right : option loc;
  ops : option bst_node_ops;
  private : option P;
  prefix_bits : nat;
  prefix_size : nat;
  prefix : list Z
}.

(** [struct bst] and the memory its operations work on. *)
Record bst := Bst {
  nodes : gmap loc bst_node;
  root : option loc;
  entries : Z;
  next_loc : loc;
  oom : list bool;
  world : W
}.

Implicit Types (s : bst) (n : bst_node) (p q : loc).

Definition set_nodes (f : gmap loc bst_node → gmap loc bst_node) s : bst :=
  Bst (f (nodes s)) (root s) (entries s) (next_loc s) (oom s) (world s).
Definition set_root (r : option loc) s : bst :=
  Bst (nodes s) r (entries s) (next_loc s) (oom s) (world s).
Definition set_entries (e : Z) s : bst :=
  Bst (nodes s) (root s) e (next_loc s) (oom s) (world s).
Definition set_world (w : W) s : bst :=
  Bst (nodes s) (root s) (entries s) (next_loc s) (oom s) w.

Definition set_child (b : bool) (c : option loc) n : bst_node :=
  if b then BstNode (parent n) (left n) c (ops n) (private n) (prefix_bits n) (prefix_size n) (prefix n)
  else BstNode (parent n) c (right n) (ops n) (private n) (prefix_bits n) (prefix_size n) (prefix n).
Definition set_data (o : option bst_node_ops) (v : option P) n : bst_node :=
  BstNode (parent n) (left n) (right n) o v (prefix_bits n) (prefix_size n) (prefix n).

Definition child (b : bool) n : option loc := if b then right n else left n.

(** ** Memory *)

Definition load (p : loc) : M bst bst_node :=
  λ s, match nodes s !! p with Some n => Done (n, s) | None => Fault end.

Definition store (p : loc) (f : bst_node → bst_node) : M bst unit :=
  λ s, match nodes s !! p with
       | Some n => Done (tt, set_nodes <[p := f n]> s)
       | None => Fault
       end.

(** [MALLOC] followed by the initialisation of the node. *)
Definition MALLOC (n : bst_node) : M bst (option loc) :=
  λ s, match oom s with
       | true :: o => Done (None, Bst (nodes s) (root s) (entries s) (next_loc s) o (world s))
       | o => Done (Some (next_loc s),
                Bst (<[next_loc s := n]> (nodes s)) (root s) (entries s) (S (next_loc s))
                  (tail o) (world s))
       end.

Definition kfree (p : loc) : M bst unit :=
  λ s, match nodes s !! p with
       | Some _ => Done (tt, set_nodes (delete p) s)
       | None => Fault
       end.

(** ** Accessors *)

Definition bst_node_get_prefix n : list Z := prefix n.
Definition bst_node_get_prefix_size n : nat := PREFIX_SIZE (prefix_bits n).
Definition bst_node_get_prefix_bits n : nat := prefix_bits n.
Definition bst_node_get_private n : option P := private n.

(** ** Longest prefix lookup *)

(** The callback only reads; what it does wrong while reading is passed on. *)
Definition match_fn : Type := option (P → W → res bool).

Definition call_match (f : match_fn) (v : P) (w : W) : res bool :=
  match f with None => Done true | Some g => g v w end.

Definition matches (f : match_fn) n : M bst bool :=
  match private n with
  | None => mret false
  | Some v => λ s, match call_match f v (world s) with
                   | Done b => Done (b, s)
                   | Fault => Fault
                   | OutOfFuel => OutOfFuel
                   end
  end.

Fixpoint bst_node_find_longest_prefix (fuel : nat) (p : loc) (prev : option loc)
    (key : list Z) (bits : nat) (f : match_fn) : M bst (loc * option loc) :=
  match fuel with
  | O => out_of_fuel
  | S fuel =>
      n ← load p;
      m ← matches f n;
      let prev := if (m : bool) then Some p else prev in
      if decide (bits = 0 ∨ prefix_bits n = bits) then mret (p, prev)
      else
        b ← deref (CHECK_BIT key (prefix_bits n));
        match child b n with
        | Some c => bst_node_find_longest_prefix fuel c prev key bits f
        | None => mret (p, prev)
        end
  end.

Definition bst_find_longest_prefix_match (key : list Z) (bits : nat) (f : match_fn)
  : M bst (option loc) :=
  r ← gets root;
  match r with
  | None => mret None
  | Some r =>
      '(p, prev) ← bst_node_find_longest_prefix (S bits) r None key bits f;
      n ← load p;
      m ← matches f n;
      mret (if (m : bool) then Some p else prev)
  end.

Definition bst_find_longest_prefix (key : list Z) (bits : nat) : M bst (option loc) :=
  bst_find_longest_prefix_match key bits None.

(** ** Removal *)

Definition bst_node_free (p : loc) : M bst unit :=
  n ← load p;
  _ ← (if decide (parent n = p) then modify (set_root None)
       else
         q ← load (parent n);
         if decide (right q = Some p) then store (parent n) (set_child true None)
         else store (parent n) (set_child false None));
  kfree p.

Definition bst_node_orphan (p : loc) : M bst unit :=
  n ← load p;
  match private n with
  | None => mret tt
  | Some v =>
      _ ← modify (λ s, set_entries (u32 (entries s - 1)) s);
      _ ← match ops n with
          | Some o => match ops_destroy o with
                      | Some d => modify (λ s, set_world (d (Some v) (world s)) s)
                      | None => mret tt
                      end
          | None => mret tt
          end;
      store p (set_data None None)
  end.

(** Freeing the ancestors that have become useless. *)
Fixpoint bst_release_parents (fuel : nat) (p : loc) : M bst unit :=
  match fuel with
  | O => out_of_fuel
  | S fuel =>
      n ← load p;
      if decide (private n = None ∧ left n = None ∧ right n = None ∧ p ≠ parent n) then
        _ ← bst_node_free p;
        bst_release_parents fuel (parent n)
      else mret tt
  end.

Definition bst_node_release (p : loc) : M bst unit :=
  _ ← bst_node_orphan p;
  n ← load p;
  if decide (left n = None ∧ right n = None) then
    _ ← bst_node_free p;
    bst_release_parents (S (prefix_bits n)) (parent n)
  else mret tt.

(** [__bst_destroy_subtree] walks down to a leaf, frees it and goes back up;
    a node without right child gets its left child moved to the right. *)
Fixpoint bst_destroy_subtree (fuel : nat) (top p : loc) : M bst unit :=
  match fuel with
  | O => out_of_fuel
  | S fuel =>
      n ← load p;
      if decide (p = top ∧ left n = None ∧ right n = None) then
        _ ← bst_node_orphan p; bst_node_free p
      else
        match right n, left n with
        | None, None =>
            _ ← bst_node_orphan p;
            _ ← bst_node_free p;
            bst_destroy_subtree fuel top (parent n)
        | None, Some l =>
            _ ← store p (λ n, set_child false None (set_child true (Some l) n));
            bst_destroy_subtree fuel top p
        | Some r, _ => bst_destroy_subtree fuel top r
        end
  end.

(** A node is entered, has its left child moved and is left at most once
    each. *)
Definition bst_destroy : M bst unit :=
  e ← gets entries;
  if (0 <? e)%Z then
    r ← gets root;
    r ← deref r;
    k ← gets (λ s, size (nodes s));
    _ ← bst_destroy_subtree (3 * k + 1) r r;
    _ ← modify (set_root None);
    modify (set_entries 0)
  else mret tt.

(** ** Traversal with an explicit stack *)

(** The loop of [bst_subtree_func]; the children are read before the
    callback, which may free the node. *)
Fixpoint bst_subtree_loop (fuel : nat) (stack : list loc) (func : loc → M bst Z) (count : Z)
  : M bst Z :=
  match fuel with
  | O => out_of_fuel
  | S fuel =>
      match stack with
      | [] => mret count
      | p :: stack =>
          n ← load p;
          ret ← (if decide (private n = None) then mret 0%Z else func p);
          if (ret <? 0)%Z then mret ret
          else
            let stack := match right n with Some r => r :: stack | None => stack end in
            let stack := match left n with Some l => l :: stack | None => stack end in
            bst_subtree_loop fuel stack func (s32 (count + ret))
      end
  end.

Definition bst_subtree_func (p : loc) (func : loc → M bst Z) : M bst Z :=
  k ← gets (λ s, size (nodes s));
  bst_subtree_loop (S k) [p] func 0.

(** Only the root itself is treated by the function; its sub-trees go
    through [bst_subtree_func]. *)
Definition bst_subtree_child (c : option loc) (func : loc → M bst Z) : M bst Z :=
  match c with Some c => bst_subtree_func c func | None => mret 0%Z end.

Definition bst_subtree_func_recursive (p : loc) (func : loc → M bst Z) : M bst Z :=
  n ← load p;
  l ← bst_subtree_child (left n) func;
  if (l <? 0)%Z then mret l
  else
    r ← bst_subtree_child (right n) func;
    if (r <? 0)%Z then mret r
    else
      ret ← func p;
      if (ret <? 0)%Z then mret ret else mret (s32 (l + r + ret)).

(** ** Insertion *)

Definition bst_init (w : W) (o : list bool) : bst := Bst ∅ None 0 1 o w.

Definition call_init (f : option P → W → Z * W) (v : option P) : M bst Z :=
  λ s, let '(e, w) := f v (world s) in Done (e, set_world w s).

(** [-1]: the node is in use, or its [init] callback failed. *)
Definition bst_node_init (p : loc) (o : option bst_node_ops) (v : option P) : M bst Z :=
  n ← load p;
  match ops n, private n with
  | Some _, _ => mret (-1)%Z
  | None, Some _ => mret (-1)%Z
  | None, None =>
      _ ← store p (set_data o v);
      match o with
      | Some {| ops_init := Some f |} =>
          e ← call_init f v;
          mret (if (e <? 0)%Z then (-1)%Z else 0%Z)
      | _ => mret 0%Z
      end
  end.

(** [bst_create_node]: the new node is linked into [parent], and the bits
    past its length are cleared. *)
Definition bst_create_node (par : loc) (key : list Z) (psize : nat) : M bst (option loc) :=
  n ← load par;
  let bits := S (prefix_bits n) in
  c ← MALLOC (BstNode par None None None None bits psize (mask_last bits (take psize key)));
  match c with
  | None => mret None
  | Some c =>
      b ← deref (CHECK_BIT key (prefix_bits n));
      _ ← store par (set_child b (Some c));
      mret (Some c)
  end.

Fixpoint bst_node_new (fuel : nat) (par : loc) (key : list Z) (bits : nat) : M bst (option loc) :=
  match fuel with
  | O => out_of_fuel
  | S fuel =>
      n ← load par;
      c ← bst_create_node par key (PREFIX_SIZE (prefix_bits n + 1));
      match c with
      | None => mret None
      | Some c =>
          b ← deref (CHECK_BIT key (prefix_bits n));
          _ ← store par (set_child b (Some c));
          if decide (prefix_bits n + 1 = bits) then mret (Some c)
          else bst_node_new fuel c key bits
      end
  end.

Definition bst_node_insert_prefix (r : loc) (o : option bst_node_ops) (v : option P)
    (key : list Z) (bits : nat) : M bst (option loc) :=
  '(p, _) ← bst_node_find_longest_prefix (S bits) r None key bits None;
  n ← load p;
  c ← (if decide (prefix_bits n < bits) then bst_node_new bits p key bits else mret (Some p));
  match c with
  | None => mret None
  | Some c =>
      e ← bst_node_init c o v;
      mret (if (e =? -1)%Z then None else Some c)
  end.

(** The root node of an empty tree; it is its own parent. *)
Definition root_node (r : loc) : bst_node := BstNode r None None None None 0 0 [].

(** [bst_insert_prefix]: a tree without entries gets a new root. *)
Definition bst_insert_root : M bst (option loc) :=
  r ← gets next_loc;
  c ← MALLOC (root_node r);
  _ ← modify (set_root c);
  mret c.

Definition bst_insert_prefix (o : option bst_node_ops) (v : option P) (key : list Z) (bits : nat)
  : M bst (option loc) :=
  e ← gets entries;
  r ← (if (e =? 0)%Z then bst_insert_root else r ← gets root; r ← deref r; mret (Some r));
  match r with
  | None => mret None
  | Some r =>
      c ← bst_node_insert_prefix r o v key bits;
      match c with
      | None => mret None
      | Some c =>
          _ ← modify (λ s, set_entries (u32 (entries s + 1)) s);
          mret (Some c)
      end
  end.

Definition bst_remove_prefix (key : list Z) (bits : nat) : M bst Z :=
  c ← bst_find_longest_prefix key bits;
  match c with
  | None => mret 0%Z
  | Some c =>
      n ← load c;
      if decide (prefix_bits n = bits) then _ ← bst_node_orphan c; mret 1%Z
      else mret 0%Z
  end.
End Bst.

Arguments bst_node_ops : clear implicits.
Arguments bst_node : clear implicits.
Arguments bst : clear implicits.

(** ** Bits of a buffer *)

Section Bits.
Implicit Types (key : list Z) (i k bits : nat).

Definition bit key i : bool := default false (CHECK_BIT key i).

(** The first [bits] bits of a buffer. *)
Definition path key bits : list bool := bit key <$> seq 0 bits.

Lemma path_length key bits : length (path key bits) = bits.
Proof. unfold path. by rewrite length_fmap, length_seq. Qed.

Lemma path_S key bits : path key (S bits) = path key bits ++ [bit key bits].
Proof. unfold path. by rewrite seq_S, fmap_app. Qed.

Lemma take_path key i bits : i ≤ bits → take i (path key bits) = path key i.
Proof.
  intros. unfold path. rewrite <-fmap_take, take_seq. do 2 f_equal. lia.
Qed.

Lemma CHECK_BIT_in key i : i < 8 * length key → CHECK_BIT key i = Some (bit key i).
Proof.
  intros Hi. unfold bit. destruct (CHECK_BIT key i) eqn:E; [done|].
  unfold CHECK_BIT in E. apply bind_None in E as [E|(? & ? & ?)]; [|done].
  apply lookup_ge_None in E. unfold PREFIX_BYTE in E.
  pose proof (Nat.Div0.div_lt_upper_bound i 8 (length key)). lia.
Qed.

Lemma PREFIX_SIZE_bound bits k : bits ≤ 8 * k → PREFIX_SIZE bits ≤ k.
Proof.
  intros. unfold PREFIX_SIZE, PREFIX_BYTE. pose proof (Nat.div_mod_eq bits 8). case_decide; lia.
Qed.

Lemma PREFIX_SIZE_in i bits : i < bits → PREFIX_BYTE i < PREFIX_SIZE bits.
Proof.
  intros. unfold PREFIX_SIZE, PREFIX_BYTE.
  pose proof (Nat.div_mod_eq bits 8). pose proof (Nat.div_mod_eq i 8).
  pose proof (Nat.mod_upper_bound bits 8). pose proof (Nat.mod_upper_bound i 8). case_decide; lia.
Qed.

(** The mask keeps the bits in use. *)
Lemma endmask_keeps bits i :
  i < bits mod 8 → Z.testbit (endmask bits) (7 - Z.of_nat i) = true.
Proof.
  unfold endmask. pose proof (Nat.mod_upper_bound bits 8).
  remember (bits mod 8) as m eqn:Hm; clear Hm. intros Hi.
  do 8 (destruct m as [|m]; [do 8 (destruct i as [|i]; [lia || reflexivity|]); lia|]). lia.
Qed.

Lemma land_bit_eqb x j : (0 <= j)%Z → (Z.land x (Z.shiftl 1 j) =? 0)%Z = negb (Z.testbit x j).
Proof.
  intros Hj. destruct (Z.eqb_spec (Z.land x (Z.shiftl 1 j)) 0) as [E|E].
  - assert (Z.testbit (Z.land x (Z.shiftl 1 j)) j = false) as H by (rewrite E; apply Z.testbit_0_l).
    rewrite Z.land_spec, Z.shiftl_spec, Z.sub_diag in H by done.
    rewrite andb_true_r in H. by rewrite H.
  - destruct (Z.testbit x j) eqn:Ht; [done|]. exfalso. apply E. apply Z.bits_inj'. intros k Hk.
    rewrite Z.land_spec, Z.shiftl_spec, Z.testbit_0_l by done.
    destruct (decide (k = j)) as [->|Hne]; [by rewrite Ht|].
    apply andb_false_intro2. destruct (decide (k < j)%Z).
    + apply Z.testbit_neg_r. lia.
    + apply Z.bits_above_log2; simpl; lia.
Qed.

(** The prefix stored in a new node has the bits of the key it was made
    from. *)
Lemma mask_last_bit key bits i :
  i < bits → bits ≤ 8 * length key →
  bit (mask_last bits (take (PREFIX_SIZE bits) key)) i = bit key i.
Proof.
  intros Hi Hlen. pose proof (PREFIX_SIZE_in i bits Hi) as Hin.
  pose proof (PREFIX_SIZE_bound bits (length key) Hlen) as Hps.
  assert (Htk : bit (take (PREFIX_SIZE bits) key) i = bit key i).
  { unfold bit, CHECK_BIT. by rewrite lookup_take, decide_True by done. }
  unfold mask_last. case_decide as Hmod; [done|]. rewrite <-Htk.
  unfold bit, CHECK_BIT. rewrite length_take, Nat.min_l by done.
  destruct (decide (PREFIX_SIZE bits - 1 = PREFIX_BYTE i)) as [Heq|Hne].
  - rewrite Heq, list_lookup_alter_eq. destruct (_ !! PREFIX_BYTE i) as [b|]; [|done].
    cbn -[Nat.modulo]. rewrite !land_bit_eqb, Z.land_spec by (pose proof (Nat.mod_upper_bound i 8); lia).
    rewrite endmask_keeps, andb_true_r; [done|].
    unfold PREFIX_SIZE, PREFIX_BYTE in *. rewrite decide_False in Heq by done.
    pose proof (Nat.div_mod_eq bits 8). pose proof (Nat.div_mod_eq i 8). lia.
  - by rewrite list_lookup_alter_ne by done.
Qed.

Lemma mask_last_path key bits k :
  k ≤ bits → bits ≤ 8 * length key →
  path (mask_last bits (take (PREFIX_SIZE bits) key)) k = path key k.
Proof.
  intros Hk Hlen. unfold path. apply list_fmap_ext. intros j i Hj.
  apply lookup_seq in Hj. apply mask_last_bit; lia.
Qed.

Lemma mask_last_length bits l : length (mask_last bits l) = length l.
Proof. unfold mask_last. case_decide; [done|]. apply length_alter. Qed.
End Bits.

(** ** Invariant and abstract view *)

Section Inv.
Context {P W : Type}.
Abbreviation st := (bst P W).
Abbreviation node := (bst_node P W).
Implicit Types (s : st) (n m : node) (p q c r : loc) (k key : list bool).

Definition node_bits n : list bool := path (prefix n) (prefix_bits n).

Definition is_active (x : loc * node) : Prop := is_Some (private x.2).
#[export] Instance is_active_dec x : Decision (is_active x).
Proof. unfold is_active. apply _. Defined.

(** Links are consistent in both directions, and a child extends the bit
    string of its parent by the bit of its side. *)
Record node_ok (ns : gmap loc node) p n : Prop := {
  ok_len : length (prefix n) = PREFIX_SIZE (prefix_bits n);
  ok_root : parent n = p → prefix_bits n = 0;
  ok_parent : parent n ≠ p → ∃ m b, ns !! parent n = Some m ∧ child b m = Some p;
  ok_child b c : child b n = Some c → ∃ m, ns !! c = Some m ∧ parent m = p ∧ c ≠ p ∧
    node_bits m = node_bits n ++ [b];
  ok_ops : private n = None → ops n = None
}.

(** The node reached from [p] along the bits [k]. *)
Fixpoint reach (ns : gmap loc node) p k : option loc :=
  match k with
  | [] => Some p
  | b :: k => n ← ns !! p; c ← child b n; reach ns c k
  end.

Definition node_at s k : option loc := r ← root s; reach (nodes s) r k.

(** The abstract content of the trie: a partial map from bit strings to the
    attached objects. *)
Definition table s k : option P := p ← node_at s k; n ← nodes s !! p; private n.

(** Every active node is reachable from the root along its own bits. *)
Record bst_inv s : Prop := {
  inv_fresh p : is_Some (nodes s !! p) → p < next_loc s;
  inv_node p n : nodes s !! p = Some n → node_ok (nodes s) p n;
  inv_root r : root s = Some r → ∃ n, nodes s !! r = Some n ∧ parent n = r;
  inv_entries : entries s = Z.of_nat (size (filter is_active (nodes s)));
  inv_bound : (entries s < 2 ^ 32)%Z;
  inv_active p n : nodes s !! p = Some n → is_Some (private n) → node_at s (node_bits n) = Some p
}.

Lemma reach_app ns p k b :
  reach ns p (k ++ [b]) = q ← reach ns p k; n ← ns !! q; child b n.
Proof.
  revert p. induction k as [|b' k IH]; intros p; simpl.
  - destruct (ns !! p) as [n|]; [|done]. simpl. by destruct (child b n).
  - destruct (ns !! p) as [n|]; [|done]. simpl. destruct (child b' n); [|done]. apply IH.
Qed.

Lemma node_at_snoc s k b : node_at s (k ++ [b]) = q ← node_at s k; n ← nodes s !! q; child b n.
Proof. unfold node_at. destruct (root s); [|done]. apply reach_app. Qed.

Lemma node_bits_length n : length (node_bits n) = prefix_bits n.
Proof. apply path_length. Qed.

Lemma node_at_bits s k p : bst_inv s → node_at s k = Some p →
  ∃ n, nodes s !! p = Some n ∧ node_bits n = k.
Proof.
  intros Hinv. revert p. induction k as [|b k IH] using rev_ind; intros p Hp.
  - unfold node_at in Hp. apply bind_Some in Hp as (r & Hr & [= <-]).
    destruct (inv_root _ Hinv r Hr) as (n & Hn & Hpar). exists n. split; [done|].
    apply nil_length_inv. rewrite node_bits_length. by eapply ok_root; [eapply inv_node|].
  - rewrite node_at_snoc in Hp. apply bind_Some in Hp as (q & Hq & Hp).
    apply bind_Some in Hp as (n & Hn & Hc). destruct (IH q Hq) as (n' & Hn' & <-).
    simplify_eq. destruct (ok_child _ _ _ (inv_node _ Hinv q n Hn) b p Hc) as (m & Hm & _ & _ & Hb).
    eauto.
Qed.

Lemma node_at_inj s k k' p : bst_inv s → node_at s k = Some p → node_at s k' = Some p → k = k'.
Proof.
  intros Hinv (n & Hn & <-)%node_at_bits (n' & Hn' & <-)%node_at_bits; [|done..]. congruence.
Qed.

(** ** Lookup *)

(** Reference definition of the lookup: the longest prefix of [key] that is
    [good]. *)
Definition lpm (good : list bool → bool) key : option (list bool) :=
  last (filter (λ k, good k = true) ((λ i, take i key) <$> seq 0 (S (length key)))).

Lemma last_filter_longest {A} (good : A → Prop) `{∀ x, Decision (good x)} (f : nat → A) d a :
  last (filter good (f <$> seq 0 d)) = Some a →
  ∃ i, i < d ∧ f i = a ∧ good a ∧ ∀ j, j < d → good (f j) → j ≤ i.
Proof.
  induction d as [|d IH]; [done|]. rewrite seq_S, fmap_app, filter_app. simpl.
  rewrite filter_cons. case_decide as Hg.
  - rewrite filter_nil, last_snoc. intros [= <-]. exists d. split_and!; auto. lia.
  - rewrite filter_nil, app_nil_r. intros (i & Hi & <- & Hgi & Hmax)%IH.
    exists i. split_and!; auto. intros j Hj Hgj. destruct (decide (j = d)) as [->|]; [done|].
    apply Hmax; [lia|done].
Qed.

Lemma last_filter_none {A} (good : A → Prop) `{∀ x, Decision (good x)} (f : nat → A) d :
  last (filter good (f <$> seq 0 d)) = None → ∀ j, j < d → ¬ good (f j).
Proof.
  intros Hl%last_None j Hj Hg.
  assert (f j ∈ filter good (f <$> seq 0 d)) as Hin; [|rewrite Hl in Hin; set_solver].
  apply list_elem_of_filter. split; [done|]. apply list_elem_of_fmap. exists j. split; [done|].
  apply elem_of_seq. lia.
Qed.

(** The answer of a callback that returned. *)
Definition says (f : match_fn) (v : P) (w : W) : bool :=
  match call_match f v w with Done b => b | _ => false end.

(** [good s f k]: the node at [k] carries an object that matches. *)
Definition good s (f : match_fn) k : bool :=
  match table s k with None => false | Some v => says f v (world s) end.

(** The callback returns on every object under a prefix of [K]. *)
Definition callable s (f : match_fn) (K : list bool) : Prop :=
  ∀ k v, k `prefix_of` K → table s k = Some v → ∃ b, call_match f v (world s) = Done b.

Lemma callable_none s K : callable s None K.
Proof. intros k v _ _. by exists true. Qed.

Lemma matches_run s f K k p n :
  callable s f K → k `prefix_of` K → node_at s k = Some p → nodes s !! p = Some n →
  matches f n s = Done (good s f k, s).
Proof.
  intros Hc Hk Hp Hn. assert (Ht : table s k = private n) by (unfold table; rewrite Hp; simpl; by rewrite Hn).
  unfold matches, good, says. rewrite Ht. destruct (private n) as [v|]; [|done].
  destruct (Hc k v Hk Ht) as [b Hb]. by rewrite Hb.
Qed.

Lemma good_node s f k : good s f k = true → is_Some (node_at s k).
Proof. unfold good, table. destruct (node_at s k); [eauto|done]. Qed.

(** The best match among the prefixes of [key] shorter than [d]. *)
Definition best s f key d : option loc :=
  last (filter (λ k, good s f k = true) ((λ i, take i key) <$> seq 0 d)) ≫= node_at s.

Lemma best_S s f key d p n :
  node_at s (take d key) = Some p → nodes s !! p = Some n →
  best s f key (S d) = if good s f (take d key) then Some p else best s f key d.
Proof.
  intros Hp Hn. unfold best. rewrite seq_S, fmap_app, filter_app. simpl.
  rewrite filter_cons. destruct (good s f (take d key)); simpl.
  - rewrite filter_nil, last_snoc. done.
  - by rewrite filter_nil, app_nil_r.
Qed.

Lemma best_beyond s f key d d' :
  d ≤ d' → (∀ j, d ≤ j < d' → node_at s (take j key) = None) →
  best s f key d' = best s f key d.
Proof.
  intros Hd Hnone. unfold best. f_equal.
  replace d' with (d + (d' - d)) by lia. rewrite seq_app, fmap_app, filter_app.
  assert (filter (λ k, good s f k = true) ((λ i, take i key) <$> seq (0 + d) (d' - d)) = []) as ->;
    [|by rewrite app_nil_r].
  apply elem_of_nil_inv. intros k (Hg & (j & -> & Hj%elem_of_seq)%list_elem_of_fmap)%list_elem_of_filter.
  apply good_node in Hg. rewrite Hnone in Hg by lia. by destruct Hg.
Qed.

Lemma node_at_prefix s k k' : k `prefix_of` k' → node_at s k = None → node_at s k' = None.
Proof.
  intros [l ->] Hk. induction l as [|b l IH] using rev_ind; [by rewrite app_nil_r|].
  rewrite app_assoc, node_at_snoc. by rewrite IH.
Qed.


Lemma load_run s p n : nodes s !! p = Some n → load p s = Done (n, s).
Proof. intros H. unfold load. by rewrite H. Qed.

(** The walk ends at the deepest node on the path of the key, having
    remembered the last matching node of the path. *)
Lemma find_spec fuel s p n prev (key : list Z) bits f :
  bst_inv s → bits ≤ 8 * length key → callable s f (path key bits) →
  nodes s !! p = Some n → prefix_bits n ≤ bits →
  node_at s (path key (prefix_bits n)) = Some p →
  prev = best s f (path key bits) (prefix_bits n) → bits < fuel + prefix_bits n →
  ∃ q m, bst_node_find_longest_prefix fuel p prev key bits f s
           = Done ((q, best s f (path key bits) (S bits)), s) ∧
    nodes s !! q = Some m ∧ node_at s (path key (prefix_bits m)) = Some q ∧
    prefix_bits m ≤ bits ∧
    (good s f (path key (prefix_bits m)) = true → best s f (path key bits) (S bits) = Some q) ∧
    (prefix_bits m = bits ∨
     prefix_bits m < bits ∧ child (bit key (prefix_bits m)) m = None).
Proof.
  intros Hinv Hlen Hcall. revert p n prev.
  induction fuel as [|fuel IH]; intros p n prev Hn Hle Hat Hprev Hfuel; [lia|].
  simpl. rewrite (bind_done _ _ _ _ _ (load_run _ _ _ Hn)).
  assert (Hpre : path key (prefix_bits n) `prefix_of` path key bits)
    by (rewrite <-(take_path key (prefix_bits n) bits) by done; apply prefix_take).
  rewrite (bind_done _ _ _ _ _ (matches_run _ _ _ _ _ _ Hcall Hpre Hat Hn)).
  assert (Hbest : (if good s f (path key (prefix_bits n)) then Some p else prev)
           = best s f (path key bits) (S (prefix_bits n))).
  { rewrite (best_S s f (path key bits) (prefix_bits n) p n); [|by rewrite take_path|done].
    by rewrite take_path by done; subst. }
  rewrite Hbest. case_decide as Hend.
  { assert (prefix_bits n = bits) as Heq by lia. rewrite Heq in *.
    exists p, n. split_and!; auto; [by rewrite Heq|lia|].
    intros Hm. rewrite Heq in Hm. by rewrite <-Hbest, Hm. }
  rewrite CHECK_BIT_in by lia.
  rewrite (bind_done _ _ _ _ _ (deref_some _ s)).
  assert (Hsnoc : node_at s (path key (S (prefix_bits n))) = child (bit key (prefix_bits n)) n).
  { rewrite path_S, node_at_snoc, Hat. simpl. by rewrite Hn. }
  destruct (child (bit key (prefix_bits n)) n) as [c|] eqn:Hc.
  - destruct (ok_child _ _ _ (inv_node _ Hinv _ _ Hn) _ _ Hc) as (m & Hm & _ & _ & Hb).
    apply (f_equal length) in Hb. rewrite length_app, !node_bits_length in Hb. simpl in Hb.
    apply (IH c m); auto; try lia.
    + by replace (prefix_bits m) with (S (prefix_bits n)) by lia.
    + by replace (prefix_bits m) with (S (prefix_bits n)) by lia.
  - assert (Hb : best s f (path key bits) (S bits) = best s f (path key bits) (S (prefix_bits n))).
    { apply best_beyond; [lia|]. intros j Hj. rewrite take_path by lia.
      eapply node_at_prefix; [|exact Hsnoc]. exists (drop (S (prefix_bits n)) (path key j)).
      by rewrite <-(take_path key (S (prefix_bits n)) j), take_drop by lia. }
    exists p, n. rewrite Hb. split_and!; auto; [|right; split; [lia|done]].
    intros Hm. by rewrite <-Hbest, Hm.
Qed.

Lemma find_from_root s r (key : list Z) bits f :
  bst_inv s → bits ≤ 8 * length key → callable s f (path key bits) → root s = Some r →
  ∃ q m, bst_node_find_longest_prefix (S bits) r None key bits f s
           = Done ((q, best s f (path key bits) (S bits)), s) ∧
    nodes s !! q = Some m ∧ node_at s (path key (prefix_bits m)) = Some q ∧
    prefix_bits m ≤ bits ∧
    (good s f (path key (prefix_bits m)) = true → best s f (path key bits) (S bits) = Some q) ∧
    (prefix_bits m = bits ∨
     prefix_bits m < bits ∧ child (bit key (prefix_bits m)) m = None).
Proof.
  intros Hinv Hlen Hcall Hr. destruct (inv_root _ Hinv r Hr) as (n & Hn & Hpar).
  pose proof (ok_root _ _ _ (inv_node _ Hinv _ _ Hn) Hpar) as H0.
  eapply (find_spec (S bits) s r n); auto; rewrite ?H0; try lia.
  - unfold node_at. by rewrite Hr.
  - done.
Qed.

Lemma bst_find_spec s (key : list Z) bits f :
  bst_inv s → bits ≤ 8 * length key → callable s f (path key bits) →
  bst_find_longest_prefix_match key bits f s
    = Done (lpm (good s f) (path key bits) ≫= node_at s, s).
Proof.
  intros Hinv Hlen Hcall. unfold bst_find_longest_prefix_match.
  rewrite (bind_done _ _ _ _ _ (eq_refl : gets root s = Done (_, s))).
  unfold lpm. rewrite path_length. fold (best s f (path key bits) (S bits)).
  destruct (root s) as [r|] eqn:Hr; last first.
  { unfold best. destruct (last _); [|done]. simpl. unfold node_at. by rewrite Hr. }
  destruct (find_from_root s r key bits f Hinv Hlen Hcall Hr) as (q & m & Hrun & Hm & Hat & Hle & Hbest & _).
  rewrite (bind_done _ _ _ _ _ Hrun), (bind_done _ _ _ _ _ (load_run _ _ _ Hm)).
  assert (Hpre : path key (prefix_bits m) `prefix_of` path key bits)
    by (rewrite <-(take_path key (prefix_bits m) bits) by done; apply prefix_take).
  rewrite (bind_done _ _ _ _ _ (matches_run _ _ _ _ _ _ Hcall Hpre Hat Hm)).
  destruct (good s f (path key (prefix_bits m))); [|done]. by rewrite Hbest.
Qed.

Lemma bst_find_lpm_spec s (key : list Z) bits f :
  bst_inv s → bits ≤ 8 * length key → callable s f (path key bits) →
  ∃ o, bst_find_longest_prefix_match key bits f s = Done (o, s) ∧
    match o with
    | Some p => ∃ k, node_at s k = Some p ∧ good s f k = true ∧ k `prefix_of` path key bits ∧
        ∀ k', k' `prefix_of` path key bits → good s f k' = true → length k' ≤ length k
    | None => ∀ k', k' `prefix_of` path key bits → good s f k' = false
    end.
Proof.
  intros Hinv Hlen Hcall. rewrite bst_find_spec by done. eexists; split; [done|].
  assert (Hpre : ∀ k', k' `prefix_of` path key bits →
    length k' ≤ bits ∧ k' = take (length k') (path key bits)).
  { intros k' [l Hl]. pose proof (path_length key bits) as Hpl. rewrite Hl, length_app in Hpl.
    split; [lia|]. by rewrite Hl, take_app_length. }
  unfold lpm. rewrite path_length. destruct (last _) as [k|] eqn:Hlast; simpl.
  - apply last_filter_longest in Hlast as (i & Hi & <- & Hg & Hmax).
    destruct (good_node _ _ _ Hg) as [p Hp]. rewrite Hp. exists (take i (path key bits)).
    split_and!; auto; [apply prefix_take|].
    intros k' Hk' Hg'. destruct (Hpre _ Hk') as [Hl Heq]. rewrite length_take, path_length.
    rewrite Heq in Hg'. specialize (Hmax (length k') ltac:(lia) Hg'). lia.
  - intros k' Hk'. destruct (Hpre _ Hk') as [Hl Heq]. rewrite Heq.
    apply not_true_is_false. eapply (last_filter_none _ _ _ Hlast). lia.
Qed.

(** C1: on a well-formed trie, [bst_find_longest_prefix_match] computes the
    reference lookup: the node of the longest prefix of the key that carries
    a matching object, and [NULL] when there is none.  It terminates, reads
    only allocated nodes and changes nothing, provided that the match function
    returns on the objects on the way. *)
Theorem bst_find_longest_prefix_correct s (key : list Z) bits f :
  bst_inv s → bits ≤ 8 * length key → callable s f (path key bits) →
  ∃ o, bst_find_longest_prefix_match key bits f s = Done (o, s) ∧
    match o with
    | Some p => ∃ k, node_at s k = Some p ∧ good s f k = true ∧ k `prefix_of` path key bits ∧
        ∀ k', k' `prefix_of` path key bits → good s f k' = true → length k' ≤ length k
    | None => ∀ k', k' `prefix_of` path key bits → good s f k' = false
    end.
Proof. apply bst_find_lpm_spec. Qed.
End Inv.

(** ** Elementary changes of the store *)

Section Updates.
Context {P W : Type}.
Abbreviation st := (bst P W).
Abbreviation node := (bst_node P W).
Implicit Types (s : st) (ns : gmap loc node) (n m : node) (p q c r : loc) (k : list bool) (b : bool).

Definition links_ok ns : Prop := ∀ p n, ns !! p = Some n → node_ok ns p n.
Definition count ns : nat := size (filter is_active ns).
Definition active01 n : nat := if decide (is_Some (private n)) then 1 else 0.

Lemma count_delete ns p n : ns !! p = Some n → count ns = active01 n + count (delete p ns).
Proof.
  intros Hp. unfold count, active01.
  rewrite <-(insert_delete_id ns p n Hp) at 1. case_decide as Ha.
  - rewrite map_filter_insert_True by done. rewrite map_size_insert_None; [done|].
    apply map_lookup_filter_None. left. apply lookup_delete_eq.
  - rewrite map_filter_insert_False by done. simpl. by rewrite delete_delete_eq.
Qed.

Lemma count_insert ns p n : count (<[p := n]> ns) = active01 n + count (delete p ns).
Proof. rewrite (count_delete _ p n) by apply lookup_insert_eq. by rewrite delete_insert_eq. Qed.

Lemma delete_None_id ns p : ns !! p = None → delete p ns = ns.
Proof. apply delete_id. Qed.

(** Two nodes with the same links and bits. *)
Definition eqlinks n m : Prop :=
  parent n = parent m ∧ left n = left m ∧ right n = right m ∧
  prefix_bits n = prefix_bits m ∧ prefix n = prefix m.

Lemma eqlinks_child n m b : eqlinks n m → child b n = child b m.
Proof. intros (_ & Hl & Hr & _). destruct b; simpl; congruence. Qed.

Lemma eqlinks_bits n m : eqlinks n m → node_bits n = node_bits m.
Proof. intros (_ & _ & _ & Hb & Hp). unfold node_bits. congruence. Qed.

Lemma eqlinks_set_data n o v : eqlinks n (set_data o v n).
Proof. by repeat split. Qed.

Definition same_links ns ns' : Prop := ∀ q, option_Forall2 eqlinks (ns !! q) (ns' !! q).

Lemma same_links_fwd ns ns' q n : same_links ns ns' → ns !! q = Some n →
  ∃ n', ns' !! q = Some n' ∧ eqlinks n n'.
Proof. intros H Hq. specialize (H q). rewrite Hq in H. inversion H; subst; eauto. Qed.

Lemma same_links_bwd ns ns' q n' : same_links ns ns' → ns' !! q = Some n' →
  ∃ n, ns !! q = Some n ∧ eqlinks n n'.
Proof. intros H Hq. specialize (H q). rewrite Hq in H. inversion H; subst; eauto. Qed.

Lemma same_links_set_data ns p n o v :
  ns !! p = Some n → same_links ns (<[p := set_data o v n]> ns).
Proof.
  intros Hp q. rewrite lookup_insert. case_decide; subst.
  - rewrite Hp. constructor. apply eqlinks_set_data.
  - destruct (ns !! q); constructor. by repeat split.
Qed.

Lemma node_ok_same ns ns' p n n' :
  same_links ns ns' → eqlinks n n' → (private n' = None → ops n' = None) →
  node_ok ns p n → node_ok ns' p n'.
Proof.
  intros Hs He Hops [H1 H2 H3 H4 _]. pose proof He as (Hpar & _ & _ & Hb & Hpre). split; auto.
  - congruence.
  - rewrite <-Hpar, <-Hb. done.
  - rewrite <-Hpar. intros Hne. destruct (H3 Hne) as (m & b & Hm & Hc).
    destruct (same_links_fwd _ _ _ _ Hs Hm) as (m' & Hm' & Hem).
    exists m', b. split; [done|]. by rewrite <-(eqlinks_child _ _ _ Hem).
  - intros b c. rewrite <-(eqlinks_child _ _ _ He). intros Hc.
    destruct (H4 b c Hc) as (m & Hm & Hp & Hne & Hbits).
    destruct (same_links_fwd _ _ _ _ Hs Hm) as (m' & Hm' & Hem).
    exists m'. split_and!; auto; [by destruct Hem as (<- & _)|].
    by rewrite <-(eqlinks_bits _ _ Hem), <-(eqlinks_bits _ _ He).
Qed.

Lemma links_set_data ns p n o v :
  links_ok ns → ns !! p = Some n → (v = None → o = None) →
  links_ok (<[p := set_data o v n]> ns).
Proof.
  intros Hok Hp Hov q m Hm. pose proof (same_links_set_data ns p n o v Hp) as Hs.
  rewrite lookup_insert in Hm. case_decide; subst.
  - simplify_eq. eapply node_ok_same; [done|apply eqlinks_set_data|done|by apply Hok].
  - eapply node_ok_same; [done|by repeat split| |by apply Hok].
    by eapply ok_ops, Hok.
Qed.

Lemma reach_same ns ns' p k : same_links ns ns' → reach ns' p k = reach ns p k.
Proof.
  intros Hs. revert p. induction k as [|b k IH]; intros p; [done|]. simpl.
  pose proof (Hs p) as Hp.
  destruct (ns !! p) as [n|], (ns' !! p) as [n'|]; inversion Hp as [? ? He|]; subst; [|done].
  simpl. rewrite (eqlinks_child n n' b He). destruct (child b n'); [apply IH|done].
Qed.

(** *** A new leaf *)

Definition leaf_of (par bits : loc) (bytes : list Z) psize : node :=
  BstNode par None None None None bits psize bytes.

Definition with_leaf par n b c m ns : gmap loc node :=
  <[par := set_child b (Some c) n]> (<[c := m]> ns).

Lemma child_set_child b b' o n :
  child b' (set_child b o n) = if decide (b = b') then o else child b' n.
Proof. by destruct b, b'. Qed.

Lemma node_bits_set_child b o n : node_bits (set_child b o n) = node_bits n.
Proof. by destruct b. Qed.

Lemma links_with_leaf ns par n b c bytes psize :
  links_ok ns → ns !! par = Some n → ns !! c = None → child b n = None →
  (∀ q m b', ns !! q = Some m → child b' m ≠ Some c) →
  let m := leaf_of par (S (prefix_bits n)) bytes psize in
  length bytes = PREFIX_SIZE (S (prefix_bits n)) → node_bits m = node_bits n ++ [b] →
  links_ok (with_leaf par n b c m ns).
Proof.
  intros Hok Hpar Hc Hb Hnoc m Hlen Hbits q x Hx.
  assert (Hne : par ≠ c) by congruence. unfold with_leaf in *.
  assert (Hfwd : ∀ q y, ns !! q = Some y → ∃ y', (<[par := set_child b (Some c) n]> (<[c := m]> ns)) !! q = Some y' ∧
     parent y' = parent y ∧ node_bits y' = node_bits y ∧ (∀ b' z, child b' y = Some z → child b' y' = Some z)).
  { intros q' y Hy. rewrite lookup_insert. case_decide; subst.
    - simplify_eq. eexists; split; [done|]. split_and!; [by destruct b|apply node_bits_set_child|].
      intros b' z Hz. rewrite child_set_child. case_decide; congruence.
    - rewrite lookup_insert_ne by congruence. eauto 10. }
  rewrite lookup_insert in Hx. case_decide as Hd; subst.
  - simplify_eq. destruct (Hok _ _ Hpar) as [H1 H2 H3 H4 H5]. split.
    + by destruct b.
    + by destruct b.
    + replace (parent (set_child b (Some c) n)) with (parent n) by by destruct b.
      intros Hp. destruct (H3 Hp) as (y & b' & Hy & Hz).
      destruct (Hfwd _ _ Hy) as (y' & ? & _ & _ & Hcc). eauto.
    + intros b' z. rewrite child_set_child, node_bits_set_child. case_decide; subst.
      * intros [= <-]. exists m. split_and!; auto.
        rewrite lookup_insert_ne by done. apply lookup_insert_eq.
      * intros Hz. destruct (H4 _ _ Hz) as (y & Hy & Hyp & Hyne & Hyb).
        destruct (Hfwd _ _ Hy) as (y' & ? & Hp' & Hb' & _). exists y'. split_and!; congruence.
    + by destruct b.
  - rewrite lookup_insert in Hx. case_decide as Hd2; subst.
    + simplify_eq. split; auto.
      * done.
      * intros _. eexists _, b. simpl. rewrite lookup_insert_eq. split; [done|].
        rewrite child_set_child, decide_True by done. done.
      * intros []; done.
    + destruct (Hok _ _ Hx) as [H1 H2 H3 H4 H5]. split; auto.
      * intros Hp. destruct (H3 Hp) as (y & b' & Hy & Hz).
        destruct (Hfwd _ _ Hy) as (y' & ? & _ & _ & Hcc). eauto.
      * intros b' z Hz. destruct (H4 _ _ Hz) as (y & Hy & Hyp & Hyne & Hyb).
        destruct (Hfwd _ _ Hy) as (y' & ? & Hp' & Hb' & _). exists y'. split_and!; congruence.
Qed.

Lemma node_at_with_leaf s s' par n b c m k :
  bst_inv s → nodes s !! par = Some n → node_at s (node_bits n) = Some par →
  nodes s !! c = None → child b n = None → left m = None → right m = None →
  root s' = root s → nodes s' = with_leaf par n b c m (nodes s) →
  node_at s' k = if decide (k = node_bits n ++ [b]) then Some c else node_at s k.
Proof.
  intros Hinv Hpar Hat Hc Hb Hl Hr Hroot Hns.
  assert (Hne : par ≠ c) by congruence.
  assert (Hlook : ∀ p, p ≠ par → p ≠ c → nodes s' !! p = nodes s !! p).
  { intros p H1 H2. rewrite Hns. unfold with_leaf. by rewrite !lookup_insert_ne by congruence. }
  induction k as [|b' k IH] using rev_ind.
  { rewrite decide_False by (intros H; destruct (node_bits n); discriminate).
    unfold node_at. by rewrite Hroot. }
  rewrite !node_at_snoc, IH. case_decide as Hk; [subst k|].
  - rewrite decide_False by (intros H%(f_equal length); rewrite !length_app in H; simpl in H; lia).
    rewrite node_at_snoc, Hat. simpl. rewrite Hpar. simpl. rewrite Hb. simpl.
    rewrite Hns. unfold with_leaf. rewrite lookup_insert_ne, lookup_insert_eq by done. simpl.
    by destruct b'.
  - destruct (node_at s k) as [p|] eqn:Hp; simpl.
    + destruct (decide (p = par)) as [->|Hpp].
      * assert (k = node_bits n) as -> by (eapply node_at_inj; eauto).
        rewrite Hns. unfold with_leaf. rewrite lookup_insert_eq, Hpar. simpl.
        rewrite child_set_child. repeat case_decide; simplify_eq; done.
      * rewrite decide_False by (intros [-> _]%app_inj_2; [congruence|done]).
        rewrite Hlook; [done|done|]. destruct (node_at_bits _ _ _ Hinv Hp) as (? & ? & _). congruence.
    + rewrite decide_False; [done|]. intros [-> _]%app_inj_2; [congruence|done].
Qed.

(** *** Removing a leaf *)

Definition without_leaf par n b c ns : gmap loc node :=
  delete c (<[par := set_child b None n]> ns).

Lemma child_unique ns p n c b b' :
  links_ok ns → ns !! p = Some n → child b n = Some c → child b' n = Some c → b = b'.
Proof.
  intros Hok Hp H1 H2. destruct (ok_child _ _ _ (Hok _ _ Hp) _ _ H1) as (m & Hm & _ & _ & Hb).
  destruct (ok_child _ _ _ (Hok _ _ Hp) _ _ H2) as (m' & Hm' & _ & _ & Hb').
  simplify_eq. rewrite Hb in Hb'. by apply app_inj_2 in Hb' as [_ [= ->]].
Qed.

Lemma links_without_leaf ns par n b c m :
  links_ok ns → ns !! c = Some m → left m = None → right m = None →
  ns !! par = Some n → child b n = Some c →
  links_ok (without_leaf par n b c ns).
Proof.
  intros Hok Hc Hl Hr Hpar Hb. unfold without_leaf.
  destruct (ok_child _ _ _ (Hok _ _ Hpar) _ _ Hb) as (m' & Hm' & Hmp & Hne & _).
  assert (m' = m) as -> by congruence. set (ns' := delete c _).
  assert (Hfwd : ∀ q y, ns !! q = Some y → q ≠ c → ∃ y', ns' !! q = Some y' ∧
     parent y' = parent y ∧ node_bits y' = node_bits y ∧
     (∀ b' z, child b' y = Some z → z ≠ c → child b' y' = Some z)).
  { intros q y Hy Hq. unfold ns'. rewrite lookup_delete_ne by done. rewrite lookup_insert.
    case_decide; subst.
    - simplify_eq. eexists; split; [done|]. split_and!; [by destruct b|apply node_bits_set_child|].
      intros b' z Hz Hzc. rewrite child_set_child. case_decide; congruence.
    - eauto 10. }
  assert (Hgen : ∀ q x x', ns !! q = Some x → q ≠ c →
    parent x' = parent x → prefix x' = prefix x → prefix_bits x' = prefix_bits x →
    private x' = private x → ops x' = ops x →
    (∀ b' z, child b' x' = Some z → child b' x = Some z ∧ z ≠ c) → node_ok ns' q x').
  { intros q x x' Hx Hqc E1 E2 E3 E4 E5 Hch. destruct (Hok _ _ Hx) as [H1 H2 H3 H4 H5].
    assert (Hbx : node_bits x' = node_bits x) by (unfold node_bits; congruence).
    split; rewrite ?E1, ?E2, ?E3, ?E4, ?E5, ?Hbx; auto.
    - intros Hp. destruct (H3 Hp) as (y & b' & Hy & Hz).
      assert (parent x ≠ c). { intros E. rewrite E in Hy. simplify_eq. by destruct b'; simpl in *; congruence. }
      destruct (Hfwd _ _ Hy) as (y' & ? & _ & _ & Hcc); [done|]. eauto.
    - intros b' z [Hz Hzc]%Hch. destruct (H4 _ _ Hz) as (y & Hy & Hyp & Hyne & Hyb).
      destruct (Hfwd _ _ Hy Hzc) as (y' & ? & Hp' & Hb' & _). exists y'. split_and!; congruence. }
  intros q x Hx. unfold ns' in Hx. apply lookup_delete_Some in Hx as [Hqc Hx].
  rewrite lookup_insert in Hx. case_decide as Hd; subst.
  - simplify_eq. apply (Hgen _ n); auto; try (by destruct b).
    intros b' z. rewrite child_set_child. case_decide as Hbb; [done|]. intros Hz. split; [done|].
    intros ->. apply Hbb. eapply child_unique; eauto.
  - apply (Hgen _ x); auto. intros b' z Hz. split; [done|]. intros ->.
    destruct (ok_child _ _ _ (Hok _ _ Hx) _ _ Hz) as (y & Hy & Hyp & _). congruence.
Qed.

Lemma node_at_without_leaf s s' par n b c m k :
  bst_inv s → nodes s !! c = Some m → left m = None → right m = None →
  nodes s !! par = Some n → child b n = Some c → node_at s (node_bits m) = Some c →
  root s' = root s → nodes s' = without_leaf par n b c (nodes s) →
  node_at s' k = if decide (k = node_bits m) then None else node_at s k.
Proof.
  intros Hinv Hc Hl Hr Hpar Hb Hat Hroot Hns.
  destruct (ok_child _ _ _ (inv_node _ Hinv _ _ Hpar) _ _ Hb) as (m' & Hm' & Hmp & Hne & Hbits).
  assert (m' = m) as -> by congruence.
  assert (Hatp : node_at s (node_bits n) = Some par).
  { pose proof Hat as Hat'. rewrite Hbits, node_at_snoc in Hat'.
    apply bind_Some in Hat' as (p & Hp & (x & Hx & Hxc)%bind_Some).
    destruct (ok_child _ _ _ (inv_node _ Hinv _ _ Hx) _ _ Hxc) as (y & Hy & Hyp & _).
    rewrite Hp. congruence. }
  assert (Hlook : ∀ p, p ≠ par → p ≠ c → nodes s' !! p = nodes s !! p).
  { intros p H1 H2. rewrite Hns. unfold without_leaf.
    rewrite lookup_delete_ne by congruence. by rewrite lookup_insert_ne by congruence. }
  induction k as [|b' k IH] using rev_ind.
  { rewrite Hbits. rewrite decide_False by (intros H; destruct (node_bits n); discriminate).
    unfold node_at. by rewrite Hroot. }
  rewrite !node_at_snoc, IH. case_decide as Hk; [subst k|].
  - rewrite Hat. simpl. rewrite Hc. simpl.
    rewrite decide_False by (intros H%(f_equal length); rewrite !length_app in H; simpl in H; lia).
    by destruct b'; simpl; rewrite ?Hl, ?Hr.
  - destruct (node_at s k) as [p|] eqn:Hp; simpl; [|by case_decide].
    destruct (decide (p = par)) as [->|Hpp].
    + assert (k = node_bits n) as -> by (eapply node_at_inj; eauto).
      rewrite Hns. unfold without_leaf. rewrite lookup_delete_ne, lookup_insert_eq, Hpar by congruence.
      simpl. rewrite child_set_child, Hbits. repeat case_decide; simplify_eq; done.
    + rewrite decide_False by (rewrite Hbits; intros [-> _]%app_inj_2; [congruence|done]).
      rewrite Hlook; [done|done|]. intros ->. apply Hk. eapply node_at_inj; eauto.
Qed.
End Updates.

(** ** What the operations do *)

Section Ops.
Context {P W : Type}.
Abbreviation st := (bst P W).
Abbreviation node := (bst_node P W).
Implicit Types (s : st) (ns : gmap loc node) (n m : node) (p q c r : loc) (k : list bool) (b : bool).

Lemma inv_count s : bst_inv s → entries s = Z.of_nat (count (nodes s)).
Proof. intros H. by rewrite (inv_entries _ H). Qed.

Lemma inv_links s : bst_inv s → links_ok (nodes s).
Proof. intros H p n. apply (inv_node _ H). Qed.

Lemma inv_fresh_None s : bst_inv s → nodes s !! next_loc s = None.
Proof.
  intros H. destruct (nodes s !! next_loc s) eqn:E; [|done].
  pose proof (inv_fresh _ H (next_loc s)) as Hf. rewrite E in Hf. specialize (Hf ltac:(eauto)). lia.
Qed.

Lemma inv_next_no_child s q m b : bst_inv s → nodes s !! q = Some m → child b m ≠ Some (next_loc s).
Proof.
  intros H Hm Hc. destruct (ok_child _ _ _ (inv_node _ H _ _ Hm) _ _ Hc) as (x & Hx & _).
  pose proof (inv_fresh_None _ H). congruence.
Qed.

(** *** Attaching and detaching an object *)

Lemma node_at_set_data s s' p n o v k :
  nodes s !! p = Some n → root s' = root s → nodes s' = <[p := set_data o v n]> (nodes s) →
  node_at s' k = node_at s k.
Proof.
  intros Hp Hr Hns. unfold node_at. rewrite Hr, Hns. destruct (root s); [|done].
  simpl. apply reach_same. by apply same_links_set_data.
Qed.

Lemma table_set_data s s' p n o v k :
  nodes s !! p = Some n → root s' = root s → nodes s' = <[p := set_data o v n]> (nodes s) →
  table s' k = if decide (node_at s k = Some p) then v else table s k.
Proof.
  intros Hp Hr Hns. unfold table. rewrite (node_at_set_data s s' p n o v) by done.
  destruct (node_at s k) as [q|]; simpl; [|done]. rewrite Hns, lookup_insert.
  repeat case_decide; simplify_eq; done.
Qed.

Lemma inv_set_data s s' p n o v :
  bst_inv s → nodes s !! p = Some n → (v = None → o = None) →
  (is_Some v → node_at s (node_bits n) = Some p) →
  nodes s' = <[p := set_data o v n]> (nodes s) → root s' = root s → next_loc s' = next_loc s →
  (entries s' + Z.of_nat (active01 n) = entries s + Z.of_nat (active01 (set_data o v n)))%Z →
  (entries s' < 2 ^ 32)%Z → bst_inv s'.
Proof.
  intros Hinv Hp Hov Hat Hns Hr Hnext Hent Hbound. split.
  - intros q. rewrite Hns, Hnext, lookup_insert. case_decide; subst.
    + intros _. apply (inv_fresh _ Hinv). eauto.
    + apply (inv_fresh _ Hinv).
  - rewrite Hns. apply links_set_data; [by apply inv_links|done|done].
  - rewrite Hr, Hns. intros r Hrr. destruct (inv_root _ Hinv r Hrr) as (x & Hx & Hxp).
    destruct (same_links_fwd _ _ r x (same_links_set_data _ p n o v Hp) Hx) as (x' & Hx' & Hl).
    exists x'. split; [done|]. destruct Hl as (<- & _). done.
  - fold (count (nodes s')). rewrite Hns, count_insert.
    pose proof (inv_count _ Hinv) as Hc. rewrite (count_delete _ p n Hp) in Hc. lia.
  - done.
  - intros q m. rewrite (node_at_set_data s s' p n o v) by done.
    rewrite Hns, lookup_insert. case_decide; subst; [|by apply (inv_active _ Hinv)].
    intros [= <-] Hv. by apply Hat.
Qed.

Definition orphaned p n (v : P) s : st :=
  Bst (<[p := set_data None None n]> (nodes s)) (root s) (entries s - 1) (next_loc s) (oom s)
    (match ops n with
     | Some o => match ops_destroy o with Some d => d (Some v) (world s) | None => world s end
     | None => world s
     end).

Lemma orphan_run s p n :
  bst_inv s → nodes s !! p = Some n →
  bst_node_orphan p s =
    Done (tt, match private n with None => s | Some v => orphaned p n v s end).
Proof.
  intros Hinv Hp. unfold bst_node_orphan. rewrite (bind_done _ _ _ _ _ (load_run _ _ _ Hp)).
  destruct (private n) as [v|] eqn:Hv; [|done].
  assert (He : u32 (entries s - 1) = (entries s - 1)%Z).
  { apply wrap_small. pose proof (inv_bound _ Hinv). rewrite (inv_count _ Hinv) in *.
    rewrite (count_delete _ p n Hp) in *. unfold active01 in *. rewrite decide_True in * by eauto. lia. }
  unfold mbind, M_bind, modify. rewrite He. unfold orphaned.
  destruct (ops n) as [[i [d|]]|]; simpl; unfold store; simpl; by rewrite Hp.
Qed.

Lemma orphaned_inv s p n v :
  bst_inv s → nodes s !! p = Some n → private n = Some v → bst_inv (orphaned p n v s).
Proof.
  intros Hinv Hp Hv. apply (inv_set_data s _ p n None None); auto; simpl.
  - by intros [].
  - unfold active01. rewrite Hv. simpl. lia.
  - pose proof (inv_bound _ Hinv). lia.
Qed.

(** The abstract table without the object of node [p]. *)
Definition table_minus s p k : option P := if decide (node_at s k = Some p) then None else table s k.

Lemma orphaned_table s p n v k :
  nodes s !! p = Some n → table (orphaned p n v s) k = table_minus s p k.
Proof. intros Hp. by apply (table_set_data s _ p n None None). Qed.

Lemma table_minus_inactive s p n k :
  nodes s !! p = Some n → private n = None → table_minus s p k = table s k.
Proof.
  intros Hp Hv. unfold table_minus. case_decide as H; [|done]. unfold table. rewrite H. simpl.
  by rewrite Hp.
Qed.

(** *** Freeing nodes *)

Definition freed par n b c s : st := set_nodes (without_leaf par n b c) s.

Lemma parent_child s c m :
  bst_inv s → nodes s !! c = Some m → parent m ≠ c →
  ∃ n b, nodes s !! parent m = Some n ∧ child b n = Some c ∧
    b = bool_decide (right n = Some c).
Proof.
  intros Hinv Hc Hne. destruct (ok_parent _ _ _ (inv_node _ Hinv _ _ Hc) Hne) as (n & b & Hn & Hb).
  exists n, b. split_and!; auto. destruct b; simpl in Hb.
  - by rewrite bool_decide_true.
  - rewrite bool_decide_false; [done|]. intros Hr.
    by pose proof (child_unique _ _ _ c true false (inv_links _ Hinv) Hn Hr Hb).
Qed.

Lemma free_run s c m n b :
  nodes s !! c = Some m → parent m ≠ c → nodes s !! parent m = Some n →
  b = bool_decide (right n = Some c) →
  bst_node_free c s = Done (tt, freed (parent m) n b c s).
Proof.
  intros Hc Hne Hn ->. unfold bst_node_free. rewrite (bind_done _ _ _ _ _ (load_run _ _ _ Hc)).
  rewrite decide_False by done. rewrite (bind_done _ _ _ tt (set_nodes <[parent m := set_child (bool_decide (right n = Some c)) None n]> s)).
  - unfold kfree. simpl. rewrite lookup_insert_ne by done. by rewrite Hc.
  - rewrite (bind_done _ _ _ _ _ (load_run _ _ _ Hn)). unfold store.
    case_decide as Hr; rewrite Hn; [by rewrite bool_decide_true|by rewrite bool_decide_false].
Qed.

Lemma active01_set_child b o n : active01 (set_child b o n) = active01 n.
Proof. by destruct b. Qed.

Lemma freed_spec s c m n b :
  bst_inv s → nodes s !! c = Some m → left m = None → right m = None → private m = None →
  parent m ≠ c → nodes s !! parent m = Some n → child b n = Some c →
  node_at s (node_bits m) = Some c →
  bst_inv (freed (parent m) n b c s) ∧ ∀ k,
    node_at (freed (parent m) n b c s) k = (if decide (k = node_bits m) then None else node_at s k) ∧
    table (freed (parent m) n b c s) k = table s k.
Proof.
  intros Hinv Hc Hl Hr Hv Hne Hn Hb Hat. set (s' := freed (parent m) n b c s).
  assert (Hns : nodes s' = without_leaf (parent m) n b c (nodes s)) by done.
  split; [|intros k; split].
  - split; simpl; unfold without_leaf.
    + intros q. rewrite lookup_delete. case_decide; [by intros []|]. rewrite lookup_insert.
      case_decide; subst; intros; apply (inv_fresh _ Hinv); eauto.
    + eapply links_without_leaf; eauto. by apply inv_links.
    + intros r Hrr. destruct (inv_root _ Hinv r Hrr) as (x & Hx & Hxp).
      assert (r ≠ c) by congruence. rewrite lookup_delete_ne by done. rewrite lookup_insert.
      case_decide; [|by eauto]. assert (x = n) as -> by congruence. eexists; split; [done|].
      destruct b; simpl; congruence.
    + fold (count (delete c (<[parent m:=set_child b None n]> (nodes s)))).
      rewrite (inv_count _ Hinv). f_equal.
      assert (Hc' : <[parent m:=set_child b None n]> (nodes s) !! c = Some m) by (by rewrite lookup_insert_ne).
      pose proof (count_delete _ c m Hc') as H1. rewrite count_insert, active01_set_child in H1.
      rewrite <-(count_delete _ _ n Hn) in H1. unfold active01 in H1. rewrite Hv in H1. simpl in H1. done.
    + apply (inv_bound _ Hinv).
    + intros q x. rewrite lookup_delete. case_decide as Hqc; [done|]. intros Hx Hact.
      rewrite (node_at_without_leaf s s' (parent m) n b c m) by done.
      assert (∃ y, nodes s !! q = Some y ∧ node_bits y = node_bits x ∧ private y = private x)
        as (y & Hy & Hby & Hpy).
      { rewrite lookup_insert in Hx. case_decide; subst; [|by eauto]. simplify_eq.
        exists n. by rewrite node_bits_set_child; destruct b. }
      rewrite <-Hby. pose proof (inv_active _ Hinv q y Hy ltac:(by rewrite Hpy)) as Haq.
      rewrite decide_False; [done|]. intros E. rewrite E in Haq. congruence.
  - by eapply (node_at_without_leaf s s').
  - unfold table. rewrite (node_at_without_leaf s s' (parent m) n b c m) by done.
    case_decide as Hk; [subst k; rewrite Hat; simpl; by rewrite Hc|].
    destruct (node_at s k) as [q|] eqn:Hq; [|done]. simpl.
    assert (q ≠ c). { intros ->. apply Hk. by eapply node_at_inj. }
    unfold without_leaf. rewrite lookup_delete_ne, lookup_insert by done.
    case_decide; subst; [|done]. rewrite Hn. simpl. by destruct b.
Qed.

(** The node at [k] is the root, has an object, or leads to another node. *)
Definition useful s k : Prop := k = [] ∨ is_Some (table s k) ∨ ∃ b, is_Some (node_at s (k ++ [b])).

(** [s'] is [s] without some nodes on the path [K]: exactly those were released,
    and what is left of the path is useful. *)
Record pruned s s' (K : list bool) : Prop := {
  pr_nodes k : node_at s' k = node_at s k ∨ node_at s' k = None ∧ k `prefix_of` K;
  pr_useful k : k `prefix_of` K → is_Some (node_at s' k) → useful s' k;
  pr_freed q : nodes s' !! q = None ↔ nodes s !! q = None ∨ ∃ k, node_at s k = Some q ∧ node_at s' k = None
}.

(** A node that has to stay: nothing is released. *)
Lemma pruned_stop s p n :
  bst_inv s → nodes s !! p = Some n → node_at s (node_bits n) = Some p →
  ¬ (private n = None ∧ left n = None ∧ right n = None ∧ p ≠ parent n) → pruned s s (node_bits n).
Proof.
  intros Hinv Hp Hat Hd. split; [by left| |].
  - intros k [l Hl] _. destruct l as [|b l].
    + rewrite app_nil_r in Hl. subst k. unfold useful. destruct (private n) as [v|] eqn:Hv.
      { right; left. unfold table. rewrite Hat. simpl. rewrite Hp. by exists v. }
      destruct (left n) as [c|] eqn:Hl; [right; right; exists false; rewrite node_at_snoc, Hat; simpl; rewrite Hp; by exists c|].
      destruct (right n) as [c|] eqn:Hr; [right; right; exists true; rewrite node_at_snoc, Hat; simpl; rewrite Hp; by exists c|].
      left. apply nil_length_inv. rewrite node_bits_length. apply (ok_root _ _ _ (inv_node _ Hinv _ _ Hp)).
      destruct (decide (parent n = p)); [done|]. exfalso. apply Hd. by split_and!.
    + right; right. exists b. destruct (node_at s (k ++ [b])) eqn:E; [eauto|].
      rewrite (node_at_prefix s (k ++ [b])) in Hat; [done| |done]. exists l. by rewrite Hl, <-app_assoc.
  - intros q. split; [by left|]. intros [H|(k & H1 & H2)]; [done|congruence].
Qed.

(** One leaf is released before the rest of the path. *)
Lemma pruned_step s s1 s' p n k1 b :
  bst_inv s → nodes s !! p = Some n → node_at s (node_bits n) = Some p → node_bits n = k1 ++ [b] →
  (∀ k, node_at s1 k = if decide (k = node_bits n) then None else node_at s k) →
  (∀ q, nodes s1 !! q = None ↔ nodes s !! q = None ∨ q = p) →
  pruned s1 s' k1 → pruned s s' (node_bits n).
Proof.
  intros Hinv Hp Hat Hk H1 Hf [P1 P2 P3]. split.
  - intros k. specialize (P1 k). rewrite H1 in P1. case_decide as E; subst.
    + right. split; [by destruct P1 as [?|[? _]]|done].
    + destruct P1 as [?|[? Hpre]]; [by left|right]. split; [done|]. rewrite Hk. by apply prefix_app_r.
  - intros k Hpre Hs. apply P2; [|done]. destruct Hpre as [l Hl]. destruct l as [|x l _] using rev_ind.
    + rewrite app_nil_r in Hl. subst k. exfalso. destruct (P1 (node_bits n)) as [E|[E _]]; rewrite E in Hs.
      * rewrite H1, decide_True in Hs by done. by destruct Hs.
      * by destruct Hs.
    + rewrite Hk, app_assoc in Hl. apply app_inj_2 in Hl as [-> _]; [|done]. by exists l.
  - intros q. rewrite P3, Hf. split.
    + intros [[?| ->]|(k & E1 & E2)]; [by left| |].
      * right. exists (node_bits n). split; [done|]. destruct (P1 (node_bits n)) as [E|[E _]]; rewrite E; [|done].
        by rewrite H1, decide_True.
      * right. exists k. rewrite H1 in E1. by case_decide.
    + intros [?|(k & E1 & E2)]; [by left; left|]. destruct (decide (k = node_bits n)) as [->|Hne].
      * left; right. congruence.
      * right. exists k. by rewrite H1, decide_False.
Qed.

Lemma freed_nodes s c m n b :
  nodes s !! c = Some m → nodes s !! parent m = Some n →
  ∀ q, nodes (freed (parent m) n b c s) !! q = None ↔ nodes s !! q = None ∨ q = c.
Proof.
  intros Hc Hn q. simpl. unfold without_leaf. rewrite lookup_delete. case_decide as E; [naive_solver|].
  rewrite lookup_insert. case_decide; subst; naive_solver.
Qed.

(** The walk up the tree frees only nodes without object and without
    children: the abstract table does not change, and it goes on until a useful
    node. *)
Lemma release_parents_spec fuel s p n :
  bst_inv s → nodes s !! p = Some n → node_at s (node_bits n) = Some p →
  prefix_bits n < fuel →
  ∃ s', bst_release_parents fuel p s = Done (tt, s') ∧ bst_inv s' ∧
    (∀ k, table s' k = table s k) ∧ world s' = world s ∧ root s' = root s ∧
    entries s' = entries s ∧ pruned s s' (node_bits n).
Proof.
  revert s p n. induction fuel as [|fuel IH]; intros s p n Hinv Hp Hat Hf; [lia|].
  simpl. rewrite (bind_done _ _ _ _ _ (load_run _ _ _ Hp)).
  case_decide as Hd; [|by eexists; split_and!; [done..|by apply (pruned_stop s p)]].
  destruct Hd as (Hv & Hl & Hr & Hne).
  destruct (parent_child s p n Hinv Hp) as (m & b & Hm & Hb & Heq); [done|].
  rewrite (bind_done _ _ _ _ _ (free_run s p n m b Hp (not_eq_sym Hne) Hm Heq)).
  destruct (freed_spec s p n m b) as [Hinv' Hspec]; auto.
  set (s1 := freed (parent n) m b p s) in *.
  destruct (ok_child _ _ _ (inv_node _ Hinv _ _ Hm) _ _ Hb) as (x & Hx & _ & _ & Hbits).
  assert (x = n) as -> by congruence.
  assert (Hm' : nodes s1 !! parent n = Some (set_child b None m)).
  { simpl. unfold without_leaf. by rewrite lookup_delete_ne, lookup_insert_eq. }
  assert (Hlen : prefix_bits n = S (prefix_bits m)).
  { apply (f_equal length) in Hbits. rewrite length_app, !node_bits_length in Hbits. simpl in Hbits. lia. }
  destruct (IH s1 (parent n) (set_child b None m)) as (s' & Hrun & Hinv2 & Htab & Hw & Hrt & He & Hpr); auto.
  - rewrite node_bits_set_child, (proj1 (Hspec _)).
    rewrite decide_False by (intros E%(f_equal length); rewrite !node_bits_length in E; lia).
    rewrite Hbits, node_at_snoc in Hat. apply bind_Some in Hat as (q & Hq & (y & Hy & Hyc)%bind_Some).
    destruct (ok_child _ _ _ (inv_node _ Hinv _ _ Hy) _ _ Hyc) as (z & Hz & Hzp & _). congruence.
  - destruct b; simpl; lia.
  - exists s'. split_and!; auto; [intros k; rewrite Htab; apply Hspec|]. rewrite node_bits_set_child in Hpr.
    eapply (pruned_step s s1 s' p n _ b); [done..|intros k; apply Hspec|by apply freed_nodes|done].
Qed.

(** The state after the object of [p] has been detached. *)
Definition detached p n s : st :=
  match private n with None => s | Some v => orphaned p n v s end.

Lemma detached_spec s p n :
  bst_inv s → nodes s !! p = Some n →
  bst_inv (detached p n s) ∧ root (detached p n s) = root s ∧
  (∃ n', nodes (detached p n s) !! p = Some n' ∧ eqlinks n n' ∧ private n' = None) ∧
  (∀ k, node_at (detached p n s) k = node_at s k) ∧
  (∀ k, table (detached p n s) k = table_minus s p k).
Proof.
  intros Hinv Hp. unfold detached. destruct (private n) as [v|] eqn:Hv.
  - split_and!; auto.
    + by apply orphaned_inv.
    + eexists. simpl. rewrite lookup_insert_eq. split_and!; [done|apply eqlinks_set_data|done].
    + intros k. by apply (node_at_set_data s _ p n None None).
    + intros k. by apply orphaned_table.
  - split_and!; auto.
    + exists n. by repeat split.
    + intros k. symmetry. by eapply table_minus_inactive.
Qed.

Lemma detached_dom s p n : nodes s !! p = Some n → ∀ q, nodes (detached p n s) !! q = None ↔ nodes s !! q = None.
Proof.
  intros Hp q. unfold detached. destruct (private n); [|done]. simpl. rewrite lookup_insert. case_decide; subst; [|done].
  split; [done|congruence].
Qed.

Lemma bst_node_release_spec s p n :
  bst_inv s → nodes s !! p = Some n → node_at s (node_bits n) = Some p →
  (parent n ≠ p ∨ left n ≠ None ∨ right n ≠ None) →
  ∃ s', bst_node_release p s = Done (tt, s') ∧ bst_inv s' ∧
    (∀ k, table s' k = table_minus s p k) ∧ world s' = world (detached p n s) ∧
    root s' = root s ∧ entries s' = entries (detached p n s) ∧ pruned s s' (node_bits n).
Proof.
  intros Hinv Hp Hat Hnr. unfold bst_node_release.
  rewrite (bind_done _ _ _ _ _ (orphan_run s p n Hinv Hp)). fold (detached p n s).
  destruct (detached_spec s p n Hinv Hp) as (Hinv1 & Hroot & (n' & Hp' & Hl & Hv) & Hat1 & Htab1).
  set (s1 := detached p n s) in *. pose proof Hl as (Hpar & El & Er & _).
  rewrite (bind_done _ _ _ _ _ (load_run _ _ _ Hp')).
  assert (Hat' : node_at s1 (node_bits n') = Some p) by (by rewrite <-(eqlinks_bits _ _ Hl), Hat1).
  assert (Hsub : ∀ s', pruned s1 s' (node_bits n') → pruned s s' (node_bits n)).
  { intros s' [P1 P2 P3]. rewrite (eqlinks_bits _ _ Hl). split; [|done|].
    - intros k. by rewrite <-Hat1.
    - intros q. rewrite P3. pose proof (detached_dom s p n Hp q) as E. fold s1 in E. rewrite E. by setoid_rewrite Hat1. }
  case_decide as Hd.
  2:{ exists s1. split_and!; auto. apply Hsub, (pruned_stop s1 p); [done..|]. intros (_ & ? & ? & _). by apply Hd. }
  destruct Hd as [Hll Hrr]. assert (parent n' ≠ p) as Hne by (destruct Hnr as [?|[?|?]]; congruence).
  destruct (parent_child s1 p n' Hinv1 Hp' Hne) as (m & b & Hm & Hb & Heq).
  rewrite (bind_done _ _ _ _ _ (free_run s1 p n' m b Hp' Hne Hm Heq)).
  destruct (freed_spec s1 p n' m b) as [Hinv2 Hspec]; auto.
  set (s2 := freed (parent n') m b p s1) in *.
  destruct (ok_child _ _ _ (inv_node _ Hinv1 _ _ Hm) _ _ Hb) as (x & Hx & _ & _ & Hbits).
  assert (x = n') as -> by congruence.
  assert (Hlen : prefix_bits n' = S (prefix_bits m)).
  { apply (f_equal length) in Hbits. rewrite length_app, !node_bits_length in Hbits. simpl in Hbits. lia. }
  destruct (release_parents_spec (S (prefix_bits n')) s2 (parent n') (set_child b None m))
    as (s' & Hrun & Hinv3 & Htab & Hw & Hrt & He & Hpr); auto.
  - simpl. unfold without_leaf. by rewrite lookup_delete_ne, lookup_insert_eq.
  - rewrite node_bits_set_child, (proj1 (Hspec _)).
    rewrite decide_False by (intros E%(f_equal length); rewrite !node_bits_length in E; lia).
    rewrite Hbits, node_at_snoc in Hat'. apply bind_Some in Hat' as (q & Hq & (y & Hy & Hyc)%bind_Some).
    destruct (ok_child _ _ _ (inv_node _ Hinv1 _ _ Hy) _ _ Hyc) as (z & Hz & Hzp & _). congruence.
  - destruct b; simpl; lia.
  - exists s'. split_and!; auto; [|by rewrite Hrt|].
    + intros k. rewrite Htab, (proj2 (Hspec k)). apply Htab1.
    + rewrite node_bits_set_child in Hpr. apply Hsub. eapply (pruned_step s1 s2 s' p n' _ b); [done..|intros k; apply Hspec|by apply freed_nodes|done].
Qed.

(** C7: [bst_node_release] of a node of the trie other than a childless root
    detaches exactly that node's object: it terminates, touches only
    allocated memory, keeps the trie well-formed, and leaves the longest
    prefix table as it was except for the released entry, whose callback has
    run.  Afterwards every node on the path to it is useful (the root, a node
    with an object or one that leads to another node): the node itself, if it
    has no children, and the ancestors that are useless without it are unlinked
    and released, and no other node is. *)
Theorem bst_node_release_correct s p n :
  bst_inv s → nodes s !! p = Some n → node_at s (node_bits n) = Some p →
  (parent n ≠ p ∨ left n ≠ None ∨ right n ≠ None) →
  ∃ s', bst_node_release p s = Done (tt, s') ∧ bst_inv s' ∧
    (∀ k, table s' k = table_minus s p k) ∧ pruned s s' (node_bits n) ∧
    world s' = world (detached p n s) ∧ entries s' = entries (detached p n s).
Proof.
  intros Hinv Hp Hat Hnr. destruct (bst_node_release_spec s p n) as (s' & ? & ? & ? & ? & _ & ? & ?); [done..|].
  exists s'. by split_and!.
Qed.

(** C35: releasing a root without children uses freed memory: the loop that
    walks up the tree starts from the node that has just been freed. *)
Theorem bst_node_release_root_fault s p n :
  bst_inv s → nodes s !! p = Some n → parent n = p → left n = None → right n = None →
  bst_node_release p s = Fault.
Proof.
  intros Hinv Hp Hpar Hl Hr. unfold bst_node_release.
  rewrite (bind_done _ _ _ _ _ (orphan_run s p n Hinv Hp)). fold (detached p n s).
  destruct (detached_spec s p n Hinv Hp) as (_ & _ & (n' & Hp' & (Hpar' & El & Er & _) & _) & _).
  rewrite (bind_done _ _ _ _ _ (load_run _ _ _ Hp')), decide_True by (split; congruence).
  assert (Hpp : parent n' = p) by congruence.
  rewrite (bind_done _ _ _ tt (set_nodes (delete p) (set_root None (detached p n s)))).
  - simpl. unfold mbind, M_bind, load. simpl. by rewrite Hpp, lookup_delete_eq.
  - unfold bst_node_free. rewrite (bind_done _ _ _ _ _ (load_run _ _ _ Hp')).
    rewrite decide_True by done. unfold mbind, M_bind, modify, kfree. simpl. by rewrite Hp'.
Qed.

(** *** New nodes *)

Definition oom_next (o : list bool) : list bool := tail o.

Definition new_leaf (n : node) par (key : list Z) : node :=
  leaf_of par (S (prefix_bits n))
    (mask_last (S (prefix_bits n)) (take (PREFIX_SIZE (S (prefix_bits n))) key))
    (PREFIX_SIZE (S (prefix_bits n))).

Definition leafed par n (key : list Z) s : st :=
  Bst (with_leaf par n (bit key (prefix_bits n)) (next_loc s) (new_leaf n par key) (nodes s))
    (root s) (entries s) (S (next_loc s)) (tail (oom s)) (world s).

Definition drop_oom s : st :=
  Bst (nodes s) (root s) (entries s) (next_loc s) (tail (oom s)) (world s).

Lemma create_run s par n (key : list Z) :
  bst_inv s → nodes s !! par = Some n → prefix_bits n < 8 * length key →
  bst_create_node par key (PREFIX_SIZE (S (prefix_bits n))) s =
    match head (oom s) with
    | Some true => Done (None, drop_oom s)
    | _ => Done (Some (next_loc s), leafed par n key s)
    end.
Proof.
  intros Hinv Hp Hlen. unfold bst_create_node. rewrite (bind_done _ _ _ _ _ (load_run _ _ _ Hp)).
  assert (Hne : par ≠ next_loc s) by (pose proof (inv_fresh_None _ Hinv); congruence).
  destruct (oom s) as [|[] o] eqn:Ho; simpl; unfold mbind, M_bind, MALLOC; rewrite Ho; simpl;
    unfold drop_oom, leafed; rewrite ?Ho; try done;
    rewrite CHECK_BIT_in by done; unfold deref, mret, M_ret, store; simpl;
    by rewrite lookup_insert_ne, Hp by done.
Qed.

Lemma leafed_spec s par n (key : list Z) :
  bst_inv s → nodes s !! par = Some n → node_at s (node_bits n) = Some par →
  node_bits n = path key (prefix_bits n) → prefix_bits n < 8 * length key →
  child (bit key (prefix_bits n)) n = None →
  bst_inv (leafed par n key s) ∧
  node_bits (new_leaf n par key) = path key (S (prefix_bits n)) ∧
  nodes (leafed par n key s) !! next_loc s = Some (new_leaf n par key) ∧
  (∀ k, node_at (leafed par n key s) k =
     if decide (k = path key (S (prefix_bits n))) then Some (next_loc s) else node_at s k) ∧
  (∀ k, table (leafed par n key s) k = table s k).
Proof.
  intros Hinv Hp Hat Hbits Hlen Hc. set (c := next_loc s). set (m := new_leaf n par key).
  set (s' := leafed par n key s).
  pose proof (inv_fresh_None _ Hinv) as Hfresh. fold c in Hfresh. assert (Hne : par ≠ c) by congruence.
  assert (Hmb : node_bits m = path key (S (prefix_bits n))).
  { unfold m, new_leaf, leaf_of, node_bits. simpl. apply mask_last_path; lia. }
  assert (Hmb' : node_bits m = node_bits n ++ [bit key (prefix_bits n)]) by (by rewrite Hmb, path_S, Hbits).
  assert (Hnc : nodes s' !! c = Some m).
  { simpl. unfold with_leaf. by rewrite lookup_insert_ne, lookup_insert_eq. }
  assert (Hat' : ∀ k, node_at s' k = if decide (k = path key (S (prefix_bits n))) then Some c else node_at s k).
  { intros k. rewrite (node_at_with_leaf s s' par n (bit key (prefix_bits n)) c m) by done.
    by rewrite path_S, Hbits. }
  split_and!; auto.
  - split; simpl; unfold with_leaf; fold c m.
    + intros q. rewrite lookup_insert. case_decide; subst; [|rewrite lookup_insert; case_decide; subst].
      * intros _. pose proof (inv_fresh _ Hinv q). rewrite Hp in *. specialize (H ltac:(eauto)). lia.
      * lia.
      * intros Hq%(inv_fresh _ Hinv). lia.
    + apply links_with_leaf; auto; [by apply inv_links|by intros; eapply inv_next_no_child|].
      rewrite mask_last_length, length_take. pose proof (PREFIX_SIZE_bound (S (prefix_bits n)) (length key)). lia.
    + intros r Hr. destruct (inv_root _ Hinv r Hr) as (x & Hx & Hxp). rewrite lookup_insert.
      case_decide; [assert (x = n) as -> by congruence; eexists; split; [done|by destruct (bit _ _)]|].
      rewrite lookup_insert_ne by congruence. eauto.
    + fold (count (<[par:=set_child (bit key (prefix_bits n)) (Some c) n]> (<[c:=m]> (nodes s)))).
      rewrite (inv_count _ Hinv). f_equal. rewrite count_insert, active01_set_child.
      rewrite <-(count_delete _ par n) by (by rewrite lookup_insert_ne).
      rewrite count_insert, delete_id by done. done.
    + apply (inv_bound _ Hinv).
    + intros q x Hx Hact. change (node_at s' (node_bits x) = Some q). rewrite Hat'.
      assert (∃ y, nodes s !! q = Some y ∧ node_bits y = node_bits x ∧ private y = private x)
        as (y & Hy & Hby & Hpy).
      { rewrite lookup_insert in Hx. case_decide; [|rewrite lookup_insert in Hx; case_decide].
        - simplify_eq. exists n. by rewrite node_bits_set_child; destruct (bit _ _).
        - simplify_eq. by destruct Hact.
        - eauto. }
      rewrite <-Hby. pose proof (inv_active _ Hinv q y Hy ltac:(by rewrite Hpy)) as Haq.
      rewrite decide_False; [done|]. intros E. rewrite E, path_S, node_at_snoc, <-Hbits, Hat in Haq.
      simpl in Haq. rewrite Hp in Haq. simpl in Haq. congruence.
  - intros k. unfold table. rewrite Hat'. case_decide as Hk.
    + cbn [mbind option_bind]. rewrite Hnc. simpl. subst k. rewrite path_S, node_at_snoc, <-Hbits, Hat. simpl.
      rewrite Hp. simpl. by rewrite Hc.
    + destruct (node_at s k) as [q|] eqn:Hq; simpl; [|done].
      destruct (node_at_bits _ _ _ Hinv Hq) as (x & Hx & _).
      unfold with_leaf. rewrite lookup_insert. case_decide; subst.
      * rewrite Hp. simpl. by destruct (bit _ _).
      * by rewrite lookup_insert_ne by (unfold c in *; congruence).
Qed.

Lemma store_child_again s par n (key : list Z) :
  nodes (leafed par n key s) !! par = Some (set_child (bit key (prefix_bits n)) (Some (next_loc s)) n) →
  store par (set_child (bit key (prefix_bits n)) (Some (next_loc s))) (leafed par n key s)
  = Done (tt, leafed par n key s).
Proof.
  intros H. unfold store. rewrite H. unfold leafed, set_nodes; simpl. do 3 f_equal.
  rewrite insert_id; [done|]. simpl in H. rewrite H. by destruct (bit _ _).
Qed.

Lemma drop_oom_inv s : bst_inv s → bst_inv (drop_oom s).
Proof. intros [? ? ? ? ? ?]. split; auto. Qed.

Lemma tail_incl (o : list bool) : true ∈ tail o → true ∈ o.
Proof. destruct o; [done|]. simpl. set_solver. Qed.

Lemma child_new_leaf b n par (key : list Z) : child b (new_leaf n par key) = None.
Proof. by destruct b. Qed.

(** [frame s s']: only nodes without object were added. *)
Definition frame s s' : Prop :=
  bst_inv s' ∧ (∀ k, table s' k = table s k) ∧ root s' = root s ∧ entries s' = entries s ∧
  world s' = world s ∧ (∀ b, b ∈ oom s' → b ∈ oom s).

Lemma node_new_spec fuel s par n (key : list Z) bits :
  bst_inv s → nodes s !! par = Some n → node_at s (node_bits n) = Some par →
  node_bits n = path key (prefix_bits n) → prefix_bits n < bits → bits ≤ 8 * length key →
  child (bit key (prefix_bits n)) n = None → bits ≤ fuel + prefix_bits n →
  ∃ o s', bst_node_new fuel par key bits s = Done (o, s') ∧ frame s s' ∧
    match o with
    | None => true ∈ take (bits - prefix_bits n) (oom s)
    | Some c => true ∉ take (bits - prefix_bits n) (oom s) ∧
        ∃ m, nodes s' !! c = Some m ∧ private m = None ∧
                  node_bits m = path key bits ∧ node_at s' (path key bits) = Some c
    end.
Proof.
  revert s par n. induction fuel as [|fuel IH]; intros s par n Hinv Hp Hat Hbits Hlt Hlen Hc Hf; [lia|].
  simpl. rewrite (bind_done _ _ _ _ _ (load_run _ _ _ Hp)).
  replace (prefix_bits n + 1) with (S (prefix_bits n)) by lia.
  replace (bits - prefix_bits n) with (S (bits - S (prefix_bits n))) by lia.
  assert (Hin : ∀ j, head (oom s) ≠ Some true → true ∈ take (S j) (oom s) ↔ true ∈ take j (tail (oom s))).
  { intros j Hh. destruct (oom s) as [|[] l]; [by rewrite take_nil; simpl; rewrite take_nil|done|]. simpl.
    rewrite elem_of_cons. naive_solver. }
  pose proof (create_run s par n key Hinv Hp ltac:(lia)) as Hcr.
  destruct (leafed_spec s par n key) as (Hinv1 & Hmb & Hnc & Hat1 & Htab1); auto; [lia|].
  destruct (head (oom s)) as [[]|] eqn:Ho.
  { rewrite (bind_done _ _ _ _ _ Hcr). destruct (oom s) as [|x o] eqn:Hoom; [done|].
    simplify_eq/=. exists None, (drop_oom s). split; [done|]. split; [|set_solver].
    unfold frame. split_and!; auto; [by apply drop_oom_inv|]. simpl. rewrite Hoom. set_solver. }
  all: rewrite (bind_done _ _ _ _ _ Hcr), CHECK_BIT_in, (bind_done _ _ _ _ _ (deref_some _ _)) by lia.
  all: assert (Hpar1 : nodes (leafed par n key s) !! par
         = Some (set_child (bit key (prefix_bits n)) (Some (next_loc s)) n))
       by (simpl; unfold with_leaf; by rewrite lookup_insert_eq).
  all: rewrite (bind_done _ _ _ _ _ (store_child_again _ _ _ _ Hpar1)).
  all: assert (Hframe : frame s (leafed par n key s))
       by (unfold frame; split_and!; auto; simpl; destruct (oom s); simpl; set_solver).
  all: case_decide as Hend;
    [exists (Some (next_loc s)), (leafed par n key s); split; [done|]; split; [done|];
     split; [rewrite Hin by done; replace (bits - S (prefix_bits n)) with 0 by lia; rewrite take_0; apply not_elem_of_nil|];
     eexists; split_and!; [done|done|by rewrite Hmb, Hend|by rewrite Hat1, decide_True by (by rewrite Hend)]|].
  all: destruct (IH (leafed par n key s) (next_loc s) (new_leaf n par key))
         as (o & s' & Hrun & (Hf1 & Hf2 & Hf3 & Hf4 & Hf5 & Hf6) & Hres); auto;
    [by rewrite Hat1, Hmb, decide_True|simpl; lia|apply child_new_leaf|simpl; lia|].
  all: exists o, s'; split; [done|]; destruct Hframe as (_ & Hg2 & Hg3 & Hg4 & Hg5 & Hg6); split;
    [unfold frame; split_and!; auto; try congruence; intros; by rewrite Hf2|].
  all: destruct o; rewrite Hin by done; exact Hres.
Qed.

(** What the callback [init] returns, and the state it leaves. *)
Definition init_result (o : option (bst_node_ops P W)) (v : P) (w : W) : Z * W :=
  match o with Some {| ops_init := Some f |} => f (Some v) w | _ => (0%Z, w) end.

(** [bst_node_init] on a node that is not in use. *)
Definition attached p n o v s : st :=
  set_world (init_result o v (world s)).2 (set_nodes <[p := set_data o (Some v) n]> s).

Lemma init_run s p n o v :
  nodes s !! p = Some n → ops n = None → private n = None →
  bst_node_init p o (Some v) s =
    Done (if ((init_result o v (world s)).1 <? 0)%Z then (-1)%Z else 0%Z, attached p n o v s).
Proof.
  intros Hp Hops Hpriv. unfold bst_node_init.
  rewrite (bind_done _ _ _ _ _ (load_run _ _ _ Hp)), Hops, Hpriv.
  unfold mbind, M_bind, store. rewrite Hp. unfold attached. destruct o as [[[f|] d]|]; [|by destruct s..].
  unfold call_init. simpl. by destruct (f (Some v) (world s)).
Qed.

Lemma init_busy s p n o v w :
  nodes s !! p = Some n → private n = Some w → bst_node_init p o v s = Done ((-1)%Z, s).
Proof.
  intros Hp Hv. unfold bst_node_init. rewrite (bind_done _ _ _ _ _ (load_run _ _ _ Hp)), Hv.
  by destruct (ops n).
Qed.

(** The nodes that an insertion under [k] has to allocate: a trie without
    entries is built anew, otherwise the nodes of the path that are missing. *)
Definition missing s k : nat := length (filter (λ i, node_at s (take i k) = None) (seq 0 (S (length k)))).
Definition allocs s k : nat := if (entries s =? 0)%Z then S (length k) else missing s k.

(** The result of an insertion of [v] under the path [k].  When [init] fails the
    object stays attached to the node, and is not counted. *)
Definition inserted s s' (res : option loc) k (o : option (bst_node_ops P W)) (v : P) : Prop :=
  match table s k with
  | Some _ => res = None ∧ s' = s
  | None =>
      if decide (true ∈ take (allocs s k) (oom s)) then
        res = None ∧ bst_inv s' ∧ (∀ k', table s' k' = table s k') ∧ entries s' = entries s ∧ world s' = world s
      else
        (∀ k', table s' k' = if decide (k' = k) then Some v else table s k') ∧
        world s' = (init_result o v (world s)).2 ∧ is_Some (node_at s' k) ∧
        if ((init_result o v (world s)).1 <? 0)%Z then
          res = None ∧ entries s' = entries s ∧ bst_inv (set_entries (entries s + 1) s')
        else res = node_at s' k ∧ entries s' = (entries s + 1)%Z ∧ bst_inv s'
  end.

Lemma table_at s k p n : node_at s k = Some p → nodes s !! p = Some n → table s k = private n.
Proof. intros Hk Hn. unfold table. rewrite Hk. simpl. by rewrite Hn. Qed.

(** A node found or made for [k] receives the object. *)
Lemma attach_spec s c m k o v :
  bst_inv s → nodes s !! c = Some m → private m = None → node_bits m = k →
  node_at s k = Some c → (entries s + 1 < 2 ^ 32)%Z →
  bst_node_init c o (Some v) s =
    Done (if ((init_result o v (world s)).1 <? 0)%Z then (-1)%Z else 0%Z, attached c m o v s) ∧
  bst_inv (set_entries (entries s + 1) (attached c m o v s)) ∧
  (∀ k', node_at (set_entries (entries s + 1) (attached c m o v s)) k' = node_at s k') ∧
  (∀ k', table (set_entries (entries s + 1) (attached c m o v s)) k'
         = if decide (k' = k) then Some v else table s k').
Proof.
  intros Hinv Hm Hv Hk Hat Hb. set (s' := set_entries _ _).
  split_and!.
  - apply init_run; auto. by apply (ok_ops _ _ _ (inv_node _ Hinv _ _ Hm)).
  - apply (inv_set_data s s' c m o (Some v)); auto; [done|congruence|].
    unfold active01. rewrite Hv. simpl. lia.
  - intros k'. by apply (node_at_set_data s s' c m o (Some v)).
  - intros k'. rewrite (table_set_data s s' c m o (Some v)) by done.
    repeat case_decide; try done; [|congruence]. exfalso. apply H0. by eapply node_at_inj.
Qed.

Lemma node_at_cut s (key : list Z) bits q m :
  nodes s !! q = Some m → node_at s (path key (prefix_bits m)) = Some q →
  prefix_bits m < bits → child (bit key (prefix_bits m)) m = None →
  node_at s (path key bits) = None.
Proof.
  intros Hm Hat Hlt Hc. apply (node_at_prefix s (path key (S (prefix_bits m)))).
  - rewrite <-(take_path key (S (prefix_bits m)) bits) by lia. apply prefix_take.
  - rewrite path_S, node_at_snoc, Hat. simpl. by rewrite Hm.
Qed.

(** The insertion before the object is counted, with [j] allocations. *)
Definition placed s s' (res : option loc) k (o : option (bst_node_ops P W)) (v : P) (j : nat) : Prop :=
  match table s k with
  | Some _ => res = None ∧ s' = s
  | None =>
      if decide (true ∈ take j (oom s)) then res = None ∧ frame s s'
      else (∀ k', table s' k' = if decide (k' = k) then Some v else table s k') ∧
        world s' = (init_result o v (world s)).2 ∧ is_Some (node_at s' k) ∧ entries s' = entries s ∧
        bst_inv (set_entries (entries s + 1) s') ∧
        res = if ((init_result o v (world s)).1 <? 0)%Z then None else node_at s' k
  end.

Lemma filter_id {A} (Q : A → Prop) `{∀ x, Decision (Q x)} (l : list A) : Forall Q l → filter Q l = l.
Proof. induction 1 as [|x l Hx _ IH]; [done|]. by rewrite filter_cons, decide_True, IH. Qed.

(** The deepest node on a path tells how many are missing. *)
Lemma missing_below s (key : list Z) bits q m :
  nodes s !! q = Some m → node_at s (path key (prefix_bits m)) = Some q → prefix_bits m ≤ bits →
  (prefix_bits m = bits ∨ prefix_bits m < bits ∧ child (bit key (prefix_bits m)) m = None) →
  missing s (path key bits) = bits - prefix_bits m.
Proof.
  intros Hm Hat Hle Hdeep. unfold missing. rewrite path_length.
  replace (S bits) with (S (prefix_bits m) + (bits - prefix_bits m)) by lia. rewrite seq_app, filter_app, length_app.
  assert (Hhi : ∀ i, i ∈ seq (0 + S (prefix_bits m)) (bits - prefix_bits m) → node_at s (take i (path key bits)) = None).
  { intros i [? ?]%elem_of_seq. destruct Hdeep as [?|[Hlt Hc]]; [lia|].
    rewrite take_path by lia. apply (node_at_cut s key i q m); [done|done|lia|done]. }
  assert (Hlo : filter (λ i, node_at s (take i (path key bits)) = None) (seq 0 (S (prefix_bits m))) = []).
  { apply elem_of_nil_inv. intros i [Hn [_ Hi]%elem_of_seq]%list_elem_of_filter. rewrite take_path in Hn by lia.
    rewrite (node_at_prefix s (path key i)) in Hat; [done| |done].
    rewrite <-(take_path key i (prefix_bits m)) by lia. apply prefix_take. }
  rewrite Hlo. simpl. rewrite filter_id; [by rewrite length_seq|]. by apply Forall_forall.
Qed.

Lemma attach_placed s s1 c m k o v j :
  bst_inv s → table s k = None → true ∉ take j (oom s) → frame s s1 → (entries s + 1 < 2 ^ 32)%Z →
  nodes s1 !! c = Some m → private m = None → node_bits m = k → node_at s1 k = Some c →
  ∃ res s', (e ← bst_node_init c o (Some v); mret (if (e =? -1)%Z then None else Some c)) s1 = Done (res, s') ∧
    placed s s' res k o v j.
Proof.
  intros Hinv Ht Hj (Hinv1 & Htab1 & _ & He1 & Hw1 & _) Hb Hm Hpm Hbits Hat.
  destruct (attach_spec s1 c m k o v Hinv1 Hm Hpm Hbits Hat) as (Hi & Hinv2 & Hat2 & Htab2); [by rewrite He1|].
  rewrite (bind_done _ _ _ _ _ Hi), Hw1. eexists _, _. split; [reflexivity|]. unfold placed.
  rewrite Ht, decide_False by done.
  assert (Hat3 : node_at (attached c m o v s1) k = Some c) by (rewrite <-Hat; apply Hat2). split_and!.
  - intros k'. rewrite <-Htab1. apply Htab2.
  - simpl. by rewrite Hw1.
  - by rewrite Hat3.
  - done.
  - by rewrite <-He1.
  - rewrite Hat3. by destruct ((init_result o v (world s)).1 <? 0)%Z.
Qed.

Lemma node_insert_spec s r o v (key : list Z) bits :
  bst_inv s → root s = Some r → bits ≤ 8 * length key → (entries s + 1 < 2 ^ 32)%Z →
  ∃ res s', bst_node_insert_prefix r o (Some v) key bits s = Done (res, s') ∧
    placed s s' res (path key bits) o v (missing s (path key bits)).
Proof.
  intros Hinv Hr Hlen Hb. unfold bst_node_insert_prefix.
  destruct (find_from_root s r key bits None Hinv Hlen (callable_none _ _) Hr)
    as (q & m & Hrun & Hm & Hat & Hle & _ & Hdeep).
  rewrite (bind_done _ _ _ _ _ Hrun), (bind_done _ _ _ _ _ (load_run _ _ _ Hm)).
  destruct (node_at_bits _ _ _ Hinv Hat) as (m' & Hm' & Hbits). assert (m' = m) as -> by congruence.
  rewrite (missing_below s key bits q m Hm Hat Hle Hdeep). case_decide as Hlt.
  - destruct Hdeep as [?|[_ Hc]]; [lia|].
    destruct (node_new_spec bits s q m key bits) as (oc & s1 & Hnew & Hfr & Hres); auto; try lia.
    { by rewrite Hbits. }
    assert (Htn : table s (path key bits) = None) by (unfold table; by rewrite (node_at_cut s key bits q m)).
    rewrite (bind_done _ _ _ _ _ Hnew). destruct oc as [c|].
    + destruct Hres as (Hj & x & Hx & Hxv & Hxb & Hxat). by apply (attach_placed s s1 c x).
    + exists None, s1. split; [done|]. unfold placed. by rewrite Htn, decide_True.
  - assert (prefix_bits m = bits) as Heq by lia. rewrite Heq in *.
    rewrite (bind_done _ _ _ _ _ (eq_refl : M_ret _ _ (Some q) s = Done (_, s))).
    pose proof (table_at s _ q m Hat Hm) as Ht. destruct (private m) as [w|] eqn:Hpm.
    + rewrite (bind_done _ _ _ _ _ (init_busy s q m o (Some v) w Hm Hpm)). simpl.
      exists None, s. split; [done|]. unfold placed. by rewrite Ht.
    + apply (attach_placed s s q m); try done.
      rewrite Nat.sub_diag, take_0. apply not_elem_of_nil.
Qed.

(** A trie without entries holds no object at all. *)
Lemma no_entries s p n : bst_inv s → entries s = 0%Z → nodes s !! p = Some n → private n = None.
Proof.
  intros Hinv He Hp. rewrite (inv_count _ Hinv), (count_delete _ p n Hp) in He.
  unfold active01 in He. case_decide as H; [lia|]. destruct (private n); [|done].
  by destruct H.
Qed.

Lemma no_entries_table s k : bst_inv s → entries s = 0%Z → table s k = None.
Proof.
  intros Hinv He. unfold table. destruct (node_at s k) as [p|] eqn:Hp; [|done].
  destruct (node_at_bits _ _ _ Hinv Hp) as (n & Hn & _). simpl. rewrite Hn. simpl.
  by eapply no_entries.
Qed.

(** Below a new root everything is missing. *)
Lemma missing_root s r k : root s = Some r → nodes s !! r = Some (root_node r) → missing s k = length k.
Proof.
  intros Hr Hn. unfold missing. simpl. rewrite filter_cons, decide_False by (unfold node_at; by rewrite Hr).
  rewrite filter_id; [by rewrite length_seq|]. apply Forall_forall. intros i [Hi Hl]%elem_of_seq.
  destruct i as [|i]; [lia|]. destruct k as [|b k]; [simpl in Hl; lia|]. unfold node_at. rewrite Hr. simpl.
  rewrite Hn. simpl. by destruct b.
Qed.

Lemma insert_root_spec s :
  bst_inv s → entries s = 0%Z →
  ∃ res s0, bst_insert_root s = Done (res, s0) ∧ bst_inv s0 ∧ root s0 = res ∧
    entries s0 = 0%Z ∧ world s0 = world s ∧ oom s0 = tail (oom s) ∧
    match res with
    | None => head (oom s) = Some true
    | Some _ => head (oom s) ≠ Some true ∧ ∀ k, missing s0 k = length k
    end.
Proof.
  intros Hinv He. unfold bst_insert_root, mbind, M_bind, gets, MALLOC, modify.
  assert (Hdead : ∀ p n, nodes s !! p = Some n → ¬ is_Some (private n)).
  { intros p n Hn [v Hv]. pose proof (no_entries s p n Hinv He Hn). congruence. }
  pose proof (inv_fresh_None _ Hinv) as Hf. pose proof Hinv as [H1 H2 H3 H4 H5 H6].
  destruct (oom s) as [|[] o] eqn:Ho; simpl.
  2: { eexists None, _. split; [done|]. split_and!; try done.
       split; simpl; auto; try done; intros p n Hn Ha; by destruct (Hdead p n Hn). }
  all: eexists (Some (next_loc s)), _; split; [done|]; split_and!; try done.
  2, 4: intros k; eapply missing_root; [reflexivity|simpl; apply lookup_insert_eq].
  all: split; simpl; auto.
  all: try (intros p; rewrite lookup_insert; case_decide; subst; [lia|]; intros Hp%H1; lia).
  all: try (intros r [= <-]; eexists; by rewrite lookup_insert_eq).
  all: try (fold (count (<[next_loc s:=root_node (next_loc s)]> (nodes s)));
            rewrite count_insert, delete_id by done; rewrite (inv_count _ Hinv); done).
  all: try (intros p n; rewrite lookup_insert; case_decide; subst;
            [intros [= <-] []; done|]; intros Hn Ha; by destruct (Hdead p n Hn)).
  all: intros p n; rewrite lookup_insert; case_decide; subst.
  all: try (intros [= <-]; split; [done..|by intros []|done]).
  all: intros Hn; destruct (H2 p n Hn) as [K1 K2 K3 K4 K5]; split; auto.
  all: try (intros Hp; destruct (K3 Hp) as (m & b & Hm & Hc); exists m, b;
            rewrite lookup_insert_ne by congruence; done).
  all: intros b c Hc; destruct (K4 b c Hc) as (m & Hm & Hrest); exists m;
       rewrite lookup_insert_ne by congruence; done.
Qed.

Lemma active_root s : bst_inv s → entries s ≠ 0%Z → is_Some (root s).
Proof.
  intros Hinv He. rewrite (inv_entries _ Hinv) in He.
  destruct (decide (filter is_active (nodes s) = ∅)) as [E|E]; [rewrite E in He; done|].
  apply map_choose in E as (p & n & (Hn & Ha)%map_lookup_filter_Some).
  pose proof (inv_active _ Hinv p n Hn Ha) as Hat. unfold node_at in Hat.
  destruct (root s); [eauto|done].
Qed.

Lemma take_S_head (o : list bool) j : true ∈ take (S j) o ↔ head o = Some true ∨ true ∈ take j (tail o).
Proof. destruct o as [|b o]; simpl; [rewrite !take_nil; naive_solver|]. rewrite elem_of_cons. naive_solver. Qed.

Lemma bst_insert_prefix_spec s o v (key : list Z) bits :
  bst_inv s → bits ≤ 8 * length key → (entries s + 1 < 2 ^ 32)%Z →
  ∃ res s', bst_insert_prefix o (Some v) key bits s = Done (res, s') ∧ inserted s s' res (path key bits) o v.
Proof.
  intros Hinv Hlen Hb. unfold bst_insert_prefix.
  rewrite (bind_done _ _ _ _ _ (eq_refl : gets entries s = Done (_, s))). set (k := path key bits).
  assert (Hfin : ∀ s0 r, bst_inv s0 → root s0 = Some r → entries s0 = entries s → world s0 = world s →
    (∀ k', table s0 k' = table s k') → (true ∈ take (missing s0 k) (oom s0) ↔ true ∈ take (allocs s k) (oom s)) →
    (is_Some (table s k) → s0 = s) →
    ∃ res s', (c ← bst_node_insert_prefix r o (Some v) key bits;
        match c with None => mret None | Some c => _ ← modify (λ s, set_entries (u32 (entries s + 1)) s); mret (Some c) end) s0 = Done (res, s') ∧
      inserted s s' res k o v).
  { intros s0 r Hinv0 Hr0 He0 Hw0 Ht0 Ho0 Hs0.
    destruct (node_insert_spec s0 r o v key bits) as (res & s1 & Hrun & Hpl); [done|done|done|by rewrite He0|].
    fold k in Hpl. rewrite (bind_done _ _ _ _ _ Hrun). unfold placed in Hpl. unfold inserted. rewrite Ht0 in Hpl.
    destruct (table s k) as [x|] eqn:Ht.
    { destruct Hpl as [-> ->]. exists None, s0. split; [done|]. split; [done|]. apply Hs0. by exists x. }
    rewrite (decide_ext _ _ _ _ Ho0) in Hpl. case_decide as Hj.
    - destruct Hpl as (-> & F1 & F2 & F3 & F4 & F5 & _). exists None, s1. split; [done|].
      split_and!; [done|done|intros k'; by rewrite F2|congruence|congruence].
    - destruct Hpl as (P1 & P2 & P3 & P4 & P5 & P6). rewrite Hw0 in *. rewrite He0 in *.
      assert (P1' : ∀ k', table s1 k' = if decide (k' = k) then Some v else table s k') by (intros k'; by rewrite P1, Ht0).
      destruct ((init_result o v (world s)).1 <? 0)%Z.
      + subst res. exists None, s1. by split_and!.
      + destruct P3 as [c Hc]. rewrite Hc in P6. subst res.
        exists (Some c), (set_entries (u32 (entries s1 + 1)) s1). split; [done|].
        rewrite P4, wrap_small by (pose proof (inv_entries _ Hinv); lia).
        split_and!; [exact P1'|done|by exists c|done|done|done]. }
  destruct (Z.eqb_spec (entries s) 0) as [He|He].
  - destruct (insert_root_spec s Hinv He) as (res & s0 & Hrun & Hi & Hr & He0 & Hw0 & Ho0 & Hres).
    rewrite (bind_done _ _ _ _ _ Hrun). assert (Ea : allocs s k = S (length k)) by (unfold allocs; by rewrite (proj2 (Z.eqb_eq _ _) He)).
    assert (Htn : ∀ k', table s k' = None) by (intros k'; by apply no_entries_table).
    destruct res as [r|].
    + apply Hfin; [done|done|congruence|done|intros k'; by rewrite Htn, no_entries_table| |intros [? ?]; by rewrite Htn in *].
      destruct Hres as [Hh Hmis]. rewrite Ea, Hmis, Ho0, take_S_head. naive_solver.
    + exists None, s0. split; [done|]. unfold inserted. rewrite Htn, Ea, decide_True by (apply take_S_head; by left).
      split_and!; [done|done|intros k'; by rewrite Htn, no_entries_table|congruence|done].
  - destruct (active_root s Hinv He) as [r Hr].
    rewrite (bind_done _ _ _ (Some r) s) by (unfold mbind, M_bind, gets; by rewrite Hr).
    apply Hfin; try done. unfold allocs. by rewrite (proj2 (Z.eqb_neq _ _) He).
Qed.

(** C5: [bst_insert_prefix] of an object under a bit string terminates and
    touches only allocated memory, and its result is exactly one of these.  If
    the bit string is in use it returns [NULL] and changes nothing.  Otherwise,
    if one of the allocations it needs fails (one for each missing node of the
    path, or for the whole path and the root when the trie has no entries), it
    returns [NULL] and the table and the count are unchanged.  Otherwise the
    table maps the bit string to the object and is else unchanged, and the
    callback [init] has run: if it failed, [NULL] is returned although the
    object is in the trie, where it is not counted; if not, the node is returned
    and counted, and the trie is well-formed. *)
Theorem bst_insert_prefix_correct s o v (key : list Z) bits :
  bst_inv s → bits ≤ 8 * length key → (entries s + 1 < 2 ^ 32)%Z →
  ∃ res s', bst_insert_prefix o (Some v) key bits s = Done (res, s') ∧ inserted s s' res (path key bits) o v.
Proof. apply bst_insert_prefix_spec. Qed.

(** For clients whose callback always succeeds, such as the service table. *)
Definition init_succeeds (o : option (bst_node_ops P W)) : Prop := ∀ v w, init_result o v w = (0%Z, w).

Lemma insert_prefix_ok s o v (key : list Z) bits :
  bst_inv s → bits ≤ 8 * length key → init_succeeds o → (entries s + 1 < 2 ^ 32)%Z →
  ∃ res s', bst_insert_prefix o (Some v) key bits s = Done (res, s') ∧ bst_inv s' ∧ world s' = world s ∧
    (table s (path key bits) = None → match res with
      | Some c => node_at s' (path key bits) = Some c ∧
                  ∀ k', table s' k' = if decide (k' = path key bits) then Some v else table s k'
      | None => true ∈ oom s ∧ ∀ k', table s' k' = table s k'
      end).
Proof.
  intros Hinv Hlen Hi Hb. destruct (bst_insert_prefix_spec s o v key bits Hinv Hlen Hb) as (res & s' & Hrun & H).
  exists res, s'. split; [done|]. unfold inserted in H. destruct (table s (path key bits)).
  { destruct H as [-> ->]. by split_and!. }
  rewrite Hi in H. case_decide as Hj; simpl in H.
  - destruct H as (-> & H1 & H2 & _ & H3). split_and!; [done|done|]. intros _. split; [|done].
    rewrite <-(take_drop (allocs s (path key bits)) (oom s)). apply elem_of_app. by left.
  - destruct H as (H1 & H2 & [c Hc] & -> & _ & H3). split_and!; [done|done|]. intros _. by rewrite Hc.
Qed.

Lemma bst_init_inv (w : W) o : bst_inv (bst_init w o : st).
Proof.
  split; simpl; try done.
  intros p. rewrite lookup_empty. by intros [].
Qed.

(** The state after an insertion that returned. *)
Definition after_insert o v (key : list Z) bits (s : st) : st :=
  match bst_insert_prefix o (Some v) key bits s with Done (_, s') => s' | _ => s end.

Lemma after_insert_inv s o v (key : list Z) bits :
  bst_inv s → bits ≤ 8 * length key → init_succeeds o → (entries s + 1 < 2 ^ 32)%Z →
  bst_inv (after_insert o v key bits s).
Proof.
  intros H1 H2 H3 H4. unfold after_insert.
  destruct (insert_prefix_ok s o v key bits H1 H2 H3 H4) as (r & s' & -> & H & _). exact H.
Qed.

(** A full-length match is found exactly when the table has the entry. *)
Lemma find_exact s (key : list Z) bits :
  bst_inv s → bits ≤ 8 * length key →
  ∃ o, bst_find_longest_prefix key bits s = Done (o, s) ∧
    match table s (path key bits) with
    | Some v => ∃ p n, o = Some p ∧ nodes s !! p = Some n ∧ prefix_bits n = bits ∧
                  node_at s (path key bits) = Some p ∧ private n = Some v
    | None => ∀ p n, o = Some p → nodes s !! p = Some n → prefix_bits n ≠ bits
    end.
Proof.
  intros Hinv Hlen. unfold bst_find_longest_prefix. rewrite bst_find_spec by (done || apply callable_none).
  eexists; split; [done|]. set (K := path key bits).
  assert (Hgood : ∀ k, good s None k = bool_decide (is_Some (table s k))).
  { intros k. unfold good. by destruct (table s k). }
  assert (HlK : length K = bits) by apply path_length.
  unfold lpm. rewrite HlK, seq_S, fmap_app, filter_app. simpl.
  assert (HK : take bits K = K) by (apply take_ge; lia).
  rewrite filter_cons, HK, Hgood. destruct (table s K) as [v|] eqn:Ht; simpl.
  - rewrite filter_nil, last_snoc. simpl.
    unfold table in Ht. apply bind_Some in Ht as (p & Hp & (n & Hn & Hv)%bind_Some).
    exists p, n. split_and!; auto.
    destruct (node_at_bits _ _ _ Hinv Hp) as (n' & Hn' & Hb). assert (n' = n) as -> by congruence.
    by rewrite <-node_bits_length, Hb, HlK.
  - rewrite filter_nil, app_nil_r. intros p n Hp Hn Hb.
    apply bind_Some in Hp as (k & Hk & Hp). apply last_filter_longest in Hk as (i & Hi & <- & _).
    destruct (node_at_bits _ _ _ Hinv Hp) as (n' & Hn' & Hbits).
    assert (n' = n) as -> by congruence. apply (f_equal length) in Hbits.
    rewrite node_bits_length, length_take in Hbits. lia.
Qed.

(** C6: [bst_remove_prefix] removes the object of exactly the given bit
    string and returns 1, or returns 0 and changes nothing when the string
    has no object; longer and shorter prefixes are never touched. *)
Theorem bst_remove_prefix_correct s (key : list Z) bits :
  bst_inv s → bits ≤ 8 * length key →
  match table s (path key bits) with
  | None => bst_remove_prefix key bits s = Done (0%Z, s)
  | Some v => ∃ s', bst_remove_prefix key bits s = Done (1%Z, s') ∧ bst_inv s' ∧
      entries s' = (entries s - 1)%Z ∧
      ∀ k, table s' k = if decide (k = path key bits) then None else table s k
  end.
Proof.
  intros Hinv Hlen. unfold bst_remove_prefix.
  destruct (find_exact s key bits Hinv Hlen) as (o & Hrun & Hres).
  rewrite (bind_done _ _ _ _ _ Hrun). destruct (table s (path key bits)) as [v|] eqn:Ht.
  - destruct Hres as (p & n & -> & Hn & Hb & Hat & Hv).
    rewrite (bind_done _ _ _ _ _ (load_run _ _ _ Hn)), decide_True by done.
    rewrite (bind_done _ _ _ _ _ (orphan_run s p n Hinv Hn)), Hv.
    exists (orphaned p n v s). split_and!; [done|by apply orphaned_inv|done|].
    intros k. rewrite orphaned_table by done. unfold table_minus.
    repeat case_decide; try done; [|congruence]. exfalso. apply H0. by eapply node_at_inj.
  - destruct o as [p|]; [|done]. unfold bst_find_longest_prefix in Hrun.
    rewrite bst_find_spec in Hrun by (done || apply callable_none). injection Hrun as Hp.
    apply bind_Some in Hp as (k & _ & Hp).
    destruct (node_at_bits _ _ _ Hinv Hp) as (n & Hn & _).
    rewrite (bind_done _ _ _ _ _ (load_run _ _ _ Hn)), decide_False; [done|]. by eapply Hres.
Qed.
End Ops.

(** ** A concrete trie *)

Definition demo_ops : bst_node_ops nat nat :=
  BstNodeOps (Some (λ _ w, (0%Z, w))) (Some (λ _ w, S w)).

(** A trie whose only entry is the default one, 0/0 with object 9. *)
Definition demo_default : bst nat nat :=
  after_insert (Some demo_ops) 9 [0; 0; 0; 0]%Z 0 (bst_init 0 []).

(** The same with 192.168.1.0/24 and object 7. *)
Definition demo_state : bst nat nat :=
  after_insert (Some demo_ops) 7 [192; 168; 1; 0]%Z 24 demo_default.

Lemma demo_init_succeeds : init_succeeds (Some demo_ops).
Proof. done. Qed.

Lemma demo_default_inv : bst_inv demo_default.
Proof.
  apply after_insert_inv; [apply bst_init_inv|apply Nat.leb_le; reflexivity|apply demo_init_succeeds|].
  vm_compute. reflexivity.
Qed.

Lemma demo_inv : bst_inv demo_state.
Proof.
  apply after_insert_inv; [apply demo_default_inv|apply Nat.leb_le; reflexivity|apply demo_init_succeeds|].
  vm_compute. reflexivity.
Qed.

Lemma bst_find_longest_prefix_correct_witness :
  ∃ p, bst_find_longest_prefix_match [192; 168; 1; 5]%Z 32 None demo_state = Done (Some p, demo_state).
Proof.
  destruct (bst_find_longest_prefix_correct demo_state [192; 168; 1; 5]%Z 32 None demo_inv)
    as ([p|] & H & Hs); [simpl; lia|apply callable_none|by exists p|].
  specialize (Hs [] ltac:(apply prefix_nil)). vm_compute in Hs. discriminate.
Defined.

Lemma bst_insert_prefix_correct_witness :
  ∃ res s', bst_insert_prefix (Some demo_ops) (Some 3) [10; 0; 0; 0]%Z 8 demo_state = Done (res, s') ∧
    inserted demo_state s' res (path [10; 0; 0; 0]%Z 8) (Some demo_ops) 3.
Proof.
  apply (bst_insert_prefix_correct demo_state (Some demo_ops) 3 [10; 0; 0; 0]%Z 8);
    [apply demo_inv|simpl; lia|vm_compute; reflexivity].
Defined.

Lemma bst_remove_prefix_correct_witness :
  ∃ s', bst_remove_prefix [192; 168; 1; 77]%Z 24 demo_state = Done (1%Z, s') ∧ bst_inv s'.
Proof.
  pose proof (bst_remove_prefix_correct demo_state [192; 168; 1; 77]%Z 24 demo_inv) as H.
  specialize (H ltac:(simpl; lia)).
  change (table demo_state (path [192; 168; 1; 77]%Z 24)) with (Some 7) in H.
  destruct H as (s' & H1 & H2 & _). eauto.
Defined.

(** The node of the /24 entry is at address 25. *)
Definition demo_leaf : bst_node nat nat :=
  default (root_node 0) (nodes demo_state !! 25).

Lemma bst_node_release_correct_witness :
  ∃ s', bst_node_release 25 demo_state = Done (tt, s') ∧ bst_inv s' ∧ pruned demo_state s' (path [192; 168; 1; 0]%Z 24).
Proof.
  destruct (bst_node_release_correct demo_state 25 demo_leaf) as (s' & H1 & H2 & _ & H3 & _).
  - apply demo_inv.
  - vm_compute. reflexivity.
  - vm_compute. reflexivity.
  - left. vm_compute. discriminate.
  - exists s'. split; [exact H1|]. split; [exact H2|]. exact H3.
Defined.

Lemma bst_node_release_root_fault_witness : bst_node_release 1 demo_default = Fault.
Proof.
  apply (bst_node_release_root_fault demo_default 1
           (BstNode 1 None None (Some demo_ops) (Some 9) 0 0 [])).
  - apply demo_default_inv.
  - reflexivity.
  - reflexivity.
  - reflexivity.
  - reflexivity.
Defined.
