(* ===== verification/ServiceEntry.v ===== *)
(** * Service entries ([src/stack/service.c], entry level)

    A service entry holds a list of target sets in descending order of
    priority; a set holds the targets of one priority.  This file models the
    operations that work on one entry: the creation and release of targets,
    the search, addition, modification and removal of targets, the iterators
    and the statistics.  [ServiceTable.v] puts entries into the trie.

    Entries live at addresses in [ents]; network devices and sockets live in
    [objs] with their reference counts, so the use of an object after its
    last reference is a [Fault], as is taking a device operation on a socket.
    [kmem] says which allocations fail.  The user-level build is modelled
    (no [OS_LINUX_KERNEL] sections). *)
From stdpp Require Import sorting.
From S2P Require Import Prelude.

Local Open Scope nat_scope.

Abbreviation loc := nat.

(** Characters of a C string, without the final NUL. *)
Abbreviation cstr := (list Z).

Definition EINVAL : Z := 22.
Definition ENOMEM : Z := 12.
Definition EEXIST : Z := 17.
Definition EADDRINUSE : Z := 98.

(** ** Data *)

Inductive service_rule_type :=
| SERVICE_RULE_UNDEFINED
| SERVICE_RULE_FORWARD
| SERVICE_RULE_DEMUX
| SERVICE_RULE_DELAY
| SERVICE_RULE_DROP.

#[export] Instance service_rule_type_eq_dec : EqDecision service_rule_type.
Proof. solve_decision. Defined.

(** The four [atomic_t] statistics counters that targets, entries and the
    table all have. *)
Record stats := Stats {
  packets_resolved : Z;
  bytes_resolved : Z;
  bytes_dropped : Z;
  packets_dropped : Z
}.

Definition no_stats : stats := Stats 0 0 0 0.

Record target := Target {
  type : service_rule_type;
  weight : Z;
  taas_auth : Z;
  t_stats : stats;
  out : option loc;
  dstlen : nat;
  nat_set : Z;
  nat_src_addr : list Z;
  dst : list Z
}.

Record target_set := TargetSet {
  targets : list target;
  normalizer : Z;
  priority : Z;
  flags : Z;
  set_count : Z
}.

(** [lock] counts the readers of the entry's lock. *)
Record service_entry := ServiceEntry {
  node : option loc;
  sets : list target_set;
  count : Z;
  se_stats : stats;
  lock : Z;
  refcnt : Z
}.

(** A network device or a socket. *)
Inductive object :=
| ODev (name : cstr) (dev_refcnt : Z)
| OSock (sk_protocol : Z) (sk_refcnt : Z).

(** The fields of [struct service_table] other than the tree, and the memory
    that entries live in.  [poisoned] records that a callback of the trie,
    which cannot report an error, used freed memory. *)
Record world := World {
  ents : gmap loc service_entry;
  objs : gmap loc object;
  next_ent : loc;
  kmem : list bool;
  services : Z;
  tbl_stats : stats;
  poisoned : bool
}.

(** A pointer argument [const void *dst]: a buffer of bytes, or the address
    of an object. *)
Inductive ptr :=
| PBuf (bytes : list Z)
| PObj (o : loc).

Definition set_ents (f : gmap loc service_entry → gmap loc service_entry) (w : world) : world :=
  World (f (ents w)) (objs w) (next_ent w) (kmem w) (services w) (tbl_stats w) (poisoned w).
Definition set_objs (f : gmap loc object → gmap loc object) (w : world) : world :=
  World (ents w) (f (objs w)) (next_ent w) (kmem w) (services w) (tbl_stats w) (poisoned w).
Definition set_kmem (k : list bool) (w : world) : world :=
  World (ents w) (objs w) (next_ent w) k (services w) (tbl_stats w) (poisoned w).
Definition set_services (n : Z) (w : world) : world :=
  World (ents w) (objs w) (next_ent w) (kmem w) n (tbl_stats w) (poisoned w).
Definition set_tbl_stats (f : stats → stats) (w : world) : world :=
  World (ents w) (objs w) (next_ent w) (kmem w) (services w) (f (tbl_stats w)) (poisoned w).
Definition poison (w : world) : world :=
  World (ents w) (objs w) (next_ent w) (kmem w) (services w) (tbl_stats w) true.

Definition set_sets (l : list target_set) (n : Z) (e : service_entry) : service_entry :=
  ServiceEntry (node e) l n (se_stats e) (lock e) (refcnt e).
Definition set_lock (n : Z) (e : service_entry) : service_entry :=
  ServiceEntry (node e) (sets e) (count e) (se_stats e) n (refcnt e).
Definition set_refcnt (n : Z) (e : service_entry) : service_entry :=
  ServiceEntry (node e) (sets e) (count e) (se_stats e) (lock e) n.
Definition set_node (p : option loc) (e : service_entry) : service_entry :=
  ServiceEntry p (sets e) (count e) (se_stats e) (lock e) (refcnt e).
Definition set_se_stats (f : stats → stats) (e : service_entry) : service_entry :=
  ServiceEntry (node e) (sets e) (count e) (f (se_stats e)) (lock e) (refcnt e).
Definition set_t_stats (f : stats → stats) (t : target) : target :=
  Target (type t) (weight t) (taas_auth t) (f (t_stats t)) (out t) (dstlen t) (nat_set t)
    (nat_src_addr t) (dst t).
Definition set_targets (l : list target) (s : target_set) : target_set :=
  TargetSet l (normalizer s) (priority s) (flags s) (set_count s).

(** ** Memory *)

Definition kmalloc : M world bool :=
  λ w, match kmem w with
       | true :: k => Done (false, set_kmem k w)
       | k => Done (true, set_kmem (tail k) w)
       end.

Definition se_load (se : loc) : M world service_entry :=
  λ w, match ents w !! se with Some e => Done (e, w) | None => Fault end.
Definition se_store (se : loc) (f : service_entry → service_entry) : M world unit :=
  λ w, match ents w !! se with
       | Some e => Done (tt, set_ents <[se := f e]> w)
       | None => Fault
       end.

(** [atomic_inc] and [atomic_dec_and_test] on the count of an object; the
    last reference frees it. *)
Definition dev_hold (d : loc) : M world unit :=
  λ w, match objs w !! d with
       | Some (ODev n r) => Done (tt, set_objs <[d := ODev n (s32 (r + 1))]> w)
       | _ => Fault
       end.
Definition dev_put (d : loc) : M world unit :=
  λ w, match objs w !! d with
       | Some (ODev n r) =>
           if (s32 (r - 1) =? 0)%Z then Done (tt, set_objs (delete d) w)
           else Done (tt, set_objs <[d := ODev n (s32 (r - 1))]> w)
       | _ => Fault
       end.
Definition sock_hold (k : loc) : M world unit :=
  λ w, match objs w !! k with
       | Some (OSock p r) => Done (tt, set_objs <[k := OSock p (s32 (r + 1))]> w)
       | _ => Fault
       end.
Definition sock_put (k : loc) : M world unit :=
  λ w, match objs w !! k with
       | Some (OSock p r) =>
           if (s32 (r - 1) =? 0)%Z then Done (tt, set_objs (delete k) w)
           else Done (tt, set_objs <[k := OSock p (s32 (r - 1))]> w)
       | _ => Fault
       end.
Definition sk_protocol_of (k : option loc) : M world Z :=
  λ w, match k with
       | Some k => match objs w !! k with Some (OSock p _) => Done (p, w) | _ => Fault end
       | None => Fault
       end.
Definition dev_name_of (d : loc) : M world cstr :=
  λ w, match objs w !! d with Some (ODev n _) => Done (n, w) | _ => Fault end.

(** The entry's reader/writer lock.  A lock that is taken while it is held
    in a conflicting way never returns, which counts as a [Fault]; the writer
    section of an operation starts with no readers and ends before anything
    else runs. *)
Definition read_lock_bh (se : loc) : M world unit :=
  e ← se_load se;
  if (lock e <? 0)%Z then fault else se_store se (set_lock (lock e + 1)%Z).
Definition read_unlock_bh (se : loc) : M world unit := se_store se (λ e, set_lock (lock e - 1)%Z e).
Definition write_lock_bh (se : loc) : M world unit :=
  e ← se_load se;
  if (lock e =? 0)%Z then se_store se (set_lock (-1)%Z) else fault.
Definition write_unlock_bh (se : loc) : M world unit := se_store se (set_lock 0%Z).

(** [memcmp(a, b, n) == 0]; reading past the end of a buffer is a fault. *)
Definition memcmp_eq (a b : list Z) (n : nat) : option bool :=
  if decide (n ≤ length a ∧ n ≤ length b) then Some (bool_decide (take n a = take n b)) else None.

(** The first [n] bytes a pointer argument points to. *)
Definition read_bytes (p : option ptr) (n : nat) : option (list Z) :=
  match p with
  | Some (PBuf b) => if decide (n ≤ length b) then Some (take n b) else None
  | _ => None
  end.

(** ** Targets *)

Definition is_sock_target (t : target) : bool :=
  bool_decide (type t = SERVICE_RULE_DEMUX ∧ dstlen t = 0).

Definition target_create (ty : service_rule_type) (d : option ptr) (dlen : nat) (nset : Z)
    (nsrc : option (list Z)) (o : option loc) (wt auth : Z) : M world (option target) :=
  if decide (dlen = 0 ∧ o = None) then mret None
  else
    ok ← kmalloc;
    if (ok : bool) then
      nsrc ← (if (0 <? nset)%Z then nsrc ← deref nsrc; mret (take 4 nsrc)
              else mret [0; 0; 0; 0]%Z);
      if decide (dlen = 0) then
        k ← deref o;
        _ ← sock_hold k;
        mret (Some (Target ty wt auth no_stats (Some k) 0 nset nsrc []))
      else
        _ ← match o with Some v => dev_hold v | None => mret tt end;
        b ← deref (read_bytes d dlen);
        mret (Some (Target ty wt auth no_stats o dlen nset nsrc b))
    else mret None.

Definition target_free (t : target) : M world unit :=
  match out t with
  | None => mret tt
  | Some o => if is_sock_target t then sock_put o else dev_put o
  end.

Definition target_set_create (fl prio : Z) : M world (option target_set) :=
  ok ← kmalloc;
  mret (if (ok : bool) then Some (TargetSet [] 0 prio fl 0) else None).

(** The loop of [target_set_free]. *)
Fixpoint targets_free (l : list target) : M world unit :=
  match l with
  | [] => mret tt
  | t :: l => _ ← target_free t; targets_free l
  end.
Definition target_set_free (s : target_set) : M world unit := targets_free (targets s).

(** ** Search *)

(** The two nested [list_for_each_entry] loops with an early return: the
    position of the first target that satisfies the test. *)
Fixpoint find_in_set (f : target → M world bool) (l : list target) : M world (option nat) :=
  match l with
  | [] => mret None
  | t :: l =>
      b ← f t;
      if (b : bool) then mret (Some 0) else r ← find_in_set f l; mret (S <$> r)
  end.
Fixpoint find_in_sets (f : target → M world bool) (l : list target_set)
  : M world (option (nat * nat)) :=
  match l with
  | [] => mret None
  | s :: l =>
      r ← find_in_set f (targets s);
      match r with
      | Some j => mret (Some (0, j))
      | None => r ← find_in_sets f l; mret ((λ '(i, j), (S i, j)) <$> r)
      end
  end.

Definition target_at (l : list target_set) (ij : nat * nat) : option target :=
  s ← l !! ij.1; targets s !! ij.2.

Definition dev_test (ifname : cstr) (t : target) : M world bool :=
  match is_sock_target t, out t with
  | false, Some d => n ← dev_name_of d; mret (bool_decide (n = ifname))
  | _, _ => mret false
  end.

(** [__service_entry_get_dev] *)
Definition entry_get_dev (se : loc) (ifname : cstr) : M world (option (nat * nat)) :=
  e ← se_load se;
  find_in_sets (dev_test ifname) (sets e).

Definition MATCH_NO_PROTOCOL : Z := -1.
Definition MATCH_ANY_PROTOCOL : Z := 0.

(** [None]: the comparison reads outside a buffer. *)
Definition is_target (t : target) (ty : service_rule_type) (d : option ptr) (dlen : nat)
  : option bool :=
  if decide (type t ≠ ty) then Some false
  else
    match ty with
    | SERVICE_RULE_DEMUX =>
        match d with
        | None => Some true
        | Some (PObj o) => Some (bool_decide (out t = Some o))
        | Some (PBuf _) => Some false
        end
    | SERVICE_RULE_FORWARD =>
        match d with
        | None => Some true
        | Some (PBuf b) => memcmp_eq (dst t) b dlen
        | Some (PObj _) => None
        end
    | _ => Some true
    end.

(** The test of the loops of [__service_entry_get_target]. *)
Definition get_target_test (ty : service_rule_type) (d : option ptr) (dlen : nat) (protocol : Z)
    (t : target) : M world bool :=
  if decide (type t ≠ ty) then mret false
  else
    b ← deref (is_target t ty d dlen);
    if (b : bool) then
      if decide (ty = SERVICE_RULE_DEMUX) then
        p ← sk_protocol_of (out t);
        mret ((p =? protocol) || (protocol =? MATCH_ANY_PROTOCOL))%Z
      else mret true
    else mret false.

(** [__service_entry_get_target] *)
Definition entry_get_target (se : loc) (ty : service_rule_type) (d : option ptr) (dlen : nat)
    (protocol : Z) : M world (option (nat * nat)) :=
  e ← se_load se;
  find_in_sets (get_target_test ty d dlen protocol) (sets e).

Definition service_entry_get_dev (se : loc) (ifname : cstr) : M world (option loc) :=
  _ ← read_lock_bh se;
  r ← entry_get_dev se ifname;
  e ← se_load se;
  let t := ij ← r; target_at (sets e) ij in
  _ ← match t with Some t => d ← deref (out t); dev_hold d | None => mret tt end;
  _ ← read_unlock_bh se;
  mret (t ← t; out t).

(** ** Changing the sets of an entry *)

Definition target_set_add_target (t : target) (s : target_set) : target_set :=
  TargetSet (targets s ++ [t]) (u32 (normalizer s + weight t)) (priority s) (flags s)
    (u16 (set_count s + 1)).

(** The new set goes before the first one of lower priority; the second
    component is its position. *)
Fixpoint service_entry_insert_target_set (l : list target_set) (s : target_set)
  : list target_set * nat :=
  match l with
  | [] => ([s], 0)
  | x :: l' =>
      if (priority x <? priority s)%Z then (s :: l, 0)
      else let '(r, k) := service_entry_insert_target_set l' s in (x :: r, S k)
  end.

(** [__service_entry_get_target_set]: the position of the set. *)
Definition entry_get_target_set (l : list target_set) (prio : Z) : option nat :=
  fst <$> list_find (λ s, priority s = prio) l.

(** The set of a priority, made and linked if there is none. *)
Definition get_or_create_set (l : list target_set) (fl prio : Z)
  : M world (option (list target_set * nat * bool)) :=
  match entry_get_target_set l prio with
  | Some i => mret (Some (l, i, false))
  | None =>
      s ← target_set_create fl prio;
      mret (match s with
            | Some s => let '(l', k) := service_entry_insert_target_set l s in Some (l', k, true)
            | None => None
            end)
  end.

(** [__service_entry_add_target] *)
Definition entry_add_target (se : loc) (ty : service_rule_type) (fl prio wt auth : Z)
    (d : option ptr) (dlen : nat) (nset : Z) (nsrc : option (list Z)) (o : option loc)
  : M world Z :=
  protocol ← (if decide (dlen = 0) then sk_protocol_of o else mret MATCH_NO_PROTOCOL);
  r ← entry_get_target se ty d dlen protocol;
  e ← se_load se;
  match (ij ← r; target_at (sets e) ij) with
  | Some t => mret (if is_sock_target t then - EADDRINUSE else 0)%Z
  | None =>
      t ← target_create ty d dlen nset nsrc o wt auth;
      match t with
      | None => mret (- ENOMEM)%Z
      | Some t =>
          r ← get_or_create_set (sets e) fl prio;
          match r with
          | None => _ ← target_free t; mret (- ENOMEM)%Z
          | Some (l, i, _) =>
              _ ← se_store se (λ e, set_sets (alter (target_set_add_target t) i l) (u32 (count e + 1)) e);
              mret 1%Z
          end
      end
  end.

Definition service_entry_add_target (se : loc) (ty : service_rule_type) (fl prio wt auth : Z)
    (d : option ptr) (dlen : nat) (nset : Z) (nsrc : option (list Z)) (o : option loc)
  : M world Z :=
  _ ← write_lock_bh se;
  r ← entry_add_target se ty fl prio wt auth d dlen nset nsrc o;
  _ ← write_unlock_bh se;
  mret r.

(** [t] is the target at position [j]. *)
Definition target_set_remove_target (j : nat) (t : target) (s : target_set) : target_set :=
  TargetSet (delete j (targets s)) (u32 (normalizer s - weight t)) (priority s) (flags s)
    (u16 (set_count s - 1)).

(** The end of every removal: a set whose count is zero is unlinked and
    freed. *)
Definition drop_if_empty (i : nat) (l : list target_set) : M world (list target_set) :=
  s ← deref (l !! i);
  if (set_count s =? 0)%Z then _ ← target_set_free s; mret (delete i l) else mret l.

Definition set_dst (b : list Z) (t : target) : target :=
  Target (type t) (weight t) (taas_auth t) (t_stats t) (out t) (dstlen t) (nat_set t)
    (nat_src_addr t) b.
Definition set_weight (wt : Z) (t : target) : target :=
  Target (type t) wt (taas_auth t) (t_stats t) (out t) (dstlen t) (nat_set t)
    (nat_src_addr t) (dst t).
Definition set_flags (fl : Z) (s : target_set) : target_set :=
  TargetSet (targets s) (normalizer s) (priority s) fl (set_count s).

(** The weight of a target that stays in its set. *)
Definition target_set_reweigh (j : nat) (t : target) (wt fl : Z) (s : target_set) : target_set :=
  TargetSet (<[j := set_weight wt t]> (targets s))
    (u32 (u32 (normalizer s - weight t) + wt)) (priority s) fl (set_count s).

(** [memcpy(t->dst, new_dst, new_dstlen)] when the lengths agree. *)
Definition copy_dst (t : target) (nd : option ptr) (ndlen : nat) : M world target :=
  match nd with
  | Some _ =>
      if decide (ndlen = dstlen t) then b ← deref (read_bytes nd ndlen); mret (set_dst b t)
      else mret t
  | None => mret t
  end.

(** Moving a target to the set at [k].  When that set is new and linked
    before the target's own one, the latter is one place further down; when
    the own set goes away, the sets after it are one place further up. *)
Definition move_target (l : list target_set) (i j k : nat) (fresh : bool) (t : target) (wt fl : Z)
  : M world (list target_set) :=
  let i := if fresh && bool_decide (k ≤ i) then S i else i in
  let l := alter (target_set_remove_target j t) i l in
  s ← deref (l !! i);
  let empty := (set_count s =? 0)%Z in
  l ← drop_if_empty i l;
  let k := if empty && bool_decide (i < k) then pred k else k in
  mret (alter (λ s, set_flags fl (target_set_add_target (set_weight wt t) s)) k l).

(** [__service_entry_modify_target] *)
Definition entry_modify_target (se : loc) (ty : service_rule_type) (fl prio wt : Z)
    (d : option ptr) (dlen : nat) (nd : option ptr) (ndlen : nat) : M world Z :=
  if decide (ty = SERVICE_RULE_DEMUX ∨ dlen = 0) then mret (-1)%Z
  else
    r ← entry_get_target se ty d dlen MATCH_NO_PROTOCOL;
    e ← se_load se;
    match r with
    | None => mret 0%Z
    | Some (i, j) =>
        t ← deref (target_at (sets e) (i, j));
        s ← deref (sets e !! i);
        t ← copy_dst t nd ndlen;
        let l := alter (λ s, set_targets (<[j := t]> (targets s)) s) i (sets e) in
        _ ← se_store se (set_sets l (count e));
        if (priority s =? prio)%Z then
          _ ← se_store se (set_sets (alter (target_set_reweigh j t wt fl) i l) (count e));
          mret 1%Z
        else
          r ← get_or_create_set l fl prio;
          match r with
          | None => mret (- ENOMEM)%Z
          | Some (l, k, fresh) =>
              l ← move_target l i j k fresh t wt fl;
              _ ← se_store se (set_sets l (count e));
              mret 1%Z
          end
    end.

Definition service_entry_modify_target (se : loc) (ty : service_rule_type) (fl prio wt : Z)
    (d : option ptr) (dlen : nat) (nd : option ptr) (ndlen : nat) : M world Z :=
  _ ← write_lock_bh se;
  r ← entry_modify_target se ty fl prio wt d dlen nd ndlen;
  _ ← write_unlock_bh se;
  mret r.

(** ** Statistics *)

(** A positive number of packets counts as resolved, otherwise the negated
    numbers count as dropped. *)
Definition add_stats (packets bytes : Z) (s : stats) : stats :=
  if (0 <? packets)%Z then
    Stats (s32 (packets_resolved s + packets)) (s32 (bytes_resolved s + bytes))
      (bytes_dropped s) (packets_dropped s)
  else
    Stats (packets_resolved s) (bytes_resolved s)
      (s32 (bytes_dropped s - bytes)) (s32 (packets_dropped s - packets)).

Definition alter_target (f : target → target) (ij : nat * nat) (l : list target_set)
  : list target_set :=
  alter (λ s, set_targets (alter f ij.2 (targets s)) s) ij.1 l.

Definition upd_target (f : target → target) (ij : nat * nat) (e : service_entry) : service_entry :=
  set_sets (alter_target f ij (sets e)) (count e) e.

(** [__service_entry_inc_target_stats] *)
Definition entry_inc_target_stats (se : loc) (ty : service_rule_type) (d : option ptr)
    (dlen : nat) (packets bytes : Z) : M world unit :=
  r ← entry_get_target se ty d dlen MATCH_NO_PROTOCOL;
  match r with
  | None => mret tt
  | Some ij =>
      _ ← se_store se (λ e, set_se_stats (add_stats packets bytes)
            (upd_target (set_t_stats (add_stats packets bytes)) ij e));
      modify (set_tbl_stats (add_stats packets bytes))
  end.

Definition service_entry_inc_target_stats (se : loc) (ty : service_rule_type) (d : option ptr)
    (dlen : nat) (packets bytes : Z) : M world unit :=
  _ ← read_lock_bh se;
  _ ← entry_inc_target_stats se ty d dlen packets bytes;
  read_unlock_bh se.

(** ** Removal *)

(** The targets of one set in [__service_entry_remove_target_by_dev]: [j] is
    the position of the next target to look at, [todo] the targets from
    there on.  The set is freed as soon as its count is zero, but the loop
    over its targets goes on: to find that it is at the end of the list it
    reads the list head inside the set, which is a use of freed memory. *)
Fixpoint remove_dev_in_set (ifname : cstr) (todo : list target) (j : nat) (s : target_set) (n : Z)
  : M world (target_set * Z) :=
  match todo with
  | [] => mret (s, n)
  | t :: todo =>
      b ← match type t, out t with
          | SERVICE_RULE_FORWARD, Some d => nm ← dev_name_of d; mret (bool_decide (nm = ifname))
          | _, _ => mret false
          end;
      if (b : bool) then
        let s := target_set_remove_target j t s in
        _ ← target_free t;
        if (set_count s =? 0)%Z then _ ← target_set_free s; fault
        else remove_dev_in_set ifname todo j s (n + 1)%Z
      else remove_dev_in_set ifname todo (S j) s n
  end.

Fixpoint remove_dev_in_sets (ifname : cstr) (l : list target_set)
  : M world (list target_set * Z) :=
  match l with
  | [] => mret ([], 0%Z)
  | s :: l =>
      '(s, n) ← remove_dev_in_set ifname (targets s) 0 s 0;
      '(l, m) ← remove_dev_in_sets ifname l;
      mret (s :: l, n + m)%Z
  end.

(** [__service_entry_remove_target_by_dev] *)
Definition entry_remove_target_by_dev (se : loc) (ifname : cstr) : M world Z :=
  e ← se_load se;
  '(l, n) ← remove_dev_in_sets ifname (sets e);
  _ ← se_store se (set_sets l (u32 (count e - n)));
  mret n.

(** The test of [__service_entry_remove_target]. *)
Definition remove_test (ty : service_rule_type) (d : option ptr) (dlen : nat) (t : target)
  : M world bool :=
  if decide (type t = ty) then
    match type t with
    | SERVICE_RULE_DEMUX => mret (bool_decide (dlen = 0))
    | SERVICE_RULE_FORWARD =>
        b ← deref (read_bytes d dlen);
        r ← deref (memcmp_eq (dst t) b dlen);
        mret r
    | _ => mret false
    end
  else mret false.

(** [__service_entry_remove_target]; the second component is what is written
    to [stats]. *)
Definition entry_remove_target (se : loc) (ty : service_rule_type) (d : option ptr) (dlen : nat)
  : M world (Z * option stats) :=
  e ← se_load se;
  r ← find_in_sets (remove_test ty d dlen) (sets e);
  match r with
  | None => mret (0%Z, None)
  | Some (i, j) =>
      t ← deref (target_at (sets e) (i, j));
      let l := alter (target_set_remove_target j t) i (sets e) in
      _ ← target_free t;
      l ← drop_if_empty i l;
      _ ← se_store se (set_sets l (u32 (count e - 1)));
      mret (1%Z, Some (t_stats t))
  end.

(** ** Life of an entry *)

Definition new_entry : service_entry := ServiceEntry None [] 0 no_stats 0 1.

Definition alloc_entry : M world loc :=
  λ w, Done (next_ent w,
         World (<[next_ent w := new_entry]> (ents w)) (objs w) (S (next_ent w)) (kmem w)
           (services w) (tbl_stats w) (poisoned w)).

Definition service_entry_create : M world (option loc) :=
  ok ← kmalloc;
  if (ok : bool) then se ← alloc_entry; mret (Some se) else mret None.

Fixpoint sets_free (l : list target_set) : M world unit :=
  match l with
  | [] => mret tt
  | s :: l => _ ← target_set_free s; sets_free l
  end.

(** [__service_entry_free] *)
Definition entry_free (se : loc) : M world unit :=
  e ← se_load se;
  _ ← sets_free (sets e);
  modify (set_ents (delete se)).

Definition service_entry_hold (se : loc) : M world unit :=
  se_store se (λ e, set_refcnt (s32 (refcnt e + 1)) e).

Definition service_entry_put (se : loc) : M world unit :=
  _ ← se_store se (λ e, set_refcnt (s32 (refcnt e - 1)) e);
  e ← se_load se;
  if (refcnt e =? 0)%Z then entry_free se else mret tt.

(** ** Iterators *)

Inductive iter_mode :=
| SERVICE_ITER_ALL
| SERVICE_ITER_DEMUX
| SERVICE_ITER_FORWARD
| SERVICE_ITER_ANYCAST.

#[export] Instance iter_mode_eq_dec : EqDecision iter_mode.
Proof. solve_decision. Defined.

(** The iterator works on the first set of the entry, which the read lock
    keeps in place; a position is an index into that set's list, and the
    length of the list stands for the list head.  [in_set] is [set != NULL]. *)
Record service_iter := ServiceIter {
  entry : loc;
  mode : iter_mode;
  in_set : bool;
  pos : option nat;
  last_pos : option nat
}.

Definition SVSF_MULTICAST : Z := 32.
Definition SAMPLE_SHIFT : Z := 32.
Definition RAND_MAX : Z := 2147483647.

Definition sample_of (rnd norm : Z) : Z :=
  u64 (u64 (Z.shiftl rnd SAMPLE_SHIFT) / RAND_MAX * norm).

(** The loop over the targets of the set: the first one whose cumulated
    weight reaches the sample, else the list head. *)
Fixpoint sample_loop (sample sumweight : Z) (l : list target) (j : nat) : nat :=
  match l with
  | [] => j
  | t :: l =>
      let sumweight := u64 (sumweight + u64 (Z.shiftl (weight t) SAMPLE_SHIFT)) in
      if (sample <=? sumweight)%Z then j else sample_loop sample sumweight l (S j)
  end.

(** [rnd] is what [random()] returns. *)
Definition service_iter_init (se : loc) (m : iter_mode) (rnd : Z) : M world (Z * service_iter) :=
  _ ← read_lock_bh se;
  e ← se_load se;
  let iter0 := ServiceIter se m false None None in
  if decide (count e = 0%Z ∨ sets e = []) then mret ((-1)%Z, iter0)
  else
    s ← deref (sets e !! 0);
    if decide (m = SERVICE_ITER_ANYCAST ∧ Z.land (flags s) SVSF_MULTICAST ≠ 0%Z)
    then mret ((-1)%Z, iter0)
    else if decide (m = SERVICE_ITER_ANYCAST)
    then mret (0%Z, ServiceIter se m false
                      (Some (sample_loop (sample_of rnd (normalizer s)) 0 (targets s) 0)) None)
    else mret (0%Z, ServiceIter se m true (Some 0) None).

Definition service_iter_destroy (it : service_iter) : M world unit := read_unlock_bh (entry it).

Definition wanted (m : iter_mode) (t : target) : bool :=
  match m, type t with
  | SERVICE_ITER_ALL, _ => true
  | SERVICE_ITER_DEMUX, SERVICE_RULE_DEMUX => true
  | SERVICE_ITER_FORWARD, SERVICE_RULE_FORWARD => true
  | _, _ => false
  end.

(** The loop of [service_iter_next] within a set: [l] are the targets from
    position [p] on. *)
Fixpoint iter_scan (m : iter_mode) (l : list target) (p : nat) : nat * option nat :=
  match l with
  | [] => (p, None)
  | t :: l => if wanted m t then (S p, Some p) else iter_scan m l (S p)
  end.

(** The position of the returned target.  Without a set the position itself
    is returned, and the iteration ends. *)
Definition service_iter_next (it : service_iter) : M world (service_iter * option nat) :=
  match pos it with
  | None => mret (ServiceIter (entry it) (mode it) (in_set it) None None, None)
  | Some p =>
      if in_set it then
        e ← se_load (entry it);
        s ← deref (sets e !! 0);
        let '(p', r) := iter_scan (mode it) (drop p (targets s)) p in
        mret (ServiceIter (entry it) (mode it) true (Some p') (Some p), r)
      else mret (ServiceIter (entry it) (mode it) false None (Some p), Some p)
  end.

(** Statistics go to the target at [last_pos]; writing to the list head as if
    it were a target is a [Fault]. *)
Definition inc_last (it : service_iter) (packets bytes : Z) : M world unit :=
  match last_pos it with
  | None => mret tt
  | Some p =>
      e ← se_load (entry it);
      _ ← deref (target_at (sets e) (0, p));
      se_store (entry it) (upd_target (set_t_stats (add_stats packets bytes)) (0, p))
  end.

Definition service_iter_inc_stats (it : service_iter) (packets bytes : Z) : M world unit :=
  if decide (last_pos it = None ∧ (0 < packets)%Z) then mret tt
  else
    _ ← inc_last it packets bytes;
    _ ← se_store (entry it) (set_se_stats (add_stats packets bytes));
    modify (set_tbl_stats (add_stats packets bytes)).

Definition service_iter_get_priority (it : service_iter) : M world Z :=
  match last_pos it, in_set it with
  | Some _, true => e ← se_load (entry it); s ← deref (sets e !! 0); mret (s32 (priority s))
  | _, _ => mret 0%Z
  end.

Definition service_iter_get_flags (it : service_iter) : M world Z :=
  match last_pos it, in_set it with
  | Some _, true => e ← se_load (entry it); s ← deref (sets e !! 0); mret (flags s)
  | _, _ => mret 0%Z
  end.

(** ** The invariant of an entry *)

Implicit Types (w : world) (t : target) (l : list target_set) (e : service_entry).

Definition weights (ts : list target) : Z := foldr (λ t a, weight t + a)%Z 0%Z ts.
Definition total l : nat := sum_list_with (λ s, length (targets s)) l.
Definition all_targets l : list target := l ≫= targets.

(** The targets of one priority, in the order they were added. *)
Definition class (p : Z) l : list target :=
  l ≫= λ s, if decide (priority s = p) then targets s else [].

(** The counter and the normalizer of a set agree with its list. *)
Record set_wf (s : target_set) : Prop := {
  wf_small : (Z.of_nat (length (targets s)) < 2 ^ 16)%Z;
  wf_count : set_count s = Z.of_nat (length (targets s));
  wf_norm : normalizer s = u32 (weights (targets s))
}.
Definition set_ok (s : target_set) : Prop := set_wf s ∧ targets s ≠ [].

(** Sets are never empty and strictly descend in priority; the counters and
    normalizers agree with the lists. *)
Record sets_ok l : Prop := {
  ok_sorted : StronglySorted Z.gt (priority <$> l);
  ok_sets : Forall set_ok l
}.
Definition entry_ok e : Prop := sets_ok (sets e) ∧ count e = u32 (Z.of_nat (total (sets e))).

(** *** Sums and classes *)

Lemma weights_app a b : weights (a ++ b) = (weights a + weights b)%Z.
Proof. unfold weights. induction a as [|t a IH]; simpl; lia. Qed.

Lemma weights_delete ts j t : ts !! j = Some t → weights (delete j ts) = (weights ts - weight t)%Z.
Proof.
  intros (a & b & -> & ->)%list_elem_of_split_length. rewrite delete_middle, !weights_app. simpl. lia.
Qed.

Lemma total_app l1 l2 : total (l1 ++ l2) = total l1 + total l2.
Proof. apply sum_list_with_app. Qed.

Lemma class_app p l1 l2 : class p (l1 ++ l2) = class p l1 ++ class p l2.
Proof. apply bind_app. Qed.

Lemma class_cons p s l :
  class p (s :: l) = (if decide (priority s = p) then targets s else []) ++ class p l.
Proof. done. Qed.

Lemma all_app l1 l2 : all_targets (l1 ++ l2) = all_targets l1 ++ all_targets l2.
Proof. apply bind_app. Qed.

Lemma class_none p l : p ∉ priority <$> l → class p l = [].
Proof.
  induction l as [|s l IH]; [done|]. rewrite fmap_cons, not_elem_of_cons, class_cons.
  intros [? ?]. rewrite decide_False by congruence. by apply IH.
Qed.

Lemma sorted_middle (l1 l2 : list Z) x :
  StronglySorted Z.gt (l1 ++ x :: l2) ↔
  StronglySorted Z.gt l1 ∧ StronglySorted Z.gt l2 ∧ Forall (λ y, y > x)%Z l1 ∧ Forall (λ y, y < x)%Z l2 ∧
  Forall (λ a, Forall (Z.gt a) l2) l1.
Proof.
  induction l1 as [|a l1 IH]; simpl.
  - split.
    + intros H. apply StronglySorted_inv in H as [H1 H2]. split_and!; auto; try constructor.
      eapply Forall_impl; [exact H2|]. simpl. lia.
    + intros (_ & H & _ & H2 & _). constructor; [done|].
      eapply Forall_impl; [exact H2|]. simpl. lia.
  - split.
    + intros H. apply StronglySorted_inv in H as [H1 H2]. apply IH in H1 as (? & ? & ? & ? & ?).
      apply Forall_app in H2 as [? (? & ?)%Forall_cons]. split_and!; auto; constructor; auto.
    + intros (H1 & H2 & H3 & H4 & H5). apply StronglySorted_inv in H1 as [? ?].
      apply Forall_cons in H3 as [? ?]. apply Forall_cons in H5 as [? ?]. constructor.
      * apply IH. auto.
      * apply Forall_app. split; [done|]. by constructor.
Qed.

(** The set of a priority is the only one: the classes around it are empty. *)
Lemma class_middle l1 s l2 p :
  StronglySorted Z.gt (priority <$> (l1 ++ s :: l2)) →
  class p (l1 ++ s :: l2) = if decide (priority s = p) then targets s else class p (l1 ++ l2).
Proof.
  rewrite fmap_app, fmap_cons, sorted_middle. intros (_ & _ & H1 & H2 & _).
  rewrite !class_app, class_cons. case_decide as Hp; [|done].
  rewrite !class_none, app_nil_r; [done| |]; subst p.
  - intros Hin. rewrite Forall_forall in H2. specialize (H2 _ Hin). simpl in H2. lia.
  - intros Hin. rewrite Forall_forall in H1. specialize (H1 _ Hin). simpl in H1. lia.
Qed.

(** *** Search *)

(** The position of the first target that satisfies a predicate. *)
Fixpoint find_pos (f : target → bool) l : option (nat * nat) :=
  match l with
  | [] => None
  | s :: l =>
      match list_find f (targets s) with
      | Some (j, _) => Some (0, j)
      | None => (λ '(i, j), (S i, j)) <$> find_pos f l
      end
  end.

Lemma find_in_set_pure w f (p : target → bool) ts :
  (∀ t, t ∈ ts → f t w = Done (p t, w)) →
  find_in_set f ts w = Done (fst <$> list_find p ts, w).
Proof.
  intros H. induction ts as [|t ts IH]; [done|]. simpl.
  rewrite (bind_done _ _ _ _ _ (H t ltac:(left))). destruct (p t) eqn:Hp.
  - done.
  - erewrite bind_done by (apply IH; intros; apply H; by right).
    by destruct (list_find _ ts) as [[]|].
Qed.

Lemma find_in_sets_pure w f (p : target → bool) l :
  (∀ t, t ∈ all_targets l → f t w = Done (p t, w)) →
  find_in_sets f l w = Done (find_pos p l, w).
Proof.
  intros H. induction l as [|s l IH]; [done|]. simpl.
  erewrite bind_done.
  2:{ apply (find_in_set_pure w f p). intros t Ht. apply H. apply elem_of_app. by left. }
  destruct (list_find _ (targets s)) as [[j t]|]; [done|]. simpl.
  erewrite bind_done by (apply IH; intros; apply H; apply elem_of_app; by right). done.
Qed.

Lemma find_pos_Some f l i j :
  find_pos f l = Some (i, j) →
  ∃ l1 s l2 ts1 t ts2, l = l1 ++ s :: l2 ∧ length l1 = i ∧ targets s = ts1 ++ t :: ts2 ∧
    length ts1 = j ∧ f t = true ∧ Forall (λ t, f t = false) (all_targets l1 ++ ts1).
Proof.
  revert i. induction l as [|s l IH]; intros i; [done|]. simpl.
  destruct (list_find _ (targets s)) as [[j' t]|] eqn:Hf.
  - intros [= <- <-]. apply list_find_Some in Hf as (Hj & Ht & Hlt).
    apply list_elem_of_split_length in Hj as (ts1 & ts2 & Heq & ->).
    exists [], s, l, ts1, t, ts2. split_and!; auto; [by destruct (f t)|].
    apply Forall_forall. intros x Hx. apply list_elem_of_lookup in Hx as [k Hk].
    apply not_true_is_false. intros Hx'. eapply (Hlt k x).
    + rewrite Heq, lookup_app_l; [done|]. by eapply lookup_lt_Some.
    + by eapply lookup_lt_Some.
    + by rewrite Hx'.
  - destruct (find_pos f l) as [[i' j'']|] eqn:Hp; [|done]. intros [= <- <-].
    destruct (IH i' eq_refl) as (l1 & s' & l2 & ts1 & t & ts2 & -> & <- & ? & ? & ? & Hno).
    exists (s :: l1), s', l2, ts1, t, ts2. split_and!; auto. simpl.
    rewrite <-app_assoc. apply Forall_app. split; [|done].
    apply list_find_None in Hf. eapply Forall_impl; [exact Hf|].
    intros x Hx. simpl in Hx. destruct (f x); naive_solver.
Qed.

Lemma find_pos_None f l : find_pos f l = None → Forall (λ t, f t = false) (all_targets l).
Proof.
  induction l as [|s l IH]; [constructor|]. simpl.
  destruct (list_find _ (targets s)) as [[j' t]|] eqn:Hf; [done|].
  destruct (find_pos f l); [done|]. intros _. apply Forall_app. split; [|by apply IH].
  apply list_find_None in Hf. eapply Forall_impl; [exact Hf|]. intros x Hx. simpl in Hx. destruct (f x); naive_solver.
Qed.

(** *** Sets *)

Lemma add_target_wf t s :
  set_wf s → (Z.of_nat (length (targets s)) + 1 < 2 ^ 16)%Z → set_ok (target_set_add_target t s).
Proof.
  intros [Hs Hc Hn] Hroom. unfold target_set_add_target. split; [split; simpl|]; simpl.
  - rewrite length_app. simpl. lia.
  - rewrite Hc, length_app, wrap_small by lia. simpl. lia.
  - rewrite Hn, weights_app, wrap_add_l. simpl. f_equal. lia.
  - by destruct (targets s).
Qed.

Lemma remove_target_wf j t s :
  set_ok s → targets s !! j = Some t → set_wf (target_set_remove_target j t s).
Proof.
  intros [[Hs Hc Hn] _] Hj. pose proof (lookup_lt_Some _ _ _ Hj).
  unfold target_set_remove_target. split; simpl.
  - rewrite length_delete by eauto. lia.
  - rewrite Hc, length_delete, wrap_small by (eauto || lia). lia.
  - rewrite Hn, wrap_sub_l. by erewrite weights_delete.
Qed.

Lemma set_wf_empty p fl : set_wf (TargetSet [] 0 p fl 0).
Proof. by split. Qed.

Lemma sets_ok_replace l1 s s' l2 :
  sets_ok (l1 ++ s :: l2) → set_ok s' → priority s' = priority s → sets_ok (l1 ++ s' :: l2).
Proof.
  intros [H1 H2] Hs Hp. apply Forall_app in H2 as [? [? ?]%Forall_cons]. split.
  - rewrite fmap_app, fmap_cons, Hp, <-fmap_cons, <-fmap_app. done.
  - apply Forall_app. split; [done|]. by constructor.
Qed.

Lemma sets_ok_remove l1 s l2 : sets_ok (l1 ++ s :: l2) → sets_ok (l1 ++ l2).
Proof.
  intros [H1 H2]. apply Forall_app in H2 as [H2 [_ H3]%Forall_cons]. split.
  - rewrite fmap_app, fmap_cons in H1. apply sorted_middle in H1 as (S1 & S2 & _ & _ & S3).
    rewrite fmap_app. clear -S1 S2 S3. induction (priority <$> l1) as [|a x IH]; simpl; [done|].
    apply StronglySorted_inv in S1 as [? ?]. apply Forall_cons in S3 as [? ?].
    constructor; [by apply IH|]. by apply Forall_app.
  - by apply Forall_app.
Qed.

Lemma sets_ok_insert l1 s l2 :
  sets_ok (l1 ++ l2) → set_ok s → StronglySorted Z.gt (priority <$> (l1 ++ s :: l2)) →
  sets_ok (l1 ++ s :: l2).
Proof.
  intros [_ H2] Hs Hsort. apply Forall_app in H2 as [? ?]. split; [done|].
  apply Forall_app. split; [done|]. by constructor.
Qed.

(** Linking a set of a new priority keeps the order. *)
Lemma insert_set_spec l s :
  StronglySorted Z.gt (priority <$> l) → priority s ∉ priority <$> l →
  ∃ l1 l2, l = l1 ++ l2 ∧ service_entry_insert_target_set l s = (l1 ++ s :: l2, length l1) ∧
    StronglySorted Z.gt (priority <$> (l1 ++ s :: l2)).
Proof.
  induction l as [|x l IH]; intros Hs Hn.
  - exists [], []. split_and!; [done|done|]. repeat constructor.
  - cbn [service_entry_insert_target_set]. rewrite fmap_cons, not_elem_of_cons in Hn. destruct Hn as [Hx Hn].
    rewrite fmap_cons in Hs. apply StronglySorted_inv in Hs as [Hs Hall].
    destruct (Z.ltb_spec (priority x) (priority s)).
    + exists [], (x :: l). split_and!; [done|done|]. simpl. constructor; [by constructor|].
      constructor; [lia|]. eapply Forall_impl; [exact Hall|]. simpl. lia.
    + destruct (IH Hs Hn) as (l1 & l2 & -> & Heq & Hsort). rewrite Heq.
      exists (x :: l1), l2. split_and!; [done|done|]. simpl. constructor; [done|].
      rewrite fmap_app, fmap_cons. rewrite fmap_app in Hall. apply Forall_app in Hall as [? ?].
      apply Forall_app. split; [done|]. constructor; [lia|done].
Qed.

Definition kfail w : bool := match kmem w with true :: _ => true | _ => false end.
Definition ktail w : world := set_kmem (tail (kmem w)) w.

Lemma kmalloc_run w : kmalloc w = Done (negb (kfail w), ktail w).
Proof. unfold kmalloc, kfail, ktail. by destruct (kmem w) as [|[] k]. Qed.

(** What [get_or_create_set] returns: a place in an ordered list, of a set
    that was there or that is new and empty. *)
Record place l (prio fl : Z) (l1 : list target_set) (s : target_set) (l2 : list target_set)
    (fresh : bool) : Prop := {
  pl_prio : priority s = prio;
  pl_sorted : StronglySorted Z.gt (priority <$> (l1 ++ s :: l2));
  pl_list : l = if fresh then l1 ++ l2 else l1 ++ s :: l2;
  pl_fresh : fresh = true → s = TargetSet [] 0 prio fl 0
}.

Lemma get_or_create_run w l fl prio :
  sets_ok l →
  (∃ l1 s l2, get_or_create_set l fl prio w = Done (Some (l, length l1, false), w) ∧
     place l prio fl l1 s l2 false) ∨
  (prio ∉ priority <$> l ∧ if kfail w then get_or_create_set l fl prio w = Done (None, ktail w)
   else ∃ l1 s l2, get_or_create_set l fl prio w
          = Done (Some (l1 ++ s :: l2, length l1, true), ktail w) ∧ place l prio fl l1 s l2 true).
Proof.
  intros [Hs _]. unfold get_or_create_set, entry_get_target_set.
  destruct (list_find _ l) as [[i s]|] eqn:Hf; simpl.
  - left. apply list_find_Some in Hf as (Hi & Hp & _).
    apply list_elem_of_split_length in Hi as (l1 & l2 & -> & ->).
    exists l1, s, l2. split; [done|]. by split.
  - right. apply list_find_None in Hf.
    assert (prio ∉ priority <$> l) as Hn.
    { intros (s & -> & Hin)%list_elem_of_fmap. rewrite Forall_forall in Hf. by apply (Hf s). }
    split; [done|]. unfold target_set_create, mbind, M_bind. rewrite kmalloc_run.
    destruct (kfail w); [done|]. simpl.
    destruct (insert_set_spec l (TargetSet [] 0 prio fl 0)) as (l1 & l2 & Heq & Hrun & Hsort); auto.
    exists l1, (TargetSet [] 0 prio fl 0), l2. unfold mret, M_ret. rewrite Hrun. split; [done|].
    by split.
Qed.

Lemma set_ok_flags fl s : set_ok s → set_ok (set_flags fl s).
Proof. intros [[? ? ?] ?]. by repeat split. Qed.

(** The list with [t] added to its set. *)
Lemma place_add (h : target_set → Z) l prio fl l1 s l2 fresh t l0 :
  sets_ok l → place l prio fl l1 s l2 fresh →
  (Z.of_nat (length (class prio l)) + 1 < 2 ^ 16)%Z →
  l0 = (if fresh then l1 ++ s :: l2 else l) →
  let l' := alter (λ s, set_flags (h s) (target_set_add_target t s)) (length l1) l0 in
  l' = l1 ++ set_flags (h s) (target_set_add_target t s) :: l2 ∧ sets_ok l' ∧ total l' = S (total l) ∧
  (∀ p, class p l' = if decide (p = prio) then class p l ++ [t] else class p l) ∧
  all_targets l' ≡ₚ t :: all_targets l.
Proof.
  intros Hok [Hp Hs Hl Hf] Hroom Hl0 l'.
  assert (l0 = l1 ++ s :: l2) as -> by (destruct fresh; congruence).
  assert (l' = l1 ++ set_flags (h s) (target_set_add_target t s) :: l2) as ->.
  { unfold l'. by rewrite alter_middle. }
  assert (Hcl : class prio l = targets s).
  { subst l. destruct fresh.
    - rewrite (Hf eq_refl) in *. simpl. rewrite class_none; [done|].
      rewrite fmap_app, fmap_cons in Hs. apply sorted_middle in Hs as (_ & _ & G & L & _).
      rewrite Forall_forall in G, L. rewrite fmap_app, elem_of_app.
      intros [Hin|Hin]; [apply G in Hin|apply L in Hin]; simpl in *; lia.
    - rewrite class_middle, decide_True by done. done. }
  assert (Hwf : set_wf s).
  { destruct fresh; [rewrite (Hf eq_refl); apply set_wf_empty|]. subst l.
    pose proof (ok_sets _ Hok) as Hall. apply Forall_app in Hall as [_ [[? _] _]%Forall_cons]. done. }
  assert (Hnew : set_ok (set_flags (h s) (target_set_add_target t s))).
  { apply set_ok_flags, add_target_wf; [done|by rewrite <-Hcl]. }
  assert (Hsort' : StronglySorted Z.gt (priority <$> (l1 ++ set_flags (h s) (target_set_add_target t s) :: l2))).
  { rewrite fmap_app, fmap_cons in *. done. }
  split; [done|]. split_and!.
  - destruct fresh; subst l; [by apply sets_ok_insert|by eapply sets_ok_replace].
  - subst l. destruct fresh; rewrite !total_app; simpl; unfold total; simpl; rewrite length_app; simpl;
      [rewrite (Hf eq_refl); simpl|]; fold (total l1) (total l2); lia.
  - intros p. rewrite class_middle by done. simpl. rewrite Hp.
    destruct (decide (p = prio)) as [->|Hne].
    + rewrite decide_True by done. by rewrite Hcl.
    + rewrite decide_False by done. subst l. destruct fresh; [done|].
      rewrite class_middle by done. by rewrite Hp, decide_False.
  - subst l. unfold all_targets. destruct fresh; rewrite !bind_app, ?bind_cons; simpl.
    + rewrite (Hf eq_refl). simpl. by rewrite Permutation_middle.
    + rewrite <-!app_assoc, Permutation_middle. f_equiv. simpl. by rewrite Permutation_middle.
Qed.

(** *** References *)

Definition refs (ob : object) : Z := match ob with ODev _ r => r | OSock _ r => r end.
Definition with_refs (r : Z) (ob : object) : object :=
  match ob with ODev n _ => ODev n r | OSock p _ => OSock p r end.
Definition is_sock (ob : object) : bool := match ob with ODev _ _ => false | OSock _ _ => true end.

(** One reference more or less to an object. *)
Definition take_ref (o : option loc) (m : gmap loc object) : gmap loc object :=
  match o with
  | None => m
  | Some k => alter (λ ob, with_refs (refs ob + 1) ob) k m
  end.
Definition drop_ref (o : option loc) (m : gmap loc object) : gmap loc object :=
  match o with
  | None => m
  | Some k =>
      match m !! k with
      | Some ob => if decide (refs ob = 1%Z) then delete k m
                   else <[k := with_refs (refs ob - 1) ob]> m
      | None => m
      end
  end.

(** A pointer that is NULL or points to a live object of the right kind; a
    reference to the object can be taken without overflow of its count. *)
Definition out_ok (sock : bool) (o : option loc) w : Prop :=
  match o with
  | None => sock = false
  | Some k => ∃ ob, objs w !! k = Some ob ∧ is_sock ob = sock ∧ (0 < refs ob < 2 ^ 31)%Z
  end.
Definition can_hold (o : option loc) w : Prop :=
  ∀ k ob, o = Some k → objs w !! k = Some ob → (refs ob + 1 < 2 ^ 31)%Z.

(** Targets as the program makes them: exactly the sockets' ones have no
    address. *)
Record target_ok w t : Prop := {
  ok_demux : type t = SERVICE_RULE_DEMUX ↔ dstlen t = 0;
  ok_dst : length (dst t) = dstlen t;
  ok_out : out_ok (is_sock_target t) (out t) w
}.

Lemma s32_small z : (- 2 ^ 31 <= z < 2 ^ 31)%Z → s32 z = z.
Proof. intros H. unfold swrap. rewrite Z.mod_small; lia. Qed.

Lemma hold_run (b : bool) k w :
  out_ok b (Some k) w → can_hold (Some k) w →
  (if b then sock_hold k else dev_hold k) w = Done (tt, set_objs (take_ref (Some k)) w).
Proof.
  intros (ob & Hk & Hb & Hr) Hh. specialize (Hh k ob eq_refl Hk). unfold sock_hold, dev_hold, set_objs. simpl.
  destruct b, ob; try done; simpl in *; rewrite Hk, s32_small by lia; do 3 f_equal;
    apply map_eq; intros i; destruct (decide (i = k)) as [->|];
    by rewrite ?lookup_insert_eq, ?lookup_alter_eq, ?Hk, ?lookup_insert_ne, ?lookup_alter_ne by done.
Qed.

Lemma target_free_run w t :
  out_ok (is_sock_target t) (out t) w → target_free t w = Done (tt, set_objs (drop_ref (out t)) w).
Proof.
  unfold target_free, out_ok. destruct (out t) as [k|]; [|by destruct w].
  intros (ob & Hk & Hb & Hr). unfold sock_put, dev_put, set_objs, drop_ref. rewrite Hk.
  destruct (is_sock_target t), ob; try done; simpl in *; rewrite Hk, s32_small by lia;
    case_decide as Hd; case_match eqn:He; try done; rewrite ?Z.eqb_eq, ?Z.eqb_neq in He; lia.
Qed.

Lemma drop_take_ref b o w :
  out_ok b o w → drop_ref o (take_ref o (objs w)) = objs w.
Proof.
  destruct o as [k|]; [|done]. intros (ob & Hk & _ & Hr). simpl.
  rewrite lookup_alter_eq, Hk. simpl. rewrite decide_False by (destruct ob; simpl in *; lia).
  apply map_eq. intros i. destruct (decide (i = k)) as [->|].
  - rewrite lookup_insert_eq, Hk. f_equal. destruct ob; simpl in *; f_equal; lia.
  - by rewrite lookup_insert_ne, lookup_alter_ne by done.
Qed.

(** *** Adding a target *)

(** The arguments a caller may give: the address is readable, and exactly
    the rules for sockets have none. *)
Record args_ok (ty : service_rule_type) (d : option ptr) (dlen : nat) (nset : Z)
    (nsrc : option (list Z)) (o : option loc) w : Prop := {
  arg_demux : ty = SERVICE_RULE_DEMUX ↔ dlen = 0;
  arg_some : dlen = 0 → is_Some o;
  arg_dst : dlen ≠ 0 → is_Some (read_bytes d dlen);
  arg_nat : (0 < nset)%Z → is_Some nsrc;
  arg_out : out_ok (bool_decide (dlen = 0)) o w;
  arg_hold : can_hold o w
}.

Definition mk_target (ty : service_rule_type) (d : option ptr) (dlen : nat) (nset : Z)
    (nsrc : option (list Z)) (o : option loc) (wt auth : Z) : target :=
  Target ty wt auth no_stats o dlen nset
    (if (0 <? nset)%Z then take 4 (default [] nsrc) else [0; 0; 0; 0]%Z)
    (if decide (dlen = 0) then [] else default [] (read_bytes d dlen)).

Lemma target_create_run ty d dlen nset nsrc o wt auth w :
  args_ok ty d dlen nset nsrc o w →
  target_create ty d dlen nset nsrc o wt auth w =
    if kfail w then Done (None, ktail w)
    else Done (Some (mk_target ty d dlen nset nsrc o wt auth), set_objs (take_ref o) (ktail w)).
Proof.
  intros [_ Hs Hd Hn Ho Hc]. unfold target_create. rewrite decide_False.
  2:{ intros [H0 ->]. by destruct (Hs H0). }
  rewrite (bind_done _ _ _ _ _ (kmalloc_run w)). destruct (kfail w); [done|]. simpl.
  assert (Hrun : (if (0 <? nset)%Z then nsrc ← deref nsrc; mret (take 4 nsrc)
                  else mret [0; 0; 0; 0]%Z) (ktail w)
    = Done (if (0 <? nset)%Z then take 4 (default [] nsrc) else [0; 0; 0; 0]%Z, ktail w)).
  { destruct (Z.ltb_spec 0 nset) as [H|H]; [|done]. by destruct (Hn H) as [b ->]. }
  rewrite (bind_done _ _ _ _ _ Hrun). clear Hrun. unfold mk_target.
  destruct (decide (dlen = 0)) as [H0|H0].
  - destruct (Hs H0) as [k ->]. subst dlen. rewrite bool_decide_true in Ho by done.
    pose proof (hold_run true k (ktail w) Ho Hc) as Hh. unfold mbind, M_bind. simpl in *. by rewrite Hh.
  - rewrite bool_decide_false in Ho by done. destruct (Hd H0) as [b Hb]. rewrite Hb.
    destruct o as [k|]; [|by destruct w].
    pose proof (hold_run false k (ktail w) Ho Hc) as Hh. unfold mbind, M_bind. simpl in *. by rewrite Hh.
Qed.

(** [__service_entry_get_target] as a predicate on targets. *)
Definition same_target w (ty : service_rule_type) (d : option ptr) (dlen : nat) (protocol : Z) t
  : bool :=
  bool_decide (type t = ty) &&
  match ty with
  | SERVICE_RULE_DEMUX =>
      match d with
      | None => true
      | Some (PObj o) => bool_decide (out t = Some o)
      | Some (PBuf _) => false
      end &&
      match out t ≫= λ k, objs w !! k with
      | Some (OSock p _) => (p =? protocol) || (protocol =? MATCH_ANY_PROTOCOL)
      | _ => false
      end
  | SERVICE_RULE_FORWARD =>
      match d with
      | Some (PBuf b) => bool_decide (take dlen (dst t) = take dlen b)
      | _ => true
      end
  | _ => true
  end%Z.

(** An address to compare with is as long as asked for, and so are the
    addresses of the entry. *)
Definition comparable (ty : service_rule_type) (d : option ptr) (dlen : nat) l : Prop :=
  ty = SERVICE_RULE_FORWARD →
  match d with
  | None => True
  | Some (PObj _) => False
  | Some (PBuf b) =>
      dlen ≤ length b ∧ Forall (λ t, type t = SERVICE_RULE_FORWARD → dlen ≤ dstlen t) (all_targets l)
  end.

Lemma get_target_test_run w ty d dlen protocol l t :
  comparable ty d dlen l → t ∈ all_targets l → target_ok w t →
  get_target_test ty d dlen protocol t w = Done (same_target w ty d dlen protocol t, w).
Proof.
  intros Hc Ht Hok. unfold get_target_test, same_target.
  destruct (decide (type t = ty)) as [Hty|Hty]; last first.
  { by rewrite decide_True, bool_decide_false. }
  rewrite decide_False, bool_decide_true by tauto. unfold is_target.
  rewrite (decide_False (P := type t ≠ ty)) by tauto. destruct ty; try done.
  - specialize (Hc eq_refl). destruct d as [[b|]|]; [|by destruct Hc|done]. destruct Hc as [Hb Hf].
    rewrite Forall_forall in Hf. specialize (Hf t Ht Hty). rewrite <-(ok_dst _ _ Hok) in Hf.
    unfold memcmp_eq. rewrite (decide_True (P := dlen ≤ _ ∧ _)) by done. munfold. by destruct (bool_decide _).
  - destruct Hok as [[Hz _] _ Ho]. specialize (Hz Hty). unfold is_sock_target in Ho.
    rewrite bool_decide_true in Ho by done. unfold out_ok in Ho. destruct (out t) as [k|] eqn:Hout; [|done].
    destruct Ho as (ob & Hk & Hs & _). destruct ob as [|p r]; [done|]. simpl. rewrite Hk.
    destruct d as [[b|o]|]; munfold; simpl; rewrite ?Hout, ?Hk; try done.
    destruct (bool_decide (Some k = Some o)); [by rewrite Hk|done].
Qed.

Lemma get_target_run w se e ty d dlen protocol :
  ents w !! se = Some e → Forall (target_ok w) (all_targets (sets e)) →
  comparable ty d dlen (sets e) →
  entry_get_target se ty d dlen protocol w =
    Done (find_pos (same_target w ty d dlen protocol) (sets e), w).
Proof.
  intros He Hall Hc. unfold entry_get_target, mbind, M_bind, se_load. rewrite He.
  apply find_in_sets_pure. intros t Ht. eapply get_target_test_run; eauto.
  by rewrite Forall_forall in Hall; apply Hall.
Qed.

Lemma find_pos_target f l i j :
  find_pos f l = Some (i, j) → ∃ t, target_at l (i, j) = Some t ∧ f t = true ∧ t ∈ all_targets l.
Proof.
  intros (l1 & s & l2 & ts1 & t & ts2 & -> & <- & Hs & <- & Ht & _)%find_pos_Some.
  exists t. unfold target_at. simpl. rewrite list_lookup_middle by done. simpl.
  rewrite Hs, list_lookup_middle by done. split_and!; [done..|].
  rewrite all_app, elem_of_app. right. simpl. rewrite Hs. set_solver.
Qed.

Definition protocol_arg w (dlen : nat) (o : option loc) : Z :=
  if decide (dlen = 0) then
    match o ≫= λ k, objs w !! k with Some (OSock p _) => p | _ => 0%Z end
  else MATCH_NO_PROTOCOL.

Lemma protocol_arg_run w dlen o :
  (dlen = 0 → is_Some o) → out_ok (bool_decide (dlen = 0)) o w →
  (if decide (dlen = 0) then sk_protocol_of o else mret MATCH_NO_PROTOCOL) w
    = Done (protocol_arg w dlen o, w).
Proof.
  intros Hs Ho. unfold protocol_arg. case_decide as H0; [|done].
  destruct (Hs H0) as [k ->]. rewrite bool_decide_true in Ho by done.
  destruct Ho as ([|p r] & Hk & ? & _); [done|]. simpl. by rewrite Hk.
Qed.

Lemma kfail_in w : kfail w = true → true ∈ kmem w.
Proof. unfold kfail. destruct (kmem w) as [|[] ?]; [done| |done]. intros _. left. Qed.

(** [out_ok] after taking a reference, for the release that follows. *)
Lemma out_ok_taken b o w w' :
  out_ok b o w → can_hold o w → objs w' = objs w → out_ok b o (set_objs (take_ref o) w').
Proof.
  unfold out_ok. destruct o as [k|]; [|done]. intros (ob & Hk & Hb & Hr) Hlt Hw. simpl.
  rewrite lookup_alter_eq, Hw, Hk. simpl. eexists; split; [done|].
  specialize (Hlt k ob eq_refl Hk). destruct ob; simpl in *; split; auto; lia.
Qed.

Lemma mk_is_sock ty d dlen nset nsrc o wt auth w :
  args_ok ty d dlen nset nsrc o w →
  is_sock_target (mk_target ty d dlen nset nsrc o wt auth) = bool_decide (dlen = 0).
Proof.
  intros H. unfold is_sock_target. simpl. apply bool_decide_ext. destruct (arg_demux _ _ _ _ _ _ _ H).
  tauto.
Qed.

(** What an addition has done to the world when it returns [r]. *)
Definition target_added w w' se e (prio r : Z) t : Prop :=
  (r = (- ENOMEM)%Z ∧ true ∈ kmem w ∧ ents w' = ents w ∧ objs w' = objs w) ∨
  (r = 1%Z ∧ objs w' = take_ref (out t) (objs w) ∧
   ∃ e', ents w' = <[se := e']> (ents w) ∧ entry_ok e' ∧
     node e' = node e ∧ refcnt e' = refcnt e ∧ lock e' = lock e ∧
     all_targets (sets e') ≡ₚ t :: all_targets (sets e) ∧
     ∀ p, class p (sets e') = if decide (p = prio) then class p (sets e) ++ [t]
                              else class p (sets e)).

(** The rest of [w] that an addition to an entry leaves alone. *)
Definition same_rest w w' : Prop :=
  next_ent w' = next_ent w ∧ services w' = services w ∧ tbl_stats w' = tbl_stats w ∧
  poisoned w' = poisoned w ∧ suffix (kmem w') (kmem w).

Lemma link_target_run w se e prio fl t w0 :
  ents w !! se = Some e → entry_ok e → (Z.of_nat (length (class prio (sets e))) + 1 < 2 ^ 16)%Z →
  w0 = set_objs (take_ref (out t)) (ktail w) →
  out_ok (is_sock_target t) (out t) w → can_hold (out t) w →
  ∃ r w', (r ← get_or_create_set (sets e) fl prio;
     match r with
     | None => _ ← target_free t; mret (- ENOMEM)%Z
     | Some (l, i, _) =>
         _ ← se_store se (λ e, set_sets (alter (target_set_add_target t) i l) (u32 (count e + 1)) e);
         mret 1%Z
     end) w0 = Done (r, w') ∧ target_added w w' se e prio r t ∧ same_rest w w'.
Proof.
  intros He [Hok Hcnt] Hroom Hw0 Ho Hh.
  assert (Hadd : ∀ l1 s l2 (fresh : bool) w1, place (sets e) prio fl l1 s l2 fresh →
    ents w1 = ents w → objs w1 = objs w0 → same_rest w w1 →
    ∃ w', (_ ← se_store se (λ e0, set_sets (alter (target_set_add_target t) (length l1)
       (if fresh then l1 ++ s :: l2 else sets e)) (u32 (count e0 + 1)) e0); mret 1%Z) w1 = Done (1%Z, w') ∧
     target_added w w' se e prio 1 t ∧ same_rest w w').
  { intros l1 s l2 fresh w1 Hpl Hents Hobjs Hrest. eexists. split.
    - unfold mbind, M_bind, se_store. rewrite Hents, He. done.
    - split; [|done]. right. split_and!; [done|by simpl; rewrite Hobjs, Hw0|].
      destruct (place_add flags _ _ _ _ _ _ _ t _ Hok Hpl Hroom eq_refl) as (_ & Hok' & Htot & Hcl & Hall).
      eexists. split_and!; [by simpl; rewrite Hents|..]; simpl; auto.
      split; [exact Hok'|]. etrans; [|apply (f_equal (λ n, u32 (Z.of_nat n)) (eq_sym Htot))].
      simpl. rewrite Hcnt, wrap_add_l. f_equal. lia. }
  assert (Hrest0 : same_rest w w0).
  { subst w0. unfold same_rest, ktail. simpl. split_and!; auto. apply suffix_tail. }
  assert (Hrest1 : same_rest w (ktail w0)).
  { destruct Hrest0 as (?&?&?&?&?). unfold same_rest, ktail. simpl. split_and!; auto.
    etrans; [apply suffix_tail|done]. }
  destruct (get_or_create_run w0 (sets e) fl prio Hok) as [(l1 & s & l2 & Hrun & Hpl)|[Hn Hrun]].
  - rewrite (bind_done _ _ _ _ _ Hrun).
    destruct (Hadd l1 s l2 false w0 Hpl) as (w' & H1 & H2 & H3); [by rewrite Hw0|done|done|].
    exists 1%Z, w'. split; [exact H1|by split].
  - destruct (kfail w0) eqn:Hk.
    + rewrite (bind_done _ _ _ _ _ Hrun). eexists _, _. split; [|split].
      * erewrite bind_done; [done|]. apply target_free_run.
        subst w0. by apply (out_ok_taken _ _ w (ktail w)).
      * left. split_and!; [done| | |].
        -- apply kfail_in in Hk. destruct Hrest0 as (_&_&_&_&[k ->]). apply elem_of_app. by right.
        -- by subst w0.
        -- subst w0. simpl. by eapply drop_take_ref.
      * done.
    + destruct Hrun as (l1 & s & l2 & Hrun & Hpl). rewrite (bind_done _ _ _ _ _ Hrun).
      destruct (Hadd l1 s l2 true (ktail w0) Hpl) as (w' & H1 & H2 & H3); [by rewrite Hw0|done|done|].
      exists 1%Z, w'. split; [exact H1|by split].
Qed.

Lemma add_target_spec w se e ty fl prio wt auth d dlen nset nsrc o :
  ents w !! se = Some e → entry_ok e → Forall (target_ok w) (all_targets (sets e)) →
  args_ok ty d dlen nset nsrc o w → comparable ty d dlen (sets e) →
  (Z.of_nat (length (class prio (sets e))) + 1 < 2 ^ 16)%Z →
  ∃ r w', entry_add_target se ty fl prio wt auth d dlen nset nsrc o w = Done (r, w') ∧
    match find_pos (same_target w ty d dlen (protocol_arg w dlen o)) (sets e) with
    | Some _ => w' = w ∧ r = (if decide (ty = SERVICE_RULE_DEMUX) then - EADDRINUSE else 0)%Z
    | None => target_added w w' se e prio r (mk_target ty d dlen nset nsrc o wt auth) ∧ same_rest w w'
    end.
Proof.
  intros He Hok Hall Hargs Hcomp Hroom. unfold entry_add_target.
  pose proof Hargs as [Hd Hs _ _ Ho Hh].
  rewrite (bind_done _ _ _ _ _ (protocol_arg_run _ _ _ Hs Ho)).
  rewrite (bind_done _ _ _ _ _ (get_target_run _ _ _ _ _ _ _ He Hall Hcomp)).
  assert (Hld : se_load se w = Done (e, w)) by (unfold se_load; by rewrite He).
  rewrite (bind_done _ _ _ _ _ Hld).
  destruct (find_pos _ _) as [[i j]|] eqn:Hf.
  - destruct (find_pos_target _ _ _ _ Hf) as (t & Ht & Hm & Hin). simpl. rewrite Ht.
    eexists _, _. split; [done|]. split; [done|]. apply andb_true_iff in Hm as [Hty%bool_decide_eq_true _].
    rewrite Forall_forall in Hall. destruct (Hall t Hin) as [[H1 H2] _ _]. unfold is_sock_target.
    destruct (decide (ty = SERVICE_RULE_DEMUX)) as [Hdm|Hdm]; [rewrite bool_decide_true by (split; [|apply H1]; congruence); done|].
    rewrite bool_decide_false; [done|]. intros [? _]. congruence.
  - simpl. set (t := mk_target ty d dlen nset nsrc o wt auth).
    pose proof (target_create_run ty d dlen nset nsrc o wt auth w Hargs) as Hc.
    destruct (kfail w) eqn:Hk; rewrite (bind_done _ _ _ _ _ Hc).
    + eexists _, _. split; [done|]. split.
      * left. split_and!; [done|by apply kfail_in|done|done].
      * split_and!; try done. apply suffix_tail.
    + eapply link_target_run; eauto. unfold t. by erewrite mk_is_sock.
Qed.

(** *** Removing a target *)

(** The test of [__service_entry_remove_target] as a predicate. *)
Definition rm_match (ty : service_rule_type) (d : option ptr) (dlen : nat) t : bool :=
  bool_decide (type t = ty) &&
  match ty with
  | SERVICE_RULE_DEMUX => bool_decide (dlen = 0)
  | SERVICE_RULE_FORWARD => bool_decide (Some (take dlen (dst t)) = read_bytes d dlen)
  | _ => false
  end.

Lemma remove_test_run w ty d dlen l t :
  comparable ty d dlen l → (ty = SERVICE_RULE_FORWARD → is_Some d) →
  t ∈ all_targets l → target_ok w t →
  remove_test ty d dlen t w = Done (rm_match ty d dlen t, w).
Proof.
  intros Hc Hd Ht Hok. unfold remove_test, rm_match.
  destruct (decide (type t = ty)) as [Hty|Hty]; [|by rewrite bool_decide_false].
  rewrite (bool_decide_true (type t = ty)) by done; rewrite Hty. destruct ty; try done.
  specialize (Hc eq_refl). destruct (Hd eq_refl) as [p ->]. destruct p as [b|]; [|by destruct Hc].
  destruct Hc as [Hb Hf]. rewrite Forall_forall in Hf. specialize (Hf t Ht Hty).
  rewrite <-(ok_dst _ _ Hok) in Hf. simpl. rewrite decide_True by done. munfold. simpl.
  unfold memcmp_eq. rewrite length_take, decide_True by lia. simpl. do 2 f_equal.
  apply bool_decide_ext. rewrite take_take, Nat.min_id. split; congruence.
Qed.

(** The list without the target at a position; a set that becomes empty goes. *)
Definition without l1 (s : target_set) l2 (s' : target_set) : list target_set :=
  match targets s' with [] => l1 ++ l2 | _ => l1 ++ s' :: l2 end.

Lemma drop_if_empty_run l1 s l2 w :
  set_wf s → drop_if_empty (length l1) (l1 ++ s :: l2) w = Done (without l1 s l2 s, w).
Proof.
  intros [_ Hc _]. unfold drop_if_empty. rewrite list_lookup_middle by done. munfold. simpl.
  unfold without. rewrite Hc. unfold target_set_free. destruct (targets s) as [|t ts]; simpl.
  - by rewrite delete_middle.
  - done.
Qed.

Lemma class_without l1 s l2 s' p :
  StronglySorted Z.gt (priority <$> (l1 ++ s :: l2)) → priority s' = priority s →
  class p (without l1 s l2 s') = if decide (p = priority s) then targets s' else class p (l1 ++ s :: l2).
Proof.
  intros Hs Hp.
  assert (Hs' : StronglySorted Z.gt (priority <$> (l1 ++ s' :: l2))).
  { rewrite fmap_app, fmap_cons, Hp, <-fmap_cons, <-fmap_app. done. }
  assert (class p (without l1 s l2 s') = class p (l1 ++ s' :: l2)) as ->.
  { unfold without. rewrite class_app. destruct (targets s') eqn:E; [|by rewrite class_app].
    rewrite class_app, class_cons, E. by case_decide. }
  rewrite !class_middle by done. rewrite Hp.
  destruct (decide (p = priority s)) as [->|]; [by rewrite decide_True|].
  by rewrite !decide_False by congruence.
Qed.

Lemma remove_spec l1 s l2 ts1 t ts2 :
  sets_ok (l1 ++ s :: l2) → targets s = ts1 ++ t :: ts2 →
  let s' := target_set_remove_target (length ts1) t s in
  let l' := without l1 s l2 s' in
  set_wf s' ∧ targets s' = ts1 ++ ts2 ∧ sets_ok l' ∧ total (l1 ++ s :: l2) = S (total l') ∧
  all_targets l' = (all_targets l1 ++ ts1) ++ ts2 ++ all_targets l2.
Proof.
  intros Hok Hs s' l'. pose proof (ok_sets _ Hok) as Hall.
  apply Forall_app in Hall as [_ [Hset _]%Forall_cons].
  assert (Hwf : set_wf s'). { apply remove_target_wf; [done|]. by rewrite Hs, list_lookup_middle. }
  assert (Ht : targets s' = ts1 ++ ts2). { simpl. by rewrite Hs, delete_middle. }
  split_and!; [done|done|..].
  - unfold l', without. destruct (targets s') eqn:E; [by eapply sets_ok_remove|].
    eapply sets_ok_replace; [done| |done]. split; [done|]. by rewrite E.
  - assert (total l' = total (l1 ++ s' :: l2)) as ->.
    { unfold l', without. destruct (targets s') eqn:E; [|done]. rewrite !total_app. unfold total. simpl.
      simpl in E. by rewrite E. }
    rewrite !total_app. unfold total. simpl. rewrite Hs, delete_middle, !length_app. simpl. lia.
  - assert (all_targets l' = all_targets (l1 ++ s' :: l2)) as ->.
    { unfold l', without. destruct (targets s') eqn:E; [|done]. rewrite !all_app. simpl. simpl in E. by rewrite E. }
    rewrite all_app. simpl. rewrite Hs, delete_middle. by rewrite <-!app_assoc.
Qed.

Lemma remove_target_spec w se e ty d dlen :
  ents w !! se = Some e → entry_ok e → Forall (target_ok w) (all_targets (sets e)) →
  comparable ty d dlen (sets e) → (ty = SERVICE_RULE_FORWARD → is_Some d) →
  (entry_remove_target se ty d dlen w = Done (0%Z, None, w) ∧
   Forall (λ t, rm_match ty d dlen t = false) (all_targets (sets e))) ∨
  ∃ t a b q c1 c2 e' w', entry_remove_target se ty d dlen w = Done (1%Z, Some (t_stats t), w') ∧
    all_targets (sets e) = a ++ t :: b ∧ all_targets (sets e') = a ++ b ∧
    Forall (λ t, rm_match ty d dlen t = false) a ∧ rm_match ty d dlen t = true ∧
    class q (sets e) = c1 ++ t :: c2 ∧
    (∀ p, class p (sets e') = if decide (p = q) then c1 ++ c2 else class p (sets e)) ∧
    entry_ok e' ∧ node e' = node e ∧ refcnt e' = refcnt e ∧ lock e' = lock e ∧
    w' = set_ents <[se := e']> (set_objs (drop_ref (out t)) w).
Proof.
  intros He [Hok Hcnt] Hall Hcomp Hd. unfold entry_remove_target.
  assert (Hld : se_load se w = Done (e, w)) by (unfold se_load; by rewrite He).
  rewrite (bind_done _ _ _ _ _ Hld).
  assert (Hfind : find_in_sets (remove_test ty d dlen) (sets e) w
    = Done (find_pos (rm_match ty d dlen) (sets e), w)).
  { apply find_in_sets_pure. intros t Ht. rewrite Forall_forall in Hall. eapply remove_test_run; eauto. }
  rewrite (bind_done _ _ _ _ _ Hfind). destruct (find_pos _ _) as [[i j]|] eqn:Hf.
  2:{ left. split; [done|]. by apply find_pos_None. }
  right. clear Hfind. destruct (find_pos_target _ _ _ _ Hf) as (t & Hat & _ & Hin).
  rewrite Hat, (bind_done _ _ _ _ _ (deref_some t w)).
  apply find_pos_Some in Hf as (l1 & s & l2 & ts1 & t' & ts2 & Hl & <- & Hs & <- & Hm & Hno).
  assert (t' = t) as ->.
  { unfold target_at in Hat. simpl in Hat. rewrite Hl, list_lookup_middle in Hat by done. simpl in Hat.
    rewrite Hs, list_lookup_middle in Hat by done. congruence. }
  rewrite Forall_forall in Hall. pose proof (ok_out _ _ (Hall t Hin)) as Hout.
  rewrite (bind_done _ _ _ _ _ (target_free_run _ _ Hout)).
  rewrite Hl in Hok. destruct (remove_spec l1 s l2 ts1 t ts2 Hok Hs) as (Hwf & Hts & Hok' & Htot & Hall').
  set (s' := target_set_remove_target (length ts1) t s) in *.
  rewrite Hl, alter_middle, (bind_done _ _ _ _ _ (drop_if_empty_run _ _ _ _ Hwf)).
  exists t, (all_targets l1 ++ ts1), (ts2 ++ all_targets l2), (priority s), ts1, ts2,
    (set_sets (without l1 s l2 s') (u32 (count e - 1)) e).
  eexists. split_and!; auto.
  - unfold mbind, M_bind, se_store. simpl. by rewrite He.
  - rewrite all_app. simpl. rewrite Hs, <-!app_assoc. done.
  - rewrite class_middle by apply Hok. by rewrite decide_True.
  - intros p. simpl. rewrite (class_without l1 s l2 s') by (apply Hok || done). by rewrite Hts.
  - split; [done|]. simpl. rewrite Hcnt, Hl, Htot, wrap_sub_l. f_equal. lia.
Qed.

(** *** Removing the targets of a device *)

(** A forwarding rule through the device of that name. *)
Definition on_dev w (ifname : cstr) t : bool :=
  match type t, out t ≫= λ d, objs w !! d with
  | SERVICE_RULE_FORWARD, Some (ODev n _) => bool_decide (n = ifname)
  | _, _ => false
  end.
Definition gone w ifname (ts : list target) : list target := filter (λ t, on_dev w ifname t = true) ts.
Definition kept w ifname (ts : list target) : list target := filter (λ t, on_dev w ifname t = false) ts.

(** The references of some targets are given up, in order. *)
Definition drop_refs (ts : list target) (m : gmap loc object) : gmap loc object :=
  foldl (λ m t, drop_ref (out t) m) m ts.

(** The targets are well-formed, and each object has a reference for each of
    them that points to it. *)
Definition covered w (ts : list target) : Prop :=
  Forall (target_ok w) ts ∧
  ∀ d ob, objs w !! d = Some ob →
    (Z.of_nat (length (filter (λ t, out t = Some d) ts)) <= refs ob)%Z.

#[export] Instance covered_perm w : Proper ((≡ₚ) ==> iff) (covered w).
Proof.
  assert (∀ a b, a ≡ₚ b → covered w a → covered w b) as H.
  { intros a b Hp [Hok Hc]. split; [by rewrite <-Hp|]. intros d ob Hd. rewrite <-Hp. by apply Hc. }
  intros a b Hp. split; apply H; [done|by symmetry].
Qed.

Lemma target_ok_objs w w' t : objs w' = objs w → target_ok w t → target_ok w' t.
Proof. intros Ho [? ? Hout]. split; [done|done|]. unfold out_ok in *. by rewrite Ho. Qed.

Lemma covered_objs w w' ts : objs w' = objs w → covered w ts → covered w' ts.
Proof.
  intros Ho [Hok Hc]. split; [|by rewrite Ho]. eapply Forall_impl; [exact Hok|].
  intros t. by apply target_ok_objs.
Qed.

Lemma dev_test_run w ifname t :
  target_ok w t →
  match type t, out t with
  | SERVICE_RULE_FORWARD, Some d => nm ← dev_name_of d; mret (bool_decide (nm = ifname))
  | _, _ => mret false
  end w = Done (on_dev w ifname t, w).
Proof.
  intros [[_ Hd] _ Ho]. unfold on_dev. destruct (type t) eqn:Hty; try done.
  assert (is_sock_target t = false) as Hns. { unfold is_sock_target. apply bool_decide_false. rewrite Hty. by intros []. }
  rewrite Hns in Ho. destruct (out t) as [d|]; [|done]. destruct Ho as ([n r|] & Hk & ? & _); [|done].
  unfold mbind, M_bind, dev_name_of. simpl. by rewrite Hk.
Qed.

(** An object that another target refers to stays, with one reference less. *)
Lemma drop_ref_lookup o m d ob :
  drop_ref o m !! d = Some ob →
  ∃ ob', m !! d = Some ob' ∧ ob = (if decide (o = Some d) then with_refs (refs ob' - 1) ob' else ob').
Proof.
  destruct o as [k|]; simpl; [|by exists ob]. destruct (m !! k) as [ok|] eqn:Hk; last first.
  { intros Hd. exists ob. split; [done|]. by rewrite decide_False by congruence. }
  case_decide as Hr.
  - intros [Hne Hd]%lookup_delete_Some. exists ob. by rewrite decide_False by congruence.
  - destruct (decide (k = d)) as [->|Hne].
    + rewrite lookup_insert_eq. intros [= <-]. exists ok. by rewrite decide_True.
    + rewrite lookup_insert_ne by done. exists ob. by rewrite decide_False by congruence.
Qed.

Lemma drop_ref_stays o m d ob :
  m !! d = Some ob → (o = Some d → 1 < refs ob)%Z →
  drop_ref o m !! d = Some (if decide (o = Some d) then with_refs (refs ob - 1) ob else ob).
Proof.
  intros Hd Hr. destruct o as [k|]; simpl; [|done]. destruct (decide (k = d)) as [->|Hne].
  - specialize (Hr eq_refl). rewrite Hd, decide_False by lia. rewrite lookup_insert_eq.
    by rewrite (decide_True (P := Some d = Some d)).
  - rewrite decide_False by congruence. destruct (m !! k); [|done].
    case_decide; by rewrite ?lookup_delete_ne, ?lookup_insert_ne by done.
Qed.

(** Giving up one target of several. *)
Lemma covered_drop w t ts :
  covered w (t :: ts) →
  target_free t w = Done (tt, set_objs (drop_ref (out t)) w) ∧
  covered (set_objs (drop_ref (out t)) w) ts ∧
  ∀ ifname t', t' ∈ ts → on_dev (set_objs (drop_ref (out t)) w) ifname t' = on_dev w ifname t'.
Proof.
  intros [[Ht Hts]%Forall_cons Hc]. rewrite Forall_forall in Hts.
  assert (Hstay : ∀ t' k ob, t' ∈ ts → out t' = Some k → objs w !! k = Some ob →
    drop_ref (out t) (objs w) !! k
      = Some (if decide (out t = Some k) then with_refs (refs ob - 1) ob else ob) ∧
    (out t = Some k → 1 < refs ob)%Z).
  { intros t' k ob Hin Hout Hk. assert (out t = Some k → 1 < refs ob)%Z as Hr; [|by split; [apply drop_ref_stays|]].
    intros Hot. specialize (Hc k ob Hk). rewrite filter_cons, decide_True in Hc by done. simpl in Hc.
    apply list_elem_of_split in Hin as (a & b & ->). rewrite filter_app, filter_cons, decide_True in Hc by done.
    rewrite length_app in Hc. simpl in Hc. lia. }
  split; [by apply target_free_run, ok_out|]. split; [split|].
  - apply Forall_forall. intros t' Hin. destruct (Hts t' Hin) as [? ? Ho]. split; [done|done|].
    unfold out_ok in *. simpl. destruct (out t') as [k|] eqn:Hout; [|done].
    destruct Ho as (ob & Hk & Hs & Hr). destruct (Hstay t' k ob Hin Hout Hk) as [-> Hgt].
    eexists. split; [done|]. case_decide; [|done]. specialize (Hgt ltac:(done)).
    destruct ob; simpl in *; split; auto; lia.
  - intros d ob (ob' & Hd & ->)%drop_ref_lookup. specialize (Hc d ob' Hd). rewrite filter_cons in Hc.
    case_decide; simpl in Hc; [|done]. destruct ob'; simpl in *; lia.
  - intros ifname t' Hin. unfold on_dev. destruct (type t') eqn:Hty; try done. simpl.
    destruct (out t') as [k|] eqn:Hout; [|done]. simpl.
    pose proof (ok_out _ _ (Hts t' Hin)) as Ho. rewrite Hout in Ho. destruct Ho as (ob & Hk & _).
    destruct (Hstay t' k ob Hin Hout Hk) as [-> _]. rewrite Hk. case_decide; [|done]. by destruct ob.
Qed.

Lemma on_dev_ext w w' ifname ts :
  (∀ t, t ∈ ts → on_dev w' ifname t = on_dev w ifname t) →
  gone w' ifname ts = gone w ifname ts ∧ kept w' ifname ts = kept w ifname ts.
Proof.
  intros H. unfold gone, kept. induction ts as [|t ts IH]; [done|]. rewrite !filter_cons, (H t) by left.
  destruct IH as [-> ->]; [|done]. intros t' Ht'. apply H. by right.
Qed.

Lemma set_objs_comp f g w : set_objs f (set_objs g w) = set_objs (λ m, f (g m)) w.
Proof. done. Qed.

(** The loop over the targets of a set, [D] being the ones it has passed and
    kept, [R] the targets of the other sets. *)
Lemma remove_in_set_run w ifname todo D R s n :
  targets s = D ++ todo → set_wf s → covered w (todo ++ R) → todo ≠ [] →
  let w' := set_objs (drop_refs (gone w ifname todo)) w in
  if decide (D ++ kept w ifname todo = []) then remove_dev_in_set ifname todo (length D) s n w = Fault
  else ∃ s', remove_dev_in_set ifname todo (length D) s n w
      = Done (s', n + Z.of_nat (length (gone w ifname todo)), w')%Z ∧
    targets s' = D ++ kept w ifname todo ∧ set_wf s' ∧ priority s' = priority s ∧ flags s' = flags s ∧
    covered w' (kept w ifname todo ++ R) ∧ ∀ t, t ∈ R → on_dev w' ifname t = on_dev w ifname t.
Proof.
  revert w D s n R. induction todo as [|t todo IH]; intros w D s n R Hs Hwf Hcov Hne0; [done|].
  simpl. rewrite (bind_done _ _ _ _ _ (dev_test_run w ifname t (Forall_inv (proj1 Hcov)))).
  unfold gone, kept. rewrite !filter_cons. destruct (on_dev w ifname t) eqn:Hon; simpl.
  - set (s1 := target_set_remove_target (length D) t s).
    assert (Hwf1 : set_wf s1).
    { apply remove_target_wf; [split; [done|by rewrite Hs; destruct D]|]. by rewrite Hs, list_lookup_middle. }
    assert (Hs1 : targets s1 = D ++ todo) by (simpl; by rewrite Hs, delete_middle).
    destruct (covered_drop w t (todo ++ R) Hcov) as (Hfree & Hcov1 & Hsame).
    set (w1 := set_objs (drop_ref (out t)) w) in *. rewrite (bind_done _ _ _ _ _ Hfree).
    pose proof (wf_count _ Hwf1) as Hc. rewrite Hs1 in Hc. change (u16 (set_count s - 1)) with (set_count s1). rewrite Hc.
    destruct (on_dev_ext w w1 ifname todo) as [Hg Hk]. { intros t' Ht'. apply Hsame. set_solver. }
    fold (kept w ifname todo) (gone w ifname todo). destruct (Z.eqb_spec (Z.of_nat (length (D ++ todo))) 0) as [H0|H0].
    + assert (D ++ todo = []) as [-> ->]%app_nil by (apply length_zero_iff_nil; lia). simpl.
      unfold mbind, M_bind, target_set_free. by rewrite Hs1.
    + destruct (decide (todo = [])) as [->|Hne].
      * rewrite app_nil_r in *. destruct D; [done|]. simpl. exists s1. split_and!; auto.
      * specialize (IH w1 D s1 (n + 1)%Z R Hs1 Hwf1 Hcov1 Hne). simpl in IH. rewrite Hg, Hk in IH.
        case_decide; [exact IH|]. destruct IH as (s' & Hrun & H1 & H2 & H3 & H4 & H5 & H6).
        exists s'. split_and!; auto; [rewrite Hrun; do 3 f_equal; lia|].
        intros t' Ht'. etrans; [by apply H6|]. apply Hsame. set_solver.
  - fold (kept w ifname todo) (gone w ifname todo). rewrite (cons_middle t D) in *.
    destruct (decide (todo = [])) as [->|Hne].
    { rewrite decide_False by by destruct D. simpl. exists s. unfold drop_refs. simpl. rewrite app_nil_r in *.
      rewrite Z.add_0_r. destruct w. split_and!; auto. }
    specialize (IH w (D ++ [t]) s n (t :: R)). rewrite length_app, Nat.add_1_r in IH. simpl in IH.
    rewrite <-app_assoc in IH. specialize (IH Hs Hwf). rewrite <-Permutation_middle in IH.
    specialize (IH Hcov Hne). rewrite decide_False in IH by by destruct D.
    rewrite decide_False by by destruct D.
    destruct IH as (s' & Hrun & H1 & H2 & H3 & H4 & H5 & H6). exists s'. rewrite <-app_assoc in H1. 
    split_and!; auto; [by rewrite Permutation_middle|]. intros t' Ht'. apply H6. by right.
Qed.

(** A set without the targets of the device. *)
Record thinned w (ifname : cstr) (s s' : target_set) : Prop := {
  th_targets : targets s' = kept w ifname (targets s);
  th_ok : set_ok s';
  th_priority : priority s' = priority s;
  th_flags : flags s' = flags s
}.

Lemma remove_in_sets_run w ifname l R :
  Forall set_ok l → covered w (all_targets l ++ R) →
  let w' := set_objs (drop_refs (gone w ifname (all_targets l))) w in
  if decide (Exists (λ s, kept w ifname (targets s) = []) l) then remove_dev_in_sets ifname l w = Fault
  else ∃ l', remove_dev_in_sets ifname l w
      = Done (l', Z.of_nat (length (gone w ifname (all_targets l))), w') ∧
    Forall2 (thinned w ifname) l l' ∧ covered w' (all_targets l' ++ R) ∧
    ∀ t, t ∈ R → on_dev w' ifname t = on_dev w ifname t.
Proof.
  revert w R. induction l as [|s l IH]; intros w R Hok Hcov w'.
  { rewrite decide_False by (by intros ?%Exists_nil). exists []. unfold w', set_objs. simpl. destruct w. by split_and!. }
  apply Forall_cons in Hok as [[Hwf Hne] Hok]. simpl in Hcov. rewrite <-app_assoc in Hcov.
  pose proof (remove_in_set_run w ifname (targets s) [] _ s 0 eq_refl Hwf Hcov Hne) as Hset.
  simpl in Hset. simpl. destruct (decide (kept w ifname (targets s) = [])) as [He|He].
  { rewrite decide_True by by left. unfold mbind, M_bind. by rewrite Hset. }
  destruct Hset as (s' & Hrun & Hts & Hwf' & Hp & Hf & Hcov1 & Hsame).
  rewrite (bind_done _ _ _ _ _ Hrun). set (w1 := set_objs (drop_refs (gone w ifname (targets s))) w) in *.
  assert (Hdev : ∀ t, t ∈ all_targets l → on_dev w1 ifname t = on_dev w ifname t).
  { intros t Ht. apply Hsame. set_solver. }
  destruct (on_dev_ext w w1 ifname (all_targets l) Hdev) as [Hg _].
  assert (Hk : ∀ x, x ∈ l → kept w1 ifname (targets x) = kept w ifname (targets x)).
  { intros x Hx. apply on_dev_ext. intros t Ht. apply Hdev. apply list_elem_of_bind. eauto. }
  specialize (IH w1 (kept w ifname (targets s) ++ R) Hok). rewrite Permutation_app_swap_app in Hcov1.
  specialize (IH Hcov1). simpl in IH. rewrite Hg in IH.
  destruct (decide (Exists _ l)) as [Hex|Hex].
  { rewrite decide_True; [unfold mbind, M_bind; by rewrite IH|]. right. rewrite Exists_exists in *.
    destruct Hex as (x & Hx & Hkx). exists x. by rewrite <-Hk. }
  rewrite decide_False.
  2:{ rewrite Exists_cons. intros [?|Hx]; [done|]. apply Hex. rewrite Exists_exists in *.
      destruct Hx as (x & Hx & Hkx). exists x. by rewrite Hk. }
  destruct IH as (l' & Hrun' & Hall & Hcov' & Hsame'). rewrite (bind_done _ _ _ _ _ Hrun').
  exists (s' :: l'). unfold w'. simpl. unfold gone. rewrite filter_app, length_app.
  fold (gone w ifname (targets s)) (gone w ifname (all_targets l)).
  assert (Hw : set_objs (drop_refs (gone w ifname (targets s) ++ gone w ifname (all_targets l))) w
    = set_objs (drop_refs (gone w ifname (all_targets l))) w1).
  { unfold w1. rewrite set_objs_comp. unfold set_objs, drop_refs. by rewrite foldl_app. }
  rewrite Hw. split_and!.
  - unfold mret, M_ret. do 3 f_equal. lia.
  - constructor.
    + split; auto. split; [done|]. by rewrite Hts.
    + rewrite !Forall2_same_length_lookup in *. destruct Hall as [Hlen Hall]. split; [done|].
      intros i x y Hx Hy. destruct (Hall i x y Hx Hy) as [H1 H2 H3 H4]. split; auto.
      rewrite H1. apply Hk. by eapply list_elem_of_lookup_2.
  - by rewrite Hts, <-app_assoc, Permutation_app_swap_app.
  - intros t Ht. etrans; [apply Hsame'; set_solver|]. apply Hsame. set_solver.
Qed.

Lemma thinned_kept w ifname l l' :
  Forall2 (thinned w ifname) l l' →
  all_targets l' = kept w ifname (all_targets l) ∧ priority <$> l' = priority <$> l ∧ Forall set_ok l'.
Proof.
  induction 1 as [|s s' l l' [Ht Hs Hp Hf] _ (IH1 & IH2 & IH3)]; [done|].
  rewrite !fmap_cons, Hp, IH2. simpl. rewrite Ht, IH1. unfold kept. rewrite filter_app.
  split_and!; [done|done|]. by constructor.
Qed.

Lemma kept_gone w ifname ts : length ts = length (kept w ifname ts) + length (gone w ifname ts).
Proof.
  unfold kept, gone. induction ts as [|t ts IH]; [done|]. rewrite !filter_cons.
  destruct (on_dev w ifname t); simpl; lia.
Qed.

Lemma total_all l : total l = length (all_targets l).
Proof. induction l as [|s l IH]; [done|]. unfold total in *. simpl. rewrite length_app. by f_equal. Qed.

(** *** Modifying a target *)

(** The target's own set on one side of the set it moves to. *)
Lemma place_split l prio fl l1 sx l2 (fresh : bool) i s :
  place l prio fl l1 sx l2 fresh → l !! i = Some s → priority s ≠ prio →
  let i' := if fresh && bool_decide (length l1 ≤ i) then S i else i in
  (∃ B C, l2 = B ++ s :: C ∧ i' = length (l1 ++ sx :: B)) ∨
  (∃ A B, l1 = A ++ s :: B ∧ i' = length A).
Proof.
  intros [Hp _ Hl _] Hi Hne i'. destruct (decide (i < length l1)) as [Hlt|Hge].
  - right. assert (l1 !! i = Some s) as Hi'.
    { rewrite Hl in Hi. destruct fresh; by rewrite lookup_app_l in Hi by done. }
    apply list_elem_of_split_length in Hi' as (A & B & -> & ->). exists A, B. split; [done|].
    unfold i'. rewrite bool_decide_false, andb_false_r by lia. done.
  - left. assert (∃ m, l2 !! m = Some s ∧ i' = length l1 + S m) as (m & Hm & Hi').
    { unfold i'. rewrite bool_decide_true, andb_true_r by lia. rewrite Hl in Hi.
      destruct fresh; rewrite lookup_app_r in Hi by lia.
      - exists (i - length l1). split; [done|lia].
      - destruct (i - length l1) as [|m] eqn:E; simpl in Hi; [congruence|].
        exists m. split; [done|lia]. }
    apply list_elem_of_split_length in Hm as (B & C & -> & ->). exists B, C. split; [done|].
    rewrite length_app. simpl. lia.
Qed.

Lemma move_target_run l prio fl l1 sx l2 fresh i s ts1 t ts2 wt w :
  sets_ok l → place l prio fl l1 sx l2 fresh → l !! i = Some s → priority s ≠ prio →
  targets s = ts1 ++ t :: ts2 → (Z.of_nat (length (class prio l)) + 1 < 2 ^ 16)%Z →
  ∃ l', move_target (if fresh then l1 ++ sx :: l2 else l) i (length ts1) (length l1) fresh t wt fl w
      = Done (l', w) ∧ sets_ok l' ∧ total l' = total l ∧
    t :: all_targets l' ≡ₚ set_weight wt t :: all_targets l ∧
    ∀ p, class p l' = if decide (p = priority s) then ts1 ++ ts2
                      else if decide (p = prio) then class p l ++ [set_weight wt t] else class p l.
Proof.
  intros Hok Hpl Hi Hne Hs Hroom. set (t' := set_weight wt t).
  destruct (place_add (λ _, fl) l prio fl l1 sx l2 fresh t' _ Hok Hpl Hroom eq_refl)
    as (HG & HokG & HtotG & HclG & HallG).
  set (add := λ s, set_flags fl (target_set_add_target t' s)) in *. set (G := alter add _ _) in *.
  assert (Hl0 : (if fresh then l1 ++ sx :: l2 else l) = l1 ++ sx :: l2).
  { pose proof (pl_list _ _ _ _ _ _ _ Hpl). by destruct fresh. }
  set (s' := target_set_remove_target (length ts1) t s).
  (* the result is the list with [t'] added, less [t] *)
  assert (∃ a b, G = a ++ s :: b ∧ move_target (if fresh then l1 ++ sx :: l2 else l) i (length ts1)
    (length l1) fresh t wt fl w = Done (without a s b s', w)) as (a & b & HGab & Hrun).
  { rewrite Hl0, HG. unfold move_target.
    assert (Hwf : set_wf s').
    { apply remove_target_wf; [|by rewrite Hs, list_lookup_middle].
      pose proof (ok_sets _ Hok) as Hf. rewrite Forall_forall in Hf. apply Hf.
      by eapply list_elem_of_lookup_2. }
    destruct (place_split _ _ _ _ _ _ _ _ _ Hpl Hi Hne) as [(B & C & -> & ->)|(A & B & -> & ->)].
    - exists (l1 ++ add sx :: B), C. split; [by rewrite <-app_assoc|].
      rewrite (app_assoc l1 (sx :: B) (s :: C) : l1 ++ sx :: B ++ s :: C = (l1 ++ sx :: B) ++ s :: C).
      rewrite alter_middle. rewrite list_lookup_middle by done.
      rewrite (bind_done _ _ _ _ _ (deref_some _ _)), (bind_done _ _ _ _ _ (drop_if_empty_run _ _ _ _ Hwf)).
      rewrite bool_decide_false, andb_false_r by (rewrite length_app; simpl; lia).
      unfold mret, M_ret, without. do 2 f_equal.
      fold s'. destruct (targets s'); rewrite <-!app_assoc; simpl; by rewrite alter_middle.
    - exists A, (B ++ add sx :: l2). split; [by rewrite <-app_assoc|].
      rewrite <-app_assoc. simpl. rewrite alter_middle, list_lookup_middle by done.
      rewrite (bind_done _ _ _ _ _ (deref_some _ _)), (bind_done _ _ _ _ _ (drop_if_empty_run _ _ _ _ Hwf)).
      rewrite bool_decide_true, andb_true_r by (rewrite length_app; simpl; lia).
      destruct Hwf as [_ Hc _]. fold s'. rewrite Hc. unfold mret, M_ret, without.
      destruct (targets s') as [|x ts] eqn:E; simpl; do 2 f_equal.
      + rewrite length_app. simpl. rewrite Nat.add_succ_r. simpl.
        rewrite <-length_app, app_assoc, alter_middle. by rewrite <-app_assoc.
      + rewrite (app_assoc A (s' :: B) (sx :: l2) : A ++ s' :: B ++ sx :: l2 = (A ++ s' :: B) ++ sx :: l2).
        rewrite !length_app. simpl. replace (length A + S (length B)) with (length (A ++ s' :: B))
          by (rewrite length_app; done).
        rewrite alter_middle. by rewrite <-app_assoc. }
  exists (without a s b s'). split; [done|]. rewrite HGab in HokG, HtotG, HallG.
  destruct (remove_spec a s b ts1 t ts2 HokG Hs) as (_ & Hts & Hok' & Htot & Hall').
  split_and!; [done|fold s' in Htot; lia| |].
  - fold s' in Hall'. rewrite Hall', <-HallG, all_app. simpl. rewrite Hs, Permutation_middle.
    by rewrite <-!app_assoc.
  - intros p. rewrite class_without by (apply HokG || done). fold s' in Hts. rewrite Hts.
    case_decide; [done|]. rewrite <-HGab. apply HclG.
Qed.

(** The target with the new address copied in, when there is one and the
    lengths agree. *)
Definition new_dst t (nd : option ptr) (ndlen : nat) : target :=
  match nd with
  | Some _ => if decide (ndlen = dstlen t) then set_dst (default [] (read_bytes nd ndlen)) t else t
  | None => t
  end.

Lemma copy_dst_run t nd ndlen w :
  (is_Some nd → is_Some (read_bytes nd ndlen)) →
  copy_dst t nd ndlen w = Done (new_dst t nd ndlen, w).
Proof.
  intros H. unfold copy_dst, new_dst. destruct nd as [p|]; [|done].
  destruct (H ltac:(done)) as [b Hb]. case_decide; [|done]. by rewrite Hb.
Qed.

Lemma new_dst_weight t nd ndlen : weight (new_dst t nd ndlen) = weight t.
Proof. unfold new_dst. destruct nd; [|done]. by case_decide. Qed.

(** Replacing a target in its set by one of the same weight. *)
Lemma replace_spec l1 s l2 ts1 t ts2 t' :
  sets_ok (l1 ++ s :: l2) → targets s = ts1 ++ t :: ts2 → weight t' = weight t →
  let s' := set_targets (<[length ts1 := t']> (targets s)) s in
  targets s' = ts1 ++ t' :: ts2 ∧ sets_ok (l1 ++ s' :: l2) ∧ total (l1 ++ s' :: l2) = total (l1 ++ s :: l2) ∧
  ∀ p, class p (l1 ++ s' :: l2) = if decide (p = priority s) then ts1 ++ t' :: ts2 else class p (l1 ++ s :: l2).
Proof.
  intros Hok Hs Hw s'. pose proof (ok_sets _ Hok) as Hall.
  apply Forall_app in Hall as [_ [[[H1 H2 H3] _] _]%Forall_cons].
  assert (Ht : targets s' = ts1 ++ t' :: ts2).
  { simpl. by rewrite Hs, insert_app_r_alt, Nat.sub_diag by lia. }
  assert (Hlen : length (targets s') = length (targets s)) by (rewrite Ht, Hs, !length_app; done).
  assert (Hok' : sets_ok (l1 ++ s' :: l2)).
  { eapply sets_ok_replace; [done| |done]. split; [split|].
    - by rewrite Hlen.
    - by rewrite Hlen.
    - rewrite Ht. simpl. rewrite H3, Hs, !weights_app. simpl. by rewrite Hw.
    - rewrite Ht. by destruct ts1. }
  split_and!; auto.
  - rewrite !total_app. unfold total. simpl in *. by rewrite Hlen.
  - intros p. rewrite !class_middle by (apply Hok || apply Hok'). simpl in *. rewrite Ht.
    destruct (decide (p = priority s)) as [->|]; [by rewrite decide_True|].
    by rewrite !decide_False by congruence.
Qed.

(** A new weight in place. *)
Lemma reweigh_spec l1 s l2 ts1 t ts2 wt fl :
  sets_ok (l1 ++ s :: l2) → targets s = ts1 ++ t :: ts2 →
  let s' := target_set_reweigh (length ts1) t wt fl s in
  sets_ok (l1 ++ s' :: l2) ∧ total (l1 ++ s' :: l2) = total (l1 ++ s :: l2) ∧
  ∀ p, class p (l1 ++ s' :: l2)
       = if decide (p = priority s) then ts1 ++ set_weight wt t :: ts2 else class p (l1 ++ s :: l2).
Proof.
  intros Hok Hs s'. pose proof (ok_sets _ Hok) as Hall.
  apply Forall_app in Hall as [_ [[[H1 H2 H3] _] _]%Forall_cons].
  assert (Ht : targets s' = ts1 ++ set_weight wt t :: ts2).
  { simpl. by rewrite Hs, insert_app_r_alt, Nat.sub_diag by lia. }
  assert (Hlen : length (targets s') = length (targets s)) by (rewrite Ht, Hs, !length_app; done).
  assert (Hok' : sets_ok (l1 ++ s' :: l2)).
  { eapply sets_ok_replace; [done| |done]. split; [split|].
    - by rewrite Hlen.
    - by rewrite Hlen.
    - rewrite Ht. simpl. rewrite H3, Hs, !weights_app, wrap_sub_l, wrap_add_l. simpl. f_equal. lia.
    - rewrite Ht. by destruct ts1. }
  split_and!; auto.
  - rewrite !total_app. unfold total. simpl in *. by rewrite Hlen.
  - intros p. rewrite !class_middle by (apply Hok || apply Hok'). simpl in *. rewrite Ht.
    destruct (decide (p = priority s)) as [->|]; [by rewrite decide_True|].
    by rewrite !decide_False by congruence.
Qed.

Lemma se_store_run w se e f :
  ents w !! se = Some e → se_store se f w = Done (tt, set_ents <[se := f e]> w).
Proof. intros He. unfold se_store. by rewrite He. Qed.

(** The classes of an entry after a target [t] of class [q] became [t'], in
    its place or at the end of class [prio]. *)
Definition moved (q prio : Z) (c1 c2 : list target) t' l l' : Prop :=
  ∀ p, class p l' =
    if decide (p = q) then (if decide (q = prio) then c1 ++ t' :: c2 else c1 ++ c2)
    else if decide (p = prio) then class p l ++ [t'] else class p l.

Lemma moved_away q prio c1 c2 t t' l l0 l' :
  q ≠ prio → (∀ p, class p l0 = if decide (p = q) then c1 ++ t :: c2 else class p l) →
  (∀ p, class p l' = if decide (p = q) then c1 ++ c2
     else if decide (p = prio) then class p l0 ++ [t'] else class p l0) →
  moved q prio c1 c2 t' l l'.
Proof.
  intros Hne H0 H1 p. rewrite H1, H0, (decide_False (P := q = prio)) by done.
  by destruct (decide (p = q)).
Qed.

(** The end of a move between sets, from a world in which the entry has the
    sets [l0], to a world in which it has the moved ones. *)
Lemma move_store_run w w2 se e l0 i s0 ts1 t ts2 prio fl wt m1 sx m2 fresh :
  place l0 prio fl m1 sx m2 fresh → sets_ok l0 → l0 !! i = Some s0 → targets s0 = ts1 ++ t :: ts2 →
  priority s0 ≠ prio → (Z.of_nat (length (class prio l0)) + 1 < 2 ^ 16)%Z →
  ents w2 = <[se := set_sets l0 (count e) e]> (ents w) → objs w2 = objs w → same_rest w w2 →
  count e = u32 (Z.of_nat (total l0)) →
  ∃ w' e',
    (l ← move_target (if fresh then m1 ++ sx :: m2 else l0) i (length ts1) (length m1) fresh t wt fl;
     _ ← se_store se (set_sets l (count e)); mret 1%Z) w2 = Done (1%Z, w') ∧
    ents w' = <[se := e']> (ents w) ∧ objs w' = objs w ∧ same_rest w w' ∧ entry_ok e' ∧
    ∀ p, class p (sets e') = if decide (p = priority s0) then ts1 ++ ts2
      else if decide (p = prio) then class p l0 ++ [set_weight wt t] else class p l0.
Proof.
  intros Hpl Hok Hi Hts Hp Hroom He Ho Hrest Hcnt.
  destruct (move_target_run _ _ _ _ _ _ _ _ _ _ _ _ wt w2 Hok Hpl Hi Hp Hts Hroom)
    as (l' & Hmv & Hok' & Htot' & _ & Hcl').
  assert (He2 : ents w2 !! se = Some (set_sets l0 (count e) e)) by (rewrite He; apply lookup_insert_eq).
  rewrite (bind_done _ _ _ _ _ Hmv), (bind_done _ _ _ _ _ (se_store_run _ _ _ _ He2)).
  eexists _, (set_sets l' (count e) e). split_and!; [done| |done|done| |exact Hcl'].
  - simpl. by rewrite He, insert_insert_eq.
  - split; [exact Hok'|]. simpl. by rewrite Hcnt, Htot'.
Qed.

Lemma modify_target_spec w se e ty fl prio wt d dlen nd ndlen :
  ents w !! se = Some e → entry_ok e → Forall (target_ok w) (all_targets (sets e)) →
  comparable ty d dlen (sets e) → ty ≠ SERVICE_RULE_DEMUX → dlen ≠ 0 →
  (is_Some nd → is_Some (read_bytes nd ndlen)) →
  (Z.of_nat (length (class prio (sets e))) + 1 < 2 ^ 16)%Z →
  match find_pos (same_target w ty d dlen MATCH_NO_PROTOCOL) (sets e) with
  | None => entry_modify_target se ty fl prio wt d dlen nd ndlen w = Done (0%Z, w)
  | Some ij => ∃ t q c1 c2 r w' e',
      entry_modify_target se ty fl prio wt d dlen nd ndlen w = Done (r, w') ∧
      target_at (sets e) ij = Some t ∧ class q (sets e) = c1 ++ t :: c2 ∧
      ents w' = <[se := e']> (ents w) ∧ objs w' = objs w ∧ same_rest w w' ∧ entry_ok e' ∧
      ((r = 1%Z ∧ moved q prio c1 c2 (set_weight wt (new_dst t nd ndlen)) (sets e) (sets e')) ∨
       (r = (- ENOMEM)%Z ∧ true ∈ kmem w ∧ moved q q c1 c2 (new_dst t nd ndlen) (sets e) (sets e')))
  end.
Proof.
  intros He [Hok Hcnt] Hall Hcomp Hty Hdl Hnd Hroom. unfold entry_modify_target.
  rewrite decide_False by tauto.
  rewrite (bind_done _ _ _ _ _ (get_target_run _ _ _ _ _ _ _ He Hall Hcomp)).
  assert (Hld : se_load se w = Done (e, w)) by (unfold se_load; by rewrite He).
  rewrite (bind_done _ _ _ _ _ Hld).
  destruct (find_pos _ _) as [[i j]|] eqn:Hf; [|done].
  destruct (find_pos_target _ _ _ _ Hf) as (t & Hat & _ & _). exists t.
  rewrite Hat, (bind_done _ _ _ _ _ (deref_some t w)).
  apply find_pos_Some in Hf as (l1 & s & l2 & ts1 & t0 & ts2 & Hl & <- & Hs & <- & _).
  assert (t0 = t) as ->.
  { unfold target_at in Hat. simpl in Hat. rewrite Hl, list_lookup_middle in Hat by done. simpl in Hat.
    rewrite Hs, list_lookup_middle in Hat by done. congruence. }
  rewrite Hl, list_lookup_middle, (bind_done _ _ _ _ _ (deref_some s w)) by done.
  rewrite (bind_done _ _ _ _ _ (copy_dst_run _ _ _ w Hnd)), alter_middle.
  set (t' := new_dst t nd ndlen). rewrite Hl in Hok, Hroom.
  destruct (replace_spec l1 s l2 ts1 t ts2 t' Hok Hs (new_dst_weight _ _ _)) as (Hts & Hok0 & Htot0 & Hcl0).
  set (s0 := set_targets _ s) in *.
  rewrite (bind_done _ _ _ _ _ (se_store_run _ _ _ _ He)).
  set (w1 := set_ents _ w).
  assert (He1 : ents w1 !! se = Some (set_sets (l1 ++ s0 :: l2) (count e) e)).
  { unfold w1. simpl. apply lookup_insert_eq. }
  assert (Hrest1 : same_rest w w1) by done.
  assert (Hclq : class (priority s) (l1 ++ s :: l2) = ts1 ++ t :: ts2).
  { rewrite class_middle by apply Hok. by rewrite decide_True. }
  exists (priority s), ts1, ts2.
  destruct (Z.eqb_spec (priority s) prio) as [Hp|Hp].
  - rewrite (bind_done _ _ _ _ _ (se_store_run _ _ _ _ He1)), alter_middle.
    destruct (reweigh_spec l1 s0 l2 ts1 t' ts2 wt fl Hok0 Hts) as (Hok' & Htot' & Hcl').
    eexists _, _, _. split_and!; [done|done|done|..].
    + simpl. by rewrite insert_insert_eq.
    + done.
    + done.
    + split; [exact Hok'|]. simpl. by rewrite Hcnt, Hl, Htot', Htot0.
    + left. split; [done|]. intros p. simpl. rewrite Hcl', Hcl0. simpl.
      rewrite (decide_True (P := priority s = prio)) by done.
      destruct (decide (p = priority s)); [done|]. by rewrite decide_False by congruence.
  - destruct (get_or_create_run w1 (l1 ++ s0 :: l2) fl prio Hok0)
      as [(m1 & sx & m2 & Hrun & Hpl)|[Hn Hrun]];
      [|destruct (kfail w1) eqn:Hk; [|destruct Hrun as (m1 & sx & m2 & Hrun & Hpl)]];
      rewrite (bind_done _ _ _ _ _ Hrun).
    2:{ eexists _, _, _. split_and!; [done|done|done|..].
        - done.
        - done.
        - split_and!; try done. apply suffix_tail.
        - split; [exact Hok0|]. simpl. by rewrite Hcnt, Hl, Htot0.
        - right. split_and!; [done|by apply (kfail_in w1)|]. intros p. simpl. rewrite Hcl0.
          rewrite (decide_True (P := priority s = priority s)) by done.
          destruct (decide (p = priority s)); done. }
    all: assert (Hroom0 : (Z.of_nat (length (class prio (l1 ++ s0 :: l2))) + 1 < 2 ^ 16)%Z)
      by (rewrite Hcl0, decide_False by congruence; done).
    all: pose proof (move_store_run w) as Hmove.
    + destruct (Hmove w1 se e _ _ _ _ _ _ _ fl wt _ _ _ _ Hpl Hok0 (list_lookup_middle l1 l2 s0 _ eq_refl)
        Hts Hp Hroom0) as (w' & e' & Hmv & H1 & H2 & H3 & H4 & H5);
        [done|done|done|by rewrite Hcnt, Hl, <-Htot0|].
      exists 1%Z, w', e'. split_and!; try done. left. split; [done|]. by eapply moved_away.
    + destruct (Hmove (ktail w1) se e _ _ _ _ _ _ _ fl wt _ _ _ _ Hpl Hok0
        (list_lookup_middle l1 l2 s0 _ eq_refl) Hts Hp Hroom0) as (w' & e' & Hmv & H1 & H2 & H3 & H4 & H5);
        [done|done|split_and!; try done; apply suffix_tail|by rewrite Hcnt, Hl, <-Htot0|].
      exists 1%Z, w', e'. split_and!; try done. left. split; [done|]. by eapply moved_away.
Qed.

(** *** Sampling *)

Lemma shiftl_32 x : Z.shiftl x SAMPLE_SHIFT = (x * 2 ^ 32)%Z.
Proof. apply Z.shiftl_mul_pow2. by compute. Qed.

Lemma sample_bounds rnd norm :
  (0 <= rnd <= RAND_MAX)%Z → (0 <= norm < 2 ^ 32)%Z →
  sample_of rnd norm = (rnd * 2 ^ 32 / RAND_MAX * norm)%Z ∧ (0 <= sample_of rnd norm <= norm * 2 ^ 32)%Z.
Proof.
  intros Hr Hn. unfold sample_of. rewrite shiftl_32. unfold RAND_MAX in *.
  rewrite (wrap_small 64 (rnd * 2 ^ 32)) by lia.
  assert (0 <= rnd * 2 ^ 32 / 2147483647 <= 2 ^ 32)%Z as Hq.
  { split; [apply Z.div_pos; lia|]. apply Z.div_le_upper_bound; lia. }
  rewrite wrap_small by nia. nia.
Qed.

Lemma wrap_mul_32 x : u64 (x * 2 ^ 32) = (u32 x * 2 ^ 32)%Z.
Proof.
  unfold wrap. replace (2 ^ 64)%Z with (2 ^ 32 * 2 ^ 32)%Z by done.
  rewrite Z.mul_mod_distr_r; lia.
Qed.

(** The loop stops at a target, whatever wraps around on the way. *)
Lemma sample_loop_found sample ts acc j :
  ts ≠ [] → (sample <= u64 (acc + weights ts * 2 ^ 32))%Z →
  ∃ k, k < length ts ∧ sample_loop sample acc ts j = j + k.
Proof.
  revert acc j. induction ts as [|t ts IH]; intros acc j Hne Hs; [done|]. simpl.
  rewrite shiftl_32, wrap_add_r. destruct (Z.leb_spec sample (u64 (acc + weight t * 2 ^ 32))) as [H|H].
  - exists 0. simpl. lia.
  - simpl in Hs. rewrite Z.mul_add_distr_r, Z.add_assoc in Hs.
    destruct ts as [|t' ts]; [simpl in Hs; rewrite Z.add_0_r in Hs; lia|].
    destruct (IH (u64 (acc + weight t * 2 ^ 32)) (S j)) as (k & Hk & Heq); [done| |].
    + by rewrite wrap_add_l.
    + exists (S k). rewrite Heq. simpl in *. lia.
Qed.

(** Without wrap-around it is the target whose interval holds the sample. *)
Lemma sample_loop_interval sample ts acc j :
  Forall (λ t, 0 <= weight t)%Z ts → (0 <= acc)%Z → (acc + weights ts * 2 ^ 32 < 2 ^ 64)%Z →
  let k := sample_loop sample acc ts j - j in
  (0 < k → (acc + weights (take k ts) * 2 ^ 32 < sample)%Z) ∧
  (k < length ts → (sample <= acc + weights (take (S k) ts) * 2 ^ 32)%Z).
Proof.
  revert acc j. induction ts as [|t ts IH]; intros acc j Hw Ha Hb; simpl.
  { rewrite Nat.sub_diag. simpl. lia. }
  apply Forall_cons in Hw as [Hw Hws].
  assert (Hnn : (0 <= weights ts)%Z). { clear -Hws. induction Hws; simpl; lia. }
  simpl in Hb. rewrite shiftl_32, wrap_add_r, wrap_small by nia.
  destruct (Z.leb_spec sample (acc + weight t * 2 ^ 32)) as [H|H].
  { rewrite Nat.sub_diag. simpl. split; [lia|]. intros _. lia. }
  assert (Hge : S j ≤ sample_loop sample (acc + weight t * 2 ^ 32) ts (S j)).
  { clear. generalize (acc + weight t * 2 ^ 32)%Z as a. generalize (S j) as m.
    induction ts as [|x ts IH]; intros m a; simpl; [lia|]. case_match; [lia|].
    etrans; [|apply IH]. lia. }
  destruct (IH (acc + weight t * 2 ^ 32)%Z (S j)) as [H1 H2]; [done|lia|lia|].
  set (n := sample_loop _ _ _ _) in *. replace (n - j) with (S (n - S j)) by lia. split.
  - intros _. simpl. destruct (n - S j) as [|m] eqn:E; [simpl; lia|].
    specialize (H1 ltac:(lia)). lia.
  - intros Hlt. simpl in *. specialize (H2 ltac:(lia)). lia.
Qed.

(** What an iterator is on: the first set of an entry that is there. *)
Definition on_entry w se e (s : target_set) : Prop :=
  ents w !! se = Some e ∧ entry_ok e ∧ count e ≠ 0%Z ∧ (0 <= lock e)%Z ∧ ∃ l, sets e = s :: l.

Lemma iter_init_run w se e s m rnd :
  on_entry w se e s →
  service_iter_init se m rnd w =
    Done (if decide (m = SERVICE_ITER_ANYCAST ∧ Z.land (flags s) SVSF_MULTICAST ≠ 0%Z)
          then ((-1)%Z, ServiceIter se m false None None)
          else (0%Z, if decide (m = SERVICE_ITER_ANYCAST)
             then ServiceIter se m false
                    (Some (sample_loop (sample_of rnd (normalizer s)) 0 (targets s) 0)) None
             else ServiceIter se m true (Some 0) None),
      set_ents <[se := set_lock (lock e + 1) e]> w).
Proof.
  intros (He & _ & Hc & Hl & l & Hs). unfold service_iter_init, read_lock_bh, mbind, M_bind, se_load.
  rewrite He. destruct (Z.ltb_spec (lock e) 0); [lia|]. rewrite (se_store_run _ _ _ _ He). simpl.
  rewrite lookup_insert_eq. simpl. rewrite Hs, decide_False by (intros [?|?]; done). simpl.
  repeat case_decide; try done; tauto.
Qed.

(** *** Iteration *)

(** The loop [while ((t = service_iter_next(&iter)) != NULL)]; the positions
    it visits. *)
Fixpoint iter_all (fuel : nat) (it : service_iter) : M world (list nat) :=
  match fuel with
  | O => out_of_fuel
  | S fuel =>
      '(it, r) ← service_iter_next it;
      match r with
      | None => mret []
      | Some j => js ← iter_all fuel it; mret (j :: js)
      end
  end.

Fixpoint wanted_pos (m : iter_mode) (ts : list target) (p : nat) : list nat :=
  match ts with
  | [] => []
  | t :: ts => (if wanted m t then [p] else []) ++ wanted_pos m ts (S p)
  end.

Lemma wanted_pos_lookup m pre ts :
  (λ j, (pre ++ ts) !! j) <$> wanted_pos m ts (length pre) = Some <$> filter (λ t, wanted m t) ts.
Proof.
  revert pre. induction ts as [|t ts IH]; intros pre; [done|]. simpl. rewrite filter_cons.
  specialize (IH (pre ++ [t])). rewrite length_app, <-app_assoc in IH. simpl in IH.
  rewrite Nat.add_1_r in IH. rewrite fmap_app, IH. destruct (wanted m t); [|done].
  rewrite decide_True by done. simpl. by rewrite list_lookup_middle.
Qed.

Lemma iter_scan_spec m ts p :
  match iter_scan m ts p with
  | (_, None) => wanted_pos m ts p = []
  | (p', Some j) => ∃ a t b, ts = a ++ t :: b ∧ j = p + length a ∧ p' = S j ∧
      wanted_pos m ts p = j :: wanted_pos m b p'
  end.
Proof.
  revert p. induction ts as [|t ts IH]; intros p; [done|]. simpl. destruct (wanted m t).
  - exists [], t, ts. split_and!; [done|simpl; lia|done|done].
  - specialize (IH (S p)). destruct (iter_scan m ts (S p)) as [p' [j|]]; [|done].
    destruct IH as (a & t' & b & -> & -> & -> & Hw). exists (t :: a), t', b. simpl.
    split_and!; [done|lia|done|done].
Qed.

Lemma iter_all_run w se e s l m pre ts lp fuel :
  ents w !! se = Some e → sets e = s :: l → targets s = pre ++ ts → length ts < fuel →
  iter_all fuel (ServiceIter se m true (Some (length pre)) lp) w = Done (wanted_pos m ts (length pre), w).
Proof.
  intros He Hs. revert pre ts lp. induction fuel as [|fuel IH]; intros pre ts lp Ht Hf; [lia|].
  simpl. unfold service_iter_next. simpl.
  assert (Hrun : (e ← se_load se; s ← deref (sets e !! 0);
    let '(p', r) := iter_scan m (drop (length pre) (targets s)) (length pre) in
    mret (ServiceIter se m true (Some p') (Some (length pre)), r)) w =
    Done (let '(p', r) := iter_scan m ts (length pre) in
      (ServiceIter se m true (Some p') (Some (length pre)), r), w)).
  { unfold mbind, M_bind, se_load. rewrite He. simpl. rewrite Hs. simpl.
    rewrite Ht, drop_app_length. by destruct (iter_scan _ _ _). }
  rewrite (bind_done _ _ _ _ _ Hrun). clear Hrun.
  pose proof (iter_scan_spec m ts (length pre)) as Hscan.
  destruct (iter_scan m ts (length pre)) as [p' [j|]]; [|by rewrite Hscan].
  destruct Hscan as (a & t & b & -> & -> & -> & ->).
  assert (Hlen : S (length pre + length a) = length (pre ++ a ++ [t])).
  { rewrite !length_app. simpl. lia. }
  rewrite Hlen. erewrite bind_done; [done|]. apply IH.
  - by rewrite Ht, <-!app_assoc.
  - rewrite length_app in Hf. simpl in Hf. lia.
Qed.

(** ** Correctness of the entry operations *)

(** C9: [__service_entry_add_target] leaves the entry alone when it has the
    target already (and reports an address in use for a socket); otherwise it
    appends the new target to the ones of its priority, creating the set if
    needed and taking one reference to its socket or device, or it fails for
    want of memory with entries and references unchanged. *)
Theorem entry_add_target_correct w se e ty fl prio wt auth d dlen nset nsrc o :
  ents w !! se = Some e → entry_ok e → Forall (target_ok w) (all_targets (sets e)) →
  args_ok ty d dlen nset nsrc o w → comparable ty d dlen (sets e) →
  (Z.of_nat (length (class prio (sets e))) + 1 < 2 ^ 16)%Z →
  ∃ r w', entry_add_target se ty fl prio wt auth d dlen nset nsrc o w = Done (r, w') ∧
    match find_pos (same_target w ty d dlen (protocol_arg w dlen o)) (sets e) with
    | Some _ => w' = w ∧ r = (if decide (ty = SERVICE_RULE_DEMUX) then - EADDRINUSE else 0)%Z
    | None => target_added w w' se e prio r (mk_target ty d dlen nset nsrc o wt auth) ∧ same_rest w w'
    end.
Proof. apply add_target_spec. Qed.

(** C11: [__service_entry_modify_target] changes the first matching target:
    its address and weight, in its place when the priority stays, else at the
    end of the targets of the new priority, its old set going away when it is
    left empty.  The invariant is kept, also when there is no memory for a new
    set, in which case the address is changed but weight and priority are not. *)
Theorem entry_modify_target_correct w se e ty fl prio wt d dlen nd ndlen :
  ents w !! se = Some e → entry_ok e → Forall (target_ok w) (all_targets (sets e)) →
  comparable ty d dlen (sets e) → ty ≠ SERVICE_RULE_DEMUX → dlen ≠ 0 →
  (is_Some nd → is_Some (read_bytes nd ndlen)) →
  (Z.of_nat (length (class prio (sets e))) + 1 < 2 ^ 16)%Z →
  match find_pos (same_target w ty d dlen MATCH_NO_PROTOCOL) (sets e) with
  | None => entry_modify_target se ty fl prio wt d dlen nd ndlen w = Done (0%Z, w)
  | Some ij => ∃ t q c1 c2 r w' e',
      entry_modify_target se ty fl prio wt d dlen nd ndlen w = Done (r, w') ∧
      target_at (sets e) ij = Some t ∧ class q (sets e) = c1 ++ t :: c2 ∧
      ents w' = <[se := e']> (ents w) ∧ objs w' = objs w ∧ same_rest w w' ∧ entry_ok e' ∧
      ((r = 1%Z ∧ moved q prio c1 c2 (set_weight wt (new_dst t nd ndlen)) (sets e) (sets e')) ∨
       (r = (- ENOMEM)%Z ∧ true ∈ kmem w ∧ moved q q c1 c2 (new_dst t nd ndlen) (sets e) (sets e')))
  end.
Proof. apply modify_target_spec. Qed.

(** C10: [__service_entry_remove_target] removes exactly the first matching
    target, reports its statistics and drops its reference, and removes its
    set when that becomes empty; without a match nothing changes. *)
Theorem entry_remove_target_correct w se e ty d dlen :
  ents w !! se = Some e → entry_ok e → Forall (target_ok w) (all_targets (sets e)) →
  comparable ty d dlen (sets e) → (ty = SERVICE_RULE_FORWARD → is_Some d) →
  (entry_remove_target se ty d dlen w = Done (0%Z, None, w) ∧
   Forall (λ t, rm_match ty d dlen t = false) (all_targets (sets e))) ∨
  ∃ t a b q c1 c2 e' w', entry_remove_target se ty d dlen w = Done (1%Z, Some (t_stats t), w') ∧
    all_targets (sets e) = a ++ t :: b ∧ all_targets (sets e') = a ++ b ∧
    Forall (λ t, rm_match ty d dlen t = false) a ∧ rm_match ty d dlen t = true ∧
    class q (sets e) = c1 ++ t :: c2 ∧
    (∀ p, class p (sets e') = if decide (p = q) then c1 ++ c2 else class p (sets e)) ∧
    entry_ok e' ∧ node e' = node e ∧ refcnt e' = refcnt e ∧ lock e' = lock e ∧
    w' = set_ents <[se := e']> (set_objs (drop_ref (out t)) w).
Proof. apply remove_target_spec. Qed.

(** C39: [__service_entry_remove_target_by_dev] removes from every set exactly
    the forwarding rules through the device, keeping the order and the
    counters, gives up their references and returns their number, provided
    that every set keeps a target.  If some set has no other target, it frees
    the set and then reads the head of its list to find the end of the loop:
    a use of freed memory. *)
Theorem entry_remove_target_by_dev_correct w se e ifname :
  ents w !! se = Some e → entry_ok e → covered w (all_targets (sets e)) →
  if decide (Exists (λ s, kept w ifname (targets s) = []) (sets e))
  then entry_remove_target_by_dev se ifname w = Fault
  else ∃ e' w', entry_remove_target_by_dev se ifname w
      = Done (Z.of_nat (length (gone w ifname (all_targets (sets e)))), w') ∧
    w' = set_ents <[se := e']> (set_objs (drop_refs (gone w ifname (all_targets (sets e)))) w) ∧
    Forall2 (thinned w ifname) (sets e) (sets e') ∧ entry_ok e' ∧ covered w' (all_targets (sets e')) ∧
    node e' = node e ∧ refcnt e' = refcnt e ∧ lock e' = lock e.
Proof.
  intros He [Hok Hcnt] Hcov. unfold entry_remove_target_by_dev.
  assert (Hld : se_load se w = Done (e, w)) by (unfold se_load; by rewrite He).
  rewrite (bind_done _ _ _ _ _ Hld). rewrite <-(app_nil_r (all_targets _)) in Hcov.
  pose proof (remove_in_sets_run w ifname (sets e) [] (ok_sets _ Hok) Hcov) as Hrun. simpl in Hrun.
  case_decide; [unfold mbind, M_bind; by rewrite Hrun|].
  destruct Hrun as (l' & Hrun & Hall & Hcov' & _). rewrite (bind_done _ _ _ _ _ Hrun).
  set (n := length (gone _ _ _)) in *. rewrite app_nil_r in Hcov'.
  exists (set_sets l' (u32 (count e - Z.of_nat n)) e). eexists. split_and!; try done.
  - unfold mbind, M_bind, se_store. simpl. by rewrite He.
  - destruct (thinned_kept _ _ _ _ Hall) as (Hk & Hp & Hf). split; cbn [sets set_sets]; [split; [rewrite Hp; apply Hok|done]|].
    simpl. rewrite Hcnt, wrap_sub_l, !total_all, Hk, (kept_gone w ifname (all_targets (sets e))).
    f_equal. lia.
  - eapply covered_objs; [|exact Hcov']. done.
Qed.

(** C12: weighted sampling.  An anycast iterator always stands on a target of
    the first set and returns it once, whatever [random()] returns and even
    when the sums wrap around; when the weights add up to less than 2^32, it
    is the target in whose interval of cumulated weights the sample falls. *)
Theorem service_iter_sample_correct w se e s rnd :
  on_entry w se e s → Z.land (flags s) SVSF_MULTICAST = 0%Z → (0 <= rnd <= RAND_MAX)%Z →
  ∃ it w' j t it1 it2,
    service_iter_init se SERVICE_ITER_ANYCAST rnd w = Done (0%Z, it, w') ∧
    targets s !! j = Some t ∧
    service_iter_next it w' = Done (it1, Some j, w') ∧
    service_iter_next it1 w' = Done (it2, None, w') ∧
    (Forall (λ t, 0 <= weight t)%Z (targets s) → (weights (targets s) < 2 ^ 32)%Z →
     let x := (rnd * 2 ^ 32 / RAND_MAX * weights (targets s))%Z in
     (j = 0 ∨ (weights (take j (targets s)) * 2 ^ 32 < x)%Z) ∧
     (x <= weights (take (S j) (targets s)) * 2 ^ 32)%Z).
Proof.
  intros Hon Hfl Hr. pose proof (iter_init_run w se e s SERVICE_ITER_ANYCAST rnd Hon) as Hrun.
  rewrite decide_False, decide_True in Hrun by (done || intros [_ ?]; done).
  destruct Hon as (_ & [Hok _] & _ & _ & l & Hs). rewrite Hs in Hok.
  pose proof (ok_sets _ Hok) as [[Hwf Hne] _]%Forall_cons. destruct Hwf as [_ _ Hn].
  assert (Hnr : (0 <= normalizer s < 2 ^ 32)%Z) by (rewrite Hn; by apply wrap_range).
  destruct (sample_bounds rnd (normalizer s) Hr Hnr) as [Heq Hb].
  destruct (sample_loop_found (sample_of rnd (normalizer s)) (targets s) 0 0 Hne) as (k & Hk & Hloop).
  { rewrite Z.add_0_l, wrap_mul_32, <-Hn. apply Hb. }
  rewrite Hloop in Hrun. destruct (lookup_lt_is_Some_2 _ _ Hk) as [t Ht].
  eexists _, _, k, t, _, _. split_and!; [exact Hrun|done|done|done|].
  intros Hpos Hsum. assert (Hnn : (0 <= weights (targets s))%Z) by (clear -Hpos; induction Hpos; simpl; lia).
  rewrite (wrap_small 32) in Hn by lia. rewrite <-Hn, <-Heq.
  destruct (sample_loop_interval (sample_of rnd (normalizer s)) (targets s) 0 0 Hpos) as [H1 H2]; [lia|lia|].
  rewrite Hloop in H1, H2. replace (0 + k - 0) with k in * by lia. split.
  - destruct k; [by left|right]. specialize (H1 ltac:(lia)). lia.
  - specialize (H2 Hk). lia.
Qed.

(** C13: an iterator that is not an anycast one visits, in order, exactly the
    targets of the first set, the one of highest priority, that its mode
    selects, then returns NULL; its destruction gives back the lock and leaves
    the world as it was.  This holds for [SERVICE_ITER_ALL] too, of which the
    header says that it returns all destinations in all sets: the sets after
    the first one are never visited. *)
Theorem service_iter_enumerates w se e s m rnd :
  on_entry w se e s → m ≠ SERVICE_ITER_ANYCAST →
  ∃ it w' js, service_iter_init se m rnd w = Done (0%Z, it, w') ∧
    iter_all (S (length (targets s))) it w' = Done (js, w') ∧
    (λ j, targets s !! j) <$> js = Some <$> filter (λ t, wanted m t) (targets s) ∧
    service_iter_destroy it w' = Done (tt, w).
Proof.
  intros Hon Hm. pose proof (iter_init_run w se e s m rnd Hon) as Hrun.
  rewrite !decide_False in Hrun by (done || intros [? _]; done).
  destruct Hon as (He & _ & _ & _ & l & Hs). set (w' := set_ents _ w) in *.
  assert (He' : ents w' !! se = Some (set_lock (lock e + 1) e)) by (simpl; apply lookup_insert_eq).
  eexists _, w', (wanted_pos m (targets s) 0). split_and!; [exact Hrun|..].
  - apply (iter_all_run w' se (set_lock (lock e + 1) e) s l m [] (targets s)); auto.
  - apply (wanted_pos_lookup m []).
  - unfold service_iter_destroy, read_unlock_bh. simpl. rewrite (se_store_run _ _ _ _ He').
    do 2 f_equal. unfold w', set_ents. simpl. rewrite insert_insert_eq.
    rewrite (insert_id (ents w) se); [by destruct w|]. rewrite He. f_equal. destruct e.
    unfold set_lock. simpl. f_equal. lia.
Qed.

(** C38: [service_iter_init] on a multicast set in anycast mode returns -1
    with the entry's lock still held, so that a caller that returns at once,
    as the packet path does, leaves the entry locked: the next writer never
    gets in. *)
Theorem service_iter_init_keeps_lock w se e s rnd ty fl prio wt auth d dlen nset nsrc o :
  on_entry w se e s → Z.land (flags s) SVSF_MULTICAST ≠ 0%Z →
  ∃ it w', service_iter_init se SERVICE_ITER_ANYCAST rnd w = Done ((-1)%Z, it, w') ∧
    service_entry_add_target se ty fl prio wt auth d dlen nset nsrc o w' = Fault.
Proof.
  intros Hon Hfl. pose proof (iter_init_run w se e s SERVICE_ITER_ANYCAST rnd Hon) as Hrun.
  rewrite decide_True in Hrun by done. eexists _, _. split; [exact Hrun|].
  destruct Hon as (_ & _ & _ & Hl & _).
  unfold service_entry_add_target, write_lock_bh, mbind, M_bind, se_load. simpl.
  rewrite lookup_insert_eq. simpl. destruct (Z.eqb_spec (lock e + 1) 0); [lia|done].
Qed.

(** ** A concrete entry *)

Definition demo_fwd (b wt : Z) : target :=
  Target SERVICE_RULE_FORWARD wt 0 no_stats (Some 100) 4 0 [0; 0; 0; 0]%Z [10; 0; 0; b]%Z.
Definition demo_set (fl : Z) : target_set := TargetSet [demo_fwd 1 3; demo_fwd 2 5] 8 7 fl 2.
Definition demo_entry (fl : Z) : service_entry := ServiceEntry (Some 1) [demo_set fl] 2 no_stats 0 1.

(** One entry with two targets through device 100, and a socket 200. *)
Definition demo_world (fl : Z) : world :=
  World {[1 := demo_entry fl]} {[100 := ODev [101; 116; 104]%Z 3; 200 := OSock 6 1]} 2 [] 1 no_stats false.

Lemma demo_entry_ok fl : entry_ok (demo_entry fl).
Proof.
  split; [split|vm_compute; reflexivity].
  - repeat constructor.
  - repeat constructor; simpl; done.
Qed.

Lemma demo_target_ok fl b wt : target_ok (demo_world fl) (demo_fwd b wt).
Proof.
  split; [done|done|]. exists (ODev [101; 116; 104]%Z 3). split; [reflexivity|]. simpl. split; [done|lia].
Qed.

Lemma demo_targets_ok fl : Forall (target_ok (demo_world fl)) (all_targets (sets (demo_entry fl))).
Proof. do 2 (constructor; [apply demo_target_ok|]). constructor. Qed.

Lemma demo_comparable fl b :
  comparable SERVICE_RULE_FORWARD (Some (PBuf [10; 0; 0; b]%Z)) 4 (sets (demo_entry fl)).
Proof. intros _. split; [done|]. repeat constructor. Qed.

Lemma demo_on_entry fl : on_entry (demo_world fl) 1 (demo_entry fl) (demo_set fl).
Proof.
  split_and!; [reflexivity|apply demo_entry_ok|done|done|]. by exists [].
Qed.

Lemma entry_add_target_correct_witness :
  ∃ r w', entry_add_target 1 SERVICE_RULE_FORWARD 0 9 1 0 (Some (PBuf [10; 0; 0; 3]%Z)) 4 0 None
    (Some 100) (demo_world 0) = Done (r, w') ∧ r = 1%Z.
Proof.
  destruct (entry_add_target_correct (demo_world 0) 1 (demo_entry 0) SERVICE_RULE_FORWARD 0 9 1 0
    (Some (PBuf [10; 0; 0; 3]%Z)) 4 0 None (Some 100)) as (r & w' & Hrun & H).
  - reflexivity.
  - apply demo_entry_ok.
  - apply demo_targets_ok.
  - split; try done.
    + exists (ODev [101; 116; 104]%Z 3). split; [reflexivity|]. simpl. split; [done|lia].
    + intros k ob [= <-] Hob. vm_compute in Hob. injection Hob as <-. simpl. lia.
  - apply demo_comparable.
  - simpl. lia.
  - exists r, w'. split; [exact Hrun|]. change (find_pos _ _) with (@None (nat * nat)) in H.
    destruct H as [[(_ & Hin & _)|[H _]] _]; [inversion Hin|exact H].
Defined.

Lemma entry_modify_target_correct_witness :
  ∃ t r w', entry_modify_target 1 SERVICE_RULE_FORWARD 0 9 1 (Some (PBuf [10; 0; 0; 2]%Z)) 4
    (Some (PBuf [10; 0; 0; 9]%Z)) 4 (demo_world 0) = Done (r, w') ∧ t = demo_fwd 2 5.
Proof.
  pose proof (entry_modify_target_correct (demo_world 0) 1 (demo_entry 0) SERVICE_RULE_FORWARD 0 9 1
    (Some (PBuf [10; 0; 0; 2]%Z)) 4 (Some (PBuf [10; 0; 0; 9]%Z)) 4 eq_refl (demo_entry_ok 0)
    (demo_targets_ok 0) (demo_comparable 0 2) ltac:(discriminate) ltac:(discriminate)
    ltac:(intros _; eexists; reflexivity) ltac:(reflexivity)) as H.
  change (find_pos _ _) with (Some (0, 1)) in H.
  destruct H as (t & q & c1 & c2 & r & w' & e' & H1 & H2 & _). exists t, r, w'. split; [done|].
  vm_compute in H2. by injection H2 as <-.
Defined.

Lemma entry_remove_target_correct_witness :
  ∃ t w', entry_remove_target 1 SERVICE_RULE_FORWARD (Some (PBuf [10; 0; 0; 2]%Z)) 4 (demo_world 0)
    = Done (1%Z, Some (t_stats t), w').
Proof.
  destruct (entry_remove_target_correct (demo_world 0) 1 (demo_entry 0) SERVICE_RULE_FORWARD
    (Some (PBuf [10; 0; 0; 2]%Z)) 4) as [[H _]|(t & a & b & q & c1 & c2 & e' & w' & H1 & _)].
  - reflexivity.
  - apply demo_entry_ok.
  - apply demo_targets_ok.
  - apply demo_comparable.
  - intros _. by eexists.
  - vm_compute in H. discriminate.
  - by exists t, w'.
Defined.

(** A second device keeps the set alive when the first one goes. *)
Definition demo_set2 : target_set :=
  TargetSet [demo_fwd 1 3; Target SERVICE_RULE_FORWARD 5 0 no_stats (Some 101) 4 0 [0; 0; 0; 0]%Z [10; 0; 0; 2]%Z]
    8 7 0 2.
Definition demo_entry2 : service_entry := ServiceEntry (Some 1) [demo_set2] 2 no_stats 0 1.
Definition demo_world2 : world :=
  World {[1 := demo_entry2]} {[100 := ODev [101; 116; 104]%Z 1; 101 := ODev [119; 108]%Z 1]} 2 [] 1 no_stats false.

Lemma demo2_covered : covered demo_world2 (all_targets (sets demo_entry2)).
Proof.
  split.
  - repeat constructor; try done; simpl; eexists; (split; [reflexivity|]); simpl; (split; [done|lia]).
  - intros d ob. simpl. rewrite lookup_insert_Some, lookup_singleton_Some.
    intros [[<- <-]|[_ [<- <-]]]; vm_compute; discriminate.
Qed.

Lemma entry_remove_target_by_dev_correct_witness :
  ∃ e' w', entry_remove_target_by_dev 1 [101; 116; 104]%Z demo_world2 = Done (1%Z, w') ∧
    Forall2 (thinned demo_world2 [101; 116; 104]%Z) [demo_set2] (sets e').
Proof.
  pose proof (entry_remove_target_by_dev_correct demo_world2 1 demo_entry2 [101; 116; 104]%Z eq_refl) as H.
  rewrite decide_False in H.
  - destruct H as (e' & w' & H1 & _ & H2 & _).
    + split; [split|vm_compute; reflexivity]; repeat constructor; simpl; done.
    + exact demo2_covered.
    + exists e', w'. split; [exact H1|exact H2].
  - intros [H1|H1]%Exists_cons; [vm_compute in H1; discriminate|]. inversion H1.
Defined.

Lemma service_iter_sample_correct_witness :
  ∃ it w' j t, service_iter_init 1 SERVICE_ITER_ANYCAST 1610612736 (demo_world 0) = Done (0%Z, it, w') ∧
    targets (demo_set 0) !! j = Some t.
Proof.
  destruct (service_iter_sample_correct (demo_world 0) 1 (demo_entry 0) (demo_set 0) 1610612736
    (demo_on_entry 0)) as (it & w' & j & t & _ & _ & H1 & H2 & _).
  - reflexivity.
  - unfold RAND_MAX. lia.
  - exists it, w', j, t. by split.
Defined.

Lemma service_iter_enumerates_witness :
  ∃ it w' js, service_iter_init 1 SERVICE_ITER_FORWARD 0 (demo_world 0) = Done (0%Z, it, w') ∧
    iter_all 3 it w' = Done (js, w').
Proof.
  destruct (service_iter_enumerates (demo_world 0) 1 (demo_entry 0) (demo_set 0) SERVICE_ITER_FORWARD 0
    (demo_on_entry 0)) as (it & w' & js & H1 & H2 & _); [done|]. exists it, w', js. by split.
Defined.

Lemma service_iter_init_keeps_lock_witness :
  ∃ it w', service_iter_init 1 SERVICE_ITER_ANYCAST 0 (demo_world 32) = Done ((-1)%Z, it, w').
Proof.
  destruct (service_iter_init_keeps_lock (demo_world 32) 1 (demo_entry 32) (demo_set 32) 0
    SERVICE_RULE_DROP 0 0 0 0 None 4 0 None None (demo_on_entry 32)) as (it & w' & H & _); [done|]. by exists it, w'.
Defined.
