(* ===== verification/ServiceTable.v ===== *)
(** * The service table ([src/stack/service.c], table level)

    The table is the trie of [Bst.v] whose nodes carry service entries; its
    client state is the [world] of [ServiceEntry.v], in which the entries
    live.  The table lock brackets every operation below in the same way and
    is left out. *)
From S2P Require Import Prelude.
From S2P Require Import Bst.
From S2P Require Import ServiceEntry.

Local Open Scope nat_scope.

Abbreviation loc := nat.
Abbreviation service_table := (bst loc world).

Definition lift {A} (m : M world A) : M service_table A :=
  λ s, match m (Bst.world s) with
       | Done (a, w) => Done (a, set_world w s)
       | Fault => Fault
       | OutOfFuel => OutOfFuel
       end.

(** A service identifier: 32 bytes. *)
Abbreviation service_id := (list Z).
Definition SERVICE_ID_MAX_PREFIX_BITS : nat := 256.
Definition default_service : service_id := replicate 32 0%Z.

Inductive rule_match :=
| RULE_MATCH_LOCAL
| RULE_MATCH_GLOBAL
| RULE_MATCH_ANY
| RULE_MATCH_EXACT.

#[export] Instance rule_match_eq_dec : EqDecision rule_match.
Proof. solve_decision. Defined.

(** ** Callbacks of the trie *)

Definition service_entry_init (_ : option loc) (w : world) : Z * world := (0%Z, w).

Definition service_entry_destroy (v : option loc) (w : world) : world :=
  match v with
  | Some se => match service_entry_put se w with Done (_, w') => w' | _ => poison w end
  | None => poison w
  end.

Definition srv_ops : bst_node_ops loc world :=
  BstNodeOps (Some service_entry_init) (Some service_entry_destroy).

(** A callback that only reads: its answer, or what went wrong. *)
Definition ask {A} (m : M world A) (w : world) : res A :=
  match m w with
  | Done (a, _) => Done a
  | Fault => Fault
  | OutOfFuel => OutOfFuel
  end.

Definition service_entry_local_match (se : loc) : world → res bool :=
  ask (r ← entry_get_target se SERVICE_RULE_DEMUX None 0 MATCH_ANY_PROTOCOL;
       e ← se_load se;
       mret (bool_decide (is_Some (ij ← r; t ← target_at (sets e) ij; out t)))).

Definition service_entry_global_match (se : loc) : world → res bool :=
  ask (r ← entry_get_target se SERVICE_RULE_FORWARD None 0 MATCH_NO_PROTOCOL;
       mret (bool_decide (is_Some r))).

Definition service_entry_any_match (se : loc) : world → res bool := ask (mret true).

Definition match_func (m : rule_match) : loc → world → res bool :=
  match m with
  | RULE_MATCH_LOCAL => service_entry_local_match
  | RULE_MATCH_GLOBAL | RULE_MATCH_EXACT => service_entry_global_match
  | RULE_MATCH_ANY => service_entry_any_match
  end.

(** ** Lookup *)

(** [__service_table_find]; the entry is returned with a reference. *)
Definition table_find (srvid : option service_id) (prefix : nat) (m : rule_match)
  : M service_table (option loc) :=
  match srvid with
  | None => mret None
  | Some srvid =>
      n ← bst_find_longest_prefix_match srvid prefix (Some (match_func m));
      match n with
      | None => mret None
      | Some p =>
          nd ← load p;
          if decide (m ≠ RULE_MATCH_EXACT ∨ bst_node_get_prefix_bits nd = prefix) then
            se ← deref (bst_node_get_private nd);
            _ ← lift (service_entry_hold se);
            mret (Some se)
          else mret None
      end
  end.

Definition service_table_find := table_find.

Definition service_find_type (srvid : option service_id) (prefix : nat) (m : rule_match) :=
  service_table_find srvid prefix m.
Definition service_find (srvid : option service_id) (prefix : nat) :=
  service_find_type srvid prefix RULE_MATCH_ANY.
Definition service_find_exact (srvid : option service_id) (prefix : nat) :=
  service_find_type srvid prefix RULE_MATCH_EXACT.

Definition service_table_find_sock (srvid : option service_id) (prefix : nat) (protocol : Z)
  : M service_table (option loc) :=
  match srvid with
  | None => mret None
  | Some _ =>
      se ← table_find srvid prefix RULE_MATCH_LOCAL;
      match se with
      | None => mret None
      | Some se =>
          r ← lift (entry_get_target se SERVICE_RULE_DEMUX None 0 protocol);
          e ← lift (se_load se);
          sk ← match (ij ← r; target_at (sets e) ij) with
               | None => mret None
               | Some t => k ← deref (out t); _ ← lift (sock_hold k); mret (Some k)
               end;
          _ ← lift (service_entry_put se);
          mret sk
      end
  end.

Definition service_find_sock := service_table_find_sock.

Definition service_table_get_stats : M service_table (Z * stats) :=
  lift (gets (λ w, (services w, tbl_stats w))).
Definition service_get_stats := service_table_get_stats.

(** [service_get_id]: the prefix of the entry's node, padded with zeros. *)
Definition service_get_id (se : loc) : M service_table service_id :=
  e ← lift (se_load se);
  p ← deref (node e);
  nd ← load p;
  let n := bst_node_get_prefix_size nd in
  mret (take n (bst_node_get_prefix nd) ++ replicate (32 - n) 0%Z).

(** The result type is [unsigned char]. *)
Definition service_get_prefix_bits (se : loc) : M service_table Z :=
  e ← lift (se_load se);
  p ← deref (node e);
  nd ← load p;
  mret (u8 (Z.of_nat (bst_node_get_prefix_bits nd))).

Definition service_inc_stats (packets bytes : Z) : M service_table unit :=
  if (packets <? 0)%Z then lift (modify (set_tbl_stats (add_stats packets bytes))) else mret tt.

(** ** Modification *)

Definition prefix_arg (srvid : service_id) (bits : nat) : nat :=
  if decide (srvid = default_service) then 0 else bits.

Definition service_table_modify (srvid : option service_id) (bits : nat) (ty : service_rule_type)
    (fl prio wt : Z) (d : option ptr) (dlen : nat) (nd : option ptr) (ndlen : nat)
  : M service_table Z :=
  match srvid with
  | None => mret (- EINVAL)%Z
  | Some srvid =>
      let bits := prefix_arg srvid bits in
      n ← bst_find_longest_prefix srvid bits;
      match n with
      | None => mret (- EINVAL)%Z
      | Some p =>
          x ← load p;
          if decide (bits ≤ bst_node_get_prefix_bits x) then
            se ← deref (bst_node_get_private x);
            lift (service_entry_modify_target se ty fl prio wt d dlen nd ndlen)
          else mret (- EINVAL)%Z
      end
  end.

Definition service_modify (srvid : option service_id) (bits : nat) (ty : service_rule_type)
    (fl prio wt : Z) (d : option ptr) (dlen : nat) (nd : option ptr) (ndlen : nat)
  : M service_table Z :=
  service_table_modify srvid bits ty fl prio (if (wt =? 0)%Z then 1 else wt)%Z d dlen nd ndlen.

(** ** Addition *)

(** The loop that looks for duplicates with an iterator. *)
Fixpoint dup_loop (fuel : nat) (it : service_iter) (ty : service_rule_type) (d : option ptr)
    (dlen : nat) : M world (service_iter * bool) :=
  match fuel with
  | O => out_of_fuel
  | S fuel =>
      '(it, r) ← service_iter_next it;
      match r with
      | None => mret (it, false)
      | Some j =>
          e ← se_load (entry it);
          t ← deref (target_at (sets e) (0, j));
          b ← deref (is_target t ty d dlen);
          if (b : bool) || bool_decide (type t = SERVICE_RULE_DROP ∨ type t = SERVICE_RULE_DELAY)
          then mret (it, true)
          else dup_loop fuel it ty d dlen
      end
  end.

(** [-EEXIST] when a target of the first set is the same, or is a drop or
    delay rule. *)
Definition check_duplicate (se : loc) (ty : service_rule_type) (d : option ptr) (dlen : nat)
  : M world bool :=
  '(_, it) ← service_iter_init se SERVICE_ITER_ALL 0;
  e ← se_load se;
  let n := match sets e with s :: _ => length (targets s) | [] => 0 end in
  '(it, b) ← dup_loop (S n) it ty d dlen;
  _ ← service_iter_destroy it;
  mret b.

Definition type_check (ty : service_rule_type) (d : option ptr) (dlen : nat) : bool :=
  match ty with
  | SERVICE_RULE_UNDEFINED => false
  | SERVICE_RULE_FORWARD => negb (bool_decide (dlen = 0 ∨ d = None))
  | SERVICE_RULE_DEMUX => bool_decide (dlen = 0)
  | SERVICE_RULE_DELAY | SERVICE_RULE_DROP => true
  end.

(** The part of [service_table_add] for an entry that is not there yet. *)
Definition table_add_new (srvid : service_id) (bits : nat) (ty : service_rule_type)
    (fl prio wt auth : Z) (d : option ptr) (dlen : nat) (nset : Z) (nsrc : option (list Z))
    (o : option loc) : M service_table Z :=
  se ← lift service_entry_create;
  match se with
  | None => mret (- ENOMEM)%Z
  | Some se =>
      ret ← lift (entry_add_target se ty fl prio wt auth d dlen nset nsrc o);
      if (ret <? 0)%Z then _ ← lift (service_entry_put se); mret (- ENOMEM)%Z
      else
        n ← bst_insert_prefix (Some srv_ops) (Some se) srvid bits;
        _ ← lift (se_store se (set_node n));
        match n with
        | None => _ ← lift (service_entry_put se); mret (- ENOMEM)%Z
        | Some _ => _ ← lift (modify (λ w, set_services (u32 (services w + 1)) w)); mret ret
        end
  end.

Definition service_table_add (srvid : option service_id) (bits : nat) (ty : service_rule_type)
    (fl prio wt auth : Z) (d : option ptr) (dlen : nat) (nset : Z) (nsrc : option (list Z))
    (o : option loc) : M service_table Z :=
  match srvid with
  | None => mret (- EINVAL)%Z
  | Some srvid =>
      if type_check ty d dlen then
        let bits := prefix_arg srvid bits in
        n ← bst_find_longest_prefix srvid bits;
        match n with
        | None => table_add_new srvid bits ty fl prio wt auth d dlen nset nsrc o
        | Some p =>
            x ← load p;
            if decide (bits ≤ bst_node_get_prefix_bits x) then
              se ← deref (bst_node_get_private x);
              dup ← lift (check_duplicate se ty d dlen);
              if (dup : bool) then mret (- EEXIST)%Z
              else if decide (is_Some d ∨ dlen = 0) then
                lift (entry_add_target se ty fl prio wt auth d dlen nset nsrc o)
              else mret 0%Z
            else table_add_new srvid bits ty fl prio wt auth d dlen nset nsrc o
        end
      else mret (- EINVAL)%Z
  end.

Definition service_add (srvid : option service_id) (bits : nat) (ty : service_rule_type)
    (fl prio wt auth : Z) (d : option ptr) (dlen : nat) (nset : Z) (nsrc : option (list Z))
    (o : option loc) : M service_table Z :=
  service_table_add srvid bits ty fl prio (if (wt =? 0)%Z then 1 else wt)%Z auth d dlen nset nsrc o.

(** ** Removal *)

Definition dec_services : M service_table unit :=
  lift (modify (λ w, set_services (u32 (services w - 1)) w)).

(** An entry without targets leaves the trie. *)
Definition release_if_empty (se p : loc) : M service_table unit :=
  e ← lift (se_load se);
  match sets e with
  | [] => _ ← bst_node_release p; dec_services
  | _ => mret tt
  end.

Definition service_entry_remove_target_by_dev (se : loc) (ifname : cstr) : M service_table Z :=
  _ ← lift (service_entry_hold se);
  _ ← lift (write_lock_bh se);
  ret ← lift (entry_remove_target_by_dev se ifname);
  _ ← (if (0 <? ret)%Z then e ← lift (se_load se); p ← deref (node e); release_if_empty se p
       else mret tt);
  _ ← lift (write_unlock_bh se);
  _ ← lift (service_entry_put se);
  mret ret.

Definition service_entry_remove_target (se : loc) (ty : service_rule_type) (d : option ptr)
    (dlen : nat) : M service_table (Z * option stats) :=
  _ ← lift (service_entry_hold se);
  _ ← lift (write_lock_bh se);
  '(ret, st) ← lift (entry_remove_target se ty d dlen);
  _ ← (if (0 <? ret)%Z then e ← lift (se_load se); p ← deref (node e); release_if_empty se p
       else mret tt);
  _ ← lift (write_unlock_bh se);
  _ ← lift (service_entry_put se);
  mret (ret, st).

Definition service_table_del (srvid : service_id) (bits : nat) : M service_table unit :=
  ret ← bst_remove_prefix srvid bits;
  if (0 <? ret)%Z then dec_services else mret tt.

Definition service_del := service_table_del.

(** The targets of the entry found for the prefix, whatever its length. *)
Definition service_table_del_target (srvid : service_id) (bits : nat) (ty : service_rule_type)
    (d : option ptr) (dlen : nat) : M service_table (option stats) :=
  n ← bst_find_longest_prefix srvid bits;
  match n with
  | None => mret None
  | Some p =>
      x ← load p;
      se ← deref (bst_node_get_private x);
      _ ← lift (service_entry_hold se);
      _ ← lift (write_lock_bh se);
      '(ret, st) ← lift (entry_remove_target se ty d dlen);
      _ ← (if (0 <? ret)%Z then release_if_empty se p else mret tt);
      _ ← lift (write_unlock_bh se);
      _ ← lift (service_entry_put se);
      mret st
  end.

Definition service_del_target := service_table_del_target.

(** The callbacks of the table walks; a node is released only when exactly
    one target was removed. *)
Definition del_dev_func (devname : cstr) (p : loc) : M service_table Z :=
  x ← load p;
  se ← deref (bst_node_get_private x);
  _ ← lift (service_entry_hold se);
  _ ← lift (write_lock_bh se);
  ret ← lift (entry_remove_target_by_dev se devname);
  _ ← (if (ret =? 1)%Z then release_if_empty se p else mret tt);
  _ ← lift (write_unlock_bh se);
  _ ← lift (service_entry_put se);
  mret ret.

Definition service_table_del_dev_all (devname : cstr) : M service_table Z :=
  r ← gets root;
  match r with
  | Some r => bst_subtree_func r (del_dev_func devname)
  | None => mret 0%Z
  end.

Definition service_del_dev_all := service_table_del_dev_all.

Definition del_target_func (ty : service_rule_type) (d : option ptr) (dlen : nat) (p : loc)
  : M service_table Z :=
  x ← load p;
  se ← deref (bst_node_get_private x);
  _ ← lift (service_entry_hold se);
  _ ← lift (write_lock_bh se);
  '(ret, _) ← lift (entry_remove_target se ty d dlen);
  _ ← (if (ret =? 1)%Z then release_if_empty se p else mret tt);
  _ ← lift (write_unlock_bh se);
  _ ← lift (service_entry_put se);
  mret ret.

Definition service_table_del_target_all (ty : service_rule_type) (d : option ptr) (dlen : nat)
  : M service_table Z :=
  r ← gets root;
  match r with
  | Some r => bst_subtree_func r (del_target_func ty d dlen)
  | None => mret 0%Z
  end.

Definition service_del_target_all := service_table_del_target_all.

Definition service_table_destroy : M service_table unit := bst_destroy.

Definition service_table_init (ob : gmap loc object) (km nm : list bool) : service_table :=
  bst_init (World ∅ ob 1 km 0 no_stats false) nm.

(** ** The table as a map from prefixes to entries *)

Implicit Types (s : service_table) (w : world).

(** Every entry in the trie is allocated, and addresses are handed out once. *)
Record table_ok s : Prop := {
  tb_bst : bst_inv s;
  tb_ents k se : table s k = Some se → is_Some (ents (Bst.world s) !! se);
  tb_fresh se : is_Some (ents (Bst.world s) !! se) → se < next_ent (Bst.world s)
}.

Lemma bst_inv_world s w : bst_inv s → bst_inv (set_world w s).
Proof. intros [H1 H2 H3 H4 H5 H6]. by split. Qed.

Lemma lift_run {A} (m : M world A) s a w' :
  m (Bst.world s) = Done (a, w') → lift m s = Done (a, set_world w' s).
Proof. intros H. unfold lift. by rewrite H. Qed.

Lemma load_node s p n : nodes s !! p = Some n → load p s = Done (n, s).
Proof. intros H. unfold load. by rewrite H. Qed.

(** An entry for prefix [k] that passes the match function. *)
Definition candidate s (m : rule_match) k : bool :=
  match table s k with
  | Some se => match match_func m se (Bst.world s) with Done b => b | _ => false end
  | None => false
  end.

(** The targets of the entries in the table are as the program makes them:
    those of sockets and devices point to live objects. *)
Definition targets_live s : Prop :=
  ∀ k se e, table s k = Some se → ents (Bst.world s) !! se = Some e →
    Forall (target_ok (Bst.world s)) (all_targets (sets e)).

(** Forwarding rules are recognised by their type alone. *)
Lemma global_match_run se e w :
  ents w !! se = Some e →
  service_entry_global_match se w =
    Done (bool_decide (is_Some (find_pos (λ t, bool_decide (type t = SERVICE_RULE_FORWARD)) (sets e)))).
Proof.
  intros He. unfold service_entry_global_match, ask, entry_get_target, mbind, M_bind, se_load.
  rewrite He, (find_in_sets_pure _ _ (λ t, bool_decide (type t = SERVICE_RULE_FORWARD))); [done|].
  intros t _. unfold get_target_test. destruct (decide (type t = SERVICE_RULE_FORWARD)) as [Ht|Ht].
  - rewrite bool_decide_true, decide_False by tauto. unfold is_target.
    by rewrite (decide_False (P := type t ≠ _)) by tauto.
  - by rewrite bool_decide_false, decide_True by tauto.
Qed.

(** The match functions return on every entry of the table; the one for
    sockets looks at the sockets' protocols, so they have to be there. *)
Lemma match_func_callable s m K :
  table_ok s → (m = RULE_MATCH_LOCAL → targets_live s) → callable s (Some (match_func m)) K.
Proof.
  intros Hok Hlive k se _ Ht. destruct (tb_ents _ Hok _ _ Ht) as [e He].
  assert (∃ b, service_entry_global_match se (Bst.world s) = Done b) as Hglob.
  { rewrite (global_match_run se e) by done. eauto. }
  destruct m; simpl; [|done|by exists true|done].
  unfold service_entry_local_match, ask. specialize (Hlive eq_refl _ _ _ Ht He).
  erewrite bind_done by (apply get_target_run; [done|done|discriminate]).
  unfold mbind, M_bind, se_load. rewrite He. eexists. reflexivity.
Qed.

Lemma table_find_spec s srvid prefix m :
  table_ok s → (m = RULE_MATCH_LOCAL → targets_live s) → prefix ≤ 8 * length srvid →
  ∃ o s', table_find (Some srvid) prefix m s = Done (o, s') ∧
    match o with
    | Some se => ∃ k e, table s k = Some se ∧ candidate s m k = true ∧
        k `prefix_of` path srvid prefix ∧
        (∀ k', k' `prefix_of` path srvid prefix → candidate s m k' = true → length k' ≤ length k) ∧
        (m = RULE_MATCH_EXACT → k = path srvid prefix) ∧
        ents (Bst.world s) !! se = Some e ∧
        s' = set_world (set_ents <[se := set_refcnt (s32 (refcnt e + 1)) e]> (Bst.world s)) s
    | None => s' = s ∧ if decide (m = RULE_MATCH_EXACT) then candidate s m (path srvid prefix) = false
        else ∀ k, k `prefix_of` path srvid prefix → candidate s m k = false
    end.
Proof.
  intros Hok Hlive Hlen. pose proof Hok as [Hinv Hents _]. unfold table_find.
  destruct (bst_find_lpm_spec s srvid prefix (Some (match_func m)) Hinv Hlen
    (match_func_callable _ _ _ Hok Hlive)) as (o & Hrun & Ho).
  change (good s (Some (match_func m))) with (candidate s m) in Ho.
  rewrite (bind_done _ _ _ _ _ Hrun). destruct o as [p|]; last first.
  { exists None, s. split; [done|]. split; [done|]. case_decide; [|done]. by apply Ho. }
  destruct Ho as (k & Hk & Hc & Hpre & Hmax).
  destruct (node_at_bits _ _ _ Hinv Hk) as (n & Hn & Hb).
  rewrite (bind_done _ _ _ _ _ (load_node _ _ _ Hn)).
  assert (Hlk : prefix_bits n = length k) by (by rewrite <-Hb, node_bits_length).
  assert (Hpl : length (path srvid prefix) = prefix) by apply path_length.
  unfold bst_node_get_prefix_bits. case_decide as Hd.
  - assert (∃ se, table s k = Some se) as [se Hse].
    { unfold candidate in Hc. destruct (table s k); [eauto|done]. }
    assert (private n = Some se) as Hpr. { rewrite <-Hse. symmetry. by eapply table_at. }
    unfold bst_node_get_private. rewrite Hpr, (bind_done _ _ _ _ _ (deref_some _ _)).
    destruct (Hents _ _ Hse) as [e He].
    unfold service_entry_hold.
    rewrite (bind_done _ _ _ _ _ (lift_run _ _ _ _ (se_store_run _ _ _ _ He))).
    eexists (Some se), _. split; [done|]. exists k, e. split_and!; auto.
    intros ->. destruct Hd as [Hd|Hd]; [done|]. apply prefix_length_eq; [done|lia].
  - exists None, s. split; [done|]. split; [done|].
    destruct (decide (m = RULE_MATCH_EXACT)); [|tauto].
    destruct (candidate s m (path srvid prefix)) eqn:Hc'; [|done]. exfalso. apply Hd. right.
    pose proof (Hmax (path srvid prefix) ltac:(done) Hc'). apply prefix_length in Hpre. lia.
Qed.

(** C2: [service_find] and its variants return the entry of the longest
    prefix of the identifier that has one passing the match function, with
    one reference more; the exact variant only an entry for the whole prefix.
    NULL is returned, and nothing changes, only when there is no such entry.
    The lookup for local sockets reads the protocol of each socket it passes,
    so for it the sockets of the entries have to be there; given that, no
    callback reads freed memory. *)
Theorem service_find_type_correct s srvid prefix m :
  table_ok s → (m = RULE_MATCH_LOCAL → targets_live s) → prefix ≤ 8 * length srvid →
  ∃ o s', service_find_type (Some srvid) prefix m s = Done (o, s') ∧
    match o with
    | Some se => ∃ k e, table s k = Some se ∧ candidate s m k = true ∧
        k `prefix_of` path srvid prefix ∧
        (∀ k', k' `prefix_of` path srvid prefix → candidate s m k' = true → length k' ≤ length k) ∧
        (m = RULE_MATCH_EXACT → k = path srvid prefix) ∧
        ents (Bst.world s) !! se = Some e ∧
        s' = set_world (set_ents <[se := set_refcnt (s32 (refcnt e + 1)) e]> (Bst.world s)) s
    | None => s' = s ∧ if decide (m = RULE_MATCH_EXACT) then candidate s m (path srvid prefix) = false
        else ∀ k, k `prefix_of` path srvid prefix → candidate s m k = false
    end.
Proof. apply table_find_spec. Qed.

(** An entry without forwarding rules is not a candidate for the exact
    match. *)
Lemma global_match_none se e w :
  ents w !! se = Some e → Forall (λ t, type t ≠ SERVICE_RULE_FORWARD) (all_targets (sets e)) →
  service_entry_global_match se w = Done false.
Proof.
  intros He Hall. rewrite (global_match_run se e) by done. f_equal. apply bool_decide_false.
  intros [[i j] (t & _ & Ht%bool_decide_eq_true_1 & Hin)%find_pos_target].
  rewrite Forall_forall in Hall. by apply (Hall t).
Qed.

(** C37: the exact lookup uses the match function of forwarding rules, so an
    entry that only has a local socket is never found by
    [service_find_exact], although it is in the table for that very prefix. *)
Theorem service_find_exact_misses_local s srvid prefix se e :
  table_ok s → prefix ≤ 8 * length srvid → table s (path srvid prefix) = Some se →
  ents (Bst.world s) !! se = Some e →
  Forall (λ t, type t ≠ SERVICE_RULE_FORWARD) (all_targets (sets e)) →
  service_find_exact (Some srvid) prefix s = Done (None, s).
Proof.
  intros Hok Hlen Ht He Hall.
  destruct (table_find_spec s srvid prefix RULE_MATCH_EXACT Hok ltac:(done) Hlen) as ([se'|] & s' & Hrun & H).
  - destruct H as (k & e' & _ & Hc & _ & _ & Hk & _). rewrite (Hk eq_refl) in Hc.
    unfold candidate in Hc. rewrite Ht in Hc. simpl in Hc.
    by rewrite (global_match_none se e) in Hc.
  - destruct H as [-> _]. exact Hrun.
Qed.

(** *** Adding a service *)

Lemma entry_ok_new : entry_ok new_entry.
Proof. split; [split; constructor|done]. Qed.

Lemma comparable_nil ty d dlen nset nsrc o w :
  args_ok ty d dlen nset nsrc o w → comparable ty d dlen [].
Proof.
  intros [Hd _ Hr _ _ _] ->. destruct (decide (dlen = 0)) as [H0|H0]; [by apply Hd in H0|].
  destruct (Hr H0) as [b Hb]. unfold read_bytes in Hb. destruct d as [[c|]|]; try done.
  case_decide; [|done]. split; [done|constructor].
Qed.

Lemma args_ok_objs ty d dlen nset nsrc o w w' :
  objs w' = objs w → args_ok ty d dlen nset nsrc o w → args_ok ty d dlen nset nsrc o w'.
Proof.
  intros Ho [? ? ? ? Hout Hc]. split; auto.
  - unfold out_ok in *. by rewrite Ho.
  - unfold can_hold in *. by rewrite Ho.
Qed.

(** Taking one more reference keeps every target alive. *)
Lemma target_ok_taken w w' o t :
  objs w' = take_ref o (objs w) → can_hold o w → target_ok w t → target_ok w' t.
Proof.
  intros Hw Hh [? ? Hout]. split; [done|done|]. unfold out_ok in *. rewrite Hw.
  destruct (out t) as [k|]; [|done]. destruct Hout as (ob & Hk & Hs & Hr).
  destruct o as [j|]; [|by exists ob]. simpl. destruct (decide (j = k)) as [->|].
  - specialize (Hh k ob eq_refl Hk). rewrite lookup_alter_eq, Hk. eexists. split; [done|].
    destruct ob; simpl in *; split; auto; lia.
  - rewrite lookup_alter_ne by done. by exists ob.
Qed.

Lemma mk_target_ok ty d dlen nset nsrc o wt auth w :
  args_ok ty d dlen nset nsrc o w → target_ok w (mk_target ty d dlen nset nsrc o wt auth).
Proof.
  intros H. split.
  - apply (arg_demux _ _ _ _ _ _ _ H).
  - simpl. case_decide as H0; [done|]. destruct (arg_dst _ _ _ _ _ _ _ H H0) as [b Hb]. rewrite Hb.
    unfold read_bytes in Hb. destruct d as [[c|]|]; [|done..]. case_decide; [|done].
    injection Hb as <-. apply length_take_le. done.
  - erewrite mk_is_sock by done. apply (arg_out _ _ _ _ _ _ _ H).
Qed.

(** The only target of a new entry. *)
Lemma single_target l t : sets_ok l → all_targets l ≡ₚ [t] → ∃ x, l = [x] ∧ targets x = [t].
Proof.
  intros [_ Hok] Hp. apply Permutation_singleton_r in Hp.
  destruct l as [|x [|y l]]; [done| |].
  - exists x. unfold all_targets in Hp. simpl in Hp. by rewrite app_nil_r in Hp.
  - apply Forall_cons in Hok as [[_ Hx] [[_ Hy] _]%Forall_cons]. unfold all_targets in Hp. simpl in Hp.
    destruct (targets x) as [|a [|? ?]], (targets y); done.
Qed.

(** Giving up the last reference to an entry. *)
Lemma put_last_run w se e :
  ents w !! se = Some e → refcnt e = 1%Z →
  (sets e = [] ∨ ∃ x t, sets e = [x] ∧ targets x = [t] ∧ out_ok (is_sock_target t) (out t) w) →
  service_entry_put se w = Done (tt, set_ents (λ m, delete se m)
    (set_objs (match all_targets (sets e) with t :: _ => drop_ref (out t) | [] => id end) w)).
Proof.
  intros He Hr Hs. unfold service_entry_put. rewrite (bind_done _ _ _ _ _ (se_store_run _ _ _ _ He)), Hr.
  unfold mbind, M_bind, se_load. simpl. rewrite lookup_insert_eq. simpl. unfold entry_free.
  unfold mbind, M_bind, se_load. simpl. rewrite lookup_insert_eq. simpl.
  destruct Hs as [->|(x & t & -> & Hx & Ho)]; simpl.
  - unfold modify, set_ents, set_objs. simpl. do 3 f_equal. by rewrite delete_insert_eq.
  - unfold mbind, M_bind, target_set_free. rewrite Hx. simpl. unfold mbind, M_bind.
    rewrite target_free_run by exact Ho. simpl. unfold modify, set_ents, set_objs. simpl.
    do 3 f_equal. by rewrite delete_insert_eq.
Qed.

(** The world after [service_entry_create]. *)
Definition with_new w : world :=
  World (<[next_ent w := new_entry]> (ents w)) (objs w) (S (next_ent w)) (tail (kmem w))
    (services w) (tbl_stats w) (poisoned w).

Lemma entry_create_run w :
  service_entry_create w = if kfail w then Done (None, ktail w) else Done (Some (next_ent w), with_new w).
Proof.
  unfold service_entry_create. rewrite (bind_done _ _ _ _ _ (kmalloc_run w)). by destruct (kfail w).
Qed.

(** Nothing is left of a failed addition. *)
Definition undone s s' : Prop :=
  table_ok s' ∧ (targets_live s → targets_live s') ∧ (∀ k, table s' k = table s k) ∧ ents (Bst.world s') = ents (Bst.world s) ∧
  objs (Bst.world s') = objs (Bst.world s) ∧ services (Bst.world s') = services (Bst.world s).

Lemma undone_intro s s' :
  table_ok s → bst_inv s' → (∀ k, table s' k = table s k) →
  ents (Bst.world s') = ents (Bst.world s) → objs (Bst.world s') = objs (Bst.world s) →
  services (Bst.world s') = services (Bst.world s) →
  next_ent (Bst.world s) ≤ next_ent (Bst.world s') → undone s s'.
Proof.
  intros [Hb He Hf] Hb' Ht Hents Hobjs Hsrv Hn. split; [split; [done|..]; rewrite ?Hents|split; [|done]].
  - intros k se. rewrite Ht. apply He.
  - intros se Hse. apply Hf in Hse. lia.
  - intros Hlive k se e. rewrite Ht, Hents. intros Hk Hse.
    eapply Forall_impl; [by apply (Hlive k se)|]. intros t. by apply target_ok_objs.
Qed.

(** The entry that is now in the table for [k] has the one target [t]. *)
Definition added_new s s' (k : list bool) t : Prop :=
  table_ok s' ∧ (targets_live s → targets_live s') ∧ services (Bst.world s') = u32 (services (Bst.world s) + 1) ∧
  objs (Bst.world s') = take_ref (out t) (objs (Bst.world s)) ∧
  ∃ se e, (∀ k', table s' k' = if decide (k' = k) then Some se else table s k') ∧
    ents (Bst.world s) !! se = None ∧
    ents (Bst.world s') = <[se := e]> (ents (Bst.world s)) ∧
    entry_ok e ∧ node e = node_at s' k ∧ refcnt e = 1%Z ∧ all_targets (sets e) = [t].

Lemma next_ent_fresh s : table_ok s → ents (Bst.world s) !! next_ent (Bst.world s) = None.
Proof.
  intros Hok. destruct (ents (Bst.world s) !! next_ent (Bst.world s)) eqn:E; [|done].
  pose proof (tb_fresh _ Hok (next_ent (Bst.world s))) as H. rewrite E in H.
  specialize (H ltac:(eauto)). lia.
Qed.

(** The part of [table_add_new] after the target has been added. *)
Lemma insert_entry_run s srvid bits se e w2 t :
  table_ok s → bits ≤ 8 * length srvid → table s (path srvid bits) = None →
  (entries s + 1 < 2 ^ 32)%Z → se = next_ent (Bst.world s) → next_ent w2 = S se →
  ents w2 = <[se := e]> (ents (Bst.world s)) → objs w2 = take_ref (out t) (objs (Bst.world s)) →
  services w2 = services (Bst.world s) → entry_ok e → refcnt e = 1%Z → all_targets (sets e) = [t] →
  target_ok (Bst.world s) t → can_hold (out t) (Bst.world s) →
  ∃ r s', (n ← bst_insert_prefix (Some srv_ops) (Some se) srvid bits;
     _ ← lift (se_store se (set_node n));
     match n with
     | None => _ ← lift (service_entry_put se); mret (- ENOMEM)%Z
     | Some _ => _ ← lift (modify (λ w, set_services (u32 (services w + 1)) w)); mret 1%Z
     end) (set_world w2 s) = Done (r, s') ∧
    ((r = (- ENOMEM)%Z ∧ true ∈ oom s ∧ undone s s') ∨ (r = 1%Z ∧ added_new s s' (path srvid bits) t)).
Proof.
  intros Hok Hlen Htab Hb Hse Hnext Hents Hobjs Hsrv Heok Href Hall Htok Hhold.
  pose proof (ok_out _ _ Htok) as Hout.
  pose proof (next_ent_fresh s Hok) as Hfresh. rewrite <-Hse in Hfresh.
  destruct (insert_prefix_ok (set_world w2 s) (Some srv_ops) se srvid bits)
    as (n & s3 & Hrun & Hinv3 & Hw3 & Hins); [by apply bst_inv_world, tb_bst|done|by intros v w|done|].
  rewrite (bind_done _ _ _ _ _ Hrun). specialize (Hins Htab). simpl in Hw3.
  change (table (set_world w2 s)) with (table s) in Hins. change (oom (set_world w2 s)) with (oom s) in Hins.
  assert (Hst : se_store se (set_node n) (Bst.world s3) = Done (tt, set_ents <[se := set_node n e]> w2)).
  { rewrite Hw3. apply se_store_run. by rewrite Hents, lookup_insert_eq. }
  rewrite (bind_done _ _ _ _ _ (lift_run _ _ _ _ Hst)). destruct n as [c|].
  - unfold mbind, M_bind, lift, modify. eexists 1%Z, _. split; [done|]. right. split; [done|].
    destruct Hins as [Hat Ht]. split; [split|split; [|split_and!]].
    + by apply bst_inv_world, bst_inv_world.
    + intros k se'. simpl. change (table (set_world _ _)) with (table s3). rewrite Ht, Hents.
      rewrite lookup_insert_is_Some. case_decide; [intros [= <-]; by left|]. intros Hk.
      destruct (decide (se = se')); [by left|]. right. split; [done|]. rewrite lookup_insert_is_Some.
      right. split; [done|]. by apply (tb_ents _ Hok k).
    + intros se'. simpl. rewrite Hents, Hnext, insert_insert_eq, lookup_insert_is_Some.
      intros [<-|[_ H]]; [lia|]. apply (tb_fresh _ Hok) in H. lia.
    + intros Hlive k se' e'. simpl. change (table (set_world _ _)) with (table s3).
      rewrite Ht, Hents, insert_insert_eq. intros Hk He'.
      assert (Forall (target_ok (Bst.world s)) (all_targets (sets e'))) as Hall'.
      { case_decide.
        - injection Hk as <-. rewrite lookup_insert_eq in He'. injection He' as <-. simpl. rewrite Hall.
          by apply Forall_singleton.
        - destruct (decide (se = se')) as [<-|]; [|rewrite lookup_insert_ne in He' by done; by eapply Hlive].
          pose proof (tb_ents _ Hok _ _ Hk) as [? ?]. congruence. }
      eapply Forall_impl; [exact Hall'|]. intros t' Ht'.
      by apply (target_ok_taken (Bst.world s) _ (out t)).
    + simpl. by rewrite Hsrv.
    + done.
    + exists se, (set_node (Some c) e). simpl. change (table (set_world _ _)) with (table s3).
      split_and!; auto.
      * by rewrite Hents, insert_insert_eq.
  - destruct Hins as [Hoom Ht]. set (w4 := set_ents _ w2).
    assert (Hput : service_entry_put se w4 = Done (tt, set_ents (λ m, delete se m)
      (set_objs (drop_ref (out t)) w4))).
    { rewrite (put_last_run w4 se (set_node None e)); [by simpl; rewrite Hall| | |].
      - simpl. by rewrite lookup_insert_eq.
      - done.
      - right. destruct (single_target (sets e) t (proj1 Heok)) as (x & Hx & Htx); [by rewrite Hall|].
        exists x, t. split_and!; auto.
        assert (out_ok (is_sock_target t) (out t) (set_objs (take_ref (out t)) (Bst.world s))) as H
          by by eapply out_ok_taken.
        unfold out_ok in *. simpl in *. by rewrite Hobjs. }
    rewrite (bind_done _ _ _ _ _ (lift_run _ (set_world w4 s3) _ _ Hput)).
    eexists _, _. split; [done|]. left. split_and!; [done|done|].
    apply undone_intro; auto; simpl.
    + by apply bst_inv_world, bst_inv_world.
    + rewrite Hents, insert_insert_eq. by apply delete_insert_id.
    + rewrite Hobjs. by eapply drop_take_ref.
    + lia.
Qed.

Lemma table_add_new_spec s srvid bits ty fl prio wt auth d dlen nset nsrc o :
  table_ok s → bits ≤ 8 * length srvid → table s (path srvid bits) = None →
  (entries s + 1 < 2 ^ 32)%Z → args_ok ty d dlen nset nsrc o (Bst.world s) →
  ∃ r s', table_add_new srvid bits ty fl prio wt auth d dlen nset nsrc o s = Done (r, s') ∧
    ((r = (- ENOMEM)%Z ∧ (true ∈ oom s ∨ true ∈ kmem (Bst.world s)) ∧ undone s s') ∨
     (r = 1%Z ∧ added_new s s' (path srvid bits) (mk_target ty d dlen nset nsrc o wt auth))).
Proof.
  intros Hok Hlen Htab Hb Hargs. unfold table_add_new. set (w := Bst.world s) in *.
  pose proof (next_ent_fresh s Hok) as Hfresh.
  pose proof (entry_create_run w) as Hc. destruct (kfail w) eqn:Hk;
    rewrite (bind_done _ _ _ _ _ (lift_run _ _ _ _ Hc)).
  { eexists _, _. split; [done|]. left. split_and!; [done|right; by apply kfail_in|].
    apply undone_intro; auto. by apply bst_inv_world, tb_bst. }
  set (se := next_ent w) in *. set (t := mk_target ty d dlen nset nsrc o wt auth).
  assert (Hargs' : args_ok ty d dlen nset nsrc o (with_new w)) by (by apply (args_ok_objs _ _ _ _ _ _ w)).
  destruct (add_target_spec (with_new w) se new_entry ty fl prio wt auth d dlen nset nsrc o)
    as (r & w2 & Hadd & Hres).
  { simpl. apply lookup_insert_eq. } { apply entry_ok_new. } { constructor. } { done. }
  { by eapply comparable_nil. } { simpl. lia. }
  destruct Hres as [Hadded (Hn & Hsrv & _ & _ & Hkm)].
  rewrite (bind_done _ _ _ _ _ (lift_run _ (set_world (with_new w) s) _ _ Hadd)).
  destruct Hadded as [(-> & Hin & He & Ho)|(-> & Ho & e & He & Heok & Hnode & Href & _ & Hall & _)].
  - simpl. assert (Hput : service_entry_put se w2 = Done (tt, set_ents (λ m, delete se m) (set_objs id w2))).
    { rewrite (put_last_run w2 se new_entry); [done| |done|by left]. rewrite He. apply lookup_insert_eq. }
    rewrite (bind_done _ _ _ _ _ (lift_run _ (set_world w2 (set_world (with_new w) s)) _ _ Hput)).
    eexists _, _. split; [done|]. left. split_and!; [done| |].
    { right. simpl in Hin. destruct (kmem w); [done|]. by right. }
    apply undone_intro; auto; simpl.
    + by apply bst_inv_world, bst_inv_world, bst_inv_world, tb_bst.
    + rewrite He. simpl. by apply delete_insert_id.
    + rewrite Hn. simpl. fold w. lia.
  - simpl. change (set_world w2 (set_world (with_new w) s)) with (set_world w2 s).
    destruct (insert_entry_run s srvid bits se e w2 t Hok Hlen Htab Hb eq_refl)
      as (r & s' & Hrun & Hr); auto.
    + by rewrite He; simpl; rewrite insert_insert_eq.
    + apply Permutation_singleton_r. exact Hall.
    + by apply mk_target_ok.
    + apply (arg_hold _ _ _ _ _ _ _ Hargs).
    + exists r, s'. split; [exact Hrun|]. destruct Hr as [(? & ? & ?)|?]; [left|right]; auto.
Qed.

Lemma type_check_args ty d dlen nset nsrc o w :
  args_ok ty d dlen nset nsrc o w → ty ≠ SERVICE_RULE_UNDEFINED → type_check ty d dlen = true.
Proof.
  intros [Hd _ Hr _ _ _] Hty. destruct ty; try done; simpl.
  - assert (H0 : dlen ≠ 0) by (intros H0; by apply Hd in H0).
    rewrite bool_decide_false; [done|]. intros [?|H]; [done|]. subst d. by destruct (Hr H0).
  - rewrite bool_decide_true; [done|]. by apply Hd.
Qed.

(** C8: [service_add] for a prefix without entry (the default service
    standing for the empty prefix) makes a new entry with exactly the given
    target, of weight at least 1, under exactly that prefix: the other
    prefixes keep their entries, the service count goes up by one and the
    socket or device has one reference more.  When memory runs out it reports
    [-ENOMEM], and entries, references and count are as before.  Either way
    the invariants of the table are kept. *)
Theorem service_add_new_correct s srvid bits0 ty fl prio wt auth d dlen nset nsrc o :
  let bits := prefix_arg srvid bits0 in
  table_ok s → bits ≤ 8 * length srvid → table s (path srvid bits) = None →
  (entries s + 1 < 2 ^ 32)%Z → args_ok ty d dlen nset nsrc o (Bst.world s) →
  ty ≠ SERVICE_RULE_UNDEFINED →
  ∃ r s', service_add (Some srvid) bits0 ty fl prio wt auth d dlen nset nsrc o s = Done (r, s') ∧
    ((r = (- ENOMEM)%Z ∧ (true ∈ oom s ∨ true ∈ kmem (Bst.world s)) ∧ undone s s') ∨
     (r = 1%Z ∧ added_new s s' (path srvid bits)
        (mk_target ty d dlen nset nsrc o (if (wt =? 0)%Z then 1 else wt)%Z auth))).
Proof.
  intros bits Hok Hlen Htab Hb Hargs Hty. unfold service_add, service_table_add.
  rewrite (type_check_args _ _ _ _ _ _ _ Hargs Hty). fold bits.
  destruct (find_exact s srvid bits (tb_bst _ Hok) Hlen) as (n & Hrun & Hres).
  rewrite (bind_done _ _ _ _ _ Hrun). rewrite Htab in Hres.
  destruct n as [p|]; [|by apply table_add_new_spec].
  pose proof Hrun as Hrun'. unfold bst_find_longest_prefix in Hrun'.
  destruct (bst_find_lpm_spec s srvid bits None (tb_bst _ Hok) Hlen (callable_none _ _)) as (o' & Hrun2 & Ho).
  assert (o' = Some p) as -> by congruence. destruct Ho as (k & Hk & _ & Hpre & _).
  destruct (node_at_bits _ _ _ (tb_bst _ Hok) Hk) as (x & Hx & Hbx).
  rewrite (bind_done _ _ _ _ _ (load_node _ _ _ Hx)). unfold bst_node_get_prefix_bits.
  rewrite decide_False; [by apply table_add_new_spec|].
  specialize (Hres p x eq_refl Hx). apply prefix_length in Hpre.
  rewrite path_length, <-Hbx, node_bits_length in Hpre. lia.
Qed.

Lemma table_init_ok ob km nm : table_ok (service_table_init ob km nm).
Proof.
  split; [apply bst_init_inv|done|]. intros se [e He]. simpl in He. by rewrite lookup_empty in He.
Qed.

(** ** A concrete table *)

Definition demo_objs : gmap loc object := {[100 := ODev [101; 116; 104]%Z 1; 200 := OSock 6 1]}.
Definition demo_empty : service_table := service_table_init demo_objs [] [].
Definition demo_id : service_id := 10%Z :: replicate 31 0%Z.

(** The table after an addition that returned. *)
Definition after_add (bits : nat) (ty : service_rule_type) (d : option ptr) (dlen : nat) (o : option loc)
    s : service_table :=
  match service_add (Some demo_id) bits ty 0 1 1 0 d dlen 0 None o s with Done (_, s') => s' | _ => s end.

Definition demo_local : service_table := after_add 8 SERVICE_RULE_DEMUX None 0 (Some 200) demo_empty.

Lemma demo_sock_args :
  args_ok SERVICE_RULE_DEMUX None 0 0 None (Some 200) (Bst.world demo_empty).
Proof.
  split; try done.
  - exists (OSock 6 1). split; [reflexivity|]. simpl. split; [done|lia].
  - intros k ob [= <-] Hob. change (objs _ !! 200) with (Some (OSock 6 1)) in Hob.
    injection Hob as <-. simpl. lia.
Qed.

Lemma demo_local_ok : table_ok demo_local ∧ targets_live demo_local.
Proof.
  pose proof (table_add_new_spec demo_empty demo_id 8 SERVICE_RULE_DEMUX 0 1 1 0 None 0 0 None (Some 200)
    (table_init_ok _ _ _) ltac:(simpl; lia) eq_refl ltac:(reflexivity) demo_sock_args)
    as (r & s' & Hrun & Hr).
  assert (demo_local = s') as ->.
  { change demo_local with (match table_add_new demo_id 8 SERVICE_RULE_DEMUX 0 1 1 0 None 0 0 None
      (Some 200) demo_empty with Done (_, s') => s' | _ => demo_empty end). by rewrite Hrun. }
  assert (targets_live demo_empty) as Hlive.
  { intros k se e _ He. vm_compute in He. discriminate. }
  destruct Hr as [(_ & _ & H1 & H2 & _)|(_ & H1 & H2 & _)]; auto.
Qed.

Lemma service_find_type_correct_witness :
  ∃ o s', service_find_type (Some demo_id) 256 RULE_MATCH_LOCAL demo_local = Done (o, s').
Proof.
  destruct (service_find_type_correct demo_local demo_id 256 RULE_MATCH_LOCAL
    (proj1 demo_local_ok) (λ _, proj2 demo_local_ok)) as (o & s' & H & _); [apply Nat.leb_le; reflexivity|]. exists o, s'. exact H.
Defined.

Definition demo_local_entry : service_entry :=
  default new_entry (ents (Bst.world demo_local) !! 1).

Lemma service_find_exact_misses_local_witness :
  service_find_exact (Some demo_id) 8 demo_local = Done (None, demo_local).
Proof.
  apply (service_find_exact_misses_local demo_local demo_id 8 1 demo_local_entry (proj1 demo_local_ok)).
  - apply Nat.leb_le. reflexivity.
  - vm_compute. reflexivity.
  - vm_compute. reflexivity.
  - change (all_targets (sets demo_local_entry))
      with [mk_target SERVICE_RULE_DEMUX None 0 0 None (Some 200) 1 0].
    constructor; [|constructor]. discriminate.
Defined.

Lemma service_add_new_correct_witness :
  ∃ r s', service_add (Some demo_id) 8 SERVICE_RULE_DEMUX 0 1 1 0 None 0 0 None (Some 200) demo_empty
    = Done (r, s').
Proof.
  destruct (service_add_new_correct demo_empty demo_id 8 SERVICE_RULE_DEMUX 0 1 1 0 None 0 0 None (Some 200))
    as (r & s' & H & _).
  - apply table_init_ok.
  - apply Nat.leb_le. reflexivity.
  - reflexivity.
  - reflexivity.
  - apply demo_sock_args.
  - discriminate.
  - exists r, s'. exact H.
Defined.
