(* ===== verification/Checksum.v ===== *)
(** * Internet checksums ([src/stack/userlevel/checksum.c] and
      [include/serval/checksum.h])

    The optimised routine [do_csum] adds up 32-bit words with a carry and
    folds; the reference is the one's complement sum of 16-bit words.  The
    machine is little-endian; memory is a list of bytes at an address, of
    which only the alignment matters.  [None] is a read outside the buffer. *)
From S2P Require Import Prelude.

Local Open Scope Z_scope.

(** ** The code *)

Definition fold16 (x : Z) : Z := u32 (Z.land x 65535 + Z.shiftr x 16).

Definition from32to16 (x : Z) : Z := u16 (fold16 (fold16 x)).

Definition read8 (b : list Z) : option (Z * list Z) :=
  match b with x :: b => Some (x, b) | _ => None end.
Definition read16 (b : list Z) : option (Z * list Z) :=
  match b with x :: y :: b => Some (x + Z.shiftl y 8, b) | _ => None end.
Definition read32 (b : list Z) : option (Z * list Z) :=
  match b with
  | x :: y :: z :: t :: b => Some (x + Z.shiftl y 8 + Z.shiftl z 16 + Z.shiftl t 24, b)
  | _ => None
  end.

(** The loop over 32-bit words. *)
Fixpoint csum_loop (count : nat) (buff : list Z) (result carry : Z) : option (Z * Z * list Z) :=
  match count with
  | O => Some (result, carry, buff)
  | S count =>
      '(w, buff) ← read32 buff;
      let result := u32 (result + carry) in
      let result := u32 (result + w) in
      csum_loop count buff result (if result <? w then 1 else 0)
  end.

(** The 32-bit words; [count] is their number. *)
Definition csum_words (count : Z) (buff : list Z) (result : Z) : option (Z * list Z) :=
  if count =? 0 then Some (result, buff)
  else
    '(result, carry, buff) ← csum_loop (Z.to_nat count) buff result 0;
    Some (fold16 (u32 (result + carry)), buff).

(** From the first even address on. *)
Definition csum_even (addr : Z) (buff : list Z) (len result : Z) : option (Z * list Z) :=
  let count := Z.shiftr len 1 in
  if count =? 0 then Some (result, buff)
  else
    '(addr, len, count, result, buff) ←
      (if negb (Z.land addr 2 =? 0) then
         '(w, buff) ← read16 buff;
         Some (addr + 2, len - 2, count - 1, u32 (result + w), buff)
       else Some (addr, len, count, result, buff));
    '(result, buff) ← csum_words (Z.shiftr count 1) buff result;
    if negb (Z.land len 2 =? 0) then
      '(w, buff) ← read16 buff; Some (u32 (result + w), buff)
    else Some (result, buff).

Definition do_csum (addr : Z) (buff : list Z) (len : Z) : option Z :=
  if len <=? 0 then Some 0
  else
    let odd := Z.land 1 addr in
    '(addr, len, result, buff) ←
      (if odd =? 0 then Some (addr, len, 0, buff)
       else '(b, buff) ← read8 buff; Some (addr + 1, len - 1, Z.shiftl b 8, buff));
    '(result, buff) ← csum_even addr buff len result;
    '(result, buff) ←
      (if Z.land len 1 =? 0 then Some (result, buff)
       else '(b, buff) ← read8 buff; Some (u32 (result + b), buff));
    let result := from32to16 result in
    Some (if odd =? 0 then result
          else Z.lor (Z.land (Z.shiftr result 8) 255) (Z.shiftl (Z.land result 255) 8)).

(** [~x] converted to [__sum16]. *)
Definition not16 (x : Z) : Z := u16 (Z.lnot x).

Definition ip_fast_csum (addr : Z) (iph : list Z) (ihl : Z) : option Z :=
  not16 <$> do_csum addr iph (u32 (ihl * 4)).

Definition csum_partial (addr : Z) (buff : list Z) (len wsum : Z) : option Z :=
  result ← do_csum addr buff len;
  let result := u32 (result + wsum) in
  Some (if result <? wsum then u32 (result + 1) else result).

Definition ip_compute_csum (addr : Z) (buff : list Z) (len : Z) : option Z :=
  not16 <$> do_csum addr buff len.

(** [memcpy] of [len] bytes over the start of a buffer. *)
Definition memcpy (dst src : list Z) (len : nat) : option (list Z) :=
  if decide (len ≤ length src ∧ len ≤ length dst)%nat then Some (take len src ++ drop len dst) else None.

(** The new destination, the sum and the error that is stored. *)
Definition csum_partial_copy_from_user (addr : Z) (src dst : list Z) (len : nat) (sum : Z)
  : option (list Z * Z * Z) :=
  dst ← memcpy dst src len;
  sum ← csum_partial addr dst (Z.of_nat len) sum;
  Some (dst, sum, 0).

Definition csum_partial_copy (addr : Z) (src dst : list Z) (len : nat) (sum : Z)
  : option (list Z * Z) :=
  dst ← memcpy dst src len;
  sum ← csum_partial addr dst (Z.of_nat len) sum;
  Some (dst, sum).

(** [big_endian]: whether the macro [__BIG_ENDIAN] is defined. *)
Definition csum_tcpudp_nofold (big_endian : bool) (saddr daddr len proto sum : Z) : Z :=
  let s := u64 (sum + saddr) in
  let s := u64 (s + daddr) in
  let s := u64 (s + (if big_endian then proto + len else Z.shiftl (proto + len) 8)) in
  u32 (u64 (s + Z.shiftr s 32)).

Definition csum_fold (csum : Z) : Z := not16 (fold16 (fold16 csum)).

Definition csum_tcpudp_magic (big_endian : bool) (saddr daddr len proto sum : Z) : Z :=
  csum_fold (csum_tcpudp_nofold big_endian saddr daddr len proto sum).

Definition csum_add (csum addend : Z) : Z :=
  let res := u32 (csum + addend) in
  u32 (res + (if res <? addend then 1 else 0)).

Definition csum_sub (csum addend : Z) : Z := csum_add csum (u32 (Z.lnot addend)).

(** The bytes of each half swapped, for blocks at odd offsets. *)
Definition csum_swap (sum offset : Z) : Z :=
  if Z.land offset 1 =? 0 then sum
  else u32 (u32 (Z.shiftl (Z.land sum 16711935) 8) + Z.land (Z.shiftr sum 8) 16711935).

Definition csum_block_add (csum csum2 offset : Z) : Z := csum_add csum (csum_swap csum2 offset).
Definition csum_block_sub (csum csum2 offset : Z) : Z := csum_sub csum (csum_swap csum2 offset).
Definition csum_unfold (n : Z) : Z := n.

Definition csum_and_copy_from_user := csum_partial_copy_from_user.

(** [memcpy] returns its destination, which is not NULL, so that the branch
    for success is never taken. *)
Definition csum_and_copy_to_user (addr : Z) (src dst : list Z) (len : nat) (sum : Z)
  : option (list Z * Z * option Z) :=
  sum ← csum_partial addr src (Z.of_nat len) sum;
  dst ← memcpy dst src len;
  let memcpy_is_null := false in
  Some (dst, if (memcpy_is_null : bool) then sum else u32 (-1),
        if (memcpy_is_null : bool) || bool_decide (len = 0)%nat then None else Some (-14)).

(** ** One's complement arithmetic *)

(** Congruence modulo 2^16 - 1. *)
Definition eqm (a b : Z) : Prop := a mod 65535 = b mod 65535.
Infix "≡₁" := eqm (at level 70).

#[export] Instance eqm_equiv : Equivalence eqm.
Proof. split; unfold eqm; repeat intro; congruence. Qed.
#[export] Instance eqm_add : Proper (eqm ==> eqm ==> eqm) Z.add.
Proof. intros a a' Ha b b' Hb. unfold eqm in *. rewrite Zplus_mod, Ha, Hb. by rewrite <-Zplus_mod. Qed.
#[export] Instance eqm_mul : Proper (eqm ==> eqm ==> eqm) Z.mul.
Proof. intros a a' Ha b b' Hb. unfold eqm in *. rewrite Zmult_mod, Ha, Hb. by rewrite <-Zmult_mod. Qed.

Lemma eqm_shift a b k : b = a + k * 65535 → b ≡₁ a.
Proof. intros ->. unfold eqm. apply Z_mod_plus_full. Qed.

(** The canonical sum: zero only for zero. *)
Definition ocsum (x : Z) : Z := if x =? 0 then 0 else (x - 1) mod 65535 + 1.

(** [norm x y]: [y] represents the sum [x]. *)
Definition norm (x y : Z) : Prop := 0 <= y ∧ y ≡₁ x ∧ (y = 0 ↔ x = 0).

Lemma norm_refl x : 0 <= x → norm x x.
Proof. intros. unfold norm. by split_and!. Qed.

Lemma norm_trans x y z : norm x y → norm y z → norm x z.
Proof. intros (Ha & E1 & Ia) (Hb & E2 & Ib). split_and!; [done| |tauto]. by rewrite E2. Qed.

Lemma norm_add x y a b : 0 <= x → 0 <= y → norm x a → norm y b → norm (x + y) (a + b).
Proof.
  intros Hx Hy (Ha & E1 & Ia) (Hb & E2 & Ib). split_and!; [lia| |lia]. by rewrite E1, E2.
Qed.

Lemma ocsum_range x : 0 <= ocsum x <= 65535.
Proof. unfold ocsum. destruct (Z.eqb_spec x 0); [lia|]. pose proof (Z.mod_pos_bound (x - 1) 65535). lia. Qed.

Lemma ocsum_norm x : 0 <= x → norm x (ocsum x).
Proof.
  intros Hx. split_and!; [apply ocsum_range| |]; unfold ocsum; destruct (Z.eqb_spec x 0).
  - by subst.
  - unfold eqm. rewrite Zplus_mod_idemp_l. f_equal. lia.
  - done.
  - pose proof (Z.mod_pos_bound (x - 1) 65535). lia.
Qed.

(** A 16-bit representative is the canonical one. *)
Lemma ocsum_unique x y : 0 <= x → norm x y → y <= 65535 → y = ocsum x.
Proof.
  intros Hx (Hy & Heq & H0) Hle. unfold ocsum. destruct (Z.eqb_spec x 0) as [->|Hne]; [tauto|].
  assert (y ≠ 0) by tauto. unfold eqm in Heq.
  assert ((y - 1) mod 65535 = (x - 1) mod 65535) as Hm.
  { by rewrite <-(Zminus_mod_idemp_l y), <-(Zminus_mod_idemp_l x), Heq. }
  rewrite (Z.mod_small (y - 1)) in Hm by lia. lia.
Qed.

Lemma ocsum_eq x y : 0 <= x → norm x y → ocsum x = ocsum y.
Proof.
  intros Hx H. apply ocsum_unique; [apply H|..|apply ocsum_range].
  pose proof (ocsum_norm x Hx) as (Ha & Hb & Hc). destruct H as (? & H1 & H2).
  split_and!; [done| |tauto]. by rewrite Hb, H1.
Qed.

(** ** Folding *)

Lemma fold16_eq x : 0 <= x < 2 ^ 32 → fold16 x = x mod 65536 + x / 65536.
Proof.
  intros Hx. unfold fold16. change 65535 with (Z.ones 16). rewrite Z.land_ones by lia.
  rewrite Z.shiftr_div_pow2 by lia. change (2 ^ 16) with 65536. rewrite wrap_small; [done|].
  pose proof (Z.mod_pos_bound x 65536). assert (0 <= x / 65536 < 65536); [|lia].
  split; [apply Z.div_pos; lia|apply Z.div_lt_upper_bound; lia].
Qed.

Lemma fold16_norm x : 0 <= x < 2 ^ 32 → norm x (fold16 x) ∧ fold16 x <= 131070.
Proof.
  intros Hx. rewrite fold16_eq by done. pose proof (Z.div_mod x 65536 ltac:(lia)) as Hdm.
  pose proof (Z.mod_pos_bound x 65536). pose proof (Z.div_pos x 65536).
  assert (x / 65536 < 65536) by (apply Z.div_lt_upper_bound; lia).
  split; [|lia]. split_and!; [lia| |lia]. apply (eqm_shift _ _ (- (x / 65536))). lia.
Qed.

Lemma fold16_fold16 x : 0 <= x < 2 ^ 32 → fold16 (fold16 x) = ocsum x.
Proof.
  intros Hx. destruct (fold16_norm x Hx) as [Hn Hle]. pose proof Hn as (H0 & _ & _).
  set (y := fold16 x) in *. destruct (fold16_norm y ltac:(lia)) as [Hn' _].
  apply ocsum_unique; [lia|by eapply norm_trans|]. rewrite fold16_eq by lia.
  pose proof (Z.div_mod y 65536 ltac:(lia)). pose proof (Z.mod_pos_bound y 65536).
  assert (0 <= y / 65536 < 2) by (split; [apply Z.div_pos; lia|apply Z.div_lt_upper_bound; lia]). lia.
Qed.

Lemma from32to16_eq x : 0 <= x < 2 ^ 32 → from32to16 x = ocsum x.
Proof.
  intros Hx. unfold from32to16. rewrite fold16_fold16 by done. pose proof (ocsum_range x).
  apply wrap_small. lia.
Qed.

Lemma not16_eq x : 0 <= x <= 65535 → not16 x = 65535 - x.
Proof.
  intros Hx. unfold not16, wrap, Z.lnot. replace (Z.pred (- x)) with (65535 - x + (-1) * 2 ^ 16) by lia.
  rewrite Z_mod_plus_full, Z.mod_small; lia.
Qed.

(** Adding with the end-around carry. *)
Lemma carry_add a b :
  0 <= a < 2 ^ 32 → 0 <= b < 2 ^ 32 →
  let r := u32 (a + b) in
  let c := if r <? b then 1 else 0 in
  norm (a + b) (r + c) ∧ 0 <= r + c < 2 ^ 32 ∧ (c = 0 ∨ c = 1).
Proof.
  intros Ha Hb r c. unfold c, r, wrap. destruct (decide (a + b < 2 ^ 32)).
  - rewrite Z.mod_small by lia. destruct (Z.ltb_spec (a + b) b); [lia|].
    split_and!; try lia. rewrite Z.add_0_r. apply norm_refl. lia.
  - assert ((a + b) mod 2 ^ 32 = a + b - 2 ^ 32) as ->.
    { symmetry. apply (Z.mod_unique _ _ 1); lia. }
    destruct (Z.ltb_spec (a + b - 2 ^ 32) b); [|lia]. split_and!; try lia.
    split_and!; [lia| |lia]. apply (eqm_shift _ _ (-65537)). lia.
Qed.

(** ** The sum of 16-bit words *)

(** Little-endian 16-bit words; a last odd byte counts as a word. *)
Fixpoint bytesum (b : list Z) : Z :=
  match b with
  | [] => 0
  | [x] => x
  | x :: y :: b => x + 256 * y + bytesum b
  end.

Definition bytes_ok (b : list Z) : Prop := Forall (λ x, 0 <= x < 256) b.

Lemma list_pair_ind {A} (P : list A → Prop) :
  P [] → (∀ x, P [x]) → (∀ x y l, P l → P (x :: y :: l)) → ∀ l, P l.
Proof.
  intros H0 H1 H2. fix IH 1. intros [|x [|y l]]; [done|apply H1|]. apply H2, IH.
Qed.

Lemma bytesum_nonneg b : bytes_ok b → 0 <= bytesum b.
Proof.
  induction b as [|x|x y b IH] using list_pair_ind; intros H; simpl; [done| |].
  - apply Forall_cons in H as [? _]. lia.
  - apply Forall_cons in H as [? [? ?]%Forall_cons]. specialize (IH ltac:(done)). lia.
Qed.

Lemma bytesum_app a b : Nat.Even (length a) → bytesum (a ++ b) = bytesum a + bytesum b.
Proof.
  induction a as [|x|x y a IH] using list_pair_ind; intros He; [done| |].
  - destruct He as [k Hk]. simpl in Hk. lia.
  - simpl. rewrite IH; [lia|]. destruct He as [k Hk]. exists (k - 1)%nat. simpl in Hk. lia.
Qed.

(** One byte further, every byte has the other weight. *)
Lemma bytesum_cons x b : bytesum (x :: b) ≡₁ x + 256 * bytesum b.
Proof.
  revert x. induction b as [|y b IH]; intros x; [by rewrite Z.mul_0_r, Z.add_0_r|].
  change (bytesum (x :: y :: b)) with (x + 256 * y + bytesum b). rewrite IH.
  symmetry. apply (eqm_shift _ _ (bytesum b)). lia.
Qed.

Lemma bytesum_cons_zero x b :
  bytes_ok (x :: b) → bytesum (x :: b) = 0 ↔ x = 0 ∧ bytesum b = 0.
Proof.
  revert x. induction b as [|y b IH]; intros x Hok; [simpl; tauto|].
  apply Forall_cons in Hok as [Hx Hok]. rewrite IH by done.
  change (bytesum (x :: y :: b)) with (x + 256 * y + bytesum b).
  pose proof Hok as [Hy Hb]%Forall_cons. pose proof (bytesum_nonneg b Hb). lia.
Qed.

Lemma bytesum_swap x b : bytes_ok (x :: b) → norm (bytesum (x :: b)) (x + 256 * bytesum b).
Proof.
  intros Hok. pose proof (bytesum_cons_zero x b Hok). pose proof Hok as [Hx Hb]%Forall_cons.
  pose proof (bytesum_nonneg b Hb). split_and!; [lia| |lia]. by rewrite bytesum_cons.
Qed.

(** ** The loop *)

Lemma csum_loop_spec count a b result carry :
  length a = (4 * count)%nat → bytes_ok a → 0 <= result → 0 <= carry → result + carry < 2 ^ 32 →
  ∃ r c, csum_loop count (a ++ b) result carry = Some (r, c, b) ∧
    norm (result + carry + bytesum a) (r + c) ∧ 0 <= r ∧ 0 <= c ∧ r + c < 2 ^ 32.
Proof.
  revert a result carry. induction count as [|n IH]; intros a result carry Hlen Hok Hr Hc Hb.
  { destruct a; [|done]. exists result, carry. split_and!; auto. rewrite Z.add_0_r. apply norm_refl. lia. }
  destruct a as [|x [|y [|z [|t a]]]]; try (simpl in Hlen; lia).
  apply Forall_cons in Hok as [Hx [Hy [Hz [Ht Hok]%Forall_cons]%Forall_cons]%Forall_cons].
  cbn [app csum_loop read32 mbind option_bind]. rewrite !Z.shiftl_mul_pow2 by lia.
  set (w := x + y * 2 ^ 8 + z * 2 ^ 16 + t * 2 ^ 24). rewrite (wrap_small 32 (result + carry)) by lia.
  destruct (carry_add (result + carry) w) as (Hn & Hrng & Hcc); [lia|unfold w; lia|].
  assert (Hw : norm (x + 256 * y + (z + 256 * t)) w).
  { unfold w. split_and!; [lia| |lia]. apply (eqm_shift _ _ (z + 256 * t)). lia. }
  set (r := u32 _) in *. set (c := if r <? w then 1 else 0) in *.
  assert (0 <= r) by (apply wrap_range; lia).
  destruct (IH a r c) as (r' & c' & Hrun & Hn' & ? & ? & ?); [simpl in Hlen; lia|done|lia|lia|lia|].
  exists r', c'. split_and!; auto. eapply norm_trans; [|exact Hn'].
  pose proof (bytesum_nonneg a Hok). cbn [bytesum].
  replace (result + carry + (x + 256 * y + (z + 256 * t + bytesum a)))
    with (result + carry + (x + 256 * y + (z + 256 * t)) + bytesum a) by lia.
  apply norm_add; [lia|lia| |by apply norm_refl]. eapply norm_trans; [|exact Hn].
  apply norm_add; [lia|lia|apply norm_refl; lia|done].
Qed.

Lemma csum_words_spec count a b result :
  length a = (4 * Z.to_nat count)%nat → 0 <= count → bytes_ok a → 0 <= result <= 131070 →
  ∃ r, csum_words count (a ++ b) result = Some (r, b) ∧ norm (result + bytesum a) r ∧ r <= 131070.
Proof.
  intros Hlen Hc Hok Hr. unfold csum_words. destruct (Z.eqb_spec count 0) as [->|Hne].
  - destruct a; [|done]. exists result. split_and!; [done| |lia]. rewrite Z.add_0_r. apply norm_refl. lia.
  - destruct (csum_loop_spec (Z.to_nat count) a b result 0) as (r & c & Hrun & Hn & ? & ? & ?); auto; try lia.
    rewrite Hrun. simpl. rewrite (wrap_small 32 (r + c)) by lia.
    destruct (fold16_norm (r + c) ltac:(lia)) as [Hf Hle]. eexists. split_and!; [done| |done].
    rewrite Z.add_0_r in Hn. by eapply norm_trans.
Qed.

Lemma land_1 x : (Z.land x 1 =? 0) = Z.even x.
Proof.
  change 1 with (Z.ones 1). rewrite Z.land_ones, Zmod_odd by lia. rewrite <-Z.negb_odd.
  by destruct (Z.odd x).
Qed.

Lemma land_2 x : (Z.land x 2 =? 0) = Z.even (x / 2).
Proof.
  rewrite <-Z.negb_odd. change (x / 2) with (x / 2 ^ 1).
  rewrite <-Z.shiftr_div_pow2, <-Z.testbit_odd by lia.
  destruct (Z.testbit x 1) eqn:E; simpl.
  - apply Z.eqb_neq. intros H. apply (f_equal (λ z, Z.testbit z 1)) in H.
    rewrite Z.land_spec, E, Z.bits_0 in H. done.
  - apply Z.eqb_eq, Z.bits_inj'. intros n Hn. rewrite Z.land_spec, Z.bits_0.
    destruct (decide (n = 1)) as [->|Hne]; [by rewrite E|].
    change 2 with (2 ^ 1). rewrite Z.pow2_bits_false by lia. apply andb_false_r.
Qed.

(** The words after the one that may have been read for alignment. *)
Lemma csum_rest_spec a b len count result :
  0 <= len → count = len / 2 → length a = Z.to_nat (2 * count) → bytes_ok a → 0 <= result <= 131070 →
  ∃ r, ('(result, buff) ← csum_words (Z.shiftr count 1) (a ++ b) result;
        if negb (Z.land len 2 =? 0) then
          '(w, buff) ← read16 buff; Some (u32 (result + w), buff)
        else Some (result, buff)) = Some (r, b) ∧
    norm (result + bytesum a) r ∧ r <= 200000.
Proof.
  intros Hlen Hcnt Hla Hok Hr. rewrite Z.shiftr_div_pow2 by lia. change (2 ^ 1) with 2.
  assert (Hc0 : 0 <= count) by (subst; apply Z.div_pos; lia).
  pose proof (Z.div_mod count 2 ltac:(lia)) as Hdm. pose proof (Z.mod_pos_bound count 2 ltac:(lia)).
  pose proof (Z.div_pos count 2 Hc0 ltac:(lia)).
  set (a1 := take (4 * Z.to_nat (count / 2)) a). set (a2 := drop (4 * Z.to_nat (count / 2)) a).
  assert (Ha : a = a1 ++ a2) by (symmetry; apply take_drop).
  assert (Hl1 : length a1 = (4 * Z.to_nat (count / 2))%nat) by (unfold a1; rewrite length_take; lia).
  assert (Hl2 : length a2 = Z.to_nat (2 * (count mod 2))) by (unfold a2; rewrite length_drop; lia).
  rewrite Ha in Hok |- *. apply Forall_app in Hok as [Hok1 Hok2]. rewrite <-app_assoc.
  destruct (csum_words_spec (count / 2) a1 (a2 ++ b) result) as (r & Hrun & Hn & Hle); auto.
  rewrite Hrun. cbn [mbind option_bind]. rewrite land_2, <-Hcnt, Z.negb_even.
  rewrite bytesum_app by (exists (2 * Z.to_nat (count / 2))%nat; lia).
  rewrite Zmod_odd in *. destruct (Z.odd count).
  - destruct a2 as [|x [|y [|]]]; try (simpl in Hl2; lia). cbn [app read16 mbind option_bind].
    apply Forall_cons in Hok2 as [Hx [Hy _]%Forall_cons]. rewrite Z.shiftl_mul_pow2 by lia.
    pose proof Hn as (? & _ & _). rewrite wrap_small by lia. eexists. split_and!; [done| |lia].
    rewrite Z.add_assoc. apply norm_add; [|simpl; lia|done|].
    + pose proof (bytesum_nonneg a1 Hok1). lia.
    + replace (bytesum [x; y]) with (x + y * 2 ^ 8) by (simpl; lia). apply norm_refl. lia.
  - destruct a2; [|simpl in Hl2; lia]. eexists. split_and!; [done| |lia]. by rewrite Z.add_0_r.
Qed.

Lemma csum_even_spec addr a b len result :
  0 <= len → length a = Z.to_nat (2 * (len / 2)) → bytes_ok a → 0 <= result <= 65280 →
  ∃ r, csum_even addr (a ++ b) len result = Some (r, b) ∧
    norm (result + bytesum a) r ∧ r <= 200000.
Proof.
  intros Hlen Hla Hok Hr. unfold csum_even. rewrite Z.shiftr_div_pow2 by lia. change (2 ^ 1) with 2.
  pose proof (Z.div_pos len 2 Hlen ltac:(lia)).
  destruct (Z.eqb_spec (len / 2) 0) as [H0|H0].
  { rewrite H0 in Hla. destruct a; [|done]. exists result. split_and!; [done| |lia].
    rewrite Z.add_0_r. apply norm_refl. lia. }
  destruct (negb (Z.land addr 2 =? 0)).
  - destruct a as [|x [|y a]]; try (simpl in Hla; lia). cbn [app read16 mbind option_bind].
    apply Forall_cons in Hok as [Hx [Hy Hok]%Forall_cons].
    rewrite Z.shiftl_mul_pow2, wrap_small by lia.
    assert (Hq : len / 2 - 1 = (len - 2) / 2).
    { replace (len - 2) with (len + (-1) * 2) by lia. rewrite Z.div_add by lia. lia. }
    assert (0 <= len - 2). { pose proof (Z.mul_div_le len 2 ltac:(lia)). lia. }
    destruct (csum_rest_spec a b (len - 2) (len / 2 - 1) (result + (x + y * 2 ^ 8)))
      as (r & Hrun & Hn & Hle); auto; [simpl in Hla; lia|lia|].
    exists r. split_and!; [exact Hrun| |done]. cbn [bytesum].
    replace (result + (x + 256 * y + bytesum a)) with (result + (x + y * 2 ^ 8) + bytesum a) by lia. done.
  - cbn [mbind option_bind]. destruct (csum_rest_spec a b len (len / 2) result) as (r & Hrun & Hn & Hle); auto; [lia|].
    exists r. by split_and!.
Qed.

(** Disjoint bits add up. *)
Lemma lor_disjoint a b : 0 <= a < 2 ^ 8 → Z.lor a (b * 2 ^ 8) = a + b * 2 ^ 8.
Proof.
  intros Ha. assert (Hd : Z.land a (b * 2 ^ 8) = 0).
  { apply Z.bits_inj'. intros n Hn. rewrite Z.land_spec, Z.bits_0.
    destruct (decide (n < 8)); [rewrite Z.mul_pow2_bits_low by lia; apply andb_false_r|].
    rewrite <-(Z.mod_small a (2 ^ 8)), Z.mod_pow2_bits_high by lia. done. }
  rewrite <-Z.lxor_lor by done. symmetry. by apply Z.add_nocarry_lxor.
Qed.

Lemma swap16_eq x :
  0 <= x <= 65535 →
  Z.lor (Z.land (Z.shiftr x 8) 255) (Z.shiftl (Z.land x 255) 8) = x / 256 + x mod 256 * 256.
Proof.
  intros Hx. change 255 with (Z.ones 8). rewrite !Z.land_ones, Z.shiftr_div_pow2, Z.shiftl_mul_pow2 by lia.
  assert (0 <= x / 2 ^ 8 < 2 ^ 8).
  { split; [apply Z.div_pos; lia|apply Z.div_lt_upper_bound; lia]. }
  rewrite (Z.mod_small (x / 2 ^ 8)) by lia. by rewrite lor_disjoint.
Qed.

Lemma swap16_norm x : 0 <= x <= 65535 → norm (256 * x) (x / 256 + x mod 256 * 256).
Proof.
  intros Hx. pose proof (Z.div_mod x 256 ltac:(lia)). pose proof (Z.mod_pos_bound x 256).
  pose proof (Z.div_pos x 256). split_and!; [lia| |lia]. apply (eqm_shift _ _ (- (x / 256))). lia.
Qed.

Lemma csum_tail_spec addr p b len result :
  0 <= len → length p = Z.to_nat len → bytes_ok p → 0 <= result <= 65280 →
  ∃ r b', ('(result, buff) ← csum_even addr (p ++ b) len result;
        if Z.land len 1 =? 0 then Some (result, buff)
        else '(b, buff) ← read8 buff; Some (u32 (result + b), buff)) = Some (r, b') ∧
    norm (result + bytesum p) r ∧ r <= 300000.
Proof.
  intros Hlen Hlp Hok Hr. pose proof (Z.div_mod len 2 ltac:(lia)) as Hdm.
  pose proof (Z.mod_pos_bound len 2 ltac:(lia)). pose proof (Z.div_pos len 2 Hlen ltac:(lia)).
  set (a := take (Z.to_nat (2 * (len / 2))) p). set (c := drop (Z.to_nat (2 * (len / 2))) p).
  assert (Hp : p = a ++ c) by (symmetry; apply take_drop).
  assert (Hla : length a = Z.to_nat (2 * (len / 2))) by (unfold a; rewrite length_take; lia).
  assert (Hlc : length c = Z.to_nat (len mod 2)) by (unfold c; rewrite length_drop; lia).
  rewrite Hp in Hok |- *. apply Forall_app in Hok as [Hoka Hokc]. rewrite <-app_assoc.
  destruct (csum_even_spec addr a (c ++ b) len result) as (r & Hrun & Hn & Hle); auto.
  rewrite Hrun. cbn [mbind option_bind]. rewrite land_1, <-Z.negb_odd.
  rewrite bytesum_app by (exists (Z.to_nat (len / 2)); lia). rewrite Zmod_odd in *.
  pose proof (bytesum_nonneg a Hoka).
  destruct (Z.odd len); cbn [negb].
  - destruct c as [|x [|]]; try (simpl in Hlc; lia). cbn [app read8 mbind option_bind].
    apply Forall_cons in Hokc as [Hx _]. pose proof Hn as (? & _ & _). rewrite wrap_small by lia.
    eexists _, _. split_and!; [done| |lia]. cbn [bytesum]. rewrite Z.add_assoc.
    apply norm_add; [lia|lia|done|apply norm_refl; lia].
  - destruct c; [|simpl in Hlc; lia]. eexists _, _. split_and!; [done| |lia]. by rewrite Z.add_0_r.
Qed.

Lemma option_bind_assoc_pair {A B C D} (m : option (A * B)) (f : A → B → option (C * D)) {E}
    (g : C → D → option E) :
  ('(a, b) ← m; '(c, d) ← f a b; g c d) = ('(c, d) ← ('(a, b) ← m; f a b); g c d).
Proof. by destruct m as [[a b]|]. Qed.

Lemma do_csum_spec addr p b len :
  length p = Z.to_nat len → bytes_ok p → do_csum addr (p ++ b) len = Some (ocsum (bytesum p)).
Proof.
  intros Hlen Hok. unfold do_csum. destruct (Z.leb_spec len 0).
  { destruct p; [done|]. simpl in Hlen. lia. }
  rewrite (Z.land_comm 1 addr). destruct (Z.land addr 1 =? 0); cbn [mbind option_bind].
  - destruct (csum_tail_spec addr p b len 0) as (r & b' & Hrun & Hn & Hle); auto; try lia.
    rewrite option_bind_assoc_pair. unfold mbind in Hrun. unfold mbind. rewrite Hrun. simpl.
    pose proof Hn as (? & _ & _). rewrite from32to16_eq by lia. f_equal. symmetry.
    apply ocsum_eq; [by apply bytesum_nonneg|done].
  - destruct p as [|x p]; [simpl in Hlen; lia|]. pose proof Hok as [Hx Hok']%Forall_cons.
    cbn [app read8 mbind option_bind]. rewrite Z.shiftl_mul_pow2 by lia. change (2 ^ 8) with 256.
    destruct (csum_tail_spec (addr + 1) p b (len - 1) (x * 256)) as (r & b' & Hrun & Hn & Hle); auto; try lia.
    { simpl in Hlen. lia. }
    rewrite option_bind_assoc_pair. unfold mbind in Hrun. unfold mbind. rewrite Hrun. simpl.
    pose proof Hn as (? & _ & _). rewrite from32to16_eq by lia.
    pose proof (ocsum_range r) as Hor. rewrite swap16_eq by done. f_equal.
    pose proof (bytesum_nonneg p Hok'). pose proof (bytesum_nonneg (x :: p) Hok).
    assert (Hr : norm (x * 256 + bytesum p) (ocsum r)) by (eapply norm_trans; [done|apply ocsum_norm; lia]).
    pose proof (Z.mod_pos_bound (ocsum r) 256). pose proof (Z.div_pos (ocsum r) 256).
    assert (ocsum r / 256 < 256) by (apply Z.div_lt_upper_bound; lia).
    apply ocsum_unique; [done| |lia].
    apply norm_trans with (256 * ocsum r); [|by apply swap16_norm].
    apply norm_trans with (x + 256 * bytesum p); [by apply bytesum_swap|].
    destruct Hr as (? & He & Hz). split_and!; [lia| |lia]. rewrite He.
    apply (eqm_shift _ _ x). lia.
Qed.

(** ** Correctness *)

(** C18: at every alignment, [do_csum] computes the one's complement sum of
    the 16-bit words of the first [len] bytes, in its canonical form (zero
    only when all bytes are zero), and reads no byte after them. *)
Theorem do_csum_correct addr buff rest len :
  length buff = Z.to_nat len → bytes_ok buff →
  do_csum addr (buff ++ rest) len = Some (ocsum (bytesum buff)).
Proof. apply do_csum_spec. Qed.

Lemma ip_compute_csum_spec addr p b len :
  length p = Z.to_nat len → bytes_ok p →
  ip_compute_csum addr (p ++ b) len = Some (65535 - ocsum (bytesum p)).
Proof.
  intros Hlen Hok. unfold ip_compute_csum. rewrite do_csum_spec by done. simpl. f_equal.
  apply not16_eq, ocsum_range.
Qed.

Lemma checksum_roundtrip_spec addr addr' a c r r' :
  Nat.Even (length a) → bytes_ok a → bytes_ok c →
  let len := Z.of_nat (length a + (2 + length c)) in
  ∃ ck, ip_compute_csum addr (a ++ [0; 0] ++ c ++ r) len = Some ck ∧ 0 <= ck <= 65535 ∧
    ip_compute_csum addr' (a ++ [ck mod 256; ck / 256] ++ c ++ r') len = Some 0.
Proof.
  intros Hev Ha Hc len.
  assert (Hspec : ∀ x y ad q, 0 <= x < 256 → 0 <= y < 256 →
    ip_compute_csum ad (a ++ [x; y] ++ c ++ q) len
      = Some (65535 - ocsum (bytesum a + (x + 256 * y + bytesum c)))).
  { intros x y ad q Hx Hy. replace (a ++ [x; y] ++ c ++ q) with ((a ++ [x; y] ++ c) ++ q) by (by rewrite <-!app_assoc).
    rewrite ip_compute_csum_spec.
    - rewrite bytesum_app by done. done.
    - unfold len. rewrite !length_app. simpl. lia.
    - apply Forall_app. split; [done|]. constructor; [lia|]. by constructor; [lia|]. }
  set (S := bytesum a + bytesum c).
  pose proof (bytesum_nonneg a Ha). pose proof (bytesum_nonneg c Hc).
  rewrite (Hspec 0 0 addr r) by lia. replace (bytesum a + (0 + 256 * 0 + bytesum c)) with S by (unfold S; lia).
  pose proof (ocsum_range S) as Hr. set (ck := 65535 - ocsum S). exists ck. split_and!; [done|lia|lia|].
  pose proof (Z.mod_pos_bound ck 256). pose proof (Z.div_mod ck 256 ltac:(lia)).
  assert (0 <= ck / 256 < 256).
  { split; [apply Z.div_pos; lia|apply Z.div_lt_upper_bound; lia]. }
  rewrite Hspec by lia. f_equal.
  replace (bytesum a + (ck mod 256 + 256 * (ck / 256) + bytesum c)) with (S + ck) by (unfold S; lia).
  assert (65535 = ocsum (S + ck)); [|lia]. apply ocsum_unique; [unfold S; lia| |lia].
  destruct (ocsum_norm S ltac:(unfold S; lia)) as (? & He & Hz).
  split_and!; [lia| |unfold S in *; lia].
  replace (S + ck) with (65535 + (S - ocsum S)) by (unfold ck; lia).
  unfold eqm in *. rewrite Z.add_comm, <-(Zplus_mod_idemp_l (S - ocsum S)), Zminus_mod, He, Z.sub_diag. done.
Qed.

(** C19: a receiver accepts what a sender checksummed: when the checksum of a
    message with a zero checksum field at an even offset is stored in that
    field, the checksum of the whole message is zero, whatever the alignment
    at either end and whatever follows. *)
Theorem checksum_roundtrip addr addr' a c r r' :
  Nat.Even (length a) → bytes_ok a → bytes_ok c →
  let len := Z.of_nat (length a + (2 + length c)) in
  ∃ ck, ip_compute_csum addr (a ++ [0; 0] ++ c ++ r) len = Some ck ∧ 0 <= ck <= 65535 ∧
    ip_compute_csum addr' (a ++ [ck mod 256; ck / 256] ++ c ++ r') len = Some 0.
Proof. apply checksum_roundtrip_spec. Qed.

Lemma csum_partial_spec addr p b len sum :
  length p = Z.to_nat len → bytes_ok p → 0 <= sum < 2 ^ 32 →
  ∃ s, csum_partial addr (p ++ b) len sum = Some s ∧ 0 <= s < 2 ^ 32 ∧ norm (bytesum p + sum) s.
Proof.
  intros Hlen Hok Hs. unfold csum_partial. rewrite do_csum_spec by done. simpl.
  pose proof (ocsum_range (bytesum p)) as Hr. pose proof (bytesum_nonneg p Hok).
  destruct (carry_add (ocsum (bytesum p)) sum) as (Hn & Hrng & _); [lia|done|].
  set (r := u32 _) in *. eexists. split; [done|].
  assert (norm (bytesum p + sum) (ocsum (bytesum p) + sum)) as Hn0.
  { apply norm_add; [lia|lia|by apply ocsum_norm|apply norm_refl; lia]. }
  destruct (r <? sum); rewrite ?Z.add_0_r in *; [rewrite wrap_small by lia|];
    (split; [lia|by eapply norm_trans]).
Qed.

Lemma csum_fold_eq s : 0 <= s < 2 ^ 32 → csum_fold s = 65535 - ocsum s.
Proof. intros Hs. unfold csum_fold. rewrite fold16_fold16 by done. apply not16_eq, ocsum_range. Qed.

(** C20: partial checksums compose: checksumming two fragments one after the
    other, the first of even length, and folding gives the complement of the
    sum of the whole, on top of the initial sum. *)
Theorem csum_partial_compose addr1 addr2 p1 p2 len1 len2 sum :
  length p1 = Z.to_nat len1 → length p2 = Z.to_nat len2 → Nat.Even (length p1) →
  bytes_ok p1 → bytes_ok p2 → 0 <= sum < 2 ^ 32 →
  ∃ s1 s2, csum_partial addr1 p1 len1 sum = Some s1 ∧ csum_partial addr2 p2 len2 s1 = Some s2 ∧
    csum_fold s2 = 65535 - ocsum (sum + bytesum (p1 ++ p2)).
Proof.
  intros Hl1 Hl2 Hev H1 H2 Hs.
  destruct (csum_partial_spec addr1 p1 [] len1 sum) as (s1 & Hr1 & Hb1 & Hn1); auto.
  destruct (csum_partial_spec addr2 p2 [] len2 s1) as (s2 & Hr2 & Hb2 & Hn2); auto.
  rewrite app_nil_r in Hr1, Hr2. exists s1, s2. split_and!; auto.
  rewrite csum_fold_eq by done. f_equal. symmetry.
  pose proof (bytesum_nonneg p1 H1). pose proof (bytesum_nonneg p2 H2).
  rewrite bytesum_app by done. apply ocsum_eq; [lia|].
  replace (sum + (bytesum p1 + bytesum p2)) with (bytesum p2 + (bytesum p1 + sum)) by lia.
  eapply norm_trans; [|done]. apply norm_add; [lia|lia|apply norm_refl; lia|done].
Qed.

(** The pseudo-header in network order. *)
Definition le32 (x : Z) : list Z := [x mod 256; x / 256 mod 256; x / 65536 mod 256; x / 16777216].
Definition pseudo_header (saddr daddr len proto : Z) : list Z :=
  le32 saddr ++ le32 daddr ++ [0; proto; len / 256; len mod 256].

Lemma le32_norm x : 0 <= x < 2 ^ 32 → norm x (bytesum (le32 x)).
Proof.
  intros Hx. unfold le32. cbn [bytesum].
  pose proof (Z.div_mod x 256 ltac:(lia)). pose proof (Z.div_mod (x / 256) 256 ltac:(lia)).
  pose proof (Z.div_mod (x / 65536) 256 ltac:(lia)).
  rewrite !Z.div_div in * by lia. change (256 * 256) with 65536 in *. change (65536 * 256) with 16777216 in *.
  pose proof (Z.mod_pos_bound x 256). pose proof (Z.mod_pos_bound (x / 256) 256).
  pose proof (Z.mod_pos_bound (x / 65536) 256). pose proof (Z.div_pos x 16777216).
  split_and!; [lia| |lia]. apply (eqm_shift _ _ (- (x / 65536 mod 256 + 256 * (x / 16777216)))). lia.
Qed.

Lemma le32_ok x : 0 <= x < 2 ^ 32 → bytes_ok (le32 x).
Proof.
  intros Hx. unfold le32, bytes_ok.
  assert (0 <= x / 16777216 < 256).
  { split; [apply Z.div_pos; lia|apply Z.div_lt_upper_bound; lia]. }
  do 3 (constructor; [apply Z.mod_pos_bound; lia|]). by constructor; [|constructor].
Qed.

Lemma pseudo_header_ok saddr daddr len proto :
  0 <= saddr < 2 ^ 32 → 0 <= daddr < 2 ^ 32 → 0 <= len < 2 ^ 16 → 0 <= proto < 2 ^ 8 →
  bytes_ok (pseudo_header saddr daddr len proto).
Proof.
  intros Hs Hd Hl Hp. unfold pseudo_header. apply Forall_app. split; [by apply le32_ok|].
  apply Forall_app. split; [by apply le32_ok|].
  assert (0 <= len / 256 < 256).
  { split; [apply Z.div_pos; lia|apply Z.div_lt_upper_bound; lia]. }
  do 3 (constructor; [lia|]). constructor; [apply Z.mod_pos_bound; lia|constructor].
Qed.

(** The 64-bit sum of the addresses and the last word. *)
Definition pseudo_sum (saddr daddr len proto sum : Z) : Z := sum + saddr + daddr + (proto + len) * 256.

Lemma pseudo_sum_norm saddr daddr len proto sum :
  0 <= saddr < 2 ^ 32 → 0 <= daddr < 2 ^ 32 → 0 <= len < 2 ^ 16 → 0 <= proto < 2 ^ 8 → 0 <= sum →
  norm (sum + bytesum (pseudo_header saddr daddr len proto)) (pseudo_sum saddr daddr len proto sum).
Proof.
  intros Hs Hd Hl Hp H0. unfold pseudo_header.
  rewrite !bytesum_app by (exists 2%nat; done). cbn [bytesum].
  destruct (le32_norm saddr Hs) as (? & E1 & Z1). destruct (le32_norm daddr Hd) as (? & E2 & Z2).
  pose proof (Z.div_mod len 256 ltac:(lia)). pose proof (Z.mod_pos_bound len 256).
  pose proof (Z.div_pos len 256). unfold pseudo_sum. split_and!; [lia| |lia].
  rewrite E1, E2. apply (eqm_shift _ _ (len / 256)). lia.
Qed.

Lemma nofold_eq saddr daddr len proto sum :
  0 <= saddr < 2 ^ 32 → 0 <= daddr < 2 ^ 32 → 0 <= len < 2 ^ 16 → 0 <= proto < 2 ^ 8 →
  0 <= sum < 2 ^ 32 →
  let s := pseudo_sum saddr daddr len proto sum in
  csum_tcpudp_nofold false saddr daddr len proto sum = u32 (s mod 2 ^ 32 + s / 2 ^ 32).
Proof.
  intros Hs Hd Hl Hp H0 s. unfold csum_tcpudp_nofold. rewrite Z.shiftl_mul_pow2 by lia.
  change (2 ^ 8) with 256 in *.
  rewrite (wrap_small 64 (sum + saddr)), (wrap_small 64 (sum + saddr + daddr)) by lia.
  rewrite (wrap_small 64 (sum + saddr + daddr + (proto + len) * 256)) by lia.
  fold (pseudo_sum saddr daddr len proto sum). fold s. rewrite Z.shiftr_div_pow2 by lia.
  assert (0 <= s < 4 * 2 ^ 32) by (unfold s, pseudo_sum; lia).
  assert (0 <= s / 2 ^ 32 < 4).
  { split; [apply Z.div_pos; lia|apply Z.div_lt_upper_bound; lia]. }
  rewrite (wrap_small 64) by lia. unfold wrap. symmetry. apply Zplus_mod_idemp_l.
Qed.

(** C21: [csum_tcpudp_magic] is the complement of the one's complement sum of
    the pseudo-header in network order and the given partial sum, unless the
    last carry of the 64-bit sum is lost, i.e. as long as the two halves of
    the sum add up to less than 2^32. *)
Theorem csum_tcpudp_magic_correct saddr daddr len proto sum :
  0 <= saddr < 2 ^ 32 → 0 <= daddr < 2 ^ 32 → 0 <= len < 2 ^ 16 → 0 <= proto < 2 ^ 8 →
  0 <= sum < 2 ^ 32 →
  (let s := pseudo_sum saddr daddr len proto sum in s mod 2 ^ 32 + s / 2 ^ 32 < 2 ^ 32) →
  csum_tcpudp_magic false saddr daddr len proto sum
    = 65535 - ocsum (sum + bytesum (pseudo_header saddr daddr len proto)).
Proof.
  intros Hs Hd Hl Hp H0 Hc. unfold csum_tcpudp_magic. rewrite nofold_eq by done.
  cbv zeta in *.
  destruct (pseudo_sum_norm saddr daddr len proto sum) as (Hn & He & Hz); [done..|lia|].
  set (s := pseudo_sum _ _ _ _ _) in *. pose proof (Z.div_mod s (2 ^ 32) ltac:(lia)).
  pose proof (Z.mod_pos_bound s (2 ^ 32)). pose proof (Z.div_pos s (2 ^ 32)).
  rewrite wrap_small by lia. rewrite csum_fold_eq by lia. f_equal. symmetry. apply ocsum_eq.
  - pose proof (bytesum_nonneg _ (pseudo_header_ok saddr daddr len proto Hs Hd Hl Hp)). lia.
  - apply norm_trans with s; [done|]. split_and!; [lia| |lia].
    apply (eqm_shift _ _ (- (s / 2 ^ 32) * 65537)). lia.
Qed.

(** When the two halves add up to 2^32 the carry is lost: for these
    addresses the result is off by one. *)
Lemma csum_tcpudp_magic_loses_carry :
  csum_tcpudp_magic false 4294967295 4294960640 20 6 0 = 65535 ∧
  65535 - ocsum (bytesum (pseudo_header 4294967295 4294960640 20 6)) = 65534.
Proof. by vm_compute. Qed.

(** [csum_and_copy_to_user] copies the data but always reports failure:
    the sum it returns is the invalid one, and for a non-empty block the
    error is set to [-EFAULT]. *)
Lemma csum_and_copy_to_user_fails addr src dst len sum :
  (len ≤ length src)%nat → (len ≤ length dst)%nat → bytes_ok src → 0 <= sum < 2 ^ 32 →
  csum_and_copy_to_user addr src dst len sum
    = Some (take len src ++ drop len dst, 2 ^ 32 - 1, if decide (len = 0%nat) then None else Some (-14)).
Proof.
  intros Hl1 Hl2 Hok Hs. unfold csum_and_copy_to_user.
  destruct (csum_partial_spec addr (take len src) (drop len src) (Z.of_nat len) sum) as (s & Hr & _).
  - rewrite length_take. lia.
  - by apply Forall_take.
  - done.
  - rewrite take_drop in Hr. rewrite Hr. simpl. unfold memcpy. rewrite decide_True by done. simpl.
    do 3 f_equal. by repeat case_decide; case_bool_decide.
Qed.

Lemma do_csum_correct_witness :
  do_csum 3 [1; 2; 3; 4; 5; 6; 7] 5 = Some (ocsum (bytesum [1; 2; 3; 4; 5])).
Proof.
  apply (do_csum_correct 3 [1; 2; 3; 4; 5] [6; 7] 5); [done|]. unfold bytes_ok.
  repeat (constructor; [lia|]). constructor.
Defined.

Lemma checksum_roundtrip_witness :
  ∃ ck, ip_compute_csum 0 [69; 0; 0; 0; 10; 1] 6 = Some ck ∧
    ip_compute_csum 2 [69; 0; ck mod 256; ck / 256; 10; 1] 6 = Some 0.
Proof.
  destruct (checksum_roundtrip 0 2 [69; 0] [10; 1] [] []) as (ck & H1 & _ & H2).
  - by exists 1%nat.
  - unfold bytes_ok. repeat (constructor; [lia|]). constructor.
  - unfold bytes_ok. repeat (constructor; [lia|]). constructor.
  - exists ck. by split.
Defined.

Lemma csum_partial_compose_witness :
  ∃ s1 s2, csum_partial 0 [1; 2] 2 7 = Some s1 ∧ csum_partial 1 [3; 4; 5] 3 s1 = Some s2.
Proof.
  destruct (csum_partial_compose 0 1 [1; 2] [3; 4; 5] 2 3 7) as (s1 & s2 & H1 & H2 & _).
  - done.
  - done.
  - by exists 1%nat.
  - unfold bytes_ok. repeat (constructor; [lia|]). constructor.
  - unfold bytes_ok. repeat (constructor; [lia|]). constructor.
  - lia.
  - by exists s1, s2.
Defined.

Lemma csum_tcpudp_magic_correct_witness :
  csum_tcpudp_magic false 16777226 33554442 20 6 0
    = 65535 - ocsum (0 + bytesum (pseudo_header 16777226 33554442 20 6)).
Proof. apply csum_tcpudp_magic_correct; try lia. vm_compute. reflexivity. Defined.

Lemma csum_and_copy_to_user_fails_witness :
  csum_and_copy_to_user 0 [1; 2; 3] [0; 0; 0; 9] 3 0 = Some ([1; 2; 3; 9], 2 ^ 32 - 1, Some (-14)).
Proof.
  apply (csum_and_copy_to_user_fails 0 [1; 2; 3] [0; 0; 0; 9] 3 0); [simpl; lia|simpl; lia| |lia].
  unfold bytes_ok. repeat (constructor; [lia|]). constructor.
Defined.
