(* ===== verification/TimerQueue.v ===== *)
(** * The timer queue of [src/common/timer.c] and its signal
      ([src/common/signal.c])

    A timer queue is a heap of timers ordered by [timespec_lt] on their
    timeouts, a signal with which other threads wake up the main thread, and
    the identity of that thread.  The clock, the identity of the calling
    thread and the outcomes of [malloc] and [poll] are arguments.

    [long] and [time_t] have the width of the build, 32 or 64 bits; their
    arithmetic wraps around, and the theorems say where it is exact. *)
From S2P Require Import Prelude.
From S2P Require Import Heap.

Local Open Scope Z_scope.

(** ** Time *)

Definition NSEC_PER_SEC : Z := 1000000000.

Record timespec := Timespec { tv_sec : Z; tv_nsec : Z }.

(** The width of [long] and [time_t]. *)
Class LongWidth := LongBits { long_bits : Z; long_bits_ok : long_bits = 32 ∨ long_bits = 64 }.

Definition ILP32 : LongWidth := LongBits 32 (or_introl eq_refl).
Definition LP64 : LongWidth := LongBits 64 (or_intror eq_refl).

Section time.
Context `{LongWidth}.

(** The value of a [long] and of an [unsigned long] after an assignment, and
    the range of a [long]. *)
Definition slong (z : Z) : Z := swrap long_bits z.
Definition ulong (z : Z) : Z := wrap long_bits z.
Definition fits (z : Z) : Prop := - 2 ^ (long_bits - 1) <= z < 2 ^ (long_bits - 1).

Definition timespec_normalize (t : timespec) : timespec :=
  if NSEC_PER_SEC <=? tv_nsec t then Timespec (slong (tv_sec t + 1)) (slong (tv_nsec t - NSEC_PER_SEC))
  else if tv_nsec t <? 0 then Timespec (slong (tv_sec t - 1)) (slong (tv_nsec t + NSEC_PER_SEC))
  else t.

(** C division truncates towards zero. *)
Definition timespec_add_nsec (t : timespec) (nsec : Z) : timespec :=
  timespec_normalize (Timespec (slong (tv_sec t + Z.quot nsec NSEC_PER_SEC))
                               (slong (tv_nsec t + Z.rem nsec NSEC_PER_SEC))).
Definition timespec_add (t1 t2 : timespec) : timespec :=
  timespec_normalize (Timespec (slong (tv_sec t1 + tv_sec t2)) (slong (tv_nsec t1 + tv_nsec t2))).
Definition timespec_sub (t1 t2 : timespec) : timespec :=
  timespec_normalize (Timespec (slong (tv_sec t1 - tv_sec t2)) (slong (tv_nsec t1 - tv_nsec t2))).

End time.

Definition timespec_nz (t : timespec) : bool := negb (tv_sec t =? 0) || negb (tv_nsec t =? 0).
Definition timespec_lt (t1 t2 : timespec) : bool :=
  (tv_sec t1 <? tv_sec t2) || ((tv_sec t1 =? tv_sec t2) && (tv_nsec t1 <? tv_nsec t2)).
Definition timespec_gt (t1 t2 : timespec) : bool := timespec_lt t2 t1.
Definition timespec_ge (t1 t2 : timespec) : bool := negb (timespec_lt t1 t2).
Definition timespec_le (t1 t2 : timespec) : bool := negb (timespec_gt t1 t2).
Definition timespec_eq (t1 t2 : timespec) : bool :=
  (tv_sec t1 =? tv_sec t2) && (tv_nsec t1 =? tv_nsec t2).

(** ** Signals *)

(** [struct signal]: the integers in the pipe, oldest first, and the number
    of waiting threads. *)
Record signal := Signal { pipe : list Z; waiting : Z }.

Definition EWOULDBLOCK : Z := 11.

(** A non-blocking [read] of an [int]: 4 and the value, or -1. *)
Definition read_int (s : signal) : Z * option Z * signal :=
  match pipe s with
  | v :: p => (4, Some v, Signal p (waiting s))
  | [] => (-1, None, s)
  end.


(** The loop of [signal_clear_val] reads until [read] fails. *)
Fixpoint clear_loop (fuel : nat) (s : signal) (ret val : Z) : res (Z * Z * signal) :=
  match fuel with
  | O => OutOfFuel
  | S fuel =>
      if 0 <? ret then
        let '(ret, v, s) := read_int s in
        clear_loop fuel s ret (default val v)
      else Done (ret, val, s)
  end.

(** The result, the value left in [*val], and the signal. *)
Definition signal_clear_val (s : signal) (val : Z) : res (Z * Z * signal) :=
  match clear_loop (S (S (length (pipe s)))) s 1 val with
  | Done (ret, val, s) => Done (if 0 <? ret then 1 else 0, val, s)
  | Fault => Fault
  | OutOfFuel => OutOfFuel
  end.

Definition signal_clear (s : signal) : res (Z * signal) :=
  match signal_clear_val s 0 with
  | Done (ret, _, s) => Done (ret, s)
  | Fault => Fault
  | OutOfFuel => OutOfFuel
  end.

Definition signal_is_raised (s : signal) : bool :=
  match pipe s with [] => false | _ => true end.

(** [write] appends to the pipe; it fails when the pipe is full, which one
    value in an empty pipe cannot make it. *)
Definition signal_raise_val (s : signal) (val : Z) : Z * signal :=
  if signal_is_raised s then (0, s) else (4, Signal (pipe s ++ [val]) (waiting s)).

Definition signal_num_waiting (s : signal) : Z := waiting s.

(** The loop of [signal_wait_val]; [polls] are the results of the successive
    calls of [poll], each with the values that other threads wrote
    meanwhile. *)
Fixpoint wait_loop (polls : list (Z * list Z)) (s : signal) (val ret : Z) : res (Z * Z * signal) :=
  match read_int s with
  | (_, Some v, s) => Done (1, v, s)
  | (_, None, s) =>
      match polls with
      | [] => OutOfFuel
      | (r, vs) :: polls =>
          let s := Signal (pipe s ++ vs) (waiting s) in
          if r <=? 0 then Done (r, val, s) else wait_loop polls s val r
      end
  end.

Definition signal_wait_val (polls : list (Z * list Z)) (s : signal) (val : Z) : res (Z * Z * signal) :=
  match wait_loop polls (Signal (pipe s) (waiting s + 1)) val 0 with
  | Done (ret, val, s) =>
      match signal_clear s with
      | Done (_, s) => Done (ret, val, Signal (pipe s) (waiting s - 1))
      | Fault => Fault
      | OutOfFuel => OutOfFuel
      end
  | Fault => Fault
  | OutOfFuel => OutOfFuel
  end.

Definition signal_wait (polls : list (Z * list Z)) (s : signal) : res (Z * Z * signal) :=
  signal_wait_val polls s 0.

(** ** Timers *)

(** The payload of a heap item; [callback] and [destruct] name functions of
    the user. *)
Record timer := Timer {
  timeout : timespec;
  expires : Z;
  callback : option nat;
  destruct_fn : option nat;
  data : Z
}.

(** [calls] records the callbacks and destructors that were run, and on which
    timer. *)
Record timer_queue := TimerQueue {
  queue : hstate timer;
  sig : signal;
  thr : Z;
  calls : list (nat * loc)
}.

Definition heap_cmp (t1 t2 : timer) : bool := timespec_lt (timeout t1) (timeout t2).

Definition set_queue (q : hstate timer) (tq : timer_queue) : timer_queue :=
  TimerQueue q (sig tq) (thr tq) (calls tq).
Definition set_sig (s : signal) (tq : timer_queue) : timer_queue :=
  TimerQueue (queue tq) s (thr tq) (calls tq).

Definition hlift {A} (m : M (hstate timer) A) : M timer_queue A :=
  λ tq, match m (queue tq) with
        | Done (a, q) => Done (a, set_queue q tq)
        | Fault => Fault
        | OutOfFuel => OutOfFuel
        end.

Definition timer_load (t : loc) : M timer_queue (elem timer) :=
  λ tq, match items (queue tq) !! t with Some e => Done (e, tq) | None => Fault end.


(** [timer_init] and [timer_new_callback]. *)
Definition timer_init : elem timer := Elem (Heapitem 0 0) (Timer (Timespec 0 0) 0 None None 0).
Definition timer_new_callback (ok : bool) (cb : option nat) (d : Z) : option (elem timer) :=
  if ok then Some (Elem (Heapitem 0 0) (Timer (Timespec 0 0) 0 cb None d)) else None.


Inductive signal_result := TIMER_SIGNAL_ERROR | TIMER_SIGNAL_NONE | TIMER_SIGNAL_SET | TIMER_SIGNAL_EXIT.

Definition timer_queue_signal_lower : M timer_queue signal_result :=
  λ tq, match signal_clear_val (sig tq) 0 with
        | Done (ret, val, s) =>
            Done (if ret =? -1 then TIMER_SIGNAL_ERROR
                  else if ret =? 0 then TIMER_SIGNAL_NONE
                  else if val =? 0 then TIMER_SIGNAL_EXIT
                  else if val =? -1 then TIMER_SIGNAL_ERROR
                  else TIMER_SIGNAL_SET, set_sig s tq)
        | Fault => Fault
        | OutOfFuel => OutOfFuel
        end.



Section scheduling.
Context `{LongWidth}.




(** [timer_next_timeout_timespec]: the front of the heap, not below zero. *)
Definition timer_next_timeout_timespec (now : timespec) : M timer_queue (option timespec) :=
  tq ← gets id;
  if heap_empty (hp (queue tq)) then mret None
  else
    t ← hlift heap_front;
    e ← timer_load t;
    let d := timespec_sub (timeout (entry e)) now in
    mret (Some (if tv_sec d <? 0 then Timespec 0 0 else d)).

Definition timer_next_timeout_timeval (now : timespec) : M timer_queue (option (Z * Z)) :=
  r ← timer_next_timeout_timespec now;
  mret ((λ d, (tv_sec d, Z.quot (tv_nsec d) 1000)) <$> r).

(** [timer_next_timeout]: in microseconds, as an [unsigned long]. *)
Definition timer_next_timeout (now : timespec) : M timer_queue (option Z) :=
  tq ← gets id;
  if heap_empty (hp (queue tq)) then _ ← timer_queue_signal_lower; mret None
  else
    t ← hlift heap_front;
    e ← timer_load t;
    let d := timespec_sub (timeout (entry e)) now in
    _ ← timer_queue_signal_lower;
    mret (Some (ulong (tv_sec d * 1000000 + Z.quot (tv_nsec d) 1000))).

End scheduling.

Definition run_call (f : option nat) (t : loc) : M timer_queue unit :=
  match f with
  | Some f => modify (λ tq, TimerQueue (queue tq) (sig tq) (thr tq) (calls tq ++ [(f, t)]))
  | None => mret tt
  end.

Definition timer_handle_timeout : M timer_queue Z :=
  tq ← gets id;
  if heap_empty (hp (queue tq)) then mret (-1)
  else
    t ← hlift heap_remove_first;
    t ← deref t;
    e ← timer_load t;
    _ ← run_call (callback (entry e)) t;
    mret 0.

Fixpoint timer_list_destroy (fuel : nat) : M timer_queue unit :=
  match fuel with
  | O => out_of_fuel
  | S fuel =>
      tq ← gets id;
      if heap_empty (hp (queue tq)) then mret tt
      else
        t ← hlift heap_remove_first;
        t ← deref t;
        e ← timer_load t;
        _ ← run_call (destruct_fn (entry e)) t;
        timer_list_destroy fuel
  end.


(** The queue has [size] timers, and each turn of the loop removes one. *)
Definition timer_queue_fini : M timer_queue unit :=
  n ← gets (λ tq, size (hp (queue tq)));
  _ ← timer_list_destroy (S (Z.to_nat n));
  modify (λ tq, set_queue (heap_fini (queue tq)) tq).

(** ** Time arithmetic *)

Definition ns (t : timespec) : Z := tv_sec t * NSEC_PER_SEC + tv_nsec t.
Definition normal (t : timespec) : Prop := 0 <= tv_nsec t < NSEC_PER_SEC.

Section exactness.
Context `{LongWidth}.

Lemma fits_small z : - 2 ^ 31 <= z < 2 ^ 31 → fits z.
Proof. intros Hz. unfold fits. destruct long_bits_ok as [->| ->]; simpl; lia. Qed.

Lemma slong_fits z : fits z → slong z = z.
Proof. intros Hz. apply swrap_small; [|done]. destruct long_bits_ok; lia. Qed.

(** The normalised time of [z] nanoseconds, with the seconds reduced to the
    range of [time_t]. *)
Definition of_ns (z : Z) : timespec := Timespec (slong (z / NSEC_PER_SEC)) (z mod NSEC_PER_SEC).

Lemma of_ns_spec z :
  normal (of_ns z) ∧ (fits (z / NSEC_PER_SEC) → ns (of_ns z) = z).
Proof.
  unfold normal, ns, of_ns. cbn [tv_sec tv_nsec]. split; [by apply Z.mod_pos_bound|].
  intros Hf. rewrite slong_fits by done. pose proof (Z.div_mod z NSEC_PER_SEC ltac:(done)). lia.
Qed.

(** The two steps of the macros: the fields are computed separately, then
    normalised. *)
Lemma timespec_normalize_spec sec nsec :
  - NSEC_PER_SEC <= nsec < 2 * NSEC_PER_SEC →
  timespec_normalize (Timespec (slong sec) (slong nsec)) = of_ns (sec * NSEC_PER_SEC + nsec).
Proof.
  intros Hn. unfold timespec_normalize, of_ns, NSEC_PER_SEC in *. cbn [tv_sec tv_nsec].
  assert (Hq : ∀ q r, 0 <= r < 1000000000 → sec * 1000000000 + nsec = q * 1000000000 + r →
    (sec * 1000000000 + nsec) / 1000000000 = q ∧ (sec * 1000000000 + nsec) mod 1000000000 = r).
  { intros q r Hr ->. rewrite Z.add_comm, Z.div_add, Z.div_small, Z.mod_add, Z.mod_small by lia. lia. }
  rewrite (slong_fits nsec) by (apply fits_small; lia).
  destruct (Z.leb_spec 1000000000 nsec); [|destruct (Z.ltb_spec nsec 0)].
  - destruct (Hq (sec + 1) (nsec - 1000000000)) as [-> ->]; [lia..|].
    rewrite (slong_fits (nsec - _)) by (apply fits_small; lia). f_equal. apply swrap_add_l.
  - destruct (Hq (sec - 1) (nsec + 1000000000)) as [-> ->]; [lia..|].
    rewrite (slong_fits (nsec + _)) by (apply fits_small; lia). f_equal. apply swrap_add_l.
  - destruct (Hq sec nsec) as [-> ->]; [lia..|]. done.
Qed.

Lemma timespec_add_nsec_spec t n : normal t → timespec_add_nsec t n = of_ns (ns t + n).
Proof.
  intros Ht. unfold timespec_add_nsec.
  pose proof (Z.quot_rem' n NSEC_PER_SEC) as Hqr.
  pose proof (Z.rem_bound_abs n NSEC_PER_SEC ltac:(done)) as Hb.
  rewrite timespec_normalize_spec by (unfold normal, NSEC_PER_SEC in *; lia).
  f_equal. unfold ns. lia.
Qed.

(** C33: on normalised times the macros compute the normalised sum and
    difference, with the seconds reduced to the range of [time_t]; so when the
    seconds of the true result are in that range, the result has exactly the
    right number of nanoseconds, whatever the width of [long].  [timespec_lt]
    compares the numbers of nanoseconds. *)
Theorem timespec_exact a b n :
  normal a → normal b →
  timespec_add_nsec a n = of_ns (ns a + n) ∧
  timespec_add a b = of_ns (ns a + ns b) ∧
  timespec_sub a b = of_ns (ns a - ns b) ∧
  (∀ z, normal (of_ns z) ∧ (fits (z / NSEC_PER_SEC) → ns (of_ns z) = z)) ∧
  timespec_lt a b = (ns a <? ns b).
Proof.
  intros Ha Hb. split_and!.
  - by apply timespec_add_nsec_spec.
  - unfold timespec_add. rewrite timespec_normalize_spec by (unfold normal, NSEC_PER_SEC in *; lia).
    f_equal. unfold ns. lia.
  - unfold timespec_sub. rewrite timespec_normalize_spec by (unfold normal, NSEC_PER_SEC in *; lia).
    f_equal. unfold ns. lia.
  - apply of_ns_spec.
  - unfold timespec_lt, ns, normal, NSEC_PER_SEC in *.
    apply eq_true_iff_eq. rewrite orb_true_iff, andb_true_iff, !Z.ltb_lt, Z.eqb_eq. lia.
Qed.

End exactness.

#[export] Instance heap_cmp_strict_weak : StrictWeak heap_cmp.
Proof.
  unfold heap_cmp, timespec_lt. split; intros a b.
  - rewrite orb_true_iff, andb_true_iff, orb_false_iff, andb_false_iff, !Z.ltb_lt, !Z.ltb_ge, Z.eqb_eq, Z.eqb_neq. lia.
  - intros c. rewrite !orb_true_iff, !andb_true_iff, !Z.ltb_lt, !Z.eqb_eq. lia.
  - intros c. rewrite !orb_false_iff, !andb_false_iff, !Z.ltb_ge, !Z.eqb_neq. lia.
Qed.

(** ** Signals *)

Lemma clear_loop_run s ret val fuel :
  0 < ret → (length (pipe s) + 1 < fuel)%nat →
  ∃ val', clear_loop fuel s ret val = Done (-1, val', Signal [] (waiting s)).
Proof.
  destruct s as [p w]. revert ret val fuel. induction p as [|v p IH]; intros ret val fuel Hr Hf; simpl in *.
  - destruct fuel as [|[|fuel]]; [lia|lia|]. simpl. destruct (Z.ltb_spec 0 ret); [|lia]. by eexists.
  - destruct fuel as [|fuel]; [lia|]. simpl. destruct (Z.ltb_spec 0 ret); [|lia]. apply IH; lia.
Qed.

Lemma signal_clear_val_run s val :
  ∃ val', signal_clear_val s val = Done (0, val', Signal [] (waiting s)).
Proof.
  unfold signal_clear_val. destruct (clear_loop_run s 1 val (S (S (length (pipe s))))) as [v ->]; [lia|lia|].
  by exists v.
Qed.

(** [signal_clear_val] reads until the pipe is empty and then reports the
    result of the last, failing [read]: whatever was raised,
    [timer_queue_signal_lower] empties the pipe and returns
    [TIMER_SIGNAL_NONE], never [SET] or [EXIT]. *)
Lemma timer_queue_signal_lower_none tq :
  timer_queue_signal_lower tq = Done (TIMER_SIGNAL_NONE, set_sig (Signal [] (waiting (sig tq))) tq).
Proof.
  unfold timer_queue_signal_lower. destruct (signal_clear_val_run (sig tq) 0) as [v ->]. done.
Qed.

(** C34: no wake-up is lost: a wait that follows a raise returns at once,
    without any call of [poll], with the raised value; it empties the pipe and
    restores the number of waiting threads, and a second raise before the wait
    adds nothing. *)
Theorem signal_raise_then_wait s val :
  pipe s = [] →
  signal_raise_val s val = (4, Signal [val] (waiting s)) ∧
  signal_raise_val (Signal [val] (waiting s)) val = (0, Signal [val] (waiting s)) ∧
  signal_wait_val [] (Signal [val] (waiting s)) 0 = Done (1, val, s).
Proof.
  destruct s as [p w]. simpl. intros ->. split_and!; [done|done|].
  unfold signal_wait_val. cbn [wait_loop read_int pipe waiting]. unfold signal_clear.
  destruct (signal_clear_val_run (Signal [] (w + 1)) 0) as [v Hv]. cbn [pipe waiting] in Hv.
  rewrite Hv. cbn [pipe waiting]. do 3 f_equal. lia.
Qed.

(** ** Scheduling *)




Section adding.
Context `{LongWidth}.



End adding.

(** ** Concrete queues *)



(** On a 32-bit build. *)
Lemma timespec_exact_witness :
  @timespec_sub ILP32 (Timespec 5 1) (Timespec 2 3) = @of_ns ILP32 (5000000001 - 2000000003).
Proof.
  apply (@timespec_exact ILP32 (Timespec 5 1) (Timespec 2 3) 0); unfold normal, NSEC_PER_SEC; simpl; lia.
Defined.

Lemma signal_raise_then_wait_witness :
  signal_wait_val [] (Signal [3] 0) 0 = Done (1, 3, Signal [] 0).
Proof. apply (signal_raise_then_wait (Signal [] 0) 3). reflexivity. Defined.

