(* ===== verification/TimerList.v ===== *)
(** * The user-level kernel timers ([src/stack/userlevel/timer.c])

    The stack's timers ([struct timer_list]) are kept in one list, sorted by
    absolute expiry; a pipe tells the main loop that the first expiry has
    changed.  The readings of the clock are arguments.  Taking the lock of the
    list while it is held never returns, which counts as a [Fault].  The model
    is of a 64-bit build. *)
From stdpp Require Import sorting.
From S2P Require Import Prelude.
From S2P Require Import TimerQueue.

Local Open Scope Z_scope.

#[local] Existing Instance LP64.

Abbreviation loc := nat.

(** ** Ticks *)

Definition HZ : Z := 100.
Definition TICKS_PER_HZ : Z := 10000000.

Definition secs_to_jiffies (s : Z) : Z := s * HZ.
Definition msecs_to_jiffies (ms : Z) : Z := Z.quot ms 10.
Definition nsecs_to_jiffies (n : Z) : Z := Z.quot n TICKS_PER_HZ.
Definition timespec_to_jiffies (ts : timespec) : Z :=
  secs_to_jiffies (tv_sec ts) + nsecs_to_jiffies (tv_nsec ts).
Definition jiffies_to_nsecs (j : Z) : Z := u64 (j * TICKS_PER_HZ).
Definition jiffies_to_secs (j : Z) : Z := Z.quot j HZ.
Definition jiffies_to_usecs (j : Z) : Z := Z.quot (jiffies_to_nsecs j) 1000.
Definition jiffies_to_msecs (j : Z) : Z := Z.quot (jiffies_to_nsecs j) 1000000.

(** ** State *)

(** [struct timer_list]; [pending] is [entry.next != NULL]. *)
Record timer_list := TimerListEntry {
  pending : bool;
  tl_expires : Z;
  expires_abs : timespec;
  function : option nat;
  tl_data : Z
}.

(** [struct timer_list_head] with the timers it links; [sig_fd] says whether
    the pipe is set, [sig_bytes] is what is in it, [ran] the functions that
    were called. *)
Record timer_list_head := TimerListHead {
  head : list loc;
  timers : gmap loc timer_list;
  locked : bool;
  start_time : timespec;
  sig_fd : bool;
  sig_bytes : nat;
  ran : list (nat * Z)
}.

Definition set_head (l : list loc) (s : timer_list_head) : timer_list_head :=
  TimerListHead l (timers s) (locked s) (start_time s) (sig_fd s) (sig_bytes s) (ran s).
Definition set_timers (f : gmap loc timer_list → gmap loc timer_list) (s : timer_list_head)
  : timer_list_head :=
  TimerListHead (head s) (f (timers s)) (locked s) (start_time s) (sig_fd s) (sig_bytes s) (ran s).
Definition set_locked (b : bool) (s : timer_list_head) : timer_list_head :=
  TimerListHead (head s) (timers s) b (start_time s) (sig_fd s) (sig_bytes s) (ran s).
Definition set_sig_bytes (n : nat) (s : timer_list_head) : timer_list_head :=
  TimerListHead (head s) (timers s) (locked s) (start_time s) (sig_fd s) n (ran s).
Definition set_sig_fd (b : bool) (s : timer_list_head) : timer_list_head :=
  TimerListHead (head s) (timers s) (locked s) (start_time s) b (sig_bytes s) (ran s).

Definition set_pending (b : bool) (t : timer_list) : timer_list :=
  TimerListEntry b (tl_expires t) (expires_abs t) (function t) (tl_data t).
Definition set_expiry (e : Z) (ts : timespec) (t : timer_list) : timer_list :=
  TimerListEntry (pending t) e ts (function t) (tl_data t).

Definition tl_load (t : loc) : M timer_list_head timer_list :=
  λ s, match timers s !! t with Some x => Done (x, s) | None => Fault end.
Definition tl_store (t : loc) (f : timer_list → timer_list) : M timer_list_head unit :=
  λ s, match timers s !! t with
       | Some x => Done (tt, set_timers <[t := f x]> s)
       | None => Fault
       end.

Definition timer_list_lock : M timer_list_head unit :=
  λ s, if locked s then Fault else Done (tt, set_locked true s).
Definition timer_list_unlock : M timer_list_head unit := modify (set_locked false).

(** [jiffies] at the time [now]. *)
Definition gettime_jiffies (now : timespec) : M timer_list_head Z :=
  gets (λ s, u64 (timespec_to_jiffies (timespec_sub now (start_time s)))).

(** ** Signals *)

(** [poll] of an unset descriptor reports nothing. *)
Definition timer_list_signal_pending (s : timer_list_head) : bool :=
  sig_fd s && bool_decide (0 < sig_bytes s)%nat.

(** [__timer_list_signal_lower] reads as long as something is there. *)
Fixpoint signal_lower_loop (n : nat) : M timer_list_head Z :=
  p ← gets timer_list_signal_pending;
  if (p : bool) then
    match n with
    | O => out_of_fuel
    | S n => _ ← modify (λ s, set_sig_bytes (pred (sig_bytes s)) s); signal_lower_loop n
    end
  else mret 1.
Definition timer_list_signal_lower : M timer_list_head Z :=
  n ← gets sig_bytes; signal_lower_loop n.

Definition timer_list_signal_timer_change : M timer_list_head Z :=
  s ← gets id;
  if sig_fd s then
    if timer_list_signal_pending s then mret 0
    else _ ← modify (λ s, set_sig_bytes (S (sig_bytes s)) s); mret 1
  else mret (-1).

(** ** Operations *)

Definition init_timer (t : loc) : M timer_list_head unit :=
  tl_store t (λ _, TimerListEntry false 0 (Timespec 0 0) None 0).
Definition setup_timer (t : loc) (f : option nat) (d : Z) : M timer_list_head unit :=
  _ ← init_timer t;
  tl_store t (λ x, TimerListEntry (pending x) (tl_expires x) (expires_abs x) f d).

(** [del_timer]: the first [return 0] leaves the lock held. *)
Definition del_timer (t : loc) : M timer_list_head Z :=
  _ ← timer_list_lock;
  x ← tl_load t;
  if pending x then
    h ← gets head;
    let first := bool_decide (hd_error h = Some t) in
    _ ← modify (set_head (filter (λ q, q ≠ t) h));
    _ ← tl_store t (set_pending false);
    _ ← timer_list_unlock;
    _ ← (if (first : bool) then timer_list_signal_timer_change else mret 0);
    mret 1
  else mret 0.

(** The search for the place of a timer with expiry [ts]: before the first
    timer that expires later. *)
Fixpoint insert_loop (tm : gmap loc timer_list) (ts : timespec) (t : loc) (l : list loc)
  : option (list loc) :=
  match l with
  | [] => Some [t]
  | x :: l' =>
      tx ← tm !! x;
      if timespec_lt ts (expires_abs tx) then Some (t :: l)
      else r ← insert_loop tm ts t l'; Some (x :: r)
  end.

(** [now] and [now'] are the readings by [gettime] and by [jiffies]. *)
Definition mod_timer (now now' : timespec) (t : loc) (exp : Z) : M timer_list_head Z :=
  _ ← timer_list_lock;
  x ← tl_load t;
  if pending x && (tl_expires x =? exp) then _ ← timer_list_unlock; mret 1
  else
    _ ← (if pending x then modify (λ s, set_head (filter (λ q, q ≠ t) (head s)) s) else mret tt);
    j ← gettime_jiffies now';
    let delta := u64 (exp - j) in
    let ts := timespec_add_nsec now (jiffies_to_nsecs delta) in
    _ ← tl_store t (set_expiry exp ts);
    s ← gets id;
    l ← deref (insert_loop (timers s) ts t (head s));
    _ ← modify (set_head l);
    _ ← tl_store t (set_pending true);
    _ ← (if bool_decide (hd_error l = Some t) then timer_list_signal_timer_change else mret 0);
    _ ← timer_list_unlock;
    mret (if pending x then 1 else 0).

(** [BUG_ON(timer_pending(timer))] stops the program. *)
Definition add_timer (now now' : timespec) (t : loc) : M timer_list_head unit :=
  x ← tl_load t;
  if pending x then fault
  else _ ← mod_timer now now' t (tl_expires x); mret tt.

(** The time until the first expiry; [None] when there is no timer. *)
Definition timer_list_get_next_timeout (now : timespec) (fds : bool)
  : M timer_list_head (option timespec) :=
  _ ← timer_list_lock;
  _ ← modify (set_sig_fd fds);
  _ ← timer_list_signal_lower;
  h ← gets head;
  match h with
  | [] => _ ← timer_list_unlock; mret None
  | t :: _ =>
      x ← tl_load t;
      _ ← timer_list_unlock;
      mret (Some (timespec_sub (expires_abs x) now))
  end.

Definition timer_list_handle_timeout : M timer_list_head Z :=
  _ ← timer_list_lock;
  h ← gets head;
  match h with
  | [] => _ ← timer_list_unlock; mret 0
  | t :: l =>
      _ ← modify (set_head l);
      _ ← tl_store t (set_pending false);
      _ ← timer_list_unlock;
      x ← tl_load t;
      _ ← match function x with
          | Some f => modify (λ s, TimerListHead (head s) (timers s) (locked s) (start_time s)
                        (sig_fd s) (sig_bytes s) (ran s ++ [(f, tl_data x)]))
          | None => mret tt
          end;
      mret 1
  end.

Definition timer_list_init (now : timespec) (tm : gmap loc timer_list) : timer_list_head :=
  TimerListHead [] tm false now false 0 [].

Definition mod_timer_pending (t : loc) (exp : Z) : M timer_list_head Z := mret 0.
Definition mod_timer_pinned (t : loc) (exp : Z) : M timer_list_head Z := mret 0.

(** ** The invariant *)

(** [b] does not expire before [a]. *)
Definition not_before (tm : gmap loc timer_list) (a b : loc) : Prop :=
  ∀ x y, tm !! a = Some x → tm !! b = Some y → timespec_lt (expires_abs y) (expires_abs x) = false.

(** The list links every pending timer exactly once, sorted by expiry. *)
Record tl_ok (s : timer_list_head) : Prop := {
  tl_nodup : NoDup (head s);
  tl_linked : ∀ t, t ∈ head s ↔ ∃ x, timers s !! t = Some x ∧ pending x = true;
  tl_sorted : StronglySorted (not_before (timers s)) (head s)
}.

Lemma timespec_lt_asym a b : timespec_lt a b = true → timespec_lt b a = false.
Proof.
  unfold timespec_lt.
  rewrite orb_true_iff, andb_true_iff, orb_false_iff, andb_false_iff, !Z.ltb_lt, !Z.ltb_ge, Z.eqb_eq, Z.eqb_neq. lia.
Qed.

Lemma timespec_lt_le_trans a b c :
  timespec_lt a b = true → timespec_lt c b = false → timespec_lt c a = false.
Proof.
  unfold timespec_lt.
  rewrite orb_true_iff, andb_true_iff, !orb_false_iff, !andb_false_iff, !Z.ltb_lt, !Z.ltb_ge, !Z.eqb_eq, !Z.eqb_neq. lia.
Qed.

(** A timer that is not in the list may change. *)
Lemma sorted_update tm t x l :
  t ∉ l → StronglySorted (not_before tm) l → StronglySorted (not_before (<[t := x]> tm)) l.
Proof.
  intros Ht. induction 1 as [|a l Hs IH Ha]; [constructor|].
  apply not_elem_of_cons in Ht as [Hta Htl]. constructor; [by apply IH|].
  rewrite Forall_forall in Ha |- *. intros b Hb u v.
  rewrite !lookup_insert_ne by set_solver. by apply Ha.
Qed.

Lemma sorted_filter {A} (R : A → A → Prop) (P : A → Prop) `{!∀ x, Decision (P x)} l :
  StronglySorted R l → StronglySorted R (filter P l).
Proof.
  induction 1 as [|a l Hs IH Ha]; [constructor|]. rewrite filter_cons. destruct (decide (P a)); [|done].
  constructor; [done|]. rewrite Forall_forall in Ha |- *. intros b [_ Hb]%list_elem_of_filter. by apply Ha.
Qed.

(** The search stops at the first timer that expires later. *)
Lemma insert_loop_spec tm ts t l :
  (∀ a, a ∈ l → is_Some (tm !! a)) →
  ∃ l1 l2, l = l1 ++ l2 ∧ insert_loop tm ts t l = Some (l1 ++ t :: l2) ∧
    (∀ a x, a ∈ l1 → tm !! a = Some x → timespec_lt ts (expires_abs x) = false) ∧
    (∀ b y, hd_error l2 = Some b → tm !! b = Some y → timespec_lt ts (expires_abs y) = true).
Proof.
  induction l as [|c l IH]; intros Hd.
  - exists [], []. split_and!; [done|done|set_solver|done].
  - destruct (Hd c) as [z Hz]; [set_solver|]. simpl. rewrite Hz. simpl.
    destruct (timespec_lt ts (expires_abs z)) eqn:Hlt.
    + exists [], (c :: l). split_and!; [done|done|set_solver|]. simpl. intros b y ? ?. by simplify_eq.
    + destruct IH as (l1 & l2 & -> & -> & H1 & H2); [set_solver|]. simpl.
      exists (c :: l1), l2. split_and!; [done|done| |done].
      intros a x [->|Ha]%elem_of_cons Hx; [by simplify_eq|by eapply H1].
Qed.

Lemma sorted_insert tm ts t x l1 l2 :
  tm !! t = Some x → expires_abs x = ts → t ∉ l1 ++ l2 →
  (∀ a, a ∈ l1 ++ l2 → is_Some (tm !! a)) →
  StronglySorted (not_before tm) (l1 ++ l2) →
  (∀ a x, a ∈ l1 → tm !! a = Some x → timespec_lt ts (expires_abs x) = false) →
  (∀ b y, hd_error l2 = Some b → tm !! b = Some y → timespec_lt ts (expires_abs y) = true) →
  StronglySorted (not_before tm) (l1 ++ t :: l2).
Proof.
  intros Ht Hts Hni Hd Hs H1 H2. induction l1 as [|a l1 IH]; simpl in *.
  - constructor; [done|]. apply Forall_forall. intros b Hb u v Hu Hv. simplify_eq.
    destruct l2 as [|c l2]; [set_solver|]. destruct (Hd c) as [z Hz]; [set_solver|].
    pose proof (H2 c z eq_refl Hz) as Hc. apply elem_of_cons in Hb as [->|Hb].
    + simplify_eq. by apply timespec_lt_asym.
    + apply StronglySorted_inv in Hs as [_ Ha]. rewrite Forall_forall in Ha.
      apply (timespec_lt_le_trans _ (expires_abs z)); [done|]. by apply (Ha b).
  - apply StronglySorted_inv in Hs as [Hs Ha]. apply not_elem_of_cons in Hni as [_ Hni].
    constructor.
    + apply IH; [done|set_solver|done|]. intros b y Hb. apply H1. set_solver.
    + rewrite Forall_forall in Ha |- *. intros b Hb.
      rewrite elem_of_app, elem_of_cons in Hb. destruct (decide (b = t)) as [->|Hbt].
      * intros u v Hu Hv. simplify_eq. by apply (H1 a u); [left|].
      * apply Ha. set_solver.
Qed.

(** ** Arming timers *)

Lemma jiffies_to_nsecs_delta e j :
  jiffies_to_nsecs (u64 (e - u64 j)) = u64 ((e - j) * TICKS_PER_HZ).
Proof.
  unfold jiffies_to_nsecs, wrap.
  by rewrite Zmult_mod_idemp_l, <-Zmult_mod_idemp_l, Zminus_mod_idemp_r, Zmult_mod_idemp_l.
Qed.

(** The pipe after [timer_list_signal_timer_change]: one byte at most is
    written. *)
Definition signaled (s : timer_list_head) : nat :=
  if sig_fd s && bool_decide (sig_bytes s = 0%nat) then 1 else sig_bytes s.

Lemma signal_timer_change_run s :
  ∃ r, timer_list_signal_timer_change s = Done (r, set_sig_bytes (signaled s) s).
Proof.
  destruct s as [h tm lk st fd b rn].
  unfold timer_list_signal_timer_change, timer_list_signal_pending, signaled. munfold. simpl.
  destruct fd; [|by eexists]. destruct b as [|b]; simpl; by eexists.
Qed.

Definition rearm (e : Z) (ts : timespec) (x : timer_list) : timer_list :=
  TimerListEntry true e ts (function x) (tl_data x).

(** The list after [t] has been taken out of [head] and put back between [l1]
    and [l2] with the entry [x]. *)
Definition relinked (s : timer_list_head) (t : loc) (x : timer_list) (l : list loc) : timer_list_head :=
  TimerListHead l (<[t := x]> (timers s)) false (start_time s) (sig_fd s)
    (if bool_decide (hd_error l = Some t) then signaled s else sig_bytes s) (ran s).

Lemma filter_away (t : loc) (l : list loc) : t ∉ l → filter (λ q, q ≠ t) l = l.
Proof.
  induction l as [|a l IH]; [done|]. intros [Ha Hl]%not_elem_of_cons.
  rewrite filter_cons_True by done. by rewrite IH.
Qed.

Lemma unlink_id s t x :
  tl_ok s → timers s !! t = Some x → pending x = false → filter (λ q, q ≠ t) (head s) = head s.
Proof.
  intros Hok Ht Hp. apply filter_away.
  intros (y & Hy & Hpy)%(tl_linked s Hok). congruence.
Qed.

Lemma relinked_ok s t x l1 l2 e ts :
  tl_ok s → timers s !! t = Some x → filter (λ q, q ≠ t) (head s) = l1 ++ l2 →
  (∀ a y, a ∈ l1 → timers s !! a = Some y → timespec_lt ts (expires_abs y) = false) →
  (∀ b y, hd_error l2 = Some b → timers s !! b = Some y → timespec_lt ts (expires_abs y) = true) →
  tl_ok (relinked s t (rearm e ts x) (l1 ++ t :: l2)).
Proof.
  intros Hok Ht Hf H1 H2. assert (Hin : ∀ q, q ∈ l1 ++ l2 ↔ q ≠ t ∧ q ∈ head s).
  { intros q. rewrite <-Hf, list_elem_of_filter. done. }
  assert (Hni : t ∉ l1 ++ l2) by (rewrite Hin; tauto).
  split; simpl.
  - rewrite <-Permutation_middle. constructor; [done|]. rewrite <-Hf. apply NoDup_filter, Hok.
  - intros q. rewrite <-Permutation_middle, elem_of_cons, Hin, (tl_linked s Hok).
    destruct (decide (q = t)) as [->|Hq].
    + rewrite lookup_insert_eq. split; [by eexists|auto].
    + rewrite lookup_insert_ne by done. tauto.
  - apply (sorted_insert _ ts t (rearm e ts x)); [apply lookup_insert_eq|done|done| | | |].
    + intros a Ha. destruct (decide (a = t)) as [->|Hq]; [done|]. rewrite lookup_insert_ne by done.
      apply Hin in Ha as [_ Ha]. apply (tl_linked s Hok) in Ha as (y & -> & _). done.
    + apply sorted_update; [done|]. rewrite <-Hf. apply sorted_filter, Hok.
    + intros a y Ha. rewrite lookup_insert_ne; [by apply H1|]. set_solver.
    + intros b y Hb. rewrite lookup_insert_ne; [by apply H2|].
      intros <-. apply Hni. destruct l2; simplify_eq/=. set_solver.
Qed.

(** What [mod_timer] does after the first test, on a list from which the timer
    has been taken. *)
Lemma mod_timer_run s now now' t e x :
  tl_ok s → locked s = false → timers s !! t = Some x → pending x && (tl_expires x =? e) = false →
  let ts := timespec_add_nsec now (jiffies_to_nsecs (u64 (e -
              u64 (timespec_to_jiffies (timespec_sub now' (start_time s)))))) in
  ∃ l1 l2, filter (λ q, q ≠ t) (head s) = l1 ++ l2 ∧
    mod_timer now now' t e s =
      Done (if pending x then 1 else 0, relinked s t (rearm e ts x) (l1 ++ t :: l2)) ∧
    tl_ok (relinked s t (rearm e ts x) (l1 ++ t :: l2)).
Proof.
  intros Hok Hlk Ht Hx ts.
  destruct (insert_loop_spec (<[t := set_expiry e ts x]> (timers s)) ts t (filter (λ q, q ≠ t) (head s)))
    as (l1 & l2 & Hl & Hins & H1 & H2).
  { intros a [Hat Ha]%list_elem_of_filter. rewrite lookup_insert_ne by done.
    apply (tl_linked s Hok) in Ha as (y & -> & _). done. }
  assert (Hni : t ∉ l1 ++ l2) by (rewrite <-Hl, list_elem_of_filter; tauto).
  exists l1, l2. split_and!; [done| |].
  - unfold mod_timer, timer_list_lock. munfold. rewrite Hlk. unfold tl_load. simpl. rewrite Ht, Hx.
    set (s1 := set_head (filter (λ q, q ≠ t) (head s)) (set_locked true s)).
    assert (Hs1 : (if pending x then modify (λ s, set_head (filter (λ q, q ≠ t) (head s)) s) else mret tt)
      (set_locked true s) = Done (tt, s1)).
    { unfold s1. destruct (pending x) eqn:Hp; [done|]. rewrite (unlink_id s t x) by done. by destruct s. }
    unfold modify, mret, M_ret in Hs1. rewrite Hs1. unfold gettime_jiffies, gets, tl_store. simpl.
    rewrite Ht. simpl. fold ts. rewrite Hins. simpl. rewrite lookup_insert_eq.
    unfold relinked, set_timers. simpl. rewrite insert_insert_eq.
    destruct (bool_decide (hd_error (l1 ++ t :: l2) = Some t)); simpl; [|done].
    match goal with |- context [timer_list_signal_timer_change ?q] =>
      destruct (signal_timer_change_run q) as [r Hr]; rewrite Hr end. done.
  - apply relinked_ok; [done|done|done| |].
    + intros a y Ha Hy. apply (H1 a y Ha). rewrite lookup_insert_ne; [done|set_solver].
    + intros b y Hb Hy. apply (H2 b y Hb). rewrite lookup_insert_ne; [done|].
      intros <-. apply Hni. destruct l2; simplify_eq/=. set_solver.
Qed.

(** The clock is far from the end of [time_t]. *)
Lemma soon_fits now d :
  normal now → 0 <= tv_sec now < 2 ^ 62 → 0 <= d < 2 ^ 64 → fits ((ns now + d) / NSEC_PER_SEC).
Proof.
  unfold fits, normal, ns, NSEC_PER_SEC. simpl long_bits. intros Hn Ht Hd. split.
  - assert (0 <= (tv_sec now * 1000000000 + tv_nsec now + d) / 1000000000) by (apply Z.div_pos; lia). lia.
  - apply Z.div_lt_upper_bound; lia.
Qed.

(** C25: [mod_timer] returns whether the timer was pending.  It links the
    timer into the list, once and in the place its expiry has, keeps every
    other timer, and releases the lock; the expiry is the time [now] plus
    [(exp - jiffies)] ticks of ten milliseconds, modulo 2^64 nanoseconds, with
    the seconds reduced to the range of [time_t], and so exactly that time for
    every clock below 2^62 seconds; a byte is put into the pipe (unless one is there) exactly when the timer
    comes first.  A pending timer with the same [expires] is left alone. *)
Theorem mod_timer_correct s now now' t e x :
  tl_ok s → locked s = false → timers s !! t = Some x → normal now →
  ∃ s', mod_timer now now' t e s = Done (if pending x then 1 else 0, s') ∧
    tl_ok s' ∧ locked s' = false ∧
    if pending x && (tl_expires x =? e) then s' = s
    else ∃ ts, timers s' = <[t := rearm e ts x]> (timers s) ∧
      let exp := ns now +
        u64 ((e - timespec_to_jiffies (timespec_sub now' (start_time s))) * TICKS_PER_HZ) in
      normal ts ∧ ts = of_ns exp ∧ (0 <= tv_sec now < 2 ^ 62 → ns ts = exp) ∧
      head s' ≡ₚ t :: filter (λ q, q ≠ t) (head s) ∧
      sig_bytes s' = if bool_decide (hd_error (head s') = Some t) then signaled s else sig_bytes s.
Proof.
  intros Hok Hlk Ht Hnow. destruct (pending x && (tl_expires x =? e)) eqn:Hx.
  - exists s. split_and!; [|done|done|done]. unfold mod_timer, timer_list_lock, timer_list_unlock.
    munfold. rewrite Hlk. unfold tl_load. simpl. rewrite Ht, Hx.
    apply andb_true_iff in Hx as [-> _]. destruct s; simpl in *. by rewrite Hlk.
  - destruct (mod_timer_run s now now' t e x) as (l1 & l2 & Hl & Hrun & Hok'); [done..|].
    eexists. split; [exact Hrun|]. split; [done|]. split; [done|].
    eexists. split; [reflexivity|]. rewrite timespec_add_nsec_spec, jiffies_to_nsecs_delta by done.
    set (d := u64 (_ * TICKS_PER_HZ)). pose proof (wrap_range 64 _ ltac:(done) : 0 <= d < 2 ^ 64) as Hd.
    destruct (of_ns_spec (ns now + d)) as [Hn1 Hn2].
    split_and!; [exact Hn1|done|intros Hr; by apply Hn2, soon_fits| |done]. simpl. rewrite Hl.
    symmetry. apply Permutation_middle.
Qed.

(** ** Firing and deleting timers *)

Lemma signal_lower_loop_run s n :
  n = sig_bytes s →
  signal_lower_loop n s = Done (1, if sig_fd s then set_sig_bytes 0 s else s).
Proof.
  revert s. induction n as [|n IH]; intros [h tm lk st fd b rn] Hn; simpl in Hn; subst b;
    simpl; munfold; unfold timer_list_signal_pending; simpl; destruct fd; try done.
  unfold set_sig_bytes. simpl. rewrite IH; done.
Qed.

(** Taking a pending timer out of the list. *)
Lemma unlinked_ok s t x b n r :
  tl_ok s → timers s !! t = Some x →
  tl_ok (TimerListHead (filter (λ q, q ≠ t) (head s)) (<[t := set_pending false x]> (timers s)) b
    (start_time s) (sig_fd s) n r).
Proof.
  intros Hok Ht. split; simpl.
  - apply NoDup_filter, Hok.
  - intros q. rewrite list_elem_of_filter, (tl_linked s Hok). destruct (decide (q = t)) as [->|Hq].
    + rewrite lookup_insert_eq. split; [tauto|]. by intros (y & ? & ?); simplify_eq.
    + rewrite lookup_insert_ne by done. tauto.
  - apply sorted_update; [rewrite list_elem_of_filter; tauto|]. apply sorted_filter, Hok.
Qed.

Lemma filter_head (t : loc) l : NoDup (t :: l) → filter (λ q, q ≠ t) (t :: l) = l.
Proof. intros [Ht _]%NoDup_cons. rewrite filter_cons_False by tauto. by apply filter_away. Qed.

(** The first timer of the list is one that expires first. *)
Lemma head_is_earliest s t l :
  tl_ok s → head s = t :: l →
  ∃ x, timers s !! t = Some x ∧ pending x = true ∧
    ∀ q y, timers s !! q = Some y → pending y = true →
      timespec_lt (expires_abs y) (expires_abs x) = false.
Proof.
  intros Hok Hh. destruct (proj1 (tl_linked s Hok t)) as (x & Hx & Hp); [rewrite Hh; set_solver|].
  exists x. split_and!; [done|done|]. intros q y Hq Hy.
  assert (q ∈ t :: l) as [->|Hql]%elem_of_cons by (rewrite <-Hh; apply Hok; eauto).
  - simplify_eq. unfold timespec_lt. by rewrite !Z.ltb_irrefl, andb_false_r.
  - pose proof (tl_sorted s Hok) as Hs. rewrite Hh in Hs. apply StronglySorted_inv in Hs as [_ Hs].
    rewrite Forall_forall in Hs. by apply (Hs q).
Qed.

(** C26: the main loop serves the timers in the order of their expiry.  With
    no timer, [timer_list_get_next_timeout] reports none and
    [timer_list_handle_timeout] does nothing.  Otherwise the first reports the
    time that is left for a timer [t] before which no pending timer expires,
    and the second runs the function of the same [t] with its data and takes
    [t] and nothing else out of the list.  Both lower the lock they take; the
    first also stores the pipe and empties it. *)
Theorem timer_list_serves_earliest s now (fds : bool) :
  tl_ok s → locked s = false →
  let s1 := set_sig_bytes (if fds then 0%nat else sig_bytes s) (set_sig_fd fds s) in
  match head s with
  | [] => timer_list_get_next_timeout now fds s = Done (None, s1) ∧ timer_list_handle_timeout s = Done (0, s)
  | t :: l => ∃ x s2, timers s !! t = Some x ∧
      (∀ q y, timers s !! q = Some y → pending y = true →
         timespec_lt (expires_abs y) (expires_abs x) = false) ∧
      timer_list_get_next_timeout now fds s = Done (Some (timespec_sub (expires_abs x) now), s1) ∧
      timer_list_handle_timeout s = Done (1, s2) ∧ tl_ok s2 ∧ locked s2 = false ∧
      head s2 = l ∧ timers s2 = <[t := set_pending false x]> (timers s) ∧
      ran s2 = ran s ++ match function x with Some f => [(f, tl_data x)] | None => [] end
  end.
Proof.
  intros Hok Hlk s1. destruct (head s) as [|t l] eqn:Hh.
  - unfold s1. destruct s as [h tm lk st fd b rn]. simpl in *. subst h lk.
    split; [|done]. unfold timer_list_get_next_timeout, timer_list_lock, timer_list_signal_lower. munfold. simpl.
    rewrite signal_lower_loop_run by done. by destruct fds.
  - destruct (head_is_earliest s t l Hok Hh) as (x & Hx & Hp & Hmin).
    exists x, (TimerListHead l (<[t := set_pending false x]> (timers s)) false (start_time s) (sig_fd s)
      (sig_bytes s) (ran s ++ match function x with Some f => [(f, tl_data x)] | None => [] end)).
    split_and!; [done|done| | | |done..].
    + unfold s1. destruct s as [h tm lk st fd b rn]. simpl in *. subst h lk.
      unfold timer_list_get_next_timeout, timer_list_lock, timer_list_signal_lower. munfold. simpl.
      rewrite signal_lower_loop_run by done. unfold tl_load. destruct fds; simpl; by rewrite Hx.
    + destruct s as [h tm lk st fd b rn]. simpl in *. subst h lk.
      unfold timer_list_handle_timeout, timer_list_lock, tl_store, tl_load. munfold. simpl.
      rewrite Hx. simpl. rewrite lookup_insert_eq. simpl.
      destruct (function x); [done|]. by rewrite app_nil_r.
    + assert (Hl : l = filter (λ q, q ≠ t) (head s)).
      { rewrite Hh, filter_head; [done|]. rewrite <-Hh. apply Hok. }
      rewrite Hl at 1. by apply unlinked_ok.
Qed.

(** C27: [del_timer] on a pending timer takes it out of the list, keeps the
    invariant, signals when it was the first, releases the lock and returns 1.
    On a timer that is not pending it returns 0 and keeps the lock: after that
    no operation on any timer returns. *)
Theorem del_timer_correct s t x :
  tl_ok s → locked s = false → timers s !! t = Some x →
  if pending x then
    ∃ s', del_timer t s = Done (1, s') ∧ tl_ok s' ∧ locked s' = false ∧
      head s' = filter (λ q, q ≠ t) (head s) ∧ timers s' = <[t := set_pending false x]> (timers s) ∧
      sig_bytes s' = if bool_decide (hd_error (head s) = Some t) then signaled s else sig_bytes s
  else
    ∃ s', del_timer t s = Done (0, s') ∧ locked s' = true ∧
      ∀ q e now now' fds, del_timer q s' = Fault ∧ mod_timer now now' q e s' = Fault ∧
        add_timer now now' q s' = Fault ∧
        timer_list_get_next_timeout now fds s' = Fault ∧ timer_list_handle_timeout s' = Fault.
Proof.
  intros Hok Hlk Hx. destruct (pending x) eqn:Hp.
  - exists (TimerListHead (filter (λ q, q ≠ t) (head s)) (<[t := set_pending false x]> (timers s)) false
      (start_time s) (sig_fd s)
      (if bool_decide (hd_error (head s) = Some t) then signaled s else sig_bytes s) (ran s)).
    split_and!; [|by apply unlinked_ok|done..].
    unfold del_timer, timer_list_lock, tl_load, tl_store, timer_list_unlock. munfold. rewrite Hlk. simpl.
    rewrite Hx, Hp. simpl. destruct (bool_decide (hd_error (head s) = Some t)); simpl; [|by rewrite Hx].
    rewrite Hx. match goal with |- context [timer_list_signal_timer_change ?q] =>
      destruct (signal_timer_change_run q) as [r Hr]; rewrite Hr end. done.
  - exists (set_locked true s). split_and!; [|done|].
    + unfold del_timer, timer_list_lock, tl_load. munfold. rewrite Hlk. simpl. by rewrite Hx, Hp.
    + intros q e now now' fds. split_and!; [done|done| |done|done].
      unfold add_timer, tl_load, mod_timer, timer_list_lock. munfold. simpl.
      destruct (timers s !! q) as [y|]; [|done]. by destruct (pending y).
Qed.

(** ** Concrete lists *)

Lemma timer_list_init_ok now tm :
  (∀ t x, tm !! t = Some x → pending x = false) → tl_ok (timer_list_init now tm).
Proof.
  intros Hp. split; simpl; [constructor| |constructor].
  intros t. split; [set_solver|]. intros (x & Hx & Hpx). rewrite (Hp t x Hx) in Hpx. done.
Qed.

Definition idle (f : nat) : timer_list := TimerListEntry false 0 (Timespec 0 0) (Some f) 5.
Definition demo_list : timer_list_head :=
  timer_list_init (Timespec 100 0) {[1%nat := idle 10; 2%nat := idle 20]}.

Lemma demo_list_ok : tl_ok demo_list.
Proof.
  apply timer_list_init_ok. intros t x. rewrite lookup_insert_Some, lookup_singleton_Some.
  intros [[_ <-]|[_ [_ <-]]]; done.
Qed.

Lemma normal_101 : normal (Timespec 101 0).
Proof. unfold normal, NSEC_PER_SEC. simpl. lia. Qed.

Lemma mod_timer_correct_witness :
  ∃ s', mod_timer (Timespec 101 0) (Timespec 101 0) 1 150 demo_list = Done (0, s') ∧ tl_ok s' ∧ locked s' = false.
Proof.
  destruct (mod_timer_correct demo_list (Timespec 101 0) (Timespec 101 0) 1 150 (idle 10)
    demo_list_ok eq_refl eq_refl normal_101) as (s' & H1 & H2 & H3 & _).
  exists s'. by split_and!.
Defined.

(** The demo list with timer 2 armed. *)
Definition demo_armed : timer_list_head :=
  relinked demo_list 2 (rearm 150 (Timespec 101 500000000) (idle 20)) [2%nat].

Lemma demo_armed_ok : tl_ok demo_armed.
Proof.
  apply (relinked_ok demo_list 2 (idle 20) [] []); [apply demo_list_ok|done|done|set_solver|done].
Qed.

Lemma timer_list_serves_earliest_witness :
  ∃ s2, timer_list_handle_timeout demo_armed = Done (1, s2) ∧ ran s2 = [(20%nat, 5)] ∧
    ∃ s1, timer_list_get_next_timeout (Timespec 101 0) true demo_armed
            = Done (Some (Timespec 0 500000000), s1).
Proof.
  destruct (timer_list_serves_earliest demo_armed (Timespec 101 0) true demo_armed_ok eq_refl)
    as (x & s2 & Hx & _ & H1 & H2 & _ & _ & _ & _ & H3).
  assert (x = rearm 150 (Timespec 101 500000000) (idle 20)) as ->.
  { apply (f_equal (λ o : option timer_list, default x o)) in Hx. symmetry. exact Hx. }
  exists s2. split_and!; [exact H2|exact H3|]. eexists. exact H1.
Defined.

Lemma del_timer_correct_witness :
  ∃ s', del_timer 1 demo_armed = Done (0, s') ∧ del_timer 2 s' = Fault.
Proof.
  destruct (del_timer_correct demo_armed 1 (idle 10) demo_armed_ok eq_refl eq_refl) as (s' & H1 & _ & H2).
  exists s'. split; [exact H1|]. apply (H2 2%nat 0 (Timespec 0 0) (Timespec 0 0) true).
Defined.

(** An expiry that has passed wraps around: asked one second after the start
    to fire at tick 99, ten milliseconds ago, the timer is set to fire more
    than 500 years later. *)
Lemma mod_timer_past_wraps :
  ∃ s' x, mod_timer (Timespec 101 0) (Timespec 101 0) 1 99 demo_list = Done (0, s') ∧
    timers s' !! 1%nat = Some x ∧ 101 + 500 * 365 * 86400 < tv_sec (expires_abs x).
Proof. eexists _, _. split; [vm_compute; reflexivity|]. split; [vm_compute; reflexivity|]. vm_compute. done. Qed.
