(* ===== verification/HashTable.v ===== *)
(** * The hash table with reference-counted elements ([src/common/hashtable.c])

    Elements are embedded in objects of the user ([payload]); the hash, the
    comparison and the release functions are pointers in each element.  Every
    slot has its own lock; taking a lock that is held never returns and counts
    as a [Fault].  The release function gives the object's memory back. *)
From S2P Require Import Prelude.

Local Open Scope Z_scope.

Abbreviation loc := nat.

Section table.
Context {key payload : Type}.

(** [struct hashelm] with the object around it; [linked] is the state of its
    list node. *)
Record hashelm := HashElm {
  linked : bool;
  refcount : Z;
  hash : Z;
  hashfn : key → Z;
  equalfn : payload → key → bool;
  freefn : option nat;
  content : payload
}.

Record hashslot := HashSlot { chain : list loc; slot_count : Z; slot_locked : bool }.

(** [struct hashtable] with the elements in memory and the calls of the
    release functions. *)
Record hashtable := HashTable {
  slots : list hashslot;
  mask : Z;
  table_count : Z;
  elems : gmap loc hashelm;
  released : list (nat * loc)
}.

Definition set_slots (f : list hashslot → list hashslot) (s : hashtable) : hashtable :=
  HashTable (f (slots s)) (mask s) (table_count s) (elems s) (released s).
Definition set_count (f : Z → Z) (s : hashtable) : hashtable :=
  HashTable (slots s) (mask s) (f (table_count s)) (elems s) (released s).
Definition set_elems (f : gmap loc hashelm → gmap loc hashelm) (s : hashtable) : hashtable :=
  HashTable (slots s) (mask s) (table_count s) (f (elems s)) (released s).
Definition add_released (x : nat * loc) (s : hashtable) : hashtable :=
  HashTable (slots s) (mask s) (table_count s) (elems s) (released s ++ [x]).

Definition set_linked (b : bool) (e : hashelm) : hashelm :=
  HashElm b (refcount e) (hash e) (hashfn e) (equalfn e) (freefn e) (content e).
Definition set_refcount (n : Z) (e : hashelm) : hashelm :=
  HashElm (linked e) n (hash e) (hashfn e) (equalfn e) (freefn e) (content e).
Definition set_hash (h : Z) (e : hashelm) : hashelm :=
  HashElm (linked e) (refcount e) h (hashfn e) (equalfn e) (freefn e) (content e).

Definition load (he : loc) : M hashtable hashelm :=
  λ s, match elems s !! he with Some e => Done (e, s) | None => Fault end.
Definition store (he : loc) (f : hashelm → hashelm) : M hashtable unit :=
  λ s, match elems s !! he with
       | Some e => Done (tt, set_elems <[he := f e]> s)
       | None => Fault
       end.

(** Slots are addressed by their index. *)
Definition slot_get (i : Z) : M hashtable hashslot :=
  λ s, match zget (slots s) i with Some x => Done (x, s) | None => Fault end.
Definition slot_mod (i : Z) (f : hashslot → hashslot) : M hashtable unit :=
  λ s, match zget (slots s) i with
       | Some x => Done (tt, set_slots (λ l, zset l i (f x)) s)
       | None => Fault
       end.
Definition slot_lock (i : Z) : M hashtable unit :=
  x ← slot_get i;
  if slot_locked x then fault else slot_mod i (λ x, HashSlot (chain x) (slot_count x) true).
Definition slot_unlock (i : Z) : M hashtable unit :=
  slot_mod i (λ x, HashSlot (chain x) (slot_count x) false).

(** ** Operations *)

(** [hashtable_init]: [ok] says whether [malloc] succeeds.  With size 0 the
    mask is [UINT_MAX] and the loop writes past the (empty) array; from
    [2^31] slots on, the [int] index overflows. *)
Definition hashtable_init (ok : bool) (size : Z) (es : gmap loc hashelm) : res (Z * hashtable) :=
  if negb ok then Done (-1, HashTable [] 0 0 es [])
  else if (size =? 0) || (2 ^ 31 <=? size) then Fault
  else Done (0, HashTable (replicate (Z.to_nat size) (HashSlot [] 0 false)) (u32 (size - 1)) 0 es []).

Definition hashtable_count : M hashtable Z := gets (λ s, u32 (table_count s)).

Definition get_slot (h : Z) : M hashtable Z := gets (λ s, Z.land h (mask s)).

Definition hashelm_hashed (he : loc) : M hashtable bool := e ← load he; mret (linked e).

Definition hashelm_init (he : loc) (hf : key → Z) (ef : payload → key → bool) (ff : option nat)
  : M hashtable Z :=
  _ ← store he (λ e, HashElm false 1 (hash e) hf ef ff (content e));
  mret 0.

Definition hashelm_hold (he : loc) : M hashtable unit :=
  store he (λ e, set_refcount (s32 (refcount e + 1)) e).

(** [atomic_dec_and_test], then the release. *)
Definition hashelm_put (he : loc) : M hashtable unit :=
  e ← load he;
  let n := s32 (refcount e - 1) in
  _ ← store he (set_refcount n);
  if n =? 0 then
    match freefn e with
    | Some f => _ ← modify (add_released (f, he)); modify (set_elems (delete he))
    | None => mret tt
    end
  else mret tt.

(** [hlist_del_init] does nothing to a node that is not in a list. *)
Definition hlist_del_init (i : Z) (he : loc) : M hashtable unit :=
  e ← load he;
  if linked e then
    _ ← slot_mod i (λ x, HashSlot (filter (λ q, q ≠ he) (chain x)) (slot_count x) (slot_locked x));
    store he (set_linked false)
  else mret tt.

Definition hashelm_hash (he : loc) (k : key) : M hashtable Z :=
  e ← load he;
  if linked e then mret (-1)
  else
    let h := u32 (hashfn e k) in
    _ ← store he (set_hash h);
    i ← get_slot h;
    _ ← slot_lock i;
    _ ← slot_mod i (λ x, HashSlot (chain x) (u64 (slot_count x + 1)) (slot_locked x));
    _ ← modify (set_count (λ n, s32 (n + 1)));
    _ ← slot_mod i (λ x, HashSlot (he :: chain x) (slot_count x) (slot_locked x));
    _ ← store he (set_linked true);
    _ ← hashelm_hold he;
    _ ← slot_unlock i;
    mret 0.

(** [__hashelm_unhash], for callers that hold the lock of the slot. *)
Definition hashelm_unhash_nolock (he : loc) : M hashtable unit :=
  e ← load he;
  i ← get_slot (hash e);
  _ ← hlist_del_init i he;
  _ ← slot_mod i (λ x, HashSlot (chain x) (u64 (slot_count x - 1)) (slot_locked x));
  _ ← modify (set_count (λ n, s32 (n - 1)));
  hashelm_put he.

Definition hashelm_unhash (he : loc) : M hashtable unit :=
  e ← load he;
  i ← get_slot (hash e);
  _ ← slot_lock i;
  _ ← hlist_del_init i he;
  _ ← slot_mod i (λ x, HashSlot (chain x) (u64 (slot_count x - 1)) (slot_locked x));
  _ ← modify (set_count (λ n, s32 (n - 1)));
  _ ← hashelm_put he;
  slot_unlock i.

(** The walk of [hashtable_lookup] over one chain. *)
Fixpoint lookup_loop (k : key) (l : list loc) : M hashtable (option loc) :=
  match l with
  | [] => mret None
  | he :: l =>
      e ← load he;
      if equalfn e (content e) k then _ ← hashelm_hold he; mret (Some he)
      else lookup_loop k l
  end.

Definition hashtable_lookup (k : key) (hf : key → Z) : M hashtable (option loc) :=
  i ← get_slot (u32 (hf k));
  _ ← slot_lock i;
  x ← slot_get i;
  r ← lookup_loop k (chain x);
  _ ← slot_unlock i;
  mret r.

(** [hlist_for_each_entry_safe]: the next node is read before the body runs,
    so that the body may unlink the current one. *)
Fixpoint successor (he : loc) (l : list loc) : option loc :=
  match l with
  | [] => None
  | q :: l' => if decide (q = he) then hd_error l' else successor he l'
  end.

Fixpoint safe_loop (fuel : nat) (i : Z) (act : loc → M hashtable unit) (cur : option loc) (n : Z)
  : M hashtable Z :=
  match cur with
  | None => mret n
  | Some he =>
      match fuel with
      | O => out_of_fuel
      | S fuel =>
          _ ← load he;
          x ← slot_get i;
          let next := successor he (chain x) in
          _ ← act he;
          safe_loop fuel i act next (s32 (n + 1))
      end
  end.

(** One slot; the walk visits every node of the chain at most once as long as
    the action does not put new ones behind it. *)
Definition for_slot (i : Z) (act : loc → M hashtable unit) (n : Z) : M hashtable Z :=
  x ← slot_get i;
  safe_loop (length (chain x)) i act (hd_error (chain x)) n.

Fixpoint for_each_loop (cnt : nat) (i : Z) (act : loc → M hashtable unit) (n : Z) : M hashtable Z :=
  match cnt with
  | O => mret n
  | S cnt =>
      _ ← slot_lock i;
      n ← for_slot i act n;
      _ ← slot_unlock i;
      for_each_loop cnt (i + 1) act n
  end.

(** [hashtable_for_each]; the data argument is part of [action]. *)
Definition hashtable_for_each (action : option (loc → M hashtable unit)) : M hashtable Z :=
  match action with
  | None => mret (-1)
  | Some act => m ← gets mask; for_each_loop (S (Z.to_nat m)) 0 act 0
  end.

Fixpoint fini_loop (cnt : nat) (i : Z) : M hashtable unit :=
  match cnt with
  | O => mret tt
  | S cnt =>
      _ ← slot_lock i;
      _ ← for_slot i (λ he, _ ← hlist_del_init i he; hashelm_put he) 0;
      _ ← slot_mod i (λ x, HashSlot [] 0 (slot_locked x));
      _ ← slot_unlock i;
      fini_loop cnt (i + 1)
  end.

Definition hashtable_fini : M hashtable unit :=
  m ← gets mask;
  _ ← fini_loop (S (Z.to_nat m)) 0;
  _ ← modify (set_count (λ _, 0));
  modify (set_slots (λ _, [])).

(** ** The invariant *)

(** The elements in the table. *)
Definition contents (l : list hashslot) : list loc := mjoin (chain <$> l).

(** Every slot is unlocked and counts its elements; the linked elements are
    exactly those in the slot of their hash, once; the table counts them
    all. *)
Record ht_ok (s : hashtable) : Prop := {
  ht_mask : 0 <= mask s < 2 ^ 31 ∧ Z.of_nat (length (slots s)) = mask s + 1;
  ht_slot : ∀ i x, zget (slots s) i = Some x →
    slot_locked x = false ∧ slot_count x = u64 (Z.of_nat (length (chain x))) ∧ NoDup (chain x);
  ht_link : ∀ i he, (∃ x, zget (slots s) i = Some x ∧ he ∈ chain x) ↔
    ∃ e, elems s !! he = Some e ∧ linked e = true ∧ Z.land (hash e) (mask s) = i;
  ht_count : table_count s = s32 (Z.of_nat (length (contents (slots s))))
}.

Lemma zget_is_Some {A} (l : list A) i : 0 <= i < Z.of_nat (length l) → is_Some (zget l i).
Proof.
  intros Hi. unfold zget. destruct (Z.leb_spec 0 i); [|lia]. apply lookup_lt_is_Some. lia.
Qed.

Lemma zset_zset {A} (l : list A) i x y : zset (zset l i x) i y = zset l i y.
Proof. apply list_insert_insert_eq. Qed.

Lemma zset_id {A} (l : list A) i x : zget l i = Some x → zset l i x = l.
Proof. unfold zget, zset. destruct (0 <=? i); [|done]. apply list_insert_id. Qed.

Lemma swrap_add w a b : swrap w (swrap w a + b) = swrap w (a + b).
Proof.
  unfold swrap. f_equal.
  replace ((a + 2 ^ (w - 1)) mod 2 ^ w - 2 ^ (w - 1) + b + 2 ^ (w - 1))
    with ((a + 2 ^ (w - 1)) mod 2 ^ w + b) by lia.
  rewrite Zplus_mod_idemp_l. f_equal. lia.
Qed.

Lemma swrap_sub w a b : swrap w (swrap w a - b) = swrap w (a - b).
Proof. apply (swrap_add w a (- b)). Qed.

Lemma contents_split l i x :
  zget l i = Some x → ∃ rest, contents l ≡ₚ chain x ++ rest ∧
    ∀ x', contents (zset l i x') ≡ₚ chain x' ++ rest.
Proof.
  intros Hi. pose proof (zget_Some_range _ _ _ Hi) as Hr. unfold zget in Hi.
  destruct (Z.leb_spec 0 i); [|done]. exists (contents (delete (Z.to_nat i) l)). unfold contents. split.
  - rewrite (delete_Permutation l (Z.to_nat i) x Hi) at 1. done.
  - intros x'. unfold zset. rewrite (insert_delete_Permutation l (Z.to_nat i) x') by lia. done.
Qed.

Lemma zland_le h m : 0 <= m → Z.land h m <= m.
Proof.
  intros Hm. assert (Hz : Z.ldiff (Z.land h m) m = 0).
  { apply Z.bits_inj'. intros n _. rewrite Z.ldiff_spec, Z.land_spec, Z.bits_0.
    by destruct (Z.testbit h n), (Z.testbit m n). }
  pose proof (Z.sub_nocarry_ldiff _ _ Hz) as H.
  assert (0 <= Z.ldiff m (Z.land h m)) by (apply Z.ldiff_nonneg; auto). lia.
Qed.

Lemma slot_range s h : ht_ok s → 0 <= Z.land h (mask s) < Z.of_nat (length (slots s)).
Proof.
  intros [[[H0 H1] H2] _ _ _]. rewrite H2. split; [by apply Z.land_nonneg; right|].
  pose proof (zland_le h (mask s) H0). lia.
Qed.

Lemma slot_mod_run sl m c es r i f x :
  zget sl i = Some x →
  slot_mod i f (HashTable sl m c es r) = Done (tt, HashTable (zset sl i (f x)) m c es r).
Proof. intros H. unfold slot_mod. simpl. by rewrite H. Qed.

Lemma slot_mod_again sl m c es r i f x :
  0 <= i < Z.of_nat (length sl) →
  slot_mod i f (HashTable (zset sl i x) m c es r) = Done (tt, HashTable (zset sl i (f x)) m c es r).
Proof.
  intros H. rewrite (slot_mod_run _ _ _ _ _ _ _ x) by (by apply zget_zset_eq). by rewrite zset_zset.
Qed.

Lemma slot_lock_run sl m c es r i x :
  zget sl i = Some x → slot_locked x = false →
  slot_lock i (HashTable sl m c es r)
    = Done (tt, HashTable (zset sl i (HashSlot (chain x) (slot_count x) true)) m c es r).
Proof.
  intros H Hl. unfold slot_lock, slot_get. munfold. simpl. rewrite H, Hl. by rewrite (slot_mod_run _ _ _ _ _ _ _ x).
Qed.

Lemma store_run s he f e :
  elems s !! he = Some e → store he f s = Done (tt, set_elems <[he := f e]> s).
Proof. intros H. unfold store. by rewrite H. Qed.

(** ** Inserting *)

Definition entered (h : Z) (e : hashelm) : hashelm :=
  HashElm true (s32 (refcount e + 1)) h (hashfn e) (equalfn e) (freefn e) (content e).

(** The table in which the slot [i] is replaced by [x] and the element [he] by
    [oe] ([None]: released). *)
Definition replaced (s : hashtable) (i : Z) (x : hashslot) (c : Z) (he : loc) (oe : option hashelm)
    (r : list (nat * loc)) : hashtable :=
  HashTable (zset (slots s) i x) (mask s) c (partial_alter (λ _, oe) he (elems s)) r.

(** Such a change keeps the invariant when the slot agrees with the element. *)
Lemma replaced_ok s i x x' c he oe r :
  ht_ok s → zget (slots s) i = Some x →
  slot_locked x' = false → slot_count x' = u64 (Z.of_nat (length (chain x'))) → NoDup (chain x') →
  (∀ q, q ≠ he → q ∈ chain x' ↔ q ∈ chain x) →
  (∀ j y, j ≠ i → zget (slots s) j = Some y → he ∉ chain y) →
  (he ∈ chain x' ↔ ∃ e, oe = Some e ∧ linked e = true) →
  (∀ e, oe = Some e → linked e = true → Z.land (hash e) (mask s) = i) →
  c = s32 (Z.of_nat (length (contents (zset (slots s) i x')))) →
  ht_ok (replaced s i x' c he oe r).
Proof.
  intros [Hm Hs Hl Hc] Hx Hlk Hcnt Hnd Hsame Hother Hhe Hhash Hcount.
  pose proof (zget_Some_range _ _ _ Hx) as Hr. split; simpl.
  - by rewrite zset_length.
  - intros j y Hy. destruct (decide (j = i)) as [->|Hj].
    + rewrite zget_zset_eq in Hy by lia. by simplify_eq.
    + rewrite zget_zset_ne in Hy by (done || lia). by apply (Hs j).
  - intros j q. destruct (decide (q = he)) as [->|Hq].
    + rewrite lookup_partial_alter_eq. destruct (decide (j = i)) as [->|Hj].
      * rewrite zget_zset_eq by lia. split.
        -- intros (y & [= <-] & Hy). apply Hhe in Hy as (e & -> & He). exists e. auto.
        -- intros (e & -> & He & _). exists x'. split; [done|]. apply Hhe. eauto.
      * rewrite zget_zset_ne by (done || lia). split.
        -- intros (y & Hy & Hin). by destruct (Hother j y Hj Hy).
        -- intros (e & -> & He & Hi). by rewrite (Hhash e) in Hi.
    + rewrite lookup_partial_alter_ne, <-Hl by done. destruct (decide (j = i)) as [->|Hj].
      * rewrite zget_zset_eq, Hx by lia. split; intros (y & [= <-] & Hy); eexists; (split; [done|]); by apply Hsame.
      * by rewrite zget_zset_ne by (done || lia).
  - done.
Qed.

(** A linked element is in one slot only, an unlinked one in none. *)
Lemma in_own_slot s he e j y :
  ht_ok s → elems s !! he = Some e → zget (slots s) j = Some y → he ∈ chain y →
  linked e = true ∧ j = Z.land (hash e) (mask s).
Proof.
  intros Hok He Hy Hin. destruct (proj1 (ht_link s Hok j he)) as (e' & He' & Hl & Hi); [eauto|].
  by simplify_eq.
Qed.

Definition grown (he : loc) (x : hashslot) : hashslot :=
  HashSlot (he :: chain x) (u64 (slot_count x + 1)) false.

Lemma hashelm_hash_run s he k e x :
  elems s !! he = Some e → linked e = false →
  let h := u32 (hashfn e k) in let i := Z.land h (mask s) in
  zget (slots s) i = Some x → slot_locked x = false →
  hashelm_hash he k s = Done (0, replaced s i (grown he x) (s32 (table_count s + 1)) he
    (Some (entered h e)) (released s)).
Proof.
  destruct s as [sl m c es r]. simpl. intros He Hl Hx Hlk. pose proof (zget_Some_range _ _ _ Hx) as Hr.
  unfold hashelm_hash. erewrite bind_done; [|unfold load; simpl; by rewrite He]. rewrite Hl.
  erewrite bind_done; [|by apply store_run]. unfold set_elems. simpl.
  erewrite bind_done; [|done]. simpl.
  erewrite bind_done; [|by apply slot_lock_run].
  erewrite bind_done; [|by apply slot_mod_again].
  erewrite bind_done; [|done]. unfold set_count. simpl.
  erewrite bind_done; [|by apply slot_mod_again].
  erewrite bind_done; [|apply store_run; simpl; by rewrite lookup_insert_eq]. unfold set_elems. simpl.
  erewrite bind_done; [|apply store_run; simpl; by rewrite lookup_insert_eq]. unfold set_elems. simpl.
  erewrite bind_done; [|by apply slot_mod_again].
  rewrite !insert_insert_eq. unfold grown, replaced, insert, map_insert. done.
Qed.

(** C29: [hashelm_hash] refuses an element that is in a table already.
    Otherwise it computes the element's hash, puts it at the head of the slot
    of that hash and nowhere else, counts it in the slot and in the table,
    takes a reference, and leaves every other element alone and all locks
    free. *)
Theorem hashelm_hash_correct s he k e :
  ht_ok s → elems s !! he = Some e →
  if linked e then hashelm_hash he k s = Done (-1, s)
  else ∃ s', hashelm_hash he k s = Done (0, s') ∧ ht_ok s' ∧
    contents (slots s') ≡ₚ he :: contents (slots s) ∧
    table_count s' = s32 (table_count s + 1) ∧
    elems s' = <[he := entered (u32 (hashfn e k)) e]> (elems s) ∧
    (∃ x, zget (slots s') (Z.land (u32 (hashfn e k)) (mask s)) = Some x ∧ hd_error (chain x) = Some he).
Proof.
  intros Hok He. destruct (linked e) eqn:Hl.
  - unfold hashelm_hash. erewrite bind_done; [|unfold load; by rewrite He]. by rewrite Hl.
  - set (i := Z.land (u32 (hashfn e k)) (mask s)).
    pose proof (slot_range s (u32 (hashfn e k)) Hok) as Hr. fold i in Hr.
    destruct (zget_is_Some _ _ Hr) as [x Hx]. destruct (ht_slot s Hok i x Hx) as (Hlk & Hcnt & Hnd).
    eexists. split; [by apply hashelm_hash_run|]. fold i.
    destruct (contents_split _ _ _ Hx) as (rest & Hc1 & Hc2).
    assert (Hc : contents (zset (slots s) i (grown he x)) ≡ₚ he :: contents (slots s)).
    { rewrite Hc2, Hc1. done. }
    assert (Hno : ∀ j y, zget (slots s) j = Some y → he ∉ chain y).
    { intros j y Hy Hin. destruct (in_own_slot s he e j y) as [? _]; [done..|congruence]. }
    split_and!; [|done|done|done|].
    + eapply replaced_ok; [done|exact Hx|done| | | | | | |]; simpl.
      * rewrite Hcnt, wrap_add_l. f_equal. lia.
      * constructor; [by eapply Hno|done].
      * set_solver.
      * eauto.
      * split; [eauto|set_solver].
      * by intros ? [= <-] _.
      * rewrite (ht_count s Hok), swrap_add, Hc. f_equal. simpl. lia.
    + exists (grown he x). split; [|done]. simpl. by apply zget_zset_eq.
Qed.

(** ** Looking up *)

Definition he_matches (s : hashtable) (k : key) (he : loc) : bool :=
  match elems s !! he with Some e => equalfn e (content e) k | None => false end.
Definition held (he : loc) (s : hashtable) : hashtable :=
  set_elems (alter (λ e, set_refcount (s32 (refcount e + 1)) e) he) s.
Definition held_if (o : option loc) (s : hashtable) : hashtable :=
  match o with Some he => held he s | None => s end.

Lemma elem_of_contents l he : he ∈ contents l ↔ ∃ i x, zget l i = Some x ∧ he ∈ chain x.
Proof.
  unfold contents. rewrite list_elem_of_join. split.
  - intros (c & Hin & (x & -> & [n Hx]%list_elem_of_lookup)%list_elem_of_fmap).
    exists (Z.of_nat n), x. split; [|done]. unfold zget. destruct (Z.leb_spec 0 (Z.of_nat n)); [|lia].
    by rewrite Nat2Z.id.
  - intros (i & x & Hx & Hin). unfold zget in Hx. destruct (0 <=? i); [|done].
    exists (chain x). split; [done|]. apply list_elem_of_fmap. exists x. split; [done|].
    by eapply list_elem_of_lookup_2.
Qed.

Lemma lookup_loop_run k l s :
  (∀ he, he ∈ l → is_Some (elems s !! he)) →
  lookup_loop k l s = Done (List.find (he_matches s k) l, held_if (List.find (he_matches s k) l) s).
Proof.
  induction l as [|he l IH]; intros Hd; [done|]. simpl. destruct (Hd he) as [e He]; [set_solver|].
  erewrite bind_done; [|unfold load; by rewrite He]. unfold he_matches at 1 3. rewrite He.
  destruct (equalfn e (content e) k); [|apply IH; set_solver].
  erewrite bind_done; [|by apply store_run]. simpl. unfold held, set_elems, mret, M_ret. do 3 f_equal.
  apply map_eq. intros q. destruct (decide (q = he)) as [->|Hq].
  - by rewrite lookup_insert_eq, lookup_alter_eq, He.
  - by rewrite lookup_insert_ne, lookup_alter_ne by done.
Qed.

Lemma held_ok he s e :
  ht_ok s → elems s !! he = Some e → linked e = true → ht_ok (held he s).
Proof.
  intros Hok He Hl. destruct (proj2 (ht_link s Hok (Z.land (hash e) (mask s)) he)) as (x & Hx & Hin); [eauto|].
  destruct (ht_slot s Hok _ _ Hx) as (Hlk & Hcnt & Hnd).
  assert (Heq : held he s = replaced s (Z.land (hash e) (mask s)) x (table_count s) he
    (Some (set_refcount (s32 (refcount e + 1)) e)) (released s)).
  { unfold held, set_elems, replaced. rewrite zset_id by done. f_equal. apply map_eq. intros q.
    destruct (decide (q = he)) as [->|Hq].
    - by rewrite lookup_alter_eq, lookup_partial_alter_eq, He.
    - by rewrite lookup_alter_ne, lookup_partial_alter_ne by done. }
  rewrite Heq. eapply replaced_ok; [done|exact Hx|done|done|done|done| | | |].
  - intros j y Hj Hy Hin'. by destruct (in_own_slot s he e j y) as [_ ?].
  - split; [eauto|done].
  - by intros ? [= <-] _.
  - rewrite zset_id by done. apply Hok.
Qed.

(** C28: when equal keys have equal hashes, [hashtable_lookup] returns the
    first element of the slot that equals the key, with one more reference;
    it returns [NULL], and changes nothing, only when no element of the whole
    table equals the key.  The locks are free again. *)
Theorem hashtable_lookup_correct s k hf :
  ht_ok s →
  (∀ he e, elems s !! he = Some e → linked e = true → equalfn e (content e) k = true →
     hash e = u32 (hf k)) →
  ∃ x, zget (slots s) (Z.land (u32 (hf k)) (mask s)) = Some x ∧
    let r := List.find (he_matches s k) (chain x) in
    hashtable_lookup k hf s = Done (r, held_if r s) ∧ ht_ok (held_if r s) ∧
    match r with
    | Some he => he ∈ contents (slots s) ∧ he_matches s k he = true
    | None => ∀ he, he ∈ contents (slots s) → he_matches s k he = false
    end.
Proof.
  intros Hok Hcons. pose proof (slot_range s (u32 (hf k)) Hok) as Hr.
  destruct (zget_is_Some _ _ Hr) as [x Hx]. destruct (ht_slot s Hok _ x Hx) as (Hlk & _ & _).
  set (i := Z.land (u32 (hf k)) (mask s)) in *. exists x. split; [done|]. intros r.
  assert (Hin : ∀ he, he ∈ chain x → ∃ e, elems s !! he = Some e ∧ linked e = true).
  { intros he Hhe. destruct (proj1 (ht_link s Hok i he)) as (e & He & Hl & _); eauto. }
  split_and!.
  - unfold hashtable_lookup. destruct s as [sl m c es rl]. simpl in *.
    erewrite bind_done; [|done]. simpl. fold i.
    erewrite bind_done; [|by apply slot_lock_run].
    erewrite bind_done; [|unfold slot_get; simpl; by rewrite zget_zset_eq]. simpl.
    erewrite bind_done; [|apply lookup_loop_run; intros he (e & He & _)%Hin; by exists e].
    change (he_matches (HashTable (zset sl i (HashSlot (chain x) (slot_count x) true)) m c es rl) k)
      with (he_matches (HashTable sl m c es rl) k). fold r.
    assert (Hu : slot_unlock i (held_if r (HashTable (zset sl i (HashSlot (chain x) (slot_count x) true)) m c es rl))
      = Done (tt, held_if r (HashTable sl m c es rl))).
    { unfold slot_unlock. destruct r; simpl; unfold held, set_elems; simpl; rewrite slot_mod_again by done;
        simpl; rewrite <-Hlk; destruct x; simpl; by rewrite zset_id. }
    by rewrite (bind_done _ _ _ _ _ Hu).
  - destruct r as [he|] eqn:Er; [|done]. apply find_some in Er as [Hm%list_elem_of_In _].
    apply Hin in Hm as (e & He & Hl). by eapply held_ok.
  - destruct r as [he|] eqn:Er.
    + apply find_some in Er as [Hm%list_elem_of_In ?]. split; [|done]. apply elem_of_contents. eauto.
    + intros he (j & y & Hy & Hhe)%elem_of_contents. destruct (he_matches s k he) eqn:Em; [|done].
      destruct (proj1 (ht_link s Hok j he)) as (e & He & Hl & Hj); [eauto|].
      unfold he_matches in Em. rewrite He in Em. rewrite (Hcons he e He Hl Em) in Hj.
      change (i = j) in Hj. subst j. rewrite Hx in Hy. simplify_eq.
      pose proof (find_none _ _ Er he (proj1 (list_elem_of_In _ _) Hhe)) as Hn. unfold he_matches in Hn.
      rewrite He in Hn. congruence.
Qed.

(** ** Removing *)

(** An element without its place in the table and without one reference, or
    [None] when that was the last one and the element has a release
    function. *)
Definition dropped (e : hashelm) : option hashelm :=
  let e' := HashElm false (s32 (refcount e - 1)) (hash e) (hashfn e) (equalfn e) (freefn e) (content e) in
  if s32 (refcount e - 1) =? 0 then match freefn e with Some _ => None | None => Some e' end else Some e'.
Definition releases (he : loc) (e : hashelm) : list (nat * loc) :=
  if s32 (refcount e - 1) =? 0 then match freefn e with Some f => [(f, he)] | None => [] end else [].

Lemma hashelm_put_run sl m c es r he e :
  es !! he = Some e → linked e = false →
  hashelm_put he (HashTable sl m c es r)
    = Done (tt, HashTable sl m c (partial_alter (λ _, dropped e) he es) (r ++ releases he e)).
Proof.
  intros He Hl. unfold hashelm_put. erewrite bind_done; [|unfold load; simpl; by rewrite He].
  erewrite bind_done; [|by apply store_run]. unfold dropped, releases, set_refcount. rewrite Hl.
  destruct (s32 (refcount e - 1) =? 0); [destruct (freefn e) as [f|]|];
    unfold set_elems; simpl; rewrite ?app_nil_r; try done.
  erewrite bind_done; [|done]. unfold modify, set_elems, add_released. simpl. do 3 f_equal.
  by rewrite delete_insert_eq.
Qed.

Definition shrunk (he : loc) (x : hashslot) : hashslot :=
  HashSlot (filter (λ q, q ≠ he) (chain x)) (u64 (slot_count x - 1)) false.

Lemma hashelm_unhash_run s he e x :
  elems s !! he = Some e → linked e = true →
  let i := Z.land (hash e) (mask s) in
  zget (slots s) i = Some x → slot_locked x = false →
  hashelm_unhash he s = Done (tt, replaced s i (shrunk he x) (s32 (table_count s - 1)) he (dropped e)
    (released s ++ releases he e)).
Proof.
  destruct s as [sl m c es r]. simpl. intros He Hl Hx Hlk. pose proof (zget_Some_range _ _ _ Hx) as Hr.
  unfold hashelm_unhash. erewrite bind_done; [|unfold load; simpl; by rewrite He].
  erewrite bind_done; [|done]. simpl.
  erewrite bind_done; [|by apply slot_lock_run].
  erewrite bind_done.
  2: { unfold hlist_del_init. erewrite bind_done; [|unfold load; simpl; by rewrite He]. rewrite Hl.
    erewrite bind_done; [|by apply slot_mod_again]. by apply store_run. }
  unfold set_elems. simpl. erewrite bind_done; [|by apply slot_mod_again].
  erewrite bind_done; [|done]. unfold set_count. simpl.
  erewrite bind_done; [|by apply hashelm_put_run; [apply lookup_insert_eq|]].
  unfold slot_unlock. rewrite slot_mod_again by done. unfold replaced. simpl. do 3 f_equal.
  apply map_eq. intros q. destruct (decide (q = he)) as [->|Hq].
  - by rewrite !lookup_partial_alter_eq.
  - by rewrite !lookup_partial_alter_ne, lookup_insert_ne by done.
Qed.

Lemma length_filter_away (he : loc) (l : list loc) :
  NoDup l → he ∈ l → he :: filter (λ q, q ≠ he) l ≡ₚ l.
Proof.
  intros Hnd Hin. apply NoDup_Permutation; [|done|].
  - constructor; [rewrite list_elem_of_filter; tauto|by apply NoDup_filter].
  - intros q. rewrite elem_of_cons, list_elem_of_filter. destruct (decide (q = he)); naive_solver.
Qed.

(** C30: [hashelm_unhash] of an element that is in the table takes exactly
    that element out of its slot and adjusts both counters; it drops the
    table's reference and runs the element's release function exactly when
    that was the last one. *)
Theorem hashelm_unhash_correct s he e :
  ht_ok s → elems s !! he = Some e → linked e = true →
  ∃ s', hashelm_unhash he s = Done (tt, s') ∧ ht_ok s' ∧
    he :: contents (slots s') ≡ₚ contents (slots s) ∧
    table_count s' = s32 (table_count s - 1) ∧
    elems s' = partial_alter (λ _, dropped e) he (elems s) ∧
    released s' = released s ++ releases he e.
Proof.
  intros Hok He Hl. destruct (proj2 (ht_link s Hok (Z.land (hash e) (mask s)) he)) as (x & Hx & Hin); [eauto|].
  destruct (ht_slot s Hok _ _ Hx) as (Hlk & Hcnt & Hnd).
  eexists. split; [by apply hashelm_unhash_run|].
  pose proof (length_filter_away he (chain x) Hnd Hin) as Hp.
  destruct (contents_split _ _ _ Hx) as (rest & Hc1 & Hc2).
  assert (Hc : he :: contents (zset (slots s) (Z.land (hash e) (mask s)) (shrunk he x)) ≡ₚ contents (slots s)).
  { rewrite Hc2, Hc1. simpl. by rewrite <-Hp at 2. }
  assert (Hd : ∀ e', dropped e = Some e' → linked e' = false).
  { intros e'. unfold dropped. intros. repeat case_match; by simplify_eq. }
  split_and!; [|done..].
  eapply replaced_ok; [done|exact Hx|done| | | | | | |]; simpl.
  - rewrite Hcnt, wrap_sub_l. apply Permutation_length in Hp. simpl in Hp. f_equal. lia.
  - by apply NoDup_filter.
  - intros q Hq. rewrite list_elem_of_filter. tauto.
  - intros j y Hj Hy Hin'. by destruct (in_own_slot s he e j y) as [_ ?].
  - rewrite list_elem_of_filter. split; [tauto|]. intros (e' & He' & Hl'). by rewrite (Hd e' He') in Hl'.
  - intros e' He' Hl'. by rewrite (Hd e' He') in Hl'.
  - rewrite (ht_count s Hok), swrap_sub. apply Permutation_length in Hc. simpl in Hc. f_equal. lia.
Qed.

(** A table as [hashtable_init] makes it. *)
Lemma hashtable_init_ok size es s :
  hashtable_init true size es = Done (0, s) → 0 <= size →
  (∀ he e, es !! he = Some e → linked e = false) → ht_ok s.
Proof.
  unfold hashtable_init. simpl. intros Hi H0 Hes.
  destruct (Z.eqb_spec size 0), (Z.leb_spec (2 ^ 31) size); simplify_eq/=.
  assert (Hm : u32 (size - 1) = size - 1) by (apply wrap_small; lia).
  assert (Hr : ∀ i x, zget (replicate (Z.to_nat size) (HashSlot [] 0 false)) i = Some x → x = HashSlot [] 0 false).
  { intros i x. unfold zget. destruct (0 <=? i); [|done]. by intros [-> _]%lookup_replicate. }
  split; simpl; rewrite ?Hm.
  - rewrite length_replicate. lia.
  - intros i x ->%Hr. split_and!; [done|done|constructor].
  - intros i he. split.
    + intros (x & ->%Hr & Hin). set_solver.
    + intros (e & He & Hl & _). by rewrite (Hes he e He) in Hl.
  - replace (contents _) with (@nil loc); [done|]. symmetry. apply elem_of_nil_inv.
    intros he (i & x & ->%Hr & Hin)%elem_of_contents. set_solver.
Qed.

End table.
Arguments hashelm : clear implicits.
Arguments hashtable : clear implicits.

(** ** A concrete table *)

Definition demo_elem (d : Z) : hashelm Z Z := HashElm false 1 0 id Z.eqb (Some 7%nat) d.
Definition demo_elems : gmap loc (hashelm Z Z) := {[1%nat := demo_elem 5; 2%nat := demo_elem 9]}.
Definition demo_table : hashtable Z Z :=
  HashTable (replicate 4 (HashSlot [] 0 false)) 3 0 demo_elems [].

Lemma demo_table_ok : ht_ok demo_table.
Proof.
  apply (hashtable_init_ok 4 demo_elems); [reflexivity|lia|]. intros he e. unfold demo_elems.
  rewrite lookup_insert_Some, lookup_singleton_Some. intros [[_ <-]|[_ [_ <-]]]; done.
Qed.

Lemma hashelm_hash_correct_witness :
  ∃ s', hashelm_hash 1 5 demo_table = Done (0, s') ∧ ht_ok s' ∧ contents (slots s') ≡ₚ [1%nat].
Proof.
  destruct (hashelm_hash_correct demo_table 1 5 (demo_elem 5) demo_table_ok eq_refl) as (s' & H1 & H2 & H3 & _).
  exists s'. split_and!; [exact H1|exact H2|exact H3].
Defined.

(** The table after [hashelm_hash 1 5]. *)
Definition demo_full : hashtable Z Z :=
  HashTable (HashSlot [] 0 false :: HashSlot [1%nat] 1 false :: replicate 2 (HashSlot [] 0 false)) 3 1
    (<[1%nat := HashElm true 2 5 id Z.eqb (Some 7%nat) 5]> demo_elems) [].

Lemma demo_full_ok : ht_ok demo_full.
Proof.
  apply (replaced_ok demo_table 1 (HashSlot [] 0 false) (HashSlot [1%nat] 1 false) 1 1
    (Some (HashElm true 2 5 id Z.eqb (Some 7%nat) 5)) []).
  - apply demo_table_ok.
  - reflexivity.
  - reflexivity.
  - reflexivity.
  - apply NoDup_singleton.
  - simpl. set_solver.
  - intros j y Hj Hy Hin. by destruct (in_own_slot demo_table 1 (demo_elem 5) j y demo_table_ok eq_refl Hy Hin).
  - simpl. split; [intros _; by eexists|set_solver].
  - intros e [= <-] _. reflexivity.
  - reflexivity.
Qed.

Lemma hashtable_lookup_correct_witness :
  ∃ s', hashtable_lookup 5 id demo_full = Done (Some 1%nat, s') ∧ ht_ok s'.
Proof.
  destruct (hashtable_lookup_correct demo_full 5 id demo_full_ok) as (x & Hx & H1 & H2 & _).
  - intros he e He Hl Heq. revert He. unfold demo_full, demo_elems. simpl.
    rewrite !lookup_insert_Some, lookup_singleton_Some. intros [[_ <-]|[_ [[_ <-]|[_ [_ <-]]]]]; done.
  - simpl in Hx. injection Hx as <-. eexists. split; [exact H1|exact H2].
Defined.

Lemma hashelm_unhash_correct_witness :
  ∃ s', hashelm_unhash 1 demo_full = Done (tt, s') ∧ ht_ok s' ∧ released s' = [].
Proof.
  destruct (hashelm_unhash_correct demo_full 1 (HashElm true 2 5 id Z.eqb (Some 7%nat) 5) demo_full_ok
    eq_refl eq_refl) as (s' & H1 & H2 & _ & _ & _ & H3).
  exists s'. split_and!; [exact H1|exact H2|exact H3].
Defined.
