(* ===== verification/SalHeader.v ===== *)
(** * The header of the service access layer ([src/stack/serval_sal.c],
      [include/netinet/serval.h])

    A SAL header is a base header of twelve bytes and a sequence of
    extensions.  This file models the parser, the tests on its result, the
    construction of a header and the first part of [serval_sal_rcv].  A packet
    is the list of its bytes from the SAL header on; a pointer into it is an
    offset, and reading beyond the packet is a [Fault]. *)
From S2P Require Import Prelude.
From S2P Require Import Checksum.

Local Open Scope Z_scope.

(** ** The format *)

Definition SAL_HEADER_LEN : Z := 12.
Definition MAX_NUM_SAL_EXTENSIONS : nat := 10.

Definition SAL_PAD_EXT : Z := 0.
Definition SAL_CONTROL_EXT : Z := 1.
Definition SAL_SERVICE_EXT : Z := 2.
Definition SAL_ADDRESS_EXT : Z := 3.
Definition SAL_SOURCE_EXT : Z := 4.
Definition SAL_TAAS_EXT : Z := 5.
Definition SAL_EXT_TYPE_MAX : Z := 6.

Definition SAL_CONTROL_EXT_LEN : Z := 20.
Definition SAL_SERVICE_EXT_LEN : Z := 36.
Definition SAL_TAAS_EXT_LEN : Z := 12.
Definition SAL_SOURCE_EXT_SIZE : Z := 4.
Definition SAL_SOURCE_EXT_MAX_LEN : Z := 84.

Definition SVH_SYN : Z := 1.
Definition SVH_RSYN : Z := 2.
Definition SVH_ACK : Z := 4.
Definition SVH_NACK : Z := 8.
Definition SVH_RST : Z := 16.
Definition SVH_FIN : Z := 32.
Definition SVH_CONN_ACK : Z := 64.

Definition min_ext_length (t : Z) : Z :=
  if t =? SAL_PAD_EXT then 1
  else if t =? SAL_CONTROL_EXT then 20
  else if t =? SAL_SERVICE_EXT then 36
  else if t =? SAL_ADDRESS_EXT then 12
  else if t =? SAL_SOURCE_EXT then 4
  else 12.
Definition max_ext_length (t : Z) : Z :=
  if t =? SAL_SOURCE_EXT then SAL_SOURCE_EXT_MAX_LEN else min_ext_length t.

(** Sequence numbers. *)
Definition before (seq1 seq2 : Z) : bool := s32 (u32 (seq1 - seq2)) <? 0.
Definition after (seq2 seq1 : Z) : bool := before seq1 seq2.
Definition between (seq1 seq2 seq3 : Z) : bool := u32 (seq1 - seq2) <=? u32 (seq3 - seq2).

(** [struct sal_context]; pointers to extensions are offsets.  The field
    [addr_ext], which nothing sets, is left out. *)
Record sal_context := SalContext {
  ctx_length : Z;
  ctx_flags : Z;
  ctx_verno : Z;
  ctx_ackno : Z;
  ctx_ext : list Z;
  ctrl_ext : option Z;
  srv_ext0 : option Z;
  srv_ext1 : option Z;
  src_ext : option Z;
  taas_ext : option Z
}.

Definition empty_context (len : Z) : sal_context := SalContext len 0 0 0 [] None None None None None.

(** ** Reading *)

Definition get8 (p : list Z) (i : Z) : M sal_context Z :=
  λ c, match zget p i with Some b => Done (b, c) | None => Fault end.

(** [ntohl] of a 32-bit field. *)
Definition get32be (p : list Z) (i : Z) : M sal_context Z :=
  b0 ← get8 p i; b1 ← get8 p (i + 1); b2 ← get8 p (i + 2); b3 ← get8 p (i + 3);
  mret (b0 * 2 ^ 24 + b1 * 2 ^ 16 + b2 * 2 ^ 8 + b3).

(** The bit field [type] is the upper half of the first byte. *)
Definition ext_type (p : list Z) (o : Z) : M sal_context Z := b ← get8 p o; mret (Z.shiftr b 4).
Definition SAL_EXT_LEN (p : list Z) (o : Z) : M sal_context Z :=
  t ← ext_type p o; if t =? SAL_PAD_EXT then mret 1 else get8 p (o + 1).
Definition SAL_EXT_NEXT (p : list Z) (o : Z) : M sal_context Z :=
  t ← ext_type p o; if t =? SAL_PAD_EXT then mret (o + 1) else n ← get8 p (o + 1); mret (o + n).
Definition SAL_SOURCE_EXT_NUM_ADDRS (p : list Z) (o : Z) : M sal_context Z :=
  n ← get8 p (o + 1); mret (u64 (n - SAL_SOURCE_EXT_SIZE) / 4).

(** The flags of a control extension from its third byte. *)
Definition ctrl_flags (b : Z) : Z :=
  (if Z.testbit b 7 then SVH_SYN else 0) + (if Z.testbit b 6 then SVH_RSYN else 0) +
  (if Z.testbit b 5 then SVH_ACK else 0) + (if Z.testbit b 4 then SVH_NACK else 0) +
  (if Z.testbit b 2 then SVH_FIN else 0) + (if Z.testbit b 3 then SVH_RST else 0).

(** ** The parser *)

Definition parse_pad_ext (p : list Z) (o ext_len : Z) : M sal_context Z := mret 1.

Definition parse_control_ext (p : list Z) (o ext_len : Z) : M sal_context Z :=
  c ← gets id;
  match ctrl_ext c with
  | Some _ => mret (-1)
  | None =>
      verno ← get32be p (o + 4);
      ackno ← get32be p (o + 8);
      b ← get8 p (o + 2);
      _ ← modify (λ c, SalContext (ctx_length c) (Z.lor (ctx_flags c) (ctrl_flags b)) verno ackno (ctx_ext c)
            (Some o) (srv_ext0 c) (srv_ext1 c) (src_ext c) (taas_ext c));
      mret ext_len
  end.

Definition parse_service_ext (p : list Z) (o ext_len : Z) : M sal_context Z :=
  c ← gets id;
  match srv_ext0 c, srv_ext1 c with
  | Some _, Some _ => mret (-1)
  | None, _ =>
      _ ← modify (λ c, SalContext (ctx_length c) (ctx_flags c) (ctx_verno c) (ctx_ackno c) (ctx_ext c)
            (ctrl_ext c) (Some o) (srv_ext1 c) (src_ext c) (taas_ext c));
      mret ext_len
  | Some _, None =>
      _ ← modify (λ c, SalContext (ctx_length c) (ctx_flags c) (ctx_verno c) (ctx_ackno c) (ctx_ext c)
            (ctrl_ext c) (srv_ext0 c) (Some o) (src_ext c) (taas_ext c));
      mret ext_len
  end.

Definition parse_address_ext (p : list Z) (o ext_len : Z) : M sal_context Z := mret ext_len.

Definition parse_taas_ext (p : list Z) (o ext_len : Z) : M sal_context Z :=
  c ← gets id;
  match taas_ext c with
  | Some _ => mret (-1)
  | None =>
      _ ← modify (λ c, SalContext (ctx_length c) (ctx_flags c) (ctx_verno c) (ctx_ackno c) (ctx_ext c)
            (ctrl_ext c) (srv_ext0 c) (srv_ext1 c) (src_ext c) (Some o));
      mret ext_len
  end.

Definition parse_source_ext (p : list Z) (o ext_len : Z) : M sal_context Z :=
  c ← gets id;
  match src_ext c with
  | Some _ => mret (-1)
  | None =>
      _ ← modify (λ c, SalContext (ctx_length c) (ctx_flags c) (ctx_verno c) (ctx_ackno c) (ctx_ext c)
            (ctrl_ext c) (srv_ext0 c) (srv_ext1 c) (Some o) (taas_ext c));
      n ← SAL_SOURCE_EXT_NUM_ADDRS p o;
      if n <? 2 then mret (-1) else mret ext_len
  end.

Definition parse_ext_func (t : Z) : list Z → Z → Z → M sal_context Z :=
  if t =? SAL_PAD_EXT then parse_pad_ext
  else if t =? SAL_CONTROL_EXT then parse_control_ext
  else if t =? SAL_SERVICE_EXT then parse_service_ext
  else if t =? SAL_ADDRESS_EXT then parse_address_ext
  else if t =? SAL_SOURCE_EXT then parse_source_ext
  else parse_taas_ext.

Definition parse_ext (p : list Z) (o : Z) : M sal_context Z :=
  ext_len ← SAL_EXT_LEN p o;
  t ← ext_type p o;
  if SAL_EXT_TYPE_MAX <=? t then mret (-1)
  else if ext_len <? min_ext_length t then mret (-1)
  else parse_ext_func t p o ext_len.

Inductive sal_parse_mode := SAL_PARSE_BASE | SAL_PARSE_ALL.

(** The loop of [serval_sal_parse_hdr]; [room] is how many extensions may
    still come, [o] the offset of the next one. *)
Fixpoint parse_loop (room : nat) (p : list Z) (o hdr_len : Z) : M sal_context Z :=
  if 0 <? hdr_len then
    match room with
    | O => mret hdr_len
    | S room =>
        ext_len ← parse_ext p o;
        if ext_len <=? 0 then mret (-1)
        else
          _ ← modify (λ c, SalContext (ctx_length c) (ctx_flags c) (ctx_verno c) (ctx_ackno c) (ctx_ext c ++ [o])
                (ctrl_ext c) (srv_ext0 c) (srv_ext1 c) (src_ext c) (taas_ext c));
          next ← SAL_EXT_NEXT p o;
          parse_loop room p next (hdr_len - ext_len)
    end
  else mret hdr_len.

(** The result and the context it leaves, whose [memset] makes the old
    content irrelevant. *)
Definition serval_sal_parse_hdr (p : list Z) (mode : sal_parse_mode) : res (Z * sal_context) :=
  match zget p 8 with
  | None => Fault
  | Some shl =>
      let c := empty_context (u16 (Z.shiftl shl 2)) in
      if ctx_length c <? SAL_HEADER_LEN then Done (-1, c)
      else
        match mode with
        | SAL_PARSE_BASE => Done (0, c)
        | SAL_PARSE_ALL =>
            parse_loop MAX_NUM_SAL_EXTENSIONS p SAL_HEADER_LEN (ctx_length c - SAL_HEADER_LEN) c
        end
  end.

(** ** Tests on a parsed header *)

Definition has_verno (c : sal_context) : bool := bool_decide (is_Some (ctrl_ext c)).
Definition is_pure_data (c : sal_context) : bool := ctx_flags c =? 0.

Definition is_pure_ack (p : list Z) : M sal_context bool :=
  c ← gets id;
  match ctrl_ext c with
  | None => mret false
  | Some o =>
      b ← get8 p (o + 2);
      mret (Z.testbit b 5 && negb (Z.testbit b 2) && negb (Z.testbit b 7) && negb (Z.testbit b 6)
            && negb (Z.testbit b 3))
  end.

Definition has_service_extension (p : list Z) (o : option Z) : M sal_context bool :=
  match o with
  | None => mret false
  | Some o =>
      c ← gets id;
      if ctx_length c <? SAL_HEADER_LEN + min_ext_length SAL_SERVICE_EXT then mret false
      else
        t ← ext_type p o;
        n ← get8 p (o + 1);
        mret ((t =? SAL_SERVICE_EXT) && (min_ext_length SAL_SERVICE_EXT <=? n)
              && (n <=? max_ext_length SAL_SERVICE_EXT))
  end.
Definition has_service_extension_src (p : list Z) : M sal_context bool :=
  c ← gets id; has_service_extension p (srv_ext0 c).
Definition has_service_extension_dst (p : list Z) : M sal_context bool :=
  c ← gets id; has_service_extension p (srv_ext1 c).

(** [has_valid_verno]: [lax] says that the socket listens or has sent a
    request. *)
Definition has_valid_verno (seg_seq : Z) (lax : bool) (rcv_nxt : Z) : bool :=
  lax || negb (before seg_seq rcv_nxt).

(** [memcmp] stops at the first difference. *)
Fixpoint memcmp_at (p : list Z) (o : Z) (l : list Z) : M sal_context bool :=
  match l with
  | [] => mret true
  | x :: l => b ← get8 p o; if b =? x then memcmp_at p (o + 1) l else mret false
  end.

Definition has_valid_control_extension (p : list Z) (peer_nonce : list Z) : M sal_context bool :=
  c ← gets id;
  match ctrl_ext c with
  | None => mret false
  | Some o =>
      if ctx_length c <? SAL_HEADER_LEN + min_ext_length SAL_CONTROL_EXT then mret false
      else
        t ← ext_type p o;
        n ← get8 p (o + 1);
        if negb (t =? SAL_CONTROL_EXT) || negb (n =? min_ext_length SAL_CONTROL_EXT) then mret false
        else
          b ← get8 p (o + 2);
          if Z.testbit b 7 then mret true else memcmp_at p (o + 12) peer_nonce
  end.

Definition serval_sal_csum (addr : Z) (p : list Z) (len : Z) : option Z := ip_compute_csum addr p len.

(** The first part of [serval_sal_rcv]: [None] is a dropped packet.  The
    packet is linear, so that [pskb_may_pull] compares lengths. *)
Definition serval_sal_rcv_parse (addr : Z) (p : list Z) : res (option sal_context) :=
  let len := Z.of_nat (length p) in
  if len <? SAL_HEADER_LEN then Done None
  else
    match zget p 8 with
    | None => Fault
    | Some shl =>
        if (SAL_HEADER_LEN <? Z.shiftl shl 2) && (len <? Z.shiftl shl 2) then Done None
        else
          match serval_sal_parse_hdr p SAL_PARSE_ALL with
          | Done (r, c) =>
              if negb (r =? 0) then Done None
              else
                match serval_sal_csum addr p (ctx_length c) with
                | Some ck => Done (if ck =? 0 then Some c else None)
                | None => Fault
                end
          | Fault => Fault
          | OutOfFuel => OutOfFuel
          end
    end.

(** ** Building a header *)

(** A buffer: the bytes in front of the data, which keep what was there, and
    the data. *)
Record sk_buff := SkBuff { headroom : list Z; data : list Z }.

(** [skb_push]; without room it panics. *)
Definition skb_push (n : Z) : M sk_buff unit :=
  λ s, let k := (length (headroom s) - Z.to_nat n)%nat in
       if Z.of_nat (length (headroom s)) <? n then Fault
       else Done (tt, SkBuff (take k (headroom s)) (drop k (headroom s) ++ data s)).

Definition put8 (i : nat) (f : Z → Z) : M sk_buff unit :=
  λ s, match data s !! i with
       | Some b => Done (tt, SkBuff (headroom s) (<[i := f b]> (data s)))
       | None => Fault
       end.
Fixpoint put_bytes (i : nat) (l : list Z) : M sk_buff unit :=
  match l with
  | [] => mret tt
  | x :: l => _ ← put8 i (λ _, x); put_bytes (S i) l
  end.

(** Assignments to bit fields keep the other bits of the byte. *)
Definition set_type (t b : Z) : Z := Z.lor (Z.land b 15) (Z.shiftl t 4).
Definition set_bit (k : Z) (v : bool) (b : Z) : Z :=
  if v then Z.lor b (2 ^ k) else Z.ldiff b (2 ^ k).
Definition be32 (x : Z) : list Z := [x / 2 ^ 24 mod 256; x / 2 ^ 16 mod 256; x / 2 ^ 8 mod 256; x mod 256].
Definition le64 (x : Z) : list Z := (λ k, x / 2 ^ (8 * Z.of_nat k) mod 256) <$> seq 0 8.

(** What the header takes from the socket and from the control block of the
    buffer. *)
Record hdr_info := HdrInfo {
  local_flowid : list Z;
  peer_flowid : list Z;
  local_srvid : list Z;
  peer_srvid : list Z;
  local_nonce : list Z;
  rcv_nxt : Z;
  init_dgram : bool;
  sk_protocol : Z;
  cb_flags : Z;
  cb_verno : Z
}.

Definition flag (h : hdr_info) (f : Z) : bool := negb (Z.land (cb_flags h) f =? 0).

Definition serval_sal_add_ctrl_ext (h : hdr_info) : M sk_buff Z :=
  _ ← skb_push SAL_CONTROL_EXT_LEN;
  _ ← put8 0 (set_type SAL_CONTROL_EXT);
  _ ← put8 1 (λ _, SAL_CONTROL_EXT_LEN);
  _ ← put_bytes 4 (be32 (cb_verno h));
  _ ← put_bytes 8 (be32 (rcv_nxt h));
  _ ← put_bytes 12 (local_nonce h);
  _ ← put8 2 (set_bit 7 (flag h SVH_SYN));
  _ ← put8 2 (set_bit 6 (flag h SVH_RSYN));
  _ ← put8 2 (set_bit 5 (flag h SVH_ACK));
  _ ← put8 2 (set_bit 4 (flag h SVH_NACK));
  _ ← put8 2 (set_bit 2 (flag h SVH_FIN));
  _ ← put8 2 (set_bit 3 (flag h SVH_RST));
  mret SAL_CONTROL_EXT_LEN.

Definition serval_sal_add_service_ext (srvid : list Z) : M sk_buff Z :=
  _ ← skb_push SAL_SERVICE_EXT_LEN;
  _ ← put8 0 (set_type SAL_SERVICE_EXT);
  _ ← put8 1 (λ _, SAL_SERVICE_EXT_LEN);
  _ ← put_bytes 4 srvid;
  mret SAL_SERVICE_EXT_LEN.

Definition serval_sal_add_taas_ext (authenticator : Z) : M sk_buff Z :=
  _ ← skb_push SAL_TAAS_EXT_LEN;
  _ ← put8 0 (set_type SAL_TAAS_EXT);
  _ ← put8 1 (λ _, SAL_TAAS_EXT_LEN);
  _ ← put_bytes 4 (le64 authenticator);
  mret SAL_TAAS_EXT_LEN.

Definition add_exts (h : hdr_info) : M sk_buff Z :=
  if flag h SVH_SYN || flag h SVH_RSYN || flag h SVH_FIN || flag h SVH_RST || flag h SVH_ACK then
    n1 ← (if flag h SVH_SYN || flag h SVH_CONN_ACK then serval_sal_add_service_ext (peer_srvid h) else mret 0);
    n2 ← serval_sal_add_ctrl_ext h;
    mret (n1 + n2)
  else if init_dgram h then
    n1 ← serval_sal_add_service_ext (local_srvid h);
    n2 ← serval_sal_add_service_ext (peer_srvid h);
    mret (n1 + n2)
  else mret 0.

Definition serval_sal_build_header (h : hdr_info) (authenticator : Z) : M sk_buff unit :=
  n ← add_exts h;
  m ← (if authenticator =? 0 then mret 0 else serval_sal_add_taas_ext authenticator);
  _ ← skb_push SAL_HEADER_LEN;
  let hdr_len := u16 (n + m + SAL_HEADER_LEN) in
  _ ← put_bytes 0 (local_flowid h);
  _ ← put_bytes 4 (peer_flowid h);
  _ ← put8 9 (λ _, sk_protocol h);
  put8 8 (λ _, u8 (Z.shiftr hdr_len 2)).

(** [serval_sal_send_check]: the checksum field is stored in memory order. *)
Definition serval_sal_send_check (addr : Z) : M sk_buff unit :=
  _ ← put_bytes 10 [0; 0];
  shl ← (λ s, match data s !! 8%nat with Some b => Done (b, s) | None => Fault end);
  p ← gets data;
  ck ← deref (serval_sal_csum addr p (Z.shiftl shl 2));
  put_bytes 10 [ck mod 256; ck / 256].

(** ** What the parser accepts *)

(** An extension of type [t] and length [n] at the offset [o]. *)
Definition ext_in (p : list Z) (o t n : Z) : Prop :=
  ∃ b, zget p o = Some b ∧ Z.shiftr b 4 = t ∧ 0 <= t < SAL_EXT_TYPE_MAX ∧
    (if t =? SAL_PAD_EXT then n = 1 else zget p (o + 1) = Some n) ∧ min_ext_length t <= n.

(** Extensions at the offsets [l], one after the other, from [o] to [e]. *)
Fixpoint tiles (p : list Z) (o : Z) (l : list Z) (e : Z) : Prop :=
  match l with
  | [] => o = e
  | x :: l => x = o ∧ ∃ t n, ext_in p o t n ∧ tiles p (o + n) l e
  end.

(** The pointer [oo], unless [NULL], is that of an extension of type [t]
    between the base header and [e]. *)
Definition ptr_ok (p : list Z) (e t : Z) (oo : option Z) : Prop :=
  ∀ o, oo = Some o → SAL_HEADER_LEN <= o ∧ ∃ n, ext_in p o t n ∧ o + n <= e.

Definition be32_at (p : list Z) (i x : Z) : Prop :=
  ∃ b0 b1 b2 b3, zget p i = Some b0 ∧ zget p (i + 1) = Some b1 ∧ zget p (i + 2) = Some b2 ∧
    zget p (i + 3) = Some b3 ∧ x = b0 * 2 ^ 24 + b1 * 2 ^ 16 + b2 * 2 ^ 8 + b3.

(** The numbers and flags of the context are those of its control
    extension. *)
Definition ctrl_ok (p : list Z) (c : sal_context) : Prop :=
  match ctrl_ext c with
  | None => ctx_flags c = 0 ∧ ctx_verno c = 0 ∧ ctx_ackno c = 0
  | Some o => be32_at p (o + 4) (ctx_verno c) ∧ be32_at p (o + 8) (ctx_ackno c) ∧
      ∃ b, zget p (o + 2) = Some b ∧ ctx_flags c = ctrl_flags b
  end.

Record ctx_ok (p : list Z) (e : Z) (c : sal_context) : Prop := {
  ctx_tiles : tiles p SAL_HEADER_LEN (ctx_ext c) e;
  ctx_ctrl : ctrl_ok p c;
  ctx_ctrl_ptr : ptr_ok p e SAL_CONTROL_EXT (ctrl_ext c);
  ctx_srv0_ptr : ptr_ok p e SAL_SERVICE_EXT (srv_ext0 c);
  ctx_srv1_ptr : ptr_ok p e SAL_SERVICE_EXT (srv_ext1 c);
  ctx_src_ptr : ptr_ok p e SAL_SOURCE_EXT (src_ext c);
  ctx_taas_ptr : ptr_ok p e SAL_TAAS_EXT (taas_ext c)
}.

Lemma get8_inv p i c b c' : get8 p i c = Done (b, c') → zget p i = Some b ∧ c' = c.
Proof. unfold get8. destruct (zget p i); [|done]. by intros [= -> ->]. Qed.

Lemma bind_inv {S A B} (m : M S A) (f : A → M S B) s r :
  (m ≫= f) s = Done r → ∃ a s', m s = Done (a, s') ∧ f a s' = Done r.
Proof. unfold mbind, M_bind. destruct (m s) as [[a s']| |]; [|done..]. eauto. Qed.

(** [minv] takes a monadic equation apart. *)
Ltac minv :=
  repeat match goal with
  | H : (_ ≫= _) _ = Done _ |- _ => apply bind_inv in H as (? & ? & ? & H)
  | H : get8 _ _ _ = Done _ |- _ => apply get8_inv in H as [? ->]
  | H : gets _ _ = Done _ |- _ => unfold gets in H; injection H as <- <-
  | H : modify _ _ = Done _ |- _ => unfold modify in H; injection H as <- <-
  | H : mret _ _ = Done _ |- _ => unfold mret, M_ret in H; injection H as <- <-
  | H : mret _ _ = Done _ |- _ => unfold mret, M_ret in H; injection H as ? ?; subst
  end.

Lemma get32be_inv p i c x c' : get32be p i c = Done (x, c') → be32_at p i x ∧ c' = c.
Proof. unfold get32be. intros H. minv. split; [|done]. by do 4 eexists. Qed.

Lemma ext_type_inv p o c t c' :
  ext_type p o c = Done (t, c') → ∃ b, zget p o = Some b ∧ Z.shiftr b 4 = t ∧ c' = c.
Proof. unfold ext_type. intros H. minv. eauto. Qed.

Lemma sal_ext_len_inv p o c n c' :
  SAL_EXT_LEN p o c = Done (n, c') → c' = c ∧
  ∃ b, zget p o = Some b ∧ (if Z.shiftr b 4 =? SAL_PAD_EXT then n = 1 else zget p (o + 1) = Some n).
Proof.
  unfold SAL_EXT_LEN. intros H. minv. apply ext_type_inv in H0 as (b & Hb & <- & ->).
  destruct (Z.shiftr b 4 =? SAL_PAD_EXT) eqn:Ht; minv; (split; [done|]); exists b; by rewrite Ht.
Qed.

Lemma tiles_snoc p o l e t n :
  tiles p o l e → ext_in p e t n → tiles p o (l ++ [e]) (e + n).
Proof.
  revert o. induction l as [|x l IH]; intros o; simpl.
  - intros -> He. split; [done|]. by exists t, n.
  - intros [-> (t' & n' & H & Ht)] He. split; [done|]. exists t', n'. auto.
Qed.

Lemma ptr_ok_mono p e e' t oo : ptr_ok p e t oo → e <= e' → ptr_ok p e' t oo.
Proof. intros H He o Ho. destruct (H o Ho) as (? & n & ? & ?). split; [done|]. exists n. split; [done|lia]. Qed.

Lemma min_ext_length_pos t : 0 < min_ext_length t.
Proof. unfold min_ext_length. repeat case_match; lia. Qed.

Lemma ptr_ok_here p o t n :
  SAL_HEADER_LEN <= o → ext_in p o t n → ptr_ok p (o + n) t (Some o).
Proof. intros Ho He o' [= <-]. split; [done|]. exists n. split; [done|lia]. Qed.

(** The context with the extension at [o] added to its list. *)
Definition listed (o : Z) (c : sal_context) : sal_context :=
  SalContext (ctx_length c) (ctx_flags c) (ctx_verno c) (ctx_ackno c) (ctx_ext c ++ [o])
    (ctrl_ext c) (srv_ext0 c) (srv_ext1 c) (src_ext c) (taas_ext c).

(** One extension: the parser returns its length and records it as what it
    is. *)
Lemma parse_ext_func_sound p o t n c r c' :
  ext_in p o t n → SAL_HEADER_LEN <= o → ctx_ok p o c →
  parse_ext_func t p o n c = Done (r, c') → 0 < r →
  r = n ∧ (ctx_length c' = ctx_length c ∧ ctx_ext c' = ctx_ext c) ∧ ctx_ok p (o + n) (listed o c').
Proof.
  intros He Ho [H1 H2 H3 H4 H5 H6 H7] Hrun Hr.
  pose proof He as (b & Hb & Hbt & Htm & Hn & Hmin). pose proof (min_ext_length_pos t).
  assert (Hmono : ∀ t oo, ptr_ok p o t oo → ptr_ok p (o + n) t oo).
  { intros t' oo Hp. eapply ptr_ok_mono; [done|lia]. }
  pose proof (tiles_snoc _ _ _ _ _ _ H1 He) as Ht.
  unfold parse_ext_func in Hrun.
  destruct (Z.eqb_spec t SAL_PAD_EXT) as [->|Hn0].
  { unfold parse_pad_ext in Hrun. minv. simpl in Hn. subst n. split; [done|]. split; [done|]. split; simpl; auto. }
  destruct (Z.eqb_spec t SAL_CONTROL_EXT) as [->|Hn1].
  { unfold parse_control_ext in Hrun. minv. destruct (ctrl_ext c) eqn:Hc; minv; [lia|].
    repeat match goal with H : get32be _ _ _ = Done _ |- _ => apply get32be_inv in H as [? ->] end.
    minv. unfold ctrl_ok in H2. rewrite Hc in H2. destruct H2 as [Hf _].
    split; [done|]. split; [done|]. split; simpl; auto using ptr_ok_here.
    unfold ctrl_ok. simpl. split_and!; [done|done|]. eexists. split; [done|]. by rewrite Hf. }
  destruct (Z.eqb_spec t SAL_SERVICE_EXT) as [->|Hn2].
  { unfold parse_service_ext in Hrun. minv. destruct (srv_ext0 c) eqn:Hc; [destruct (srv_ext1 c) eqn:Hc1|]; minv;
      [lia|..]; (split; [done|]); (split; [done|]); split; simpl; rewrite ?Hc; auto using ptr_ok_here. }
  destruct (Z.eqb_spec t SAL_ADDRESS_EXT) as [->|Hn3].
  { unfold parse_address_ext in Hrun. minv. split; [done|]. split; [done|]. split; simpl; auto. }
  destruct (Z.eqb_spec t SAL_SOURCE_EXT) as [->|Hn4].
  { unfold parse_source_ext, SAL_SOURCE_EXT_NUM_ADDRS in Hrun. minv. destruct (src_ext c); minv; [lia|].
    case_match; minv; [lia|]. split; [done|]. split; [done|]. split; simpl; auto using ptr_ok_here. }
  assert (t = SAL_TAAS_EXT) as ->.
  { unfold SAL_PAD_EXT, SAL_CONTROL_EXT, SAL_SERVICE_EXT, SAL_ADDRESS_EXT, SAL_SOURCE_EXT, SAL_TAAS_EXT,
      SAL_EXT_TYPE_MAX in *. lia. }
  unfold parse_taas_ext in Hrun. minv. destruct (taas_ext c); minv; [lia|].
  split; [done|]. split; [done|]. split; simpl; auto using ptr_ok_here.
Qed.

Lemma zget_byte p i b : bytes_ok p → zget p i = Some b → 0 <= b < 256.
Proof.
  unfold zget, bytes_ok. rewrite Forall_lookup. destruct (0 <=? i); [|done]. intros H Hi. by eapply H.
Qed.

Lemma parse_ext_sound p o c r c' :
  bytes_ok p → SAL_HEADER_LEN <= o → ctx_ok p o c → parse_ext p o c = Done (r, c') → 0 < r →
  (∃ t, ext_in p o t r) ∧ (ctx_length c' = ctx_length c ∧ ctx_ext c' = ctx_ext c) ∧
  ctx_ok p (o + r) (listed o c').
Proof.
  intros Hp Ho Hc Hrun Hr. unfold parse_ext in Hrun. minv.
  apply sal_ext_len_inv in H as (-> & b & Hb & Hn). apply ext_type_inv in H0 as (b' & Hb' & <- & ->).
  assert (b' = b) as -> by congruence. pose proof (zget_byte _ _ _ Hp Hb) as Hbr.
  assert (0 <= Z.shiftr b 4) by (apply Z.shiftr_nonneg; lia).
  destruct (Z.leb_spec SAL_EXT_TYPE_MAX (Z.shiftr b 4)); minv; [lia|].
  destruct (Z.ltb_spec x (min_ext_length (Z.shiftr b 4))); minv; [lia|].
  assert (He : ext_in p o (Z.shiftr b 4) x) by (exists b; split_and!; auto).
  destruct (parse_ext_func_sound p o _ x c r c' He Ho Hc Hrun Hr) as (-> & Hl & Hok). eauto.
Qed.

Lemma sal_ext_next_inv p o t n c x c' :
  ext_in p o t n → SAL_EXT_NEXT p o c = Done (x, c') → x = o + n ∧ c' = c.
Proof.
  intros (b & Hb & Hbt & _ & Hn & _) Hrun. unfold SAL_EXT_NEXT in Hrun. minv.
  apply ext_type_inv in H as (b' & Hb' & <- & ->). assert (b' = b) as -> by congruence. rewrite Hbt in Hrun.
  destruct (t =? SAL_PAD_EXT); minv; [by subst|]. split; [|done]. congruence.
Qed.

Lemma parse_loop_sound room p o hl c r c' :
  bytes_ok p → SAL_HEADER_LEN <= o → ctx_ok p o c → parse_loop room p o hl c = Done (r, c') → r = 0 → 0 <= hl →
  ctx_ok p (o + hl) c' ∧ ctx_length c' = ctx_length c ∧
  (length (ctx_ext c') <= length (ctx_ext c) + room)%nat.
Proof.
  intros Hp. revert o hl c. induction room as [|room IH]; intros o hl c Ho Hc Hrun -> Hhl; simpl in Hrun;
    (destruct (Z.ltb_spec 0 hl); [|minv; replace (o + 0) with o by lia; split_and!; [done|done|lia]]).
  { minv. lia. }
  minv. destruct (Z.leb_spec x 0); minv; [lia|].
  destruct (parse_ext_sound p o c x x0 Hp Ho Hc) as ([t He] & [Hlen Hext] & Hok); [done|lia|].
  match goal with H : SAL_EXT_NEXT _ _ _ = Done _ |- _ =>
    destruct (sal_ext_next_inv _ _ _ _ _ _ _ He H) as [-> ->] end.
  change (SalContext _ _ _ _ _ _ _ _ _ _) with (listed o x0) in Hrun.
  destruct (decide (hl < x)) as [Hlt|Hge].
  { destruct room; simpl in Hrun; (destruct (Z.ltb_spec 0 (hl - x)); [lia|]); minv; lia. }
  destruct (IH (o + x) (hl - x) (listed o x0)) as (Hc' & Hl' & Hx'); [lia|done|done|done|lia|].
  replace (o + x + (hl - x)) with (o + hl) in Hc' by lia.
  split_and!; [done|simpl in Hl'; congruence|]. simpl in Hx'. rewrite length_app, Hext in Hx'. simpl in Hx'. lia.
Qed.

Lemma empty_context_ok p len : ctx_ok p SAL_HEADER_LEN (empty_context len).
Proof. split; simpl; try done; by intros o [=]. Qed.

Lemma parse_hdr_sound p c :
  bytes_ok p → serval_sal_parse_hdr p SAL_PARSE_ALL = Done (0, c) →
  ∃ shl, zget p 8 = Some shl ∧ ctx_length c = 4 * shl ∧ ctx_ok p (ctx_length c) c ∧
    (length (ctx_ext c) <= MAX_NUM_SAL_EXTENSIONS)%nat.
Proof.
  intros Hp. unfold serval_sal_parse_hdr. destruct (zget p 8) as [shl|] eqn:Hs; [|done].
  pose proof (zget_byte _ _ _ Hp Hs) as Hr. rewrite Z.shiftl_mul_pow2 by lia.
  rewrite wrap_small by lia. cbn [ctx_length empty_context].
  destruct (Z.ltb_spec (shl * 2 ^ 2) SAL_HEADER_LEN) as [|Hle]; [done|]. intros Hrun.
  destruct (parse_loop_sound _ _ _ _ _ _ _ Hp (Z.le_refl _) (empty_context_ok p _) Hrun)
    as (Hok & Hl & Hx); [done|lia|]. simpl in Hl, Hx.
  exists shl. rewrite Hl. split_and!; [done|lia| |done].
  replace (SAL_HEADER_LEN + (shl * 2 ^ 2 - SAL_HEADER_LEN)) with (shl * 2 ^ 2) in Hok by lia. done.
Qed.

(** C3: what the parser accepts is well-formed.  When [serval_sal_parse_hdr]
    returns 0, the header is exactly tiled by at most ten extensions of known
    types, each at least as long as its structure; every pointer in the
    context is that of an extension of the right type that lies within the
    header, and the numbers and flags are those of the control extension. *)
Theorem serval_sal_parse_hdr_sound p c :
  bytes_ok p → serval_sal_parse_hdr p SAL_PARSE_ALL = Done (0, c) →
  ∃ shl, zget p 8 = Some shl ∧ ctx_length c = 4 * shl ∧ ctx_ok p (ctx_length c) c ∧
    (length (ctx_ext c) <= MAX_NUM_SAL_EXTENSIONS)%nat.
Proof. apply parse_hdr_sound. Qed.

(** ** Reading beyond the header *)

Lemma get8_run p i c : 0 <= i < Z.of_nat (length p) → ∃ b, zget p i = Some b ∧ get8 p i c = Done (b, c).
Proof.
  intros Hi. unfold get8, zget. destruct (Z.leb_spec 0 i); [|lia].
  destruct (lookup_lt_is_Some_2 p (Z.to_nat i)) as [b Hb]; [lia|]. rewrite Hb. eauto.
Qed.

Lemma get32be_run p i c : 0 <= i → i + 3 < Z.of_nat (length p) → ∃ x, get32be p i c = Done (x, c).
Proof.
  intros H0 Hi. unfold get32be.
  destruct (get8_run p i c) as (b0 & _ & R0); [lia|]. rewrite (bind_done _ _ _ _ _ R0).
  destruct (get8_run p (i + 1) c) as (b1 & _ & R1); [lia|]. rewrite (bind_done _ _ _ _ _ R1).
  destruct (get8_run p (i + 2) c) as (b2 & _ & R2); [lia|]. rewrite (bind_done _ _ _ _ _ R2).
  destruct (get8_run p (i + 3) c) as (b3 & _ & R3); [lia|]. rewrite (bind_done _ _ _ _ _ R3). by eexists.
Qed.

(** An extension can be parsed when the twelve bytes of its fixed part can be
    read. *)
Lemma parse_ext_total p o c :
  0 <= o → o + 11 < Z.of_nat (length p) → ∃ r c', parse_ext p o c = Done (r, c').
Proof.
  intros H0 Hl. destruct (get8_run p o c) as (b & Hb & R0); [lia|].
  destruct (get8_run p (o + 1) c) as (n & Hn & R1); [lia|].
  assert (Ht : ∀ c, ext_type p o c = Done (Z.shiftr b 4, c)) by (intros; unfold ext_type, get8; munfold; by rewrite Hb).
  assert (HL : SAL_EXT_LEN p o c = Done (if Z.shiftr b 4 =? SAL_PAD_EXT then 1 else n, c)).
  { unfold SAL_EXT_LEN. rewrite (bind_done _ _ _ _ _ (Ht c)). by destruct (_ =? _). }
  unfold parse_ext. rewrite (bind_done _ _ _ _ _ HL), (bind_done _ _ _ _ _ (Ht c)).
  generalize (if Z.shiftr b 4 =? SAL_PAD_EXT then 1 else n) as n'. intros n'.
  destruct (SAL_EXT_TYPE_MAX <=? _); [by do 2 eexists|]. destruct (_ <? min_ext_length _); [by do 2 eexists|].
  unfold parse_ext_func, parse_pad_ext, parse_service_ext, parse_address_ext, parse_taas_ext, parse_source_ext,
    SAL_SOURCE_EXT_NUM_ADDRS. munfold.
  destruct (_ =? _); [by do 2 eexists|]. destruct (_ =? _).
  { unfold parse_control_ext. munfold. unfold id. destruct (ctrl_ext c); [by do 2 eexists|].
    destruct (get32be_run p (o + 4) c) as [v ->]; [lia|lia|].
    destruct (get32be_run p (o + 8) c) as [a ->]; [lia|lia|].
    destruct (get8_run p (o + 2) c) as (f & _ & ->); [lia|]. by do 2 eexists. }
  destruct (_ =? _); [simpl; destruct (srv_ext0 c), (srv_ext1 c); by do 2 eexists|].
  destruct (_ =? _); [by do 2 eexists|]. destruct (_ =? _).
  - simpl. destruct (src_ext c); [by do 2 eexists|]. unfold get8. rewrite Hn. case_match; by do 2 eexists.
  - simpl. destruct (taas_ext c); by do 2 eexists.
Qed.

Lemma parse_ext_len p o c r c' :
  bytes_ok p → parse_ext p o c = Done (r, c') → 0 < r → ∃ t, ext_in p o t r.
Proof.
  intros Hp Hrun Hr. unfold parse_ext in Hrun. minv.
  apply sal_ext_len_inv in H as (-> & b & Hb & Hn). apply ext_type_inv in H0 as (b' & Hb' & <- & ->).
  assert (b' = b) as -> by congruence. pose proof (zget_byte _ _ _ Hp Hb) as Hbr.
  assert (0 <= Z.shiftr b 4) by (apply Z.shiftr_nonneg; lia).
  destruct (Z.leb_spec SAL_EXT_TYPE_MAX (Z.shiftr b 4)); minv; [lia|].
  destruct (Z.ltb_spec x (min_ext_length (Z.shiftr b 4))); minv; [lia|].
  exists (Z.shiftr b 4). assert (r = x) as ->; [|exists b; by split_and!].
  unfold parse_ext_func, parse_pad_ext, parse_control_ext, parse_service_ext, parse_address_ext, parse_taas_ext,
    parse_source_ext in Hrun.
  destruct (Z.shiftr b 4 =? SAL_PAD_EXT); [minv; congruence|].
  repeat (match type of Hrun with
          | (if ?b then _ else _) _ _ _ _ = _ => destruct b
          | match ?x with _ => _ end _ = _ => destruct x
          end; minv); lia.
Qed.

Lemma sal_ext_next_run p o t n c : ext_in p o t n → SAL_EXT_NEXT p o c = Done (o + n, c).
Proof.
  intros (b & Hb & <- & _ & Hn & _). unfold SAL_EXT_NEXT, ext_type, get8. munfold. rewrite Hb.
  destruct (Z.shiftr b 4 =? SAL_PAD_EXT); [by subst|]. by rewrite Hn.
Qed.

Lemma parse_loop_total room p o hl c :
  bytes_ok p → 0 <= o → o + hl + 11 <= Z.of_nat (length p) →
  ∃ r c', parse_loop room p o hl c = Done (r, c').
Proof.
  intros Hp. revert o hl c. induction room as [|room IH]; intros o hl c H0 Hl; simpl;
    (destruct (Z.ltb_spec 0 hl); [|by do 2 eexists]); [by do 2 eexists|].
  destruct (parse_ext_total p o c) as (r & c1 & Hr); [lia|lia|]. rewrite (bind_done _ _ _ _ _ Hr).
  destruct (Z.leb_spec r 0); [by do 2 eexists|]. erewrite bind_done; [|done].
  destruct (parse_ext_len p o c r c1) as [t He]; [done|done|lia|].
  erewrite bind_done; [|by eapply sal_ext_next_run]. apply IH; lia.
Qed.

(** Sixteen bytes: a base header of four words, with the first word of a
    control extension behind it. *)
Definition short_packet : list Z := [0; 0; 0; 0; 0; 0; 0; 0; 4; 6; 0; 0; 16; 20; 0; 0].

(** C14: the parser reads at most eleven bytes beyond the header that the
    length field announces: with that many bytes behind it every header is
    accepted or rejected.  It does read there: the extension is examined
    before its length is compared with what is left of the header, so that
    [serval_sal_rcv], which only makes sure of the header itself, reads
    outside a packet that ends with it. *)
Theorem serval_sal_parse_hdr_reads p shl :
  bytes_ok p → zget p 8 = Some shl → 4 * shl + 11 <= Z.of_nat (length p) →
  (∃ r c, serval_sal_parse_hdr p SAL_PARSE_ALL = Done (r, c)) ∧
  serval_sal_rcv_parse 0 short_packet = Fault.
Proof.
  intros Hp Hs Hl. split; [|by vm_compute]. unfold serval_sal_parse_hdr. rewrite Hs.
  pose proof (zget_byte _ _ _ Hp Hs) as Hr. rewrite Z.shiftl_mul_pow2 by lia. rewrite wrap_small by lia.
  cbn [ctx_length empty_context].
  destruct (Z.ltb_spec (shl * 2 ^ 2) SAL_HEADER_LEN); [by do 2 eexists|].
  apply parse_loop_total; [done|unfold SAL_HEADER_LEN; lia|lia].
Qed.

(** ** Building and parsing agree *)

Lemma put8_run hr a b c f :
  put8 (length a) f (SkBuff hr (a ++ b :: c)) = Done (tt, SkBuff hr (a ++ f b :: c)).
Proof.
  unfold put8. simpl. rewrite list_lookup_middle by done. by rewrite insert_app_r_alt, Nat.sub_diag by lia.
Qed.

Lemma put_bytes_run hr a b c l :
  length b = length l → put_bytes (length a) l (SkBuff hr (a ++ b ++ c)) = Done (tt, SkBuff hr (a ++ l ++ c)).
Proof.
  revert a b. induction l as [|x l IH]; intros a [|y b] Hl; simplify_eq/=; [done|].
  rewrite (bind_done _ _ _ _ _ (put8_run hr a y (b ++ c) _)).
  replace (S (length a)) with (length (a ++ [x])) by (rewrite length_app; simpl; lia).
  replace (a ++ x :: b ++ c) with ((a ++ [x]) ++ b ++ c) by (by rewrite <-app_assoc).
  rewrite IH by done. by rewrite <-app_assoc.
Qed.

Lemma skb_push_run hr st d n :
  Z.of_nat (length st) = n → skb_push n (SkBuff (hr ++ st) d) = Done (tt, SkBuff hr (st ++ d)).
Proof.
  intros <-. unfold skb_push. simpl. rewrite length_app. destruct (Z.ltb_spec (Z.of_nat (length hr + length st)) (Z.of_nat (length st))); [lia|].
  rewrite Nat2Z.id. replace (length hr + length st - length st)%nat with (length hr) by lia.
  by rewrite take_app_length, drop_app_length.
Qed.

Lemma type_of_set_type t b : 0 <= t < 16 → Z.shiftr (set_type t b) 4 = t.
Proof.
  intros Ht. unfold set_type. rewrite Z.shiftr_lor, Z.shiftr_land.
  change (Z.shiftr 15 4) with 0. rewrite Z.land_0_r, Z.lor_0_l.
  rewrite Z.shiftr_shiftl_l by lia. by rewrite Z.shiftl_0_r.
Qed.

Lemma testbit_set_bit k v b j :
  0 <= k → Z.testbit (set_bit k v b) j = if j =? k then v else Z.testbit b j.
Proof.
  intros Hk. unfold set_bit. destruct v.
  - rewrite Z.lor_spec, Z.pow2_bits_eqb by done. rewrite (Z.eqb_sym k j).
    destruct (j =? k); [by rewrite orb_true_r|by rewrite orb_false_r].
  - rewrite Z.ldiff_spec, Z.pow2_bits_eqb by done. rewrite (Z.eqb_sym k j).
    destruct (j =? k); [by rewrite andb_false_r|by rewrite andb_true_r].
Qed.

(** The six flags of a control block that travel. *)
Lemma flag_testbit h k : 0 <= k → flag h (2 ^ k) = Z.testbit (cb_flags h) k.
Proof.
  intros Hk. unfold flag. destruct (Z.testbit (cb_flags h) k) eqn:Hb.
  - destruct (Z.eqb_spec (Z.land (cb_flags h) (2 ^ k)) 0) as [H|H]; [|done].
    apply (f_equal (λ x, Z.testbit x k)) in H. rewrite Z.land_spec, Hb, Z.pow2_bits_true, Z.bits_0 in H by done. done.
  - replace (Z.land (cb_flags h) (2 ^ k)) with 0; [done|]. symmetry. apply Z.bits_inj'. intros j Hj.
    rewrite Z.land_spec, Z.pow2_bits_eqb, Z.bits_0 by done. destruct (Z.eqb_spec k j) as [->|]; [by rewrite Hb|].
    apply andb_false_r.
Qed.

Definition flag_byte (h : hdr_info) (b : Z) : Z :=
  set_bit 3 (flag h SVH_RST) (set_bit 2 (flag h SVH_FIN) (set_bit 4 (flag h SVH_NACK)
    (set_bit 5 (flag h SVH_ACK) (set_bit 6 (flag h SVH_RSYN) (set_bit 7 (flag h SVH_SYN) b))))).

Lemma low_bits f :
  Z.land f 63 = (if Z.testbit f 0 then 1 else 0) + (if Z.testbit f 1 then 2 else 0) +
    (if Z.testbit f 2 then 4 else 0) + (if Z.testbit f 3 then 8 else 0) +
    (if Z.testbit f 5 then 32 else 0) + (if Z.testbit f 4 then 16 else 0).
Proof.
  change 63 with (Z.ones 6). rewrite Z.land_ones by lia.
  rewrite <-!(Z.mod_pow2_bits_low f 6) by lia. pose proof (Z.mod_pos_bound f (2 ^ 6)) as Hr.
  set (m := f mod 2 ^ 6) in *. clearbody m.
  assert (m ∈ Z.of_nat <$> seq 0 64) as Hm.
  { apply list_elem_of_fmap. exists (Z.to_nat m). split; [lia|]. apply elem_of_seq. lia. }
  clear Hr. revert m Hm. apply (proj1 (Forall_forall _ _)). apply (bool_decide_unpack _). by vm_compute.
Qed.

Lemma ctrl_flags_flag_byte h b : ctrl_flags (flag_byte h b) = Z.land (cb_flags h) 63.
Proof.
  unfold ctrl_flags, flag_byte. rewrite !testbit_set_bit by lia. simpl.
  rewrite low_bits. unfold SVH_SYN, SVH_RSYN, SVH_ACK, SVH_NACK, SVH_FIN, SVH_RST.
  rewrite <-!flag_testbit by lia. done.
Qed.

Lemma headroom_split (hr : list Z) n :
  (n <= length hr)%nat → bytes_ok hr →
  ∃ hr' st, hr = hr' ++ st ∧ length st = n ∧ length hr' = (length hr - n)%nat ∧ bytes_ok hr' ∧ bytes_ok st.
Proof.
  intros Hn Hok. exists (take (length hr - n) hr), (drop (length hr - n) hr).
  rewrite take_drop, length_drop, length_take. split_and!; [done|lia|lia|by apply Forall_take|by apply Forall_drop].
Qed.

(** The extensions as they are built; [x0], [x2] and [x3] are the bytes that
    were there before, of which bits remain. *)
Definition ctrl_bytes (h : hdr_info) (x0 x2 x3 : Z) : list Z :=
  [set_type SAL_CONTROL_EXT x0; SAL_CONTROL_EXT_LEN; flag_byte h x2; x3] ++
  be32 (cb_verno h) ++ be32 (rcv_nxt h) ++ local_nonce h.
Definition srv_bytes (srvid : list Z) (x0 x2 x3 : Z) : list Z :=
  [set_type SAL_SERVICE_EXT x0; SAL_SERVICE_EXT_LEN; x2; x3] ++ srvid.
Definition taas_bytes (auth : Z) (x0 x2 x3 : Z) : list Z :=
  [set_type SAL_TAAS_EXT x0; SAL_TAAS_EXT_LEN; x2; x3] ++ le64 auth.

(** [pushes m n r f]: with [n] bytes of headroom, [m] returns [r] and puts [f]
    of some old bytes in front of the data. *)
Definition pushes (m : M sk_buff Z) (n : nat) (r : Z) (f : Z → Z → Z → list Z) : Prop :=
  ∀ hr d, (n <= length hr)%nat → bytes_ok hr →
  ∃ hr' x0 x2 x3, m (SkBuff hr d) = Done (r, SkBuff hr' (f x0 x2 x3 ++ d)) ∧
    length hr' = (length hr - n)%nat ∧ bytes_ok hr' ∧ bytes_ok [x0; x2; x3].

(** The common beginning of the three functions. *)
Lemma push_ext_run n t hr d (k : M sk_buff Z) :
  (4 <= n <= length hr)%nat → bytes_ok hr →
  ∃ hr' x0 x2 x3 st, length st = (n - 4)%nat ∧ length hr' = (length hr - n)%nat ∧ bytes_ok hr' ∧
    bytes_ok [x0; x2; x3] ∧
    (_ ← skb_push (Z.of_nat n); _ ← put8 0 (set_type t); _ ← put8 1 (λ _, Z.of_nat n); k) (SkBuff hr d)
      = k (SkBuff hr' ([set_type t x0; Z.of_nat n; x2; x3] ++ st ++ d)).
Proof.
  intros Hn Hok. destruct (headroom_split hr n) as (hr' & st & -> & Hst & Hhr & Hok1 & Hok2); [lia|done|].
  do 4 (destruct st as [|? st]; [simpl in Hst; lia|]).
  exists hr', z, z1, z2, st. simpl in Hst. rewrite length_app in Hhr |- *. simpl in *.
  split_and!; [lia|lia|done| |].
  - unfold bytes_ok in *. rewrite !Forall_cons in Hok2. rewrite !Forall_cons, Forall_nil. tauto.
  - rewrite (bind_done _ _ _ _ _ (skb_push_run hr' (z :: z0 :: z1 :: z2 :: st) d (Z.of_nat n) ltac:(simpl; lia))).
    done.
Qed.

Lemma add_service_ext_pushes srvid :
  length srvid = 32%nat → pushes (serval_sal_add_service_ext srvid) 36 SAL_SERVICE_EXT_LEN (srv_bytes srvid).
Proof.
  intros Hs hr d Hn Hok.
  destruct (push_ext_run 36 SAL_SERVICE_EXT hr d (_ ← put_bytes 4 srvid; mret SAL_SERVICE_EXT_LEN))
    as (hr' & x0 & x2 & x3 & st & Hst & Hl & Hok' & Hx & Hrun); [lia|done|].
  exists hr', x0, x2, x3. split_and!; [|done..]. unfold serval_sal_add_service_ext.
  etransitivity; [exact Hrun|].
  erewrite bind_done; [|apply (put_bytes_run hr' [_; _; _; _] st d); lia]. done.
Qed.

Lemma add_taas_ext_pushes auth :
  pushes (serval_sal_add_taas_ext auth) 12 SAL_TAAS_EXT_LEN (taas_bytes auth).
Proof.
  intros hr d Hn Hok.
  destruct (push_ext_run 12 SAL_TAAS_EXT hr d (_ ← put_bytes 4 (le64 auth); mret SAL_TAAS_EXT_LEN))
    as (hr' & x0 & x2 & x3 & st & Hst & Hl & Hok' & Hx & Hrun); [lia|done|].
  exists hr', x0, x2, x3. split_and!; [|done..]. unfold serval_sal_add_taas_ext.
  etransitivity; [exact Hrun|].
  erewrite bind_done; [|apply (put_bytes_run hr' [_; _; _; _] st d); simpl; lia]. done.
Qed.

Lemma add_ctrl_ext_pushes h :
  length (local_nonce h) = 8%nat → pushes (serval_sal_add_ctrl_ext h) 20 SAL_CONTROL_EXT_LEN (ctrl_bytes h).
Proof.
  intros Hs hr d Hn Hok. eassert (Hx := push_ext_run 20 SAL_CONTROL_EXT hr d _ ltac:(lia) Hok).
  destruct Hx as (hr' & x0 & x2 & x3 & st & Hst & Hl & Hok' & Hx & Hrun).
  exists hr', x0, x2, x3. split_and!; [|done..]. unfold serval_sal_add_ctrl_ext. etransitivity; [exact Hrun|]. clear Hrun.
  do 8 (destruct st as [|? st]; [simpl in Hst; lia|]).
  erewrite bind_done; [|apply (put_bytes_run hr' [_; _; _; _] [_; _; _; _]); done].
  erewrite bind_done; [|apply (put_bytes_run hr' ([_; _; _; _] ++ be32 (cb_verno h)) [_; _; _; _]); done].
  erewrite bind_done; [|apply (put_bytes_run hr' ([_; _; _; _] ++ be32 (cb_verno h) ++ be32 (rcv_nxt h)) st d);
    simpl in Hst; lia].
  done.
Qed.

Lemma zget_app_r {A} (a b : list A) o k :
  o = Z.of_nat (length a) → 0 <= k → zget (a ++ b) (o + k) = zget b k.
Proof.
  intros -> Hk. unfold zget. destruct (Z.leb_spec 0 (Z.of_nat (length a) + k)), (Z.leb_spec 0 k); try lia.
  rewrite lookup_app_r by lia. f_equal. lia.
Qed.

Lemma get8_at (a b : list Z) o k x c :
  o = Z.of_nat (length a) → 0 <= k → zget b k = Some x → get8 (a ++ b) (o + k) c = Done (x, c).
Proof. intros Ho Hk Hx. unfold get8. by rewrite (zget_app_r a b o k), Hx. Qed.

Lemma parse_ext_run p o t n c : ext_in p o t n → parse_ext p o c = parse_ext_func t p o n c.
Proof.
  intros (b & Hb & <- & Ht & Hn & Hmin). unfold parse_ext, SAL_EXT_LEN, ext_type, get8. munfold. rewrite Hb.
  destruct (Z.leb_spec SAL_EXT_TYPE_MAX (Z.shiftr b 4)); [lia|].
  destruct (Z.ltb_spec n (min_ext_length (Z.shiftr b 4))) as [|Hge]; [lia|]. apply Z.ltb_ge in Hge.
  destruct (Z.shiftr b 4 =? SAL_PAD_EXT); [subst n|rewrite Hn]; by rewrite Hge.
Qed.

Lemma built_ext_in pre t x0 n l o :
  o = Z.of_nat (length pre) → 0 < t < SAL_EXT_TYPE_MAX → min_ext_length t <= n →
  ext_in (pre ++ set_type t x0 :: n :: l) o t n.
Proof.
  intros Ho Ht Hn. exists (set_type t x0). split_and!; [|apply type_of_set_type; unfold SAL_EXT_TYPE_MAX in *; lia|lia|lia| |done].
  - rewrite <-(Z.add_0_r o). by rewrite (zget_app_r pre _ o).
  - destruct (Z.eqb_spec t SAL_PAD_EXT); [unfold SAL_PAD_EXT in *; lia|]. by rewrite (zget_app_r pre _ o).
Qed.

Lemma parse_loop_step room p o hl c t n c1 :
  ext_in p o t n → 0 < hl → parse_ext_func t p o n c = Done (n, c1) →
  parse_loop (S room) p o hl c = parse_loop room p (o + n) (hl - n) (listed o c1).
Proof.
  intros He Hl Hf. simpl. destruct (Z.ltb_spec 0 hl); [|lia].
  rewrite <-(parse_ext_run _ _ _ _ _ He) in Hf. rewrite (bind_done _ _ _ _ _ Hf).
  pose proof He as (_ & _ & _ & _ & _ & Hmin). pose proof (min_ext_length_pos t).
  destruct (Z.leb_spec n 0); [lia|]. erewrite bind_done; [|done].
  by rewrite (bind_done _ _ _ _ _ (sal_ext_next_run _ _ _ _ _ He)).
Qed.

Lemma be32_value x :
  0 <= x < 2 ^ 32 →
  x / 2 ^ 24 mod 256 * 2 ^ 24 + x / 2 ^ 16 mod 256 * 2 ^ 16 + x / 2 ^ 8 mod 256 * 2 ^ 8 + x mod 256 = x.
Proof. intros Hx. change (2 ^ 24) with 16777216. change (2 ^ 16) with 65536. change (2 ^ 8) with 256.
  Z.to_euclidean_division_equations. lia.
Qed.

(** Parsing the built extensions. *)
Lemma parse_built_taas room pre auth x0 x2 x3 post o hl c :
  o = Z.of_nat (length pre) → 0 < hl → taas_ext c = None →
  parse_loop (S room) (pre ++ taas_bytes auth x0 x2 x3 ++ post) o hl c =
  parse_loop room (pre ++ taas_bytes auth x0 x2 x3 ++ post) (o + 12) (hl - 12)
    (listed o (SalContext (ctx_length c) (ctx_flags c) (ctx_verno c) (ctx_ackno c) (ctx_ext c)
       (ctrl_ext c) (srv_ext0 c) (srv_ext1 c) (src_ext c) (Some o))).
Proof.
  intros Ho Hl Hc. apply (parse_loop_step _ _ _ _ _ SAL_TAAS_EXT); [|done|].
  - by apply built_ext_in.
  - unfold parse_ext_func, parse_taas_ext. munfold. simpl. unfold id. by rewrite Hc.
Qed.

Lemma parse_built_srv0 room pre id x0 x2 x3 post o hl c :
  o = Z.of_nat (length pre) → 0 < hl → srv_ext0 c = None →
  parse_loop (S room) (pre ++ srv_bytes id x0 x2 x3 ++ post) o hl c =
  parse_loop room (pre ++ srv_bytes id x0 x2 x3 ++ post) (o + 36) (hl - 36)
    (listed o (SalContext (ctx_length c) (ctx_flags c) (ctx_verno c) (ctx_ackno c) (ctx_ext c)
       (ctrl_ext c) (Some o) (srv_ext1 c) (src_ext c) (taas_ext c))).
Proof.
  intros Ho Hl Hc. apply (parse_loop_step _ _ _ _ _ SAL_SERVICE_EXT); [|done|].
  - by apply built_ext_in.
  - unfold parse_ext_func, parse_service_ext. munfold. simpl. unfold Datatypes.id. by rewrite Hc.
Qed.

Lemma parse_built_srv1 room pre id x0 x2 x3 post o hl c q :
  o = Z.of_nat (length pre) → 0 < hl → srv_ext0 c = Some q → srv_ext1 c = None →
  parse_loop (S room) (pre ++ srv_bytes id x0 x2 x3 ++ post) o hl c =
  parse_loop room (pre ++ srv_bytes id x0 x2 x3 ++ post) (o + 36) (hl - 36)
    (listed o (SalContext (ctx_length c) (ctx_flags c) (ctx_verno c) (ctx_ackno c) (ctx_ext c)
       (ctrl_ext c) (srv_ext0 c) (Some o) (src_ext c) (taas_ext c))).
Proof.
  intros Ho Hl Hc Hc1. apply (parse_loop_step _ _ _ _ _ SAL_SERVICE_EXT); [|done|].
  - by apply built_ext_in.
  - unfold parse_ext_func, parse_service_ext. munfold. simpl. unfold Datatypes.id. by rewrite Hc, Hc1, Hc.
Qed.

Lemma get32be_at (a b : list Z) o k x c :
  o = Z.of_nat (length a) → 0 <= k → 0 <= x < 2 ^ 32 → take 4 (drop (Z.to_nat k) b) = be32 x →
  get32be (a ++ b) (o + k) c = Done (x, c).
Proof.
  intros Ho Hk Hx Hb. unfold get32be.
  assert (Hg : ∀ j y, be32 x !! j = Some y → get8 (a ++ b) (o + k + Z.of_nat j) c = Done (y, c)).
  { intros j y Hj. rewrite <-Hb, lookup_take_Some, lookup_drop in Hj. destruct Hj as [Hj _].
    rewrite <-Z.add_assoc. apply get8_at; [done|lia|]. unfold zget.
    destruct (Z.leb_spec 0 (k + Z.of_nat j)); [|lia]. rewrite <-Hj. f_equal. lia. }
  rewrite <-(Z.add_0_r (o + k)) at 1.
  rewrite (bind_done _ _ _ _ _ (Hg 0%nat _ eq_refl)), (bind_done _ _ _ _ _ (Hg 1%nat _ eq_refl)),
    (bind_done _ _ _ _ _ (Hg 2%nat _ eq_refl)), (bind_done _ _ _ _ _ (Hg 3%nat _ eq_refl)).
  by rewrite be32_value.
Qed.

Lemma parse_built_ctrl room pre h x0 x2 x3 post o hl c :
  o = Z.of_nat (length pre) → 0 < hl → ctrl_ext c = None → ctx_flags c = 0 →
  0 <= cb_verno h < 2 ^ 32 → 0 <= rcv_nxt h < 2 ^ 32 →
  parse_loop (S room) (pre ++ ctrl_bytes h x0 x2 x3 ++ post) o hl c =
  parse_loop room (pre ++ ctrl_bytes h x0 x2 x3 ++ post) (o + 20) (hl - 20)
    (listed o (SalContext (ctx_length c) (Z.land (cb_flags h) 63) (cb_verno h) (rcv_nxt h) (ctx_ext c)
       (Some o) (srv_ext0 c) (srv_ext1 c) (src_ext c) (taas_ext c))).
Proof.
  intros Ho Hl Hc Hf Hv Hn. apply (parse_loop_step _ _ _ _ _ SAL_CONTROL_EXT); [|done|].
  - by apply built_ext_in.
  - unfold parse_ext_func. cbn [Z.eqb SAL_CONTROL_EXT SAL_PAD_EXT Pos.eqb]. unfold parse_control_ext.
    erewrite bind_done; [|done]. unfold id. rewrite Hc.
    erewrite bind_done; [|by apply (get32be_at pre _ o 4 (cb_verno h))].
    erewrite bind_done; [|by apply (get32be_at pre _ o 8 (rcv_nxt h))].
    erewrite bind_done; [|by eapply get8_at].
    erewrite bind_done; [|done]. by rewrite Hf, Z.lor_0_l, ctrl_flags_flag_byte.
Qed.

(** ** The round trip *)

Definition has_ctrl (h : hdr_info) : bool :=
  flag h SVH_SYN || flag h SVH_RSYN || flag h SVH_FIN || flag h SVH_RST || flag h SVH_ACK.
Definition with_srv (h : hdr_info) : bool := flag h SVH_SYN || flag h SVH_CONN_ACK.

(** What follows the base header. *)
Definition tail_shape (h : hdr_info) (l : list Z) : Prop :=
  if has_ctrl h then
    ∃ x0 x2 x3 s, l = ctrl_bytes h x0 x2 x3 ++ s ∧ bytes_ok [x0; x2; x3] ∧
      if with_srv h then ∃ y0 y2 y3, s = srv_bytes (peer_srvid h) y0 y2 y3 ∧ bytes_ok [y0; y2; y3] else s = []
  else if init_dgram h then
    ∃ x0 x2 x3 y0 y2 y3, l = srv_bytes (peer_srvid h) x0 x2 x3 ++ srv_bytes (local_srvid h) y0 y2 y3 ∧
      bytes_ok [x0; x2; x3] ∧ bytes_ok [y0; y2; y3]
  else l = [].
Definition taas_shape (auth : Z) (l : list Z) : Prop :=
  if auth =? 0 then l = [] else ∃ x0 x2 x3, l = taas_bytes auth x0 x2 x3 ∧ bytes_ok [x0; x2; x3].

Definition tail_len (h : hdr_info) : nat :=
  if has_ctrl h then if with_srv h then 56 else 20 else if init_dgram h then 72 else 0.
Definition taas_len (auth : Z) : nat := if auth =? 0 then 0 else 12.

(** The context that the receiver should see. *)
Definition expected_context (h : hdr_info) (auth : Z) : sal_context :=
  let o := 12 + Z.of_nat (taas_len auth) in
  let taas := if auth =? 0 then None else Some 12 in
  let pre := if auth =? 0 then [] else [12] in
  let len := o + Z.of_nat (tail_len h) in
  if has_ctrl h then
    SalContext len (Z.land (cb_flags h) 63) (cb_verno h) (rcv_nxt h)
      (pre ++ [o] ++ (if with_srv h then [o + 20] else [])) (Some o)
      (if with_srv h then Some (o + 20) else None) None None taas
  else if init_dgram h then
    SalContext len 0 0 0 (pre ++ [o; o + 36]) None (Some o) (Some (o + 36)) None taas
  else SalContext len 0 0 0 pre None None None None taas.

(** The fields have their sizes. *)
Record info_ok (h : hdr_info) : Prop := {
  ok_flow1 : length (local_flowid h) = 4%nat ∧ bytes_ok (local_flowid h);
  ok_flow2 : length (peer_flowid h) = 4%nat ∧ bytes_ok (peer_flowid h);
  ok_srv1 : length (local_srvid h) = 32%nat ∧ bytes_ok (local_srvid h);
  ok_srv2 : length (peer_srvid h) = 32%nat ∧ bytes_ok (peer_srvid h);
  ok_nonce : length (local_nonce h) = 8%nat ∧ bytes_ok (local_nonce h);
  ok_nxt : 0 <= rcv_nxt h < 2 ^ 32;
  ok_verno : 0 <= cb_verno h < 2 ^ 32;
  ok_proto : 0 <= sk_protocol h < 256
}.

Lemma add_exts_run h hr d :
  info_ok h → (72 <= length hr)%nat → bytes_ok hr →
  ∃ hr' l, add_exts h (SkBuff hr d) = Done (Z.of_nat (tail_len h), SkBuff hr' (l ++ d)) ∧
    (length hr - 72 <= length hr')%nat ∧ bytes_ok hr' ∧ tail_shape h l.
Proof.
  intros [_ _ [Hl _] [Hp _] [Hn _] _ _ _] Hh Hok. unfold add_exts, tail_shape, tail_len. fold (has_ctrl h).
  destruct (has_ctrl h); [fold (with_srv h); destruct (with_srv h)|destruct (init_dgram h)].
  - destruct (add_service_ext_pushes (peer_srvid h) Hp hr d) as (hr1 & y0 & y2 & y3 & R1 & L1 & B1 & Y); [lia|done|].
    destruct (add_ctrl_ext_pushes h Hn hr1 (srv_bytes (peer_srvid h) y0 y2 y3 ++ d))
      as (hr2 & x0 & x2 & x3 & R2 & L2 & B2 & X); [lia|done|].
    rewrite (bind_done _ _ _ _ _ R1), (bind_done _ _ _ _ _ R2).
    exists hr2, (ctrl_bytes h x0 x2 x3 ++ srv_bytes (peer_srvid h) y0 y2 y3). rewrite <-app_assoc.
    split_and!; [done|lia|done|]. exists x0, x2, x3, (srv_bytes (peer_srvid h) y0 y2 y3). eauto 10.
  - destruct (add_ctrl_ext_pushes h Hn hr d) as (hr2 & x0 & x2 & x3 & R2 & L2 & B2 & X); [lia|done|].
    erewrite bind_done; [|done]. rewrite (bind_done _ _ _ _ _ R2).
    exists hr2, (ctrl_bytes h x0 x2 x3). split_and!; [done|lia|done|]. exists x0, x2, x3, [].
    by rewrite app_nil_r.
  - destruct (add_service_ext_pushes (local_srvid h) Hl hr d) as (hr1 & y0 & y2 & y3 & R1 & L1 & B1 & Y); [lia|done|].
    destruct (add_service_ext_pushes (peer_srvid h) Hp hr1 (srv_bytes (local_srvid h) y0 y2 y3 ++ d))
      as (hr2 & x0 & x2 & x3 & R2 & L2 & B2 & X); [lia|done|].
    rewrite (bind_done _ _ _ _ _ R1), (bind_done _ _ _ _ _ R2).
    exists hr2, (srv_bytes (peer_srvid h) x0 x2 x3 ++ srv_bytes (local_srvid h) y0 y2 y3). rewrite <-app_assoc.
    split_and!; [done|lia|done|]. eauto 10.
  - exists hr, []. split_and!; [done|lia|done|done].
Qed.

Lemma tail_shape_length h l : info_ok h → tail_shape h l → length l = tail_len h.
Proof.
  intros [_ _ [Hl _] [Hp _] [Hn _] _ _ _]. unfold tail_shape, tail_len.
  destruct (has_ctrl h); [destruct (with_srv h)|destruct (init_dgram h)].
  - intros (x0 & x2 & x3 & s & -> & _ & y0 & y2 & y3 & -> & _). rewrite length_app. simpl. lia.
  - intros (x0 & x2 & x3 & s & -> & _ & ->). rewrite length_app. simpl. lia.
  - intros (x0 & x2 & x3 & y0 & y2 & y3 & -> & _). rewrite length_app. simpl. lia.
  - by intros ->.
Qed.

Lemma taas_shape_length auth l : taas_shape auth l → length l = taas_len auth.
Proof. unfold taas_shape, taas_len. destruct (auth =? 0); [by intros ->|]. by intros (? & ? & ? & -> & _). Qed.

(** The receiver's loop on a built header. *)
Lemma parse_tail room base h l post o c :
  info_ok h → tail_shape h l → (2 <= room)%nat → o = Z.of_nat (length base) →
  ctrl_ext c = None → srv_ext0 c = None → srv_ext1 c = None → ctx_flags c = 0 → ctx_verno c = 0 → ctx_ackno c = 0 →
  parse_loop room (base ++ l ++ post) o (Z.of_nat (length l)) c = Done (0,
    if has_ctrl h then
      SalContext (ctx_length c) (Z.land (cb_flags h) 63) (cb_verno h) (rcv_nxt h)
        (ctx_ext c ++ [o] ++ (if with_srv h then [o + 20] else [])) (Some o)
        (if with_srv h then Some (o + 20) else None) None (src_ext c) (taas_ext c)
    else if init_dgram h then
      SalContext (ctx_length c) 0 0 0 (ctx_ext c ++ [o; o + 36]) None (Some o) (Some (o + 36)) (src_ext c) (taas_ext c)
    else c).
Proof.
  intros Hi Hs Hroom Ho H1 H2 H3 H4 H5 H6. rewrite (tail_shape_length h l Hi Hs).
  destruct room as [|[|room]]; [lia|lia|]. pose proof Hi as [_ _ [Hl _] [Hp _] [Hn _] Hnx Hv _].
  unfold tail_shape, tail_len in *. destruct (has_ctrl h); [destruct (with_srv h)|destruct (init_dgram h)].
  - destruct Hs as (x0 & x2 & x3 & s & -> & _ & y0 & y2 & y3 & -> & _). rewrite <-app_assoc.
    rewrite parse_built_ctrl by (done || lia).
    rewrite (app_assoc base). rewrite parse_built_srv0 by (done || (rewrite length_app; simpl; lia)).
    replace (Z.of_nat 56 - 20 - 36) with 0 by lia. unfold listed. simpl. rewrite H3, <-(app_assoc (ctx_ext c)).
    by destruct room.
  - destruct Hs as (x0 & x2 & x3 & s & -> & _ & ->). rewrite app_nil_r.
    rewrite parse_built_ctrl by (done || lia). replace (Z.of_nat 20 - 20) with 0 by lia.
    unfold listed. simpl. by rewrite H2, H3.
  - destruct Hs as (x0 & x2 & x3 & y0 & y2 & y3 & -> & _). rewrite <-app_assoc.
    rewrite parse_built_srv0 by (done || lia).
    rewrite (app_assoc base). erewrite parse_built_srv1 by (done || (rewrite length_app; simpl; lia)).
    replace (Z.of_nat 72 - 36 - 36) with 0 by lia. unfold listed. simpl.
    rewrite H1, H4, H5, H6, <-(app_assoc (ctx_ext c)). by destruct room.
  - done.
Qed.

Lemma parse_built base taas l h auth post :
  info_ok h → taas_shape auth taas → tail_shape h l → length base = 12%nat →
  parse_loop MAX_NUM_SAL_EXTENSIONS (base ++ (taas ++ l) ++ post) SAL_HEADER_LEN
    (Z.of_nat (length (taas ++ l)))
    (empty_context (12 + Z.of_nat (taas_len auth) + Z.of_nat (tail_len h)))
  = Done (0, expected_context h auth).
Proof.
  intros Hi Ht Hl Hb. pose proof (tail_shape_length h l Hi Hl) as Hlen. rewrite <-app_assoc, length_app.
  unfold expected_context, taas_len. unfold taas_shape in Ht. destruct (auth =? 0).
  - subst taas. cbn [app length Nat.add]. unfold SAL_HEADER_LEN.
    rewrite (parse_tail _ base h) by (done || lia || (unfold MAX_NUM_SAL_EXTENSIONS; lia)).
    simpl. by destruct (has_ctrl h), (init_dgram h).
  - destruct Ht as (x0 & x2 & x3 & -> & _). unfold MAX_NUM_SAL_EXTENSIONS.
    rewrite parse_built_taas by (done || simpl; unfold SAL_HEADER_LEN; lia).
    rewrite (app_assoc base). replace (Z.of_nat (_ + length l) - 12) with (Z.of_nat (length l)) by (simpl; lia).
    rewrite (parse_tail _ (base ++ _) h) by (done || lia || (rewrite length_app; simpl; unfold SAL_HEADER_LEN; lia)).
    simpl. by destruct (has_ctrl h), (init_dgram h).
Qed.

(** *** Every byte of a built header is a byte *)

Lemma byte_iff x : 0 <= x < 256 ↔ 0 <= x ∧ Z.shiftr x 8 = 0.
Proof.
  rewrite Z.shiftr_div_pow2 by lia. change (2 ^ 8) with 256. split.
  - intros Hx. split; [lia|]. apply Z.div_small. lia.
  - intros [H0 Hd]. split; [done|]. apply Z.div_small_iff in Hd; lia.
Qed.

Lemma set_type_byte t b : 0 <= t < 16 → 0 <= b < 256 → 0 <= set_type t b < 256.
Proof.
  intros Ht Hb. apply byte_iff. apply byte_iff in Hb as [H0 Hs]. unfold set_type.
  split; [apply Z.lor_nonneg; split; [apply Z.land_nonneg; lia|apply Z.shiftl_nonneg; lia]|].
  rewrite Z.shiftr_lor, Z.shiftr_land, Hs, Z.land_0_l, Z.lor_0_l, Z.shiftr_shiftl_r by lia.
  change (8 - 4) with 4. rewrite Z.shiftr_div_pow2 by lia. apply Z.div_small. lia.
Qed.

Lemma set_bit_byte k v b : 0 <= k < 8 → 0 <= b < 256 → 0 <= set_bit k v b < 256.
Proof.
  intros Hk Hb. apply byte_iff. apply byte_iff in Hb as [H0 Hs]. unfold set_bit.
  assert (0 <= 2 ^ k < 2 ^ 8) by (split; [lia|apply Z.pow_lt_mono_r; lia]).
  assert (Hp : Z.shiftr (2 ^ k) 8 = 0) by (rewrite Z.shiftr_div_pow2 by lia; by apply Z.div_small).
  destruct v; (split; [|rewrite ?Z.shiftr_lor, ?Z.shiftr_ldiff, Hs, Hp; done]).
  - apply Z.lor_nonneg. lia.
  - apply Z.ldiff_nonneg. lia.
Qed.

Lemma mod_byte x : 0 <= x mod 256 < 256.
Proof. apply Z.mod_pos_bound. lia. Qed.

Create HintDb bytes.
#[local] Hint Resolve set_type_byte set_bit_byte mod_byte : bytes.

Lemma be32_bytes x : bytes_ok (be32 x).
Proof. unfold bytes_ok, be32. repeat (constructor; [apply mod_byte|]). constructor. Qed.

Lemma le64_bytes x : bytes_ok (le64 x).
Proof. apply Forall_fmap, Forall_true. intros k. apply mod_byte. Qed.

Lemma bytes_ok_app a b : bytes_ok (a ++ b) ↔ bytes_ok a ∧ bytes_ok b.
Proof. apply Forall_app. Qed.

Lemma ext_bytes_ok t n x0 b2 x3 l :
  0 <= t < 16 → 0 <= n < 256 → bytes_ok [x0; b2; x3] → bytes_ok l →
  bytes_ok ([set_type t x0; n; b2; x3] ++ l).
Proof.
  intros Ht Hn Hx Hl. unfold bytes_ok in *. rewrite !Forall_cons in Hx. destruct Hx as (? & ? & ? & _).
  apply Forall_app. split; [|done]. repeat (constructor; [by auto with bytes|]). constructor.
Qed.

Lemma tail_bytes_ok h l : info_ok h → tail_shape h l → bytes_ok l.
Proof.
  intros [_ _ [_ Hl] [_ Hp] [_ Hn] _ _ _]. unfold tail_shape.
  assert (Hc : ∀ x0 x2 x3, bytes_ok [x0; x2; x3] → bytes_ok (ctrl_bytes h x0 x2 x3)).
  { intros x0 x2 x3 Hx. unfold ctrl_bytes. unfold bytes_ok in Hx. rewrite !Forall_cons in Hx.
    destruct Hx as (? & ? & ? & _). apply ext_bytes_ok; [done|done| |].
    - constructor; [done|]. constructor; [|constructor; [done|constructor]].
      unfold flag_byte. repeat (apply set_bit_byte; [lia|]). done.
    - rewrite !bytes_ok_app. auto using be32_bytes. }
  destruct (has_ctrl h); [destruct (with_srv h)|destruct (init_dgram h)].
  - intros (x0 & x2 & x3 & s & -> & Hx & y0 & y2 & y3 & -> & Hy). apply bytes_ok_app. split; [auto|].
    by apply ext_bytes_ok.
  - intros (x0 & x2 & x3 & s & -> & Hx & ->). rewrite app_nil_r. auto.
  - intros (x0 & x2 & x3 & y0 & y2 & y3 & -> & Hx & Hy). apply bytes_ok_app. split; by apply ext_bytes_ok.
  - intros ->. constructor.
Qed.

Lemma taas_bytes_ok auth l : taas_shape auth l → bytes_ok l.
Proof.
  unfold taas_shape. destruct (auth =? 0); [intros ->; constructor|]. intros (x0 & x2 & x3 & -> & Hx).
  apply ext_bytes_ok; [done|done|done|apply le64_bytes].
Qed.

(** The length of a built header, in bytes and in words. *)
Definition built_len (h : hdr_info) (auth : Z) : Z := 12 + Z.of_nat (taas_len auth) + Z.of_nat (tail_len h).

Lemma built_len_words h auth :
  u8 (Z.shiftr (u16 (Z.of_nat (tail_len h) + Z.of_nat (taas_len auth) + SAL_HEADER_LEN)) 2) = built_len h auth / 4 ∧
  4 * (built_len h auth / 4) = built_len h auth ∧ 12 <= built_len h auth <= 96.
Proof.
  unfold built_len, tail_len, taas_len.
  destruct (has_ctrl h), (with_srv h), (init_dgram h), (auth =? 0); vm_compute; split_and!; done.
Qed.

Definition base_front (h : hdr_info) (auth : Z) : list Z :=
  local_flowid h ++ peer_flowid h ++ [built_len h auth / 4; sk_protocol h].

Lemma build_header_run h auth hr d :
  info_ok h → (96 <= length hr)%nat → bytes_ok hr →
  ∃ hr' taas l y0 y1,
    serval_sal_build_header h auth (SkBuff hr d)
      = Done (tt, SkBuff hr' (base_front h auth ++ [y0; y1] ++ (taas ++ l) ++ d)) ∧
    taas_shape auth taas ∧ tail_shape h l.
Proof.
  intros Hi Hh Hok. unfold serval_sal_build_header.
  destruct (add_exts_run h hr d Hi) as (hr1 & l & R1 & L1 & B1 & Hl); [lia|done|].
  rewrite (bind_done _ _ _ _ _ R1).
  assert (∃ hr2 taas, (if auth =? 0 then mret 0 else serval_sal_add_taas_ext auth) (SkBuff hr1 (l ++ d))
    = Done (Z.of_nat (taas_len auth), SkBuff hr2 (taas ++ l ++ d)) ∧ (12 <= length hr2)%nat ∧ bytes_ok hr2 ∧
      taas_shape auth taas) as (hr2 & taas & R2 & L2 & B2 & Ht).
  { unfold taas_shape, taas_len. destruct (auth =? 0).
    - exists hr1, []. split_and!; [done|lia|done|done].
    - destruct (add_taas_ext_pushes auth hr1 (l ++ d)) as (hr2 & x0 & x2 & x3 & R2 & L2 & B2 & X); [lia|done|].
      exists hr2, (taas_bytes auth x0 x2 x3). split_and!; [done|lia|done|eauto]. }
  rewrite (bind_done _ _ _ _ _ R2).
  destruct (headroom_split hr2 12) as (hr' & st & -> & Hst & _ & _ & _); [lia|done|].
  erewrite bind_done; [|apply (skb_push_run hr' st); rewrite Hst; done]. clear R1 R2.
  destruct (built_len_words h auth) as [-> _]. pose proof Hi as [[F1 _] [F2 _] _ _ _ _ _ _].
  do 12 (destruct st as [|? st]; [simpl in Hst; lia|]). destruct st; [|simpl in Hst; lia]. clear Hst.
  pose proof (put_bytes_run hr' [] [z; z0; z1; z2] ([z3; z4; z5; z6; z7; z8; z9; z10] ++ taas ++ l ++ d)
    (local_flowid h) ltac:(by rewrite F1)) as E1.
  pose proof (put_bytes_run hr' (local_flowid h) [z3; z4; z5; z6] ([z7; z8; z9; z10] ++ taas ++ l ++ d)
    (peer_flowid h) ltac:(by rewrite F2)) as E2. rewrite F1 in E2.
  pose proof (put8_run hr' ((local_flowid h ++ peer_flowid h) ++ [z7]) z8 (z9 :: z10 :: taas ++ l ++ d)
    (λ _, sk_protocol h)) as E3.
  pose proof (put8_run hr' (local_flowid h ++ peer_flowid h) z7 (sk_protocol h :: z9 :: z10 :: taas ++ l ++ d)
    (λ _, built_len h auth / 4)) as E4.
  rewrite !length_app, F1, F2, <-!app_assoc in E3. rewrite !length_app, F1, F2, <-!app_assoc in E4.
  rewrite (bind_done _ _ _ _ _ E1), (bind_done _ _ _ _ _ E2), (bind_done _ _ _ _ _ E3).
  exists hr', taas, l, z9, z10. split_and!; [|done|done].
  unfold base_front. rewrite <-!app_assoc. exact E4.
Qed.

Lemma send_check_run hr h auth y0 y1 body d addr :
  info_ok h → bytes_ok body → Z.of_nat (length body) + 12 = built_len h auth →
  ∃ ck, serval_sal_send_check addr (SkBuff hr (base_front h auth ++ [y0; y1] ++ body ++ d))
      = Done (tt, SkBuff hr (base_front h auth ++ [ck mod 256; ck / 256] ++ body ++ d)) ∧
    0 <= ck <= 65535 ∧
    ∀ addr', ip_compute_csum addr' (base_front h auth ++ [ck mod 256; ck / 256] ++ body ++ d) (built_len h auth) = Some 0.
Proof.
  intros Hi Hb Hl. pose proof Hi as [[F1 G1] [F2 G2] _ _ _ _ _ Hp].
  destruct (built_len_words h auth) as (_ & Hw & Hr).
  assert (Hfl : length (base_front h auth) = 10%nat) by (unfold base_front; rewrite !length_app, F1, F2; done).
  assert (Hfb : bytes_ok (base_front h auth)).
  { unfold base_front. rewrite !bytes_ok_app. split_and!; [done|done|]. constructor; [lia|]. by constructor. }
  destruct (checksum_roundtrip_spec addr 0 (base_front h auth) body d d) as (ck & H1 & H2 & _);
    [by rewrite Hfl; exists 5%nat|done|done|].
  exists ck. split_and!; [|lia|lia|].
  - pose proof (put_bytes_run hr (base_front h auth) [y0; y1] (body ++ d) [0; 0] eq_refl) as E1.
    pose proof (put_bytes_run hr (base_front h auth) [0; 0] (body ++ d) [ck mod 256; ck / 256] eq_refl) as E2.
    rewrite Hfl in E1, E2. unfold serval_sal_send_check. rewrite (bind_done _ _ _ _ _ E1).
    rewrite (bind_done _ _ _ (built_len h auth / 4) (SkBuff hr (base_front h auth ++ [0; 0] ++ body ++ d))).
    2: { unfold base_front. simpl. rewrite <-!app_assoc.
         rewrite lookup_app_r, lookup_app_r by lia. rewrite F1, F2. done. }
    erewrite bind_done; [|done]. cbn [data]. unfold serval_sal_csum.
    rewrite Z.shiftl_mul_pow2, Z.mul_comm by lia. change (2 ^ 2) with 4. rewrite Hw.
    replace (Z.of_nat (length (base_front h auth) + (2 + length body))) with (built_len h auth) in H1 by lia.
    rewrite H1. erewrite bind_done; [|done]. exact E2.
  - intros addr'. destruct (checksum_roundtrip_spec addr addr' (base_front h auth) body d d) as (ck' & H1' & _ & H3);
      [by rewrite Hfl; exists 5%nat|done|done|].
    replace (Z.of_nat (length (base_front h auth) + (2 + length body))) with (built_len h auth) in * by lia.
    congruence.
Qed.

Lemma memcmp_at_run a l b o c :
  o = Z.of_nat (length a) → memcmp_at (a ++ l ++ b) o l c = Done (true, c).
Proof.
  revert a o. induction l as [|x l IH]; intros a o Ho; [done|]. simpl.
  erewrite bind_done; [|rewrite <-(Z.add_0_r o); by eapply get8_at]. rewrite Z.eqb_refl.
  replace (a ++ x :: l ++ b) with ((a ++ [x]) ++ l ++ b) by (by rewrite <-app_assoc).
  apply IH. rewrite length_app. simpl. lia.
Qed.

(** The control extension that is built has the right nonce. *)
Lemma built_ctrl_valid pre h x0 x2 x3 post o c :
  o = Z.of_nat (length pre) → ctrl_ext c = Some o → 32 <= ctx_length c →
  has_valid_control_extension (pre ++ ctrl_bytes h x0 x2 x3 ++ post) (local_nonce h) c = Done (true, c).
Proof.
  intros Ho Hc Hl. unfold has_valid_control_extension. erewrite bind_done; [|done]. unfold id. rewrite Hc.
  change (SAL_HEADER_LEN + min_ext_length SAL_CONTROL_EXT) with 32.
  destruct (Z.ltb_spec (ctx_length c) 32); [lia|].
  assert (Ht : ext_type (pre ++ ctrl_bytes h x0 x2 x3 ++ post) o c = Done (SAL_CONTROL_EXT, c)).
  { unfold ext_type. erewrite bind_done; [|rewrite <-(Z.add_0_r o); by eapply get8_at].
    rewrite type_of_set_type; [done|by split]. }
  rewrite (bind_done _ _ _ _ _ Ht). erewrite bind_done; [|by eapply get8_at].
  change (min_ext_length SAL_CONTROL_EXT) with SAL_CONTROL_EXT_LEN. rewrite !Z.eqb_refl. cbn [negb orb].
  erewrite bind_done; [|by eapply get8_at]. destruct (Z.testbit (flag_byte h x2) 7); [done|].
  unfold ctrl_bytes.
  replace (pre ++ _) with ((pre ++ [set_type SAL_CONTROL_EXT x0; SAL_CONTROL_EXT_LEN; flag_byte h x2; x3] ++
    be32 (cb_verno h) ++ be32 (rcv_nxt h)) ++ local_nonce h ++ post) by (simpl; by rewrite <-!app_assoc).
  apply memcmp_at_run. rewrite length_app. simpl. lia.
Qed.

Lemma rcv_parse_built base body post addr h auth taas l :
  info_ok h → taas_shape auth taas → tail_shape h l → body = taas ++ l → length base = 12%nat →
  zget base 8 = Some (built_len h auth / 4) →
  ip_compute_csum addr (base ++ body ++ post) (built_len h auth) = Some 0 →
  serval_sal_rcv_parse addr (base ++ body ++ post) = Done (Some (expected_context h auth)).
Proof.
  intros Hi Ht Hl -> Hb H8 Hck. destruct (built_len_words h auth) as (_ & Hw & Hr).
  pose proof (tail_shape_length _ _ Hi Hl) as L1. pose proof (taas_shape_length _ _ Ht) as L2.
  assert (Hlen : Z.of_nat (length (base ++ (taas ++ l) ++ post)) = built_len h auth + Z.of_nat (length post)).
  { rewrite !length_app. unfold built_len. lia. }
  assert (Hg : zget (base ++ (taas ++ l) ++ post) 8 = Some (built_len h auth / 4)).
  { rewrite <-H8. unfold zget. simpl. apply lookup_app_l. simpl. lia. }
  assert (Hsh : Z.shiftl (built_len h auth / 4) 2 = built_len h auth).
  { rewrite Z.shiftl_mul_pow2 by lia. change (2 ^ 2) with 4. lia. }
  unfold serval_sal_rcv_parse, serval_sal_parse_hdr. rewrite Hlen, Hg, Hsh. unfold SAL_HEADER_LEN.
  destruct (Z.ltb_spec (built_len h auth + Z.of_nat (length post)) 12); [lia|].
  destruct (Z.ltb_spec (built_len h auth + Z.of_nat (length post)) (built_len h auth)); [lia|].
  rewrite andb_false_r, wrap_small by lia. cbn [ctx_length empty_context].
  destruct (Z.ltb_spec (built_len h auth) 12); [lia|].
  pose proof (parse_built base taas l h auth post Hi Ht Hl Hb) as Hp. fold (built_len h auth) in Hp.
  replace (Z.of_nat (length (taas ++ l))) with (built_len h auth - 12) in Hp
    by (rewrite length_app; unfold built_len; lia).
  unfold SAL_HEADER_LEN in Hp. rewrite Hp. simpl negb. cbn iota. unfold serval_sal_csum.
  replace (ctx_length (expected_context h auth)) with (built_len h auth); [by rewrite Hck|].
  unfold expected_context, built_len. by destruct (has_ctrl h), (init_dgram h).
Qed.

Lemma srv_slice (a b : list Z) srvid x0 x2 x3 o :
  length srvid = 32%nat → o = Z.of_nat (length a) →
  take 32 (drop (Z.to_nat o + 4) (a ++ srv_bytes srvid x0 x2 x3 ++ b)) = srvid.
Proof.
  intros Hs ->. rewrite Nat2Z.id, <-drop_drop, drop_app_length. simpl. rewrite <-Hs. apply take_app_length.
Qed.

(** C4: a header that [serval_sal_build_header] and [serval_sal_send_check]
    put in front of a packet is accepted by the receiver, whatever the bytes
    that were in the headroom and the alignment at either end.  The context
    has the flags, version and acknowledgement numbers of the sender, the
    control extension passes the test of its nonce, the first service
    extension holds the identifier of the peer's service, and the payload
    follows the header untouched. *)
Theorem sal_header_roundtrip h auth hr payload addr addr' :
  info_ok h → (96 <= length hr)%nat → bytes_ok hr →
  ∃ hr' hdr,
    (_ ← serval_sal_build_header h auth; serval_sal_send_check addr) (SkBuff hr payload)
      = Done (tt, SkBuff hr' (hdr ++ payload)) ∧
    Z.of_nat (length hdr) = ctx_length (expected_context h auth) ∧
    serval_sal_rcv_parse addr' (hdr ++ payload) = Done (Some (expected_context h auth)) ∧
    (has_ctrl h = true →
      has_valid_control_extension (hdr ++ payload) (local_nonce h) (expected_context h auth)
        = Done (true, expected_context h auth)) ∧
    (∀ o, srv_ext0 (expected_context h auth) = Some o → take 32 (drop (Z.to_nat o + 4) hdr) = peer_srvid h).
Proof.
  intros Hi Hh Hok.
  destruct (build_header_run h auth hr payload Hi Hh Hok) as (hr' & taas & l & y0 & y1 & Hrun & Ht & Hl).
  pose proof (tail_shape_length _ _ Hi Hl) as L1. pose proof (taas_shape_length _ _ Ht) as L2.
  destruct (send_check_run hr' h auth y0 y1 (taas ++ l) payload addr Hi) as (ck & Hck & Hrng & Hsum).
  { apply bytes_ok_app. split; [by eapply taas_bytes_ok|by eapply tail_bytes_ok]. }
  { rewrite length_app. unfold built_len. lia. }
  set (base := base_front h auth ++ [ck mod 256; ck / 256]).
  pose proof Hi as [[F1 _] [F2 _] _ [Hp _] _ _ _ _].
  assert (Hb : length base = 12%nat) by (unfold base, base_front; rewrite !length_app, F1, F2; done).
  exists hr', (base ++ taas ++ l).
  assert (Hassoc : ∀ d, (base ++ taas ++ l) ++ d = base_front h auth ++ [ck mod 256; ck / 256] ++ (taas ++ l) ++ d).
  { intros d. unfold base. by rewrite <-!app_assoc. }
  split_and!.
  - rewrite (bind_done _ _ _ _ _ Hrun), Hassoc. exact Hck.
  - rewrite !length_app, L1, L2, Hb. unfold expected_context. destruct (has_ctrl h), (init_dgram h); simpl ctx_length; lia.
  - rewrite <-app_assoc. eapply rcv_parse_built; [done|done|done|done|done| |].
    + unfold base, base_front. rewrite <-!app_assoc. unfold zget. simpl.
      change (Pos.to_nat 8) with 8%nat. rewrite lookup_app_r, lookup_app_r by lia. by rewrite F1, F2.
    + unfold base. rewrite <-app_assoc. apply Hsum.
  - intros Hc. unfold tail_shape in Hl. rewrite Hc in Hl. destruct Hl as (x0 & x2 & x3 & s & -> & _ & _).
    rewrite <-!app_assoc, (app_assoc base). apply built_ctrl_valid with (o := 12 + Z.of_nat (taas_len auth)).
    + rewrite length_app. lia.
    + unfold expected_context. by rewrite Hc.
    + unfold expected_context, tail_len. rewrite Hc. simpl ctx_length. destruct (with_srv h); lia.
  - intros o. unfold expected_context, tail_shape in *. destruct (has_ctrl h).
    + destruct Hl as (x0 & x2 & x3 & s & -> & _ & Hs). cbn [srv_ext0]. destruct (with_srv h); [|done]. intros [= <-].
      destruct Hs as (z0 & z2 & z3 & -> & _). pose proof Hi as [_ _ _ _ [Hn _] _ _ _].
      assert (E := srv_slice (base ++ taas ++ ctrl_bytes h x0 x2 x3) [] (peer_srvid h) z0 z2 z3
        (12 + Z.of_nat (taas_len auth) + 20) Hp). rewrite app_nil_r, <-!app_assoc in E. apply E.
      rewrite !length_app, Hb, L2. simpl. lia.
    + destruct (init_dgram h); [|done]. simpl. intros [= <-].
      destruct Hl as (x0 & x2 & x3 & z0 & z2 & z3 & -> & _). rewrite (app_assoc base).
      apply srv_slice; [done|]. rewrite length_app. lia.
Qed.

(** ** Concrete headers *)

(** A connection request with a tag of the transit service. *)
Definition demo_info : hdr_info :=
  HdrInfo [1; 2; 3; 4] [5; 6; 7; 8] (replicate 32 17) (replicate 32 34) (replicate 8 9) 700 false 6 1 4711.

Lemma demo_info_ok : info_ok demo_info.
Proof. split; cbn; try (split; [done|]); try (by repeat (constructor; [lia|])); lia. Qed.

(** A header with a control extension and three bytes of room for padding, and
    some payload. *)
Definition demo_packet : list Z :=
  [1; 2; 3; 4; 5; 6; 7; 8; 9; 6; 0; 0] ++ [0; 0; 0; 0] ++
  [16; 20; 128; 0; 0; 0; 18; 103; 0; 0; 2; 188] ++ replicate 8 9 ++ replicate 16 0.

Lemma demo_packet_ok : bytes_ok demo_packet.
Proof. unfold demo_packet, bytes_ok. simpl. repeat (constructor; [lia|]). constructor. Qed.

Definition demo_context : sal_context :=
  SalContext 36 1 4711 700 [12; 13; 14; 15; 16] (Some 16) None None None None.

Lemma demo_parse : serval_sal_parse_hdr demo_packet SAL_PARSE_ALL = Done (0, demo_context).
Proof. by vm_compute. Qed.

Lemma serval_sal_parse_hdr_sound_witness :
  ctx_ok demo_packet (ctx_length demo_context) demo_context ∧ ctx_verno demo_context = 4711.
Proof.
  destruct (serval_sal_parse_hdr_sound demo_packet demo_context demo_packet_ok demo_parse) as (shl & _ & _ & H & _).
  split; [exact H|reflexivity].
Defined.

Lemma serval_sal_parse_hdr_reads_witness :
  (∃ r c, serval_sal_parse_hdr demo_packet SAL_PARSE_ALL = Done (r, c)) ∧
  serval_sal_rcv_parse 0 short_packet = Fault.
Proof. apply (serval_sal_parse_hdr_reads demo_packet 9 demo_packet_ok); [reflexivity|]. by vm_compute. Defined.

Lemma sal_header_roundtrip_witness :
  ∃ hr' hdr,
    (_ ← serval_sal_build_header demo_info 99; serval_sal_send_check 0) (SkBuff (replicate 100 170) [1; 2; 3])
      = Done (tt, SkBuff hr' (hdr ++ [1; 2; 3])) ∧
    serval_sal_rcv_parse 1 (hdr ++ [1; 2; 3]) = Done (Some (expected_context demo_info 99)).
Proof.
  destruct (sal_header_roundtrip demo_info 99 (replicate 100 170) [1; 2; 3] 0 1 demo_info_ok)
    as (hr' & hdr & H1 & _ & H2 & _).
  - rewrite length_replicate. lia.
  - apply Forall_replicate. lia.
  - exists hr', hdr. split; [exact H1|exact H2].
Defined.
