(* ===== verification/DelayQueue.v ===== *)
(** * The queue of delayed packets ([src/stack/delay_queue.c])

    Packets that resolve to a DELAY rule wait here until the service router
    gives a verdict.  The state holds the file's static variables, the live
    buffers with the socket that owns them, and the live sockets with their
    reference counts.  Whether [kmalloc] succeeds and what [ctrl_sendmsg]
    returns are arguments, and so are the two functions of the SAL that a
    released packet is given to, which are not modelled: nothing is assumed of
    them.  Taking the queue's lock while it is held never returns: a [Fault]. *)
From S2P Require Import Prelude.

Local Open Scope Z_scope.

Abbreviation loc := nat.

Definition DELAY_QUEUE_MAX_DEFAULT : Z := 1024.
Definition ENOMEM : Z := 12.
Definition ENOSPC : Z := 28.
Definition EHOSTUNREACH : Z := 113.


Record delay_entry := DelayEntry { de_id : Z; de_skb : loc; de_sk : option loc }.

Record sock := Sock { sk_refcnt : Z; sock_dead : bool }.

(** A packet buffer: its socket, and whether its destructor is
    [serval_sock_wfree], which gives up a reference to the socket
    ([skb_serval_set_owner_w] took it); other destructors do not. *)
Record sk_buff := Skb { skb_sk : option loc; skb_wfree : bool }.
Definition skb_ref (x : sk_buff) : option loc := if skb_wfree x then skb_sk x else None.

(** [notes] are the notifications sent to the service router (peer, packet,
    service). *)
Record dq := DQ {
  delay_queue : list delay_entry;
  peer_pid : Z;
  queue_id : Z;
  queue_total : Z;
  queue_dropped : Z;
  queue_maxlen : Z;
  queue_lock : bool;
  skbs : gmap loc sk_buff;
  socks : gmap loc sock;
  notes : list (Z * Z * Z)
}.

Definition set_queue f s := DQ (f (delay_queue s)) (peer_pid s) (queue_id s) (queue_total s) (queue_dropped s)
  (queue_maxlen s) (queue_lock s) (skbs s) (socks s) (notes s).
Definition set_peer p s := DQ (delay_queue s) p (queue_id s) (queue_total s) (queue_dropped s)
  (queue_maxlen s) (queue_lock s) (skbs s) (socks s) (notes s).
Definition set_id f s := DQ (delay_queue s) (peer_pid s) (u32 (f (queue_id s))) (queue_total s) (queue_dropped s)
  (queue_maxlen s) (queue_lock s) (skbs s) (socks s) (notes s).
Definition set_total f s := DQ (delay_queue s) (peer_pid s) (queue_id s) (u32 (f (queue_total s))) (queue_dropped s)
  (queue_maxlen s) (queue_lock s) (skbs s) (socks s) (notes s).
Definition set_dropped f s := DQ (delay_queue s) (peer_pid s) (queue_id s) (queue_total s) (u32 (f (queue_dropped s)))
  (queue_maxlen s) (queue_lock s) (skbs s) (socks s) (notes s).
Definition set_lock b s := DQ (delay_queue s) (peer_pid s) (queue_id s) (queue_total s) (queue_dropped s)
  (queue_maxlen s) b (skbs s) (socks s) (notes s).
Definition set_skbs f s := DQ (delay_queue s) (peer_pid s) (queue_id s) (queue_total s) (queue_dropped s)
  (queue_maxlen s) (queue_lock s) (f (skbs s)) (socks s) (notes s).
Definition set_socks f s := DQ (delay_queue s) (peer_pid s) (queue_id s) (queue_total s) (queue_dropped s)
  (queue_maxlen s) (queue_lock s) (skbs s) (f (socks s)) (notes s).
Definition add_note n s := DQ (delay_queue s) (peer_pid s) (queue_id s) (queue_total s) (queue_dropped s)
  (queue_maxlen s) (queue_lock s) (skbs s) (socks s) (notes s ++ [n]).

Ltac dq_simpl :=
  lazy beta iota zeta delta [set_queue set_peer set_id set_total set_dropped set_lock set_skbs set_socks add_note
    delay_queue peer_pid queue_id queue_total queue_dropped queue_maxlen queue_lock skbs socks notes
    de_sk de_skb de_id].

(** ** Sockets, buffers and the lock *)

Definition sock_hold (k : loc) : M dq unit :=
  λ s, match socks s !! k with
       | Some so => Done (tt, set_socks <[k := Sock (s32 (sk_refcnt so + 1)) (sock_dead so)]> s)
       | None => Fault
       end.

(** The last reference frees the socket. *)
Definition sock_put (k : loc) : M dq unit :=
  λ s, match socks s !! k with
       | Some so =>
           let n := s32 (sk_refcnt so - 1) in
           Done (tt, set_socks (if n =? 0 then delete k else <[k := Sock n (sock_dead so)]>) s)
       | None => Fault
       end.

(** Only a live buffer can be freed (the queue holds its only reference); its
    destructor is run. *)
Definition kfree_skb (b : loc) : M dq unit :=
  o ← gets (λ s, skbs s !! b);
  x ← deref o;
  _ ← match skb_ref x with Some k => sock_put k | None => mret tt end;
  modify (set_skbs (delete b)).

Definition spin_lock_bh : M dq unit :=
  λ s, if queue_lock s then Fault else Done (tt, set_lock true s).
Definition spin_unlock_bh : M dq unit := modify (set_lock false).

(** ** The queue *)

Definition delay_queue_add (de : delay_entry) : M dq unit :=
  _ ← modify (set_queue (λ q, q ++ [de])); modify (set_total (λ n, n + 1)).


Definition delay_entry_free (de : delay_entry) : M dq unit :=
  match de_sk de with Some k => sock_put k | None => mret tt end.

(** [__delay_queue_purge_sock]: [None] is [NULL], which matches every
    entry. *)
Fixpoint purge_loop (sk : option loc) (before q : list delay_entry) : M dq unit :=
  match q with
  | [] => mret tt
  | e :: q' =>
      if bool_decide (sk = None) || bool_decide (sk = de_sk e) then
        _ ← modify (set_queue (λ _, before ++ q'));
        _ ← modify (set_total (λ n, n - 1));
        _ ← kfree_skb (de_skb e);
        _ ← delay_entry_free e;
        _ ← modify (set_dropped (λ n, n + 1));
        purge_loop sk before q'
      else purge_loop sk (before ++ [e]) q'
  end.
Definition delay_queue_purge_sock_nolock (sk : option loc) : M dq unit :=
  q ← gets delay_queue; purge_loop sk [] q.
Definition delay_queue_purge_sock (sk : option loc) : M dq unit :=
  _ ← spin_lock_bh; _ ← delay_queue_purge_sock_nolock sk; spin_unlock_bh.

Definition delay_queue_reset : M dq unit :=
  _ ← delay_queue_purge_sock_nolock None; modify (set_peer 0).

(** The error path of [delay_queue_skb]. *)
Definition err_out_drop (b : loc) (de : delay_entry) (ret : Z) : M dq Z :=
  _ ← spin_unlock_bh;
  _ ← kfree_skb b;
  _ ← delay_entry_free de;
  _ ← modify (set_dropped (λ n, n + 1));
  mret ret.

(** [delay_queue_skb]; [send] is what [ctrl_sendmsg] returns.  [skb] may be
    [NULL]; the user-level [kfree_skb] reads the counter of the buffer without
    testing for that, so without memory this is a fault too. *)
Definition delay_queue_skb (ok : bool) (send : Z) (skb : option loc) (srvid : Z) : M dq Z :=
  if negb ok then _ ← (b ← deref skb; kfree_skb b); mret (- ENOMEM)
  else
    b ← deref skb;
    x ← gets (λ s, skbs s !! b);
    x ← deref x;
    id ← gets queue_id;
    _ ← modify (set_id (λ n, n + 1));
    let de := DelayEntry id b (skb_sk x) in
    _ ← match skb_sk x with Some k => sock_hold k | None => mret tt end;
    _ ← spin_lock_bh;
    s ← gets (λ s, s);
    if queue_maxlen s <=? queue_total s then err_out_drop b de (- ENOSPC)
    else
      _ ← modify (add_note (peer_pid s, id, srvid));
      if negb (send =? 0) then err_out_drop b de (- EHOSTUNREACH)
      else
        _ ← delay_queue_add de;
        _ ← spin_unlock_bh;
        mret 0.

(** Released packets go to [serval_sal_xmit_skb] or [serval_sal_reresolve]. *)
Section verdict.
Context (serval_sal_xmit_skb serval_sal_reresolve : loc → M dq unit).



End verdict.

Definition delay_queue_init : M dq Z := _ ← modify (set_peer 0); mret 0.
Definition delay_queue_fini : M dq unit := delay_queue_reset.

(** The state at start-up. *)
Definition dq_start (bs : gmap loc sk_buff) (ks : gmap loc sock) : dq :=
  DQ [] 0 0 0 0 DELAY_QUEUE_MAX_DEFAULT false bs ks [].

(** ** The invariant *)

(** The number of entries of the queue that hold the socket [k]. *)
Definition holds (k : loc) (q : list delay_entry) : nat :=
  length (filter (λ e, de_sk e = Some k) q).

(** The number of live buffers that have a reference to the socket [k]. *)
Definition owned (k : loc) (m : gmap loc sk_buff) : nat :=
  map_fold (λ _ x n, ((if decide (skb_ref x = Some k) then 1 else 0) + n)%nat) 0%nat m.

(** The references that the queue and the buffers have to a socket. *)
Definition need (s : dq) (k : loc) : nat := (holds k (delay_queue s) + owned k (skbs s))%nat.

(** Every socket has at least the references that are needed. *)
Definition covers (f : loc → nat) (m : gmap loc sock) : Prop :=
  ∀ k, (0 < f k)%nat → ∃ so, m !! k = Some so ∧ Z.of_nat (f k) <= sk_refcnt so < 2 ^ 31.

(** The counter is the length, which is at most the limit; every entry has its
    own live buffer and the socket that owns it, and each socket has a
    reference for every entry that names it and every buffer that will give
    one up. *)
Record dq_ok (s : dq) : Prop := {
  dq_total : queue_total s = Z.of_nat (length (delay_queue s));
  dq_limit : queue_total s <= queue_maxlen s < 2 ^ 32;
  dq_nodup : NoDup (de_skb <$> delay_queue s);
  dq_live : ∀ e, e ∈ delay_queue s → skb_sk <$> skbs s !! de_skb e = Some (de_sk e);
  dq_refs : covers (need s) (socks s);
  dq_free : queue_lock s = false
}.

Lemma owned_insert k m b x :
  m !! b = None →
  owned k (<[b := x]> m) = ((if decide (skb_ref x = Some k) then 1 else 0) + owned k m)%nat.
Proof. intros Hb. unfold owned. rewrite map_fold_insert_L; [done|intros; lia|done]. Qed.

Lemma owned_delete k m b x :
  m !! b = Some x →
  owned k m = ((if decide (skb_ref x = Some k) then 1 else 0) + owned k (delete b m))%nat.
Proof.
  intros Hb. rewrite <-(insert_id m b x) at 1 by done. rewrite <-insert_delete_eq. apply owned_insert, lookup_delete_eq.
Qed.

Lemma holds_app k q1 q2 : holds k (q1 ++ q2) = (holds k q1 + holds k q2)%nat.
Proof. unfold holds. by rewrite filter_app, length_app. Qed.

Lemma holds_cons k e q :
  holds k (e :: q) = ((if decide (de_sk e = Some k) then 1 else 0) + holds k q)%nat.
Proof. unfold holds. rewrite filter_cons. by destruct (decide (de_sk e = Some k)). Qed.

(** The sockets without one reference to [k]. *)
Definition put_sock (o : option loc) (m : gmap loc sock) : gmap loc sock :=
  match o with
  | None => m
  | Some k => match m !! k with
              | Some so => if sk_refcnt so - 1 =? 0 then delete k m
                           else <[k := Sock (sk_refcnt so - 1) (sock_dead so)]> m
              | None => m
              end
  end.
Definition hold_sock (o : option loc) (m : gmap loc sock) : gmap loc sock :=
  match o with
  | None => m
  | Some k => alter (λ so, Sock (sk_refcnt so + 1) (sock_dead so)) k m
  end.

(** The socket [o], if any, is live and its counter is in range. *)
Definition sock_live (o : option loc) (m : gmap loc sock) : Prop :=
  ∀ k, o = Some k → ∃ so, m !! k = Some so ∧ 0 < sk_refcnt so < 2 ^ 31.

Lemma sock_put_run o s :
  sock_live o (socks s) →
  match o with Some k => sock_put k | None => mret tt end s = Done (tt, set_socks (put_sock o) s).
Proof.
  intros Hl. unfold put_sock. destruct o as [k|]; [|by destruct s].
  destruct (Hl k eq_refl) as (so & Hk & Hr). unfold sock_put. rewrite Hk.
  rewrite swrap_small by lia. unfold set_socks. rewrite Hk. by destruct (sk_refcnt so - 1 =? 0).
Qed.

Lemma delay_entry_free_run e s :
  sock_live (de_sk e) (socks s) →
  delay_entry_free e s = Done (tt, set_socks (put_sock (de_sk e)) s).
Proof. apply sock_put_run. Qed.

(** The references after one was dropped or taken. *)
Lemma covers_live f m o : covers f m → (∀ k, o = Some k → (0 < f k)%nat) → sock_live o m.
Proof. intros Hc Ho k Hk. destruct (Hc k (Ho k Hk)) as (so & Hso & Hr). specialize (Ho k Hk). exists so. split; [done|lia]. Qed.

Lemma covers_put f f' m o :
  covers f m → (∀ k, f' k + (if decide (o = Some k) then 1 else 0) <= f k)%nat → covers f' (put_sock o m).
Proof.
  intros Hc Hf k Hk. specialize (Hf k). destruct (Hc k) as (so & Hso & Hr); [lia|].
  destruct o as [j|]; simpl in *; [|exists so; split; [done|lia]].
  destruct (decide (Some j = Some k)) as [[= ->]|Hne].
  - rewrite Hso. destruct (Z.eqb_spec (sk_refcnt so - 1) 0); [lia|]. rewrite lookup_insert_eq. eexists.
    split; [done|]. simpl. lia.
  - exists so. split; [|lia]. assert (j ≠ k) by congruence. destruct (m !! j) as [sj|] eqn:Hj; [|done].
    destruct (sk_refcnt sj - 1 =? 0); [by rewrite lookup_delete_ne|by rewrite lookup_insert_ne].
Qed.

Lemma covers_hold f f' m o :
  covers f m → (∀ k, o = Some k → ∃ so, m !! k = Some so ∧ Z.of_nat (f k) <= sk_refcnt so < 2 ^ 31 - 1) →
  (∀ k, f' k <= f k + (if decide (o = Some k) then 1 else 0))%nat → covers f' (hold_sock o m).
Proof.
  intros Hc Ho Hf k Hk. specialize (Hf k). destruct o as [j|]; simpl in *.
  - destruct (decide (Some j = Some k)) as [[= ->]|Hne].
    + destruct (Ho k eq_refl) as (so & Hso & Hlt).
      rewrite lookup_alter_eq, Hso. eexists. split; [done|]. simpl. lia.
    + rewrite lookup_alter_ne by congruence. destruct (Hc k) as (so & Hso & Hr); [lia|]. exists so. split; [done|lia].
  - destruct (Hc k) as (so & Hso & Hr); [lia|]. exists so. split; [done|lia].
Qed.

Lemma sock_hold_run o s :
  (∀ k, o = Some k → ∃ so, socks s !! k = Some so ∧ 0 < sk_refcnt so < 2 ^ 31 - 1) →
  match o with Some k => sock_hold k | None => mret tt end s = Done (tt, set_socks (hold_sock o) s).
Proof.
  intros Hl. destruct o as [k|]; [|by destruct s]. destruct (Hl k eq_refl) as (so & Hk & Hr).
  unfold sock_hold. rewrite Hk, swrap_small by lia. unfold set_socks. do 3 f_equal. simpl.
  apply map_eq. intros q. destruct (decide (q = k)) as [->|Hq].
  - by rewrite lookup_insert_eq, lookup_alter_eq, Hk.
  - by rewrite lookup_insert_ne, lookup_alter_ne by done.
Qed.

(** A reference that is taken and dropped leaves no trace. *)
Lemma put_hold_sock o m : sock_live o m → put_sock o (hold_sock o m) = m.
Proof.
  intros Hl. destruct o as [k|]; [|done]. destruct (Hl k eq_refl) as (so & Hk & Hr). simpl.
  rewrite lookup_alter_eq, Hk. simpl. destruct (Z.eqb_spec (sk_refcnt so + 1 - 1) 0); [lia|].
  apply map_eq. intros q. destruct (decide (q = k)) as [->|Hq].
  - rewrite lookup_insert_eq, Hk. f_equal. destruct so. simpl. f_equal. lia.
  - by rewrite lookup_insert_ne, lookup_alter_ne by done.
Qed.

(** The state without the buffer [b], which was [x]. *)
Definition free_buf (b : loc) (x : sk_buff) (s : dq) : dq :=
  set_skbs (delete b) (set_socks (put_sock (skb_ref x)) s).

Lemma kfree_skb_run b s x :
  skbs s !! b = Some x → sock_live (skb_ref x) (socks s) → kfree_skb b s = Done (tt, free_buf b x s).
Proof.
  intros H Hl. unfold kfree_skb. erewrite bind_done; [|done]. rewrite H. erewrite bind_done; [|done].
  erewrite bind_done; [|by apply sock_put_run]. done.
Qed.

Lemma skb_ref_sk x k : skb_ref x = Some k → skb_sk x = Some k.
Proof. unfold skb_ref. by destruct (skb_wfree x). Qed.

Lemma skb_ref_live x m : sock_live (skb_sk x) m → sock_live (skb_ref x) m.
Proof. intros Hl k Hk%skb_ref_sk. by apply Hl. Qed.

(** ** Queueing a packet *)

(** The ways [delay_queue_skb] ends: no memory, no room, no listener, queued;
    [x] is the buffer [b]. *)
Definition queue_outcome (ok : bool) (send : Z) (b : loc) (x : sk_buff) (srvid : Z) (s : dq) : Z * dq :=
  if negb ok then (- ENOMEM, free_buf b x s)
  else
    let s1 := set_id (λ n, n + 1) s in
    let drop s := set_dropped (λ n, n + 1) (free_buf b x s) in
    if queue_maxlen s <=? queue_total s then (- ENOSPC, drop s1)
    else
      let s2 := add_note (peer_pid s, queue_id s, srvid) s1 in
      if negb (send =? 0) then (- EHOSTUNREACH, drop s2)
      else (0, set_total (λ n, n + 1) (set_queue (λ q, q ++ [DelayEntry (queue_id s) b (skb_sk x)])
                (set_socks (hold_sock (skb_sk x)) s2))).

Lemma dq_ok_freed s s' b x :
  dq_ok s → skbs s !! b = Some x → b ∉ de_skb <$> delay_queue s → delay_queue s' = delay_queue s →
  queue_total s' = queue_total s → queue_maxlen s' = queue_maxlen s → queue_lock s' = queue_lock s →
  socks s' = put_sock (skb_ref x) (socks s) → skbs s' = delete b (skbs s) → dq_ok s'.
Proof.
  intros [H1 H2 H3 H4 H5 H6] Hbo Hb Hq Ht Hm Hl Hs Hk. split; rewrite ?Hq, ?Ht, ?Hm, ?Hl, ?Hs, ?Hk; auto.
  - intros e He. rewrite lookup_delete_ne; [by apply H4|]. intros ->. apply Hb, list_elem_of_fmap. eauto.
  - eapply covers_put; [done|]. intros k. unfold need. rewrite Hq, Hk, (owned_delete k _ _ _ Hbo). lia.
Qed.

(** The reference that the entry took is not the last one when the buffer has
    given up its own. *)
Lemma put_put_hold x m :
  sock_live (skb_sk x) m → sock_live (skb_sk x) (hold_sock (skb_sk x) m) →
  sock_live (skb_sk x) (put_sock (skb_ref x) (hold_sock (skb_sk x) m)) ∧
  put_sock (skb_sk x) (put_sock (skb_ref x) (hold_sock (skb_sk x) m)) = put_sock (skb_ref x) m.
Proof.
  intros Hl Hl2. unfold skb_ref. destruct (skb_wfree x).
  - by rewrite put_hold_sock.
  - split; [done|]. by apply put_hold_sock.
Qed.

Lemma hold_sock_live o m :
  (∀ k, o = Some k → ∃ so, m !! k = Some so ∧ 0 < sk_refcnt so < 2 ^ 31 - 1) →
  sock_live o (hold_sock o m) ∧ sock_live o m.
Proof.
  intros Hl. split; intros k ->; destruct (Hl k eq_refl) as (so & Hk & Hr).
  - exists (Sock (sk_refcnt so + 1) (sock_dead so)). simpl. rewrite lookup_alter_eq, Hk. split; [done|]. simpl. lia.
  - exists so. split; [done|lia].
Qed.

Lemma err_out_drop_run b de ret s x :
  skbs s !! b = Some x → sock_live (skb_ref x) (socks s) →
  sock_live (de_sk de) (put_sock (skb_ref x) (socks s)) →
  err_out_drop b de ret s = Done (ret, set_dropped (λ n, n + 1)
    (set_socks (put_sock (de_sk de)) (free_buf b x (set_lock false s)))).
Proof.
  intros Hb Hl Hl2. unfold err_out_drop. erewrite bind_done; [|done].
  erewrite bind_done; [|by eapply kfree_skb_run].
  by erewrite bind_done; [|by apply delay_entry_free_run].
Qed.

Lemma delay_queue_skb_run s ok send b x srvid :
  queue_lock s = false → skbs s !! b = Some x →
  (∀ k, skb_sk x = Some k → ∃ so, socks s !! k = Some so ∧ 0 < sk_refcnt so < 2 ^ 31 - 1) →
  delay_queue_skb ok send (Some b) srvid s = Done (queue_outcome ok send b x srvid s).
Proof.
  intros Hlk Hb Ho. destruct (hold_sock_live _ _ Ho) as [Hl1 Hl2]. destruct (put_put_hold _ _ Hl2 Hl1) as [Hl3 Epp].
  pose proof (skb_ref_live _ _ Hl1) as Hl4. pose proof (skb_ref_live _ _ Hl2) as Hl5.
  unfold delay_queue_skb, queue_outcome. destruct ok; cbn [negb].
  2:{ erewrite bind_done; [done|]. erewrite bind_done; [|done]. by apply kfree_skb_run. }
  do 2 (erewrite bind_done; [|done]). rewrite Hb. do 3 (erewrite bind_done; [|done]).
  erewrite bind_done; [|by apply sock_hold_run].
  erewrite bind_done; [|unfold spin_lock_bh; simpl; by rewrite Hlk].
  erewrite bind_done; [|done]. simpl. destruct (queue_maxlen s <=? queue_total s).
  - erewrite err_out_drop_run by done. destruct s. simpl in *. subst. unfold free_buf. dq_simpl. by rewrite Epp.
  - erewrite bind_done; [|done]. destruct (send =? 0); cbn [negb].
    + unfold delay_queue_add, spin_unlock_bh. munfold. destruct s. simpl in Hlk. by subst.
    + erewrite err_out_drop_run by done. destruct s. simpl in *. subst. unfold free_buf. dq_simpl. by rewrite Epp.
Qed.

(** C16: every call of [delay_queue_skb] on a live buffer ends in one of four
    ways.  Without memory, without room in the queue, or without a listener the
    buffer is freed exactly once, the socket loses the buffer's reference (if
    its destructor has one) and no other, and [ENOMEM], [ENOSPC] or
    [EHOSTUNREACH] is returned (the last two count as dropped); otherwise the
    router is told the packet's number, the packet is appended to the queue,
    and its socket is held once more.  The invariant, the limit on the queue
    included, is kept and the lock is free. *)
Theorem delay_queue_skb_correct s ok send b x srvid :
  dq_ok s → skbs s !! b = Some x → b ∉ de_skb <$> delay_queue s →
  (∀ k, skb_sk x = Some k → ∃ so, socks s !! k = Some so ∧ 0 < sk_refcnt so < 2 ^ 31 - 1) →
  delay_queue_skb ok send (Some b) srvid s = Done (queue_outcome ok send b x srvid s) ∧
  dq_ok (queue_outcome ok send b x srvid s).2.
Proof.
  intros Hok Hb Hnew Ho. split.
  { by apply delay_queue_skb_run; [apply Hok| |]. }
  unfold queue_outcome. destruct ok; cbn [negb]; [|by eapply dq_ok_freed].
  destruct (Z.leb_spec (queue_maxlen s) (queue_total s)); [by eapply dq_ok_freed|].
  destruct (send =? 0); cbn [negb]; [|by eapply dq_ok_freed].
  destruct Hok as [H1 H2 H3 H4 H5 H6]. split; simpl; [| | | | |done].
  - rewrite length_app, wrap_small by lia. simpl. lia.
  - rewrite wrap_small by lia. lia.
  - rewrite fmap_app. simpl. rewrite Permutation_app_comm. by constructor.
  - intros e [He| ->%list_elem_of_singleton]%elem_of_app; [by apply H4|]. simpl. by rewrite Hb.
  - eapply covers_hold; [done| |].
    + intros k Hk. destruct (Ho k Hk) as (so & Hso & Hr). exists so. split; [done|].
      destruct (need s k) eqn:Hn; [lia|]. destruct (H5 k) as (so' & Hso' & Hr'); [lia|]. simplify_eq. lia.
    + intros k. unfold need. simpl. rewrite holds_app, holds_cons. simpl. unfold holds at 2. simpl. lia.
Qed.

(** ** Verdicts *)





(** An entry leaves the queue and its reference is given up, with or without
    its buffer. *)
Lemma without_ok s s' l1 e l2 x (freed : bool) :
  dq_ok s → delay_queue s = l1 ++ e :: l2 → skbs s !! de_skb e = Some x → delay_queue s' = l1 ++ l2 →
  queue_total s' = u32 (queue_total s - 1) → queue_maxlen s' = queue_maxlen s → queue_lock s' = false →
  skbs s' = (if freed then delete (de_skb e) (skbs s) else skbs s) →
  socks s' = put_sock (de_sk e) (if freed then put_sock (skb_ref x) (socks s) else socks s) → dq_ok s'.
Proof.
  intros [H1 H2 H3 H4 H5 H6] Hq He Hq' Ht Hm Hl Hk Hs.
  rewrite Hq in *. rewrite fmap_app, fmap_cons, <-Permutation_middle in H3.
  apply NoDup_cons in H3 as [Hni Hnd]. rewrite length_app in H1. simpl in H1.
  split; rewrite ?Hq', ?Ht, ?Hm, ?Hl, ?Hs; [| | | | |done].
  - rewrite length_app, wrap_small by lia. lia.
  - rewrite wrap_small by lia. lia.
  - by rewrite fmap_app.
  - intros d Hd. assert (Hd' : skb_sk <$> skbs s !! de_skb d = Some (de_sk d)) by (apply H4; set_solver).
    rewrite Hk. destruct freed; [|done]. rewrite lookup_delete_ne; [done|]. intros Heq.
    apply Hni. rewrite Heq, <-fmap_app. apply list_elem_of_fmap. eauto.
  - assert (En : ∀ k, need s k = (holds k (l1 ++ l2) + (if decide (de_sk e = Some k) then 1 else 0) + owned k (skbs s))%nat).
    { intros k. unfold need. rewrite Hq, !holds_app, holds_cons. lia. }
    destruct freed.
    + eapply covers_put; [eapply (covers_put _ (λ k, (holds k (l1 ++ l2) + (if decide (de_sk e = Some k) then 1 else 0)
        + owned k (delete (de_skb e) (skbs s)))%nat)); [done|]|]; intros k.
      * rewrite En, (owned_delete k _ _ _ He). lia.
      * unfold need. rewrite Hq', Hk. lia.
    + eapply covers_put; [done|]. intros k. rewrite En. unfold need. rewrite Hq', Hk. lia.
Qed.

(** The buffer of an entry, and the references to its socket. *)
Lemma entry_sock_live s l1 e l2 :
  dq_ok s → delay_queue s = l1 ++ e :: l2 →
  ∃ x, skbs s !! de_skb e = Some x ∧ skb_sk x = de_sk e ∧ sock_live (de_sk e) (socks s) ∧
    sock_live (skb_ref x) (socks s) ∧ sock_live (de_sk e) (put_sock (skb_ref x) (socks s)).
Proof.
  intros Hok Hq. assert (He : skb_sk <$> skbs s !! de_skb e = Some (de_sk e)) by (apply (dq_live s Hok); rewrite Hq; set_solver).
  apply fmap_Some in He as (x & Hx & Hsk).
  assert (Hn : ∀ k, de_sk e = Some k → (0 < need s k - (if decide (skb_ref x = Some k) then 1 else 0))%nat).
  { intros k Hk. unfold need. rewrite Hq, holds_app, holds_cons, (owned_delete k _ _ _ Hx), (decide_True (P := de_sk e = Some k)) by done.
    case_decide; lia. }
  assert (sock_live (de_sk e) (socks s)) as Hl.
  { eapply covers_live; [apply (dq_refs s Hok)|]. intros k Hk. specialize (Hn k Hk). lia. }
  exists x. split_and!; [done|done|done|apply skb_ref_live; by rewrite <-Hsk|].
  eapply (covers_live (λ k, (need s k - (if decide (skb_ref x = Some k) then 1 else 0))%nat)); [|exact Hn].
  eapply covers_put; [apply (dq_refs s Hok)|]. intros k. destruct (decide (skb_ref x = Some k)) as [Hk|]; [|lia].
  unfold need. rewrite (owned_delete k _ _ _ Hx), decide_True by done. lia.
Qed.



Section verdict_correct.
Context (xmit reresolve : loc → M dq unit).



End verdict_correct.

(** ** Purging *)

(** The entries that a purge for the socket [sk] removes. *)
Definition purged (sk : option loc) (e : delay_entry) : bool :=
  bool_decide (sk = None) || bool_decide (sk = de_sk e).

Definition victims (sk : option loc) (q : list delay_entry) : list loc :=
  de_skb <$> List.filter (purged sk) q.

(** The sockets after an entry and its buffer ([m] are the buffers) have given
    up their references. *)
Definition unref (m : gmap loc sk_buff) (ks : gmap loc sock) (e : delay_entry) : gmap loc sock :=
  put_sock (de_sk e) (put_sock (m !! de_skb e ≫= skb_ref) ks).

Lemma unref_ext m m' ks l :
  (∀ e, e ∈ l → m' !! de_skb e = m !! de_skb e) → foldl (unref m') ks l = foldl (unref m) ks l.
Proof.
  revert ks. induction l as [|e l IH]; intros ks H; [done|]. simpl. unfold unref at 2 4.
  rewrite (H e) by left. apply IH. intros d Hd. apply H. by right.
Qed.

Lemma purge_loop_run sk q before s :
  dq_ok (set_lock false s) → delay_queue s = before ++ q →
  ∃ s', purge_loop sk before q s = Done (tt, s') ∧ dq_ok (set_lock false s') ∧
    queue_lock s' = queue_lock s ∧ peer_pid s' = peer_pid s ∧
    delay_queue s' = before ++ List.filter (λ e, negb (purged sk e)) q ∧
    (∀ b, skbs s' !! b = if decide (b ∈ victims sk q) then None else skbs s !! b) ∧
    socks s' = foldl (unref (skbs s)) (socks s) (List.filter (purged sk) q) ∧
    u32 (queue_dropped s') = u32 (queue_dropped s + Z.of_nat (length (victims sk q))).
Proof.
  revert before s. induction q as [|e q IH]; intros before s Hok Hq.
  - exists s. simpl. split_and!; [done..|]. f_equal. lia.
  - simpl. fold (purged sk e). unfold victims. simpl. destruct (purged sk e) eqn:Hp; simpl.
    + destruct (entry_sock_live (set_lock false s) before e q Hok Hq) as (x & Hx & _ & Hl & Hlr & Hl2).
      set (s1 := set_total (λ n, n - 1) (set_queue (λ _, before ++ q) s)).
      set (s2 := set_dropped (λ n, n + 1) (set_socks (put_sock (de_sk e)) (free_buf (de_skb e) x s1))).
      destruct (IH before s2) as (s' & Hrun & Hok' & Hlk & Hpe & Hq' & Hb' & Hs' & Hd); [|done|].
      { by eapply (without_ok (set_lock false s) (set_lock false s2) _ _ _ _ true). }
      exists s'. split_and!; [|done|done|done|done| | |].
      * do 2 (erewrite bind_done; [|done]). fold s1. erewrite bind_done; [|by eapply kfree_skb_run].
        erewrite bind_done; [|by apply delay_entry_free_run]. erewrite bind_done; [|done]. exact Hrun.
      * intros b. rewrite Hb'. simpl. fold (victims sk q). destruct (decide (b ∈ victims sk q)) as [H|H].
        -- rewrite decide_True by (by right). done.
        -- destruct (decide (b = de_skb e)) as [->|Hne].
           ++ rewrite decide_True by (by left). apply lookup_delete_eq.
           ++ rewrite decide_False by (rewrite elem_of_cons; tauto). by rewrite lookup_delete_ne.
      * rewrite Hs'. rewrite (unref_ext (skbs s)).
        -- f_equal. unfold unref. change (skbs s !! de_skb e = Some x) in Hx. by rewrite Hx.
        -- intros d [Hd' _]%list_elem_of_In%filter_In. simpl. apply lookup_delete_ne. intros Heq.
           pose proof (dq_nodup _ Hok) as Hnd. simpl in Hnd. rewrite Hq, fmap_app, fmap_cons in Hnd.
           apply NoDup_app in Hnd as (_ & _ & [Hni _]%NoDup_cons). apply Hni. rewrite Heq.
           apply list_elem_of_fmap. exists d. split; [done|]. by apply list_elem_of_In.
      * change (u32 (queue_dropped s') = u32 (queue_dropped s + Z.of_nat (S (length (victims sk q))))).
        rewrite Hd. simpl. rewrite wrap_add_l. f_equal. lia.
    + destruct (IH (before ++ [e]) s) as (s' & Hrun & Hok' & Hl & Hpe & Hq' & Hb' & Hs' & Hd);
        [done|by rewrite <-app_assoc|].
      exists s'. split_and!; [exact Hrun|done|done|done| |done|done|done]. by rewrite Hq', <-app_assoc.
Qed.

(** C17: [delay_queue_purge_sock] takes the packets of the socket (all packets
    for [NULL]) out of the queue and no others, frees each of their buffers
    once and counts them as dropped; the sockets lose exactly one reference for
    each of these entries and one for each of their buffers that had one, and
    those without any left are freed.  It never touches a buffer or a socket
    that is already gone, and releases the lock. *)
Theorem delay_queue_purge_sock_correct s sk :
  dq_ok s →
  ∃ s', delay_queue_purge_sock sk s = Done (tt, s') ∧ dq_ok s' ∧
    delay_queue s' = List.filter (λ e, negb (purged sk e)) (delay_queue s) ∧
    (∀ b, skbs s' !! b = if decide (b ∈ victims sk (delay_queue s)) then None else skbs s !! b) ∧
    socks s' = foldl (unref (skbs s)) (socks s) (List.filter (purged sk) (delay_queue s)) ∧
    u32 (queue_dropped s') = u32 (queue_dropped s + Z.of_nat (length (victims sk (delay_queue s)))).
Proof.
  intros Hok. pose proof (dq_free s Hok) as Hlk. unfold delay_queue_purge_sock.
  rewrite (bind_done _ _ _ tt (set_lock true s)) by (unfold spin_lock_bh; by rewrite Hlk).
  assert (Hs : set_lock false (set_lock true s) = s) by (destruct s; simpl in Hlk; by subst).
  destruct (purge_loop_run sk (delay_queue s) [] (set_lock true s)) as (s' & Hrun & Hok' & _ & _ & Hq & Hb & Hsk & Hd);
    [by rewrite Hs|done|].
  exists (set_lock false s'). split_and!; [|done|done|done|done|done].
  unfold delay_queue_purge_sock_nolock. rewrite (bind_done _ _ _ tt s'); [done|].
  by rewrite (bind_done _ _ _ (delay_queue s) (set_lock true s)).
Qed.

(** ** Concrete queues *)

(** Buffer 1 belongs to socket 9 and has a reference to it; buffer 2 came from
    the network. *)
Definition demo_skbs : gmap loc sk_buff := {[1%nat := Skb (Some 9%nat) true; 2%nat := Skb None false]}.
Definition demo_start : dq := dq_start demo_skbs {[9%nat := Sock 1 false]}.

(** The references that the two buffers need. *)
Lemma demo_owned k : owned k demo_skbs = if decide (k = 9%nat) then 1%nat else 0%nat.
Proof.
  unfold demo_skbs. rewrite owned_insert by done. rewrite <-insert_empty, owned_insert by done.
  unfold owned. rewrite map_fold_empty. simpl.
  destruct (decide (k = 9%nat)) as [->|Hne]; [done|]. rewrite !decide_False by (cbn; congruence). done.
Qed.

Lemma demo_start_ok : dq_ok demo_start.
Proof.
  split; cbn [demo_start dq_start delay_queue queue_total queue_maxlen skbs socks queue_lock];
    [done|unfold DELAY_QUEUE_MAX_DEFAULT; lia|constructor|set_solver| |done].
  intros k. unfold need, holds. cbn [demo_start dq_start delay_queue skbs filter list_filter length].
  rewrite demo_owned. destruct (decide (k = 9%nat)) as [->|]; [|simpl; lia]. intros _.
  exists (Sock 1 false). split; [reflexivity|]. simpl. lia.
Qed.

Lemma delay_queue_skb_correct_witness :
  ∃ s', delay_queue_skb true 0 (Some 1%nat) 77 demo_start = Done (0, s') ∧ dq_ok s' ∧
    delay_queue s' = [DelayEntry 0 1 (Some 9%nat)].
Proof.
  destruct (delay_queue_skb_correct demo_start true 0 1 (Skb (Some 9%nat) true) 77 demo_start_ok) as [H1 H2].
  - reflexivity.
  - simpl. set_solver.
  - intros k [= <-]. exists (Sock 1 false). split; [reflexivity|]. simpl. lia.
  - eexists. split_and!; [exact H1|exact H2|reflexivity].
Defined.

(** Both packets queued. *)
Definition demo_queued : dq :=
  DQ [DelayEntry 0 1 (Some 9%nat); DelayEntry 1 2 None] 5 2 2 0 DELAY_QUEUE_MAX_DEFAULT false
    demo_skbs {[9%nat := Sock 2 false]} [].

Lemma demo_queued_ok : dq_ok demo_queued.
Proof.
  split; cbn [demo_queued delay_queue queue_total queue_maxlen skbs socks queue_lock]; [done| | | | |done].
  - unfold DELAY_QUEUE_MAX_DEFAULT. lia.
  - apply (bool_decide_unpack _). by vm_compute.
  - intros e [->|[->|[]%elem_of_nil]%elem_of_cons]%elem_of_cons; reflexivity.
  - intros k. unfold need. cbn [demo_queued delay_queue skbs]. rewrite !holds_cons, demo_owned. unfold holds. simpl.
    destruct (decide (k = 9%nat)) as [->|Hne].
    + intros _. exists (Sock 2 false). split; [reflexivity|]. by vm_compute.
    + rewrite !decide_False by congruence. simpl. lia.
Qed.


Lemma delay_queue_purge_sock_correct_witness :
  ∃ s', delay_queue_purge_sock (Some 9%nat) demo_queued = Done (tt, s') ∧ dq_ok s' ∧
    delay_queue s' = [DelayEntry 1 2 None] ∧ socks s' = ∅.
Proof.
  destruct (delay_queue_purge_sock_correct demo_queued (Some 9%nat) demo_queued_ok) as (s' & H1 & H2 & H3 & _ & H4 & _).
  exists s'. split_and!; [exact H1|exact H2|exact H3|]. rewrite H4. reflexivity.
Defined.
