(* ===== verification/TcpCong.v ===== *)
(** * TCP congestion control ([src/stack/serval_tcp_cong.c])

    The Reno algorithm with appropriate byte counting (RFC 3465) and limited
    slow start (RFC 3742), on the fields of [struct serval_tcp_sock] it uses.
    The [sysctl] variables are arguments. *)
From S2P Require Import Prelude.

Local Open Scope Z_scope.

Record serval_tcp_sock := TcpSock {
  mss_cache : Z;
  reordering : Z;
  snd_ssthresh : Z;
  snd_cwnd : Z;
  snd_cwnd_cnt : Z;
  snd_cwnd_clamp : Z;
  bytes_acked : Z
}.

(** [sysctl_serval_tcp_abc], [.._max_ssthresh] and [.._tso_win_divisor]. *)
Record sysctls := Sysctls { abc : Z; max_ssthresh : Z; tso_win_divisor : Z }.

Definition set_cwnd (c n : Z) (tp : serval_tcp_sock) : serval_tcp_sock :=
  TcpSock (mss_cache tp) (reordering tp) (snd_ssthresh tp) c n (snd_cwnd_clamp tp) (bytes_acked tp).
Definition set_bytes_acked (b : Z) (tp : serval_tcp_sock) : serval_tcp_sock :=
  TcpSock (mss_cache tp) (reordering tp) (snd_ssthresh tp) (snd_cwnd tp) (snd_cwnd_cnt tp)
    (snd_cwnd_clamp tp) b.

Definition serval_tcp_max_burst (tp : serval_tcp_sock) : Z := reordering tp.

(** User-level sockets have no segmentation offload. *)
Definition sk_can_gso : bool := false.

Definition serval_tcp_is_cwnd_limited (sc : sysctls) (gso_max : Z) (tp : serval_tcp_sock) (in_flight : Z)
  : bool :=
  if snd_cwnd tp <=? in_flight then true
  else
    let left := u32 (snd_cwnd tp - in_flight) in
    if sk_can_gso && (u32 (left * tso_win_divisor sc) <? snd_cwnd tp) && (u32 (left * mss_cache tp) <? gso_max)
    then true
    else left <=? serval_tcp_max_burst tp.

(** The loop of [serval_tcp_slow_start]; [fuel] bounds the turns. *)
Fixpoint slow_start_loop (fuel : nat) (tp : serval_tcp_sock) : res serval_tcp_sock :=
  if snd_cwnd tp <=? snd_cwnd_cnt tp then
    match fuel with
    | O => OutOfFuel
    | S fuel =>
        let c := snd_cwnd tp in
        slow_start_loop fuel (set_cwnd (if c <? snd_cwnd_clamp tp then u32 (c + 1) else c)
          (u32 (snd_cwnd_cnt tp - c)) tp)
    end
  else Done tp.

(** The increase in packets, an [int]. *)
Definition slow_start_cnt (sc : sysctls) (tp : serval_tcp_sock) : Z :=
  let cnt := if (0 <? max_ssthresh sc) && (max_ssthresh sc <? snd_cwnd tp)
             then Z.shiftr (max_ssthresh sc) 1 else s32 (snd_cwnd tp) in
  if (1 <? abc sc) && (u32 (2 * mss_cache tp) <=? bytes_acked tp) then s32 (Z.shiftl cnt 1) else cnt.

Definition serval_tcp_slow_start (sc : sysctls) (tp : serval_tcp_sock) : res serval_tcp_sock :=
  if negb (abc sc =? 0) && (bytes_acked tp <? mss_cache tp) then Done tp
  else
    let n := u32 (snd_cwnd_cnt tp + slow_start_cnt sc tp) in
    slow_start_loop (S (Z.to_nat n)) (set_bytes_acked 0 (set_cwnd (snd_cwnd tp) n tp)).

Definition serval_tcp_cong_avoid_ai (tp : serval_tcp_sock) (w : Z) : serval_tcp_sock :=
  if w <=? snd_cwnd_cnt tp then
    set_cwnd (if snd_cwnd tp <? snd_cwnd_clamp tp then u32 (snd_cwnd tp + 1) else snd_cwnd tp) 0 tp
  else set_cwnd (snd_cwnd tp) (u32 (snd_cwnd_cnt tp + 1)) tp.

Definition serval_tcp_reno_cong_avoid (sc : sysctls) (gso_max : Z) (tp : serval_tcp_sock) (in_flight : Z)
  : res serval_tcp_sock :=
  if negb (serval_tcp_is_cwnd_limited sc gso_max tp in_flight) then Done tp
  else if snd_cwnd tp <=? snd_ssthresh tp then serval_tcp_slow_start sc tp
  else if negb (abc sc =? 0) then
    let window := u32 (snd_cwnd tp * mss_cache tp) in
    if window <=? bytes_acked tp then
      let tp := set_bytes_acked (u32 (bytes_acked tp - window)) tp in
      Done (if snd_cwnd tp <? snd_cwnd_clamp tp then set_cwnd (u32 (snd_cwnd tp + 1)) (snd_cwnd_cnt tp) tp else tp)
    else Done tp
  else Done (serval_tcp_cong_avoid_ai tp (snd_cwnd tp)).

Definition serval_tcp_reno_ssthresh (tp : serval_tcp_sock) : Z := Z.max (Z.shiftr (snd_cwnd tp) 1) 2.
Definition serval_tcp_reno_min_cwnd (tp : serval_tcp_sock) : Z := Z.quot (snd_ssthresh tp) 2.

(** ** Slow start *)

(** The window is open and not beyond the clamp, and the fields are in the
    range of their type.  [serval_tcp_init_sock] sets the clamp to [~0]. *)
Record tcp_ok (tp : serval_tcp_sock) : Prop := {
  ok_cwnd : 0 < snd_cwnd tp <= snd_cwnd_clamp tp;
  ok_clamp : snd_cwnd_clamp tp < 2 ^ 32;
  ok_cnt : 0 <= snd_cwnd_cnt tp < 2 ^ 32
}.

(** Everything but the window, its counter and the byte counter is the
    same. *)
Definition same_conn (tp tp' : serval_tcp_sock) : Prop :=
  mss_cache tp' = mss_cache tp ∧ reordering tp' = reordering tp ∧
  snd_ssthresh tp' = snd_ssthresh tp ∧ snd_cwnd_clamp tp' = snd_cwnd_clamp tp.

Lemma slow_start_loop_spec fuel tp :
  0 < snd_cwnd tp <= snd_cwnd_clamp tp → snd_cwnd_clamp tp < 2 ^ 32 → 0 <= snd_cwnd_cnt tp < 2 ^ 32 →
  snd_cwnd_cnt tp < Z.of_nat fuel →
  ∃ tp', slow_start_loop fuel tp = Done tp' ∧ same_conn tp tp' ∧ bytes_acked tp' = bytes_acked tp ∧
    snd_cwnd tp <= snd_cwnd tp' <= snd_cwnd_clamp tp ∧ 0 <= snd_cwnd_cnt tp' < snd_cwnd tp' ∧
    2 * (snd_cwnd tp' - snd_cwnd tp) * snd_cwnd tp +
      (snd_cwnd tp' - snd_cwnd tp) * (snd_cwnd tp' - snd_cwnd tp - 1) <= 2 * snd_cwnd_cnt tp.
Proof.
  revert tp. induction fuel as [|fuel IH]; intros tp Hc Hm Hn Hf; [lia|]. simpl.
  destruct (Z.leb_spec (snd_cwnd tp) (snd_cwnd_cnt tp)).
  - set (c' := if snd_cwnd tp <? snd_cwnd_clamp tp then u32 (snd_cwnd tp + 1) else snd_cwnd tp).
    assert (Hc' : snd_cwnd tp <= c' <= snd_cwnd tp + 1 ∧ c' <= snd_cwnd_clamp tp).
    { unfold c'. destruct (Z.ltb_spec (snd_cwnd tp) (snd_cwnd_clamp tp)); [rewrite wrap_small by lia|]; lia. }
    rewrite (wrap_small 32 (snd_cwnd_cnt tp - snd_cwnd tp)) by lia.
    destruct (IH (set_cwnd c' (snd_cwnd_cnt tp - snd_cwnd tp) tp)) as (tp' & Hrun & Hs & Hb & H1 & H2 & H3);
      simpl in *; [lia..|].
    exists tp'. split_and!; [done|apply Hs..|done|lia|lia|lia|lia|]. nia.
  - exists tp. unfold same_conn. rewrite Z.sub_diag. split_and!; auto; lia.
Qed.

Lemma wrap_swrap_r x y : u32 (x + s32 y) = u32 (x + y).
Proof.
  unfold wrap, swrap. change (32 - 1) with 31. replace (x + ((y + 2 ^ 31) mod 2 ^ 32 - 2 ^ 31))
    with ((x - 2 ^ 31) + (y + 2 ^ 31) mod 2 ^ 32) by lia.
  rewrite Zplus_mod_idemp_r. f_equal. lia.
Qed.

(** The counter after the increase.  A window of more than [2^31] packets is a
    negative [int], but the sum wraps around to the right value. *)
Lemma slow_start_cnt_bound sc tp :
  tcp_ok tp → max_ssthresh sc < 2 ^ 31 →
  0 <= u32 (snd_cwnd_cnt tp + slow_start_cnt sc tp)
    <= snd_cwnd_cnt tp + (if abc sc <=? 1 then 1 else 2) * snd_cwnd tp.
Proof.
  intros [H1 H2 H3] Hm. split; [by apply wrap_range|]. unfold slow_start_cnt.
  set (lim := (0 <? max_ssthresh sc) && (max_ssthresh sc <? snd_cwnd tp)).
  assert (∃ c, 0 <= c <= snd_cwnd tp ∧ ∀ x, u32 (x + (if lim then Z.shiftr (max_ssthresh sc) 1 else s32 (snd_cwnd tp)))
    = u32 (x + c) ∧ u32 (x + s32 (Z.shiftl (if lim then Z.shiftr (max_ssthresh sc) 1 else s32 (snd_cwnd tp)) 1))
    = u32 (x + 2 * c)) as (c & Hc & Hx).
  { destruct lim eqn:Hl; unfold lim in Hl.
    - apply andb_true_iff in Hl as [Hl1%Z.ltb_lt Hl2%Z.ltb_lt]. exists (Z.shiftr (max_ssthresh sc) 1). split.
      + rewrite Z.shiftr_div_pow2 by lia. change (2 ^ 1) with 2.
        split; [apply Z.div_pos; lia|apply Z.div_le_upper_bound; lia].
      + intros x. split; [done|]. rewrite wrap_swrap_r, Z.shiftl_mul_pow2 by lia. f_equal. lia.
    - exists (snd_cwnd tp). split; [lia|]. intros x. rewrite !wrap_swrap_r. split; [done|].
      rewrite Z.shiftl_mul_pow2 by lia. change (2 ^ 1) with 2.
      replace (x + s32 (snd_cwnd tp) * 2) with (x + s32 (snd_cwnd tp) + s32 (snd_cwnd tp)) by lia.
      rewrite wrap_swrap_r. replace (x + s32 (snd_cwnd tp) + snd_cwnd tp) with (x + snd_cwnd tp + s32 (snd_cwnd tp)) by lia.
      rewrite wrap_swrap_r. f_equal. lia. }
  destruct (Hx (snd_cwnd_cnt tp)) as [Hx1 Hx2].
  assert (∀ y, 0 <= y → u32 (snd_cwnd_cnt tp + y) <= snd_cwnd_cnt tp + y) as Hle by (intros y Hy; apply wrap_le; lia).
  destruct (Z.ltb_spec 1 (abc sc)), (Z.leb_spec (abc sc) 1); cbn [andb]; try lia.
  - destruct (u32 (2 * mss_cache tp) <=? bytes_acked tp); rewrite ?Hx1, ?Hx2; etrans; [apply Hle; lia|lia|apply Hle; lia|lia].
  - rewrite Hx1. etrans; [apply Hle; lia|lia].
Qed.

(** Slow start ends and keeps the connection in order.  Unless the counter is
    beyond the window, it opens the window by at most one packet per
    acknowledgement, by two with byte counting. *)
Lemma slow_start_spec sc tp :
  tcp_ok tp → max_ssthresh sc < 2 ^ 31 →
  ∃ tp', serval_tcp_slow_start sc tp = Done tp' ∧ tcp_ok tp' ∧ same_conn tp tp' ∧
    snd_cwnd tp <= snd_cwnd tp' ∧
    (snd_cwnd_cnt tp <= snd_cwnd tp → snd_cwnd_cnt tp' <= snd_cwnd tp' ∧
     snd_cwnd tp' <= snd_cwnd tp + (if abc sc <=? 1 then 1 else 2)).
Proof.
  intros Hok Hm. pose proof (slow_start_cnt_bound sc tp Hok Hm) as Hb. pose proof Hok as [H1 H2 H3].
  unfold serval_tcp_slow_start. destruct (negb (abc sc =? 0) && (bytes_acked tp <? mss_cache tp)).
  { exists tp. split_and!; [done..|lia|]. intros ?. split; [done|]. destruct (abc sc <=? 1); lia. }
  set (n := u32 _) in *. pose proof (wrap_range 32 (snd_cwnd_cnt tp + slow_start_cnt sc tp) ltac:(lia)) as Hn.
  fold n in Hn.
  destruct (slow_start_loop_spec (S (Z.to_nat n)) (set_bytes_acked 0 (set_cwnd (snd_cwnd tp) n tp)))
    as (tp' & Hrun & Hs & _ & Hc & Hn' & Hg); cbn [snd_cwnd snd_cwnd_clamp snd_cwnd_cnt set_bytes_acked set_cwnd] in *;
    [lia..|].
  exists tp'. pose proof Hs as (_ & _ & _ & Hcl). simpl in Hcl.
  split_and!; [done|split; lia|apply Hs..|lia|]. intros Hle. split; [lia|].
  destruct (abc sc <=? 1); nia.
Qed.

(** With the plain settings, an acknowledgement in slow start opens the
    window by exactly one packet, up to the clamp. *)
Lemma slow_start_plain tp :
  tcp_ok tp → snd_cwnd_cnt tp < snd_cwnd tp < snd_cwnd_clamp tp → snd_cwnd tp < 2 ^ 31 →
  serval_tcp_slow_start (Sysctls 0 0 3) tp =
    Done (set_bytes_acked 0 (set_cwnd (snd_cwnd tp + 1) (snd_cwnd_cnt tp) tp)).
Proof.
  intros [H1 H2 H3] H4 H5. unfold serval_tcp_slow_start, slow_start_cnt. simpl.
  rewrite wrap_swrap_r, wrap_small by lia.
  destruct (Z.leb_spec (snd_cwnd tp) (snd_cwnd_cnt tp + snd_cwnd tp)); [|lia].
  destruct (Z.ltb_spec (snd_cwnd tp) (snd_cwnd_clamp tp)); [|lia].
  rewrite !wrap_small by lia. replace (snd_cwnd_cnt tp + snd_cwnd tp - snd_cwnd tp) with (snd_cwnd_cnt tp) by lia.
  destruct (Z.to_nat (snd_cwnd_cnt tp + snd_cwnd tp)) eqn:Hn; [lia|]. simpl.
  by destruct (Z.leb_spec (snd_cwnd tp + 1) (snd_cwnd_cnt tp)); [lia|].
Qed.

(** ** Congestion avoidance *)

(** With a window of [w] packets, [w] acknowledgements only count; the next
    one opens the window by one packet. *)
Lemma cong_avoid_ai_count tp w n :
  snd_cwnd_cnt tp = 0 → 0 <= w < 2 ^ 32 → (n <= Z.to_nat w)%nat →
  Nat.iter n (λ tp, serval_tcp_cong_avoid_ai tp w) tp = set_cwnd (snd_cwnd tp) (Z.of_nat n) tp.
Proof.
  intros H0 Hw. induction n as [|n IH]; intros Hn; [by destruct tp; simpl in *; subst|].
  simpl. rewrite IH by lia. unfold serval_tcp_cong_avoid_ai. simpl.
  destruct (Z.leb_spec w (Z.of_nat n)); [lia|]. rewrite wrap_small by lia. unfold set_cwnd. simpl. f_equal. lia.
Qed.

Lemma cong_avoid_ai_round tp :
  tcp_ok tp → snd_cwnd_cnt tp = 0 → snd_cwnd tp < snd_cwnd_clamp tp →
  Nat.iter (S (Z.to_nat (snd_cwnd tp))) (λ tp', serval_tcp_cong_avoid_ai tp' (snd_cwnd tp)) tp
    = set_cwnd (snd_cwnd tp + 1) 0 tp.
Proof.
  intros [H1 H2 H3] H0 Hc. simpl. rewrite cong_avoid_ai_count by lia.
  unfold serval_tcp_cong_avoid_ai. simpl. rewrite Z2Nat.id by lia.
  destruct (Z.leb_spec (snd_cwnd tp) (snd_cwnd tp)); [|lia].
  destruct (Z.ltb_spec (snd_cwnd tp) (snd_cwnd_clamp tp)); [|lia]. by rewrite wrap_small by lia.
Qed.

(** C31: with an open window that is not beyond the clamp, whatever the clamp
    and the counter, an acknowledgement always finds an end in
    [serval_tcp_reno_cong_avoid] and keeps the connection in order: the window
    never shrinks and never passes the clamp, and it does not change at all
    when the sender is not limited by it.  When the counter is not beyond the
    window, that stays so, and the window grows by at most one packet (by two
    in slow start with aggressive byte counting). *)
Theorem serval_tcp_reno_cong_avoid_correct sc gso_max tp in_flight :
  tcp_ok tp → max_ssthresh sc < 2 ^ 31 →
  ∃ tp', serval_tcp_reno_cong_avoid sc gso_max tp in_flight = Done tp' ∧ tcp_ok tp' ∧ same_conn tp tp' ∧
    snd_cwnd tp <= snd_cwnd tp' ∧
    (snd_cwnd_cnt tp <= snd_cwnd tp → snd_cwnd_cnt tp' <= snd_cwnd tp' ∧
     snd_cwnd tp' <= snd_cwnd tp + (if (1 <? abc sc) && (snd_cwnd tp <=? snd_ssthresh tp) then 2 else 1)) ∧
    (serval_tcp_is_cwnd_limited sc gso_max tp in_flight = false → tp' = tp).
Proof.
  intros Hok Hm. pose proof Hok as [H1 H2 H3]. unfold serval_tcp_reno_cong_avoid.
  destruct (serval_tcp_is_cwnd_limited sc gso_max tp in_flight); simpl.
  2: { exists tp. split_and!; [done..|lia| |done]. intros ?. split; [done|]. case_match; lia. }
  destruct (Z.leb_spec (snd_cwnd tp) (snd_ssthresh tp)).
  { destruct (slow_start_spec sc tp Hok Hm) as (tp' & ? & ? & Hsame & ? & Hg). exists tp'.
    split_and!; [done|done|exact Hsame|done| |done]. rewrite andb_true_r. intros Hle.
    destruct (Hg Hle) as [? Hg']. split; [done|]. destruct (Z.leb_spec (abc sc) 1), (Z.ltb_spec 1 (abc sc)); lia. }
  rewrite andb_false_r. destruct (negb (abc sc =? 0)).
  - destruct (u32 (snd_cwnd tp * mss_cache tp) <=? bytes_acked tp); simpl.
    + destruct (Z.ltb_spec (snd_cwnd tp) (snd_cwnd_clamp tp)); eexists; (split; [reflexivity|]);
        rewrite ?wrap_small by lia; split_and!; simpl; try done; try lia; split; simpl; rewrite ?wrap_small; lia.
    + exists tp. split_and!; [done..|lia|lia|done].
  - eexists. split; [reflexivity|]. unfold serval_tcp_cong_avoid_ai.
    destruct (Z.leb_spec (snd_cwnd tp) (snd_cwnd_cnt tp)), (Z.ltb_spec (snd_cwnd tp) (snd_cwnd_clamp tp));
      simpl; split_and!; try done; try (split; simpl); rewrite ?wrap_small; lia.
Qed.

(** A connection as [serval_tcp_init_sock] leaves it, with data acknowledged:
    a window of two packets, in slow start, without a clamp. *)
Definition demo_conn : serval_tcp_sock := TcpSock 1400 3 2147483647 2 0 4294967295 2800.

Lemma demo_conn_ok : tcp_ok demo_conn.
Proof. split; simpl; lia. Qed.

Lemma serval_tcp_reno_cong_avoid_correct_witness :
  ∃ tp', serval_tcp_reno_cong_avoid (Sysctls 2 0 3) 0 demo_conn 2 = Done tp' ∧ tcp_ok tp' ∧
    2 <= snd_cwnd tp' <= 4.
Proof.
  destruct (serval_tcp_reno_cong_avoid_correct (Sysctls 2 0 3) 0 demo_conn 2 demo_conn_ok)
    as (tp' & H1 & H2 & _ & H3 & H4 & _); [reflexivity|]. destruct H4 as [_ H4]; [by vm_compute|].
  exists tp'. split_and!; [exact H1|exact H2|exact H3|exact H4].
Defined.

(** Without an open window and with a clamp of zero the loop never ends. *)
Lemma slow_start_loop_diverges fuel tp :
  snd_cwnd tp = 0 → snd_cwnd_clamp tp = 0 → 0 <= snd_cwnd_cnt tp < 2 ^ 32 →
  slow_start_loop fuel tp = OutOfFuel.
Proof.
  revert tp. induction fuel as [|fuel IH]; intros tp H1 H2 H3; simpl;
    destruct (Z.leb_spec (snd_cwnd tp) (snd_cwnd_cnt tp)); try lia; [done|].
  destruct (Z.ltb_spec (snd_cwnd tp) (snd_cwnd_clamp tp)); [lia|].
  apply IH; simpl; [done|done|]. rewrite wrap_small by lia. lia.
Qed.
